(** * WasmGenerator: a shallow embedding of [js/src/wasm/WasmGenerator.cpp]

    The module generator appends the machine code of compilation tasks to
    one master buffer, rebases the offsets of their side tables, patches
    calls (through far-jump islands when needed) and builds the export
    table.  Unsigned 32-bit integers are integers of [Z] whose wrap-around
    is written out with [wrap32]. *)

From Stdlib Require Import ZArith Lia String.
From stdpp Require Import sorting.
From stdpp Require Import gmap list functions.

Local Open Scope Z_scope.

(** ** Machine integers *)

Definition UINT32_MAX : Z := 4294967295.

Definition wrap32 (z : Z) : Z := z mod 4294967296.

Definition is_u32 (z : Z) : Prop := 0 ≤ z ≤ UINT32_MAX.

(** [static const uint32_t BAD_CODE_RANGE = UINT32_MAX;] *)
Definition BAD_CODE_RANGE : Z := UINT32_MAX.

(** ** Options and constants of the target

    [JitOptions] holds the three run-time options the generator reads.
    The constants of the instruction set and what the assembler emits are
    declared outside the generator; they are taken as a record of
    parameters. *)

Record JitOptionsT := {
  jumpThreshold : Z;
  wasmBatchBaselineThreshold : Z;
  wasmBatchIonThreshold : Z
}.

Record Platform := {
  CodeAlignment : Z;        (* alignment of every appended piece of code *)
  JumpImmediateRange : Z;   (* reach of a direct relative branch *)
  FarJumpSize : Z;          (* bytes emitted by [farJumpWithPatch] *)
  FarJumpPatchAt : Z;       (* where in those bytes the patch point lies *)
  TlsReloadSize : Z;        (* bytes emitted by the [loadPtr] of the TLS reload *)
  MaxCodeBytes : Z;         (* capacity of the assembler's buffer *)
  MaxModuleBytes : Z        (* largest module, in bytes of bytecode *)
}.

(** ** Checked arithmetic: [mozilla::CheckedInt<uint32_t>] *)

Record CheckedInt := { value : Z; isValid : bool }.

Definition CheckedInt_of (v : Z) : CheckedInt := {| value := v; isValid := true |}.

Definition CheckedInt_add (c : CheckedInt) (x : Z) : CheckedInt :=
  {| value := wrap32 (value c + x);
     isValid := isValid c && (value c + x <=? UINT32_MAX) |}.

(** Modelled from the spec: [ComputeByteAlignment], declared outside the
    generator; the bytes to add to [bytes] to round it up to a multiple of
    [alignment]. *)
Definition ComputeByteAlignment (bytes alignment : Z) : Z :=
  (alignment - bytes mod alignment) mod alignment.

(** The spec's words for "rounded up to align". *)
Definition rounded_up (n align : Z) : Z := ((n + align - 1) / align) * align.

Record Metadata := { globalDataLength : Z }.

(** [ModuleGenerator::allocateGlobalBytes].  The out-parameter
    [*globalDataOffset] is passed in with its previous content and returned
    with its content at the return. *)
Definition allocateGlobalBytes (bytes align : Z) (metadata_ : Metadata)
    (globalDataOffset : Z) : bool * Metadata * Z :=
  let newGlobalDataLength := CheckedInt_of (globalDataLength metadata_) in
  let newGlobalDataLength :=
    CheckedInt_add newGlobalDataLength
      (ComputeByteAlignment (value newGlobalDataLength) align) in
  if negb (isValid newGlobalDataLength) then (false, metadata_, globalDataOffset)
  else
    let globalDataOffset := value newGlobalDataLength in
    let newGlobalDataLength := CheckedInt_add newGlobalDataLength bytes in
    if negb (isValid newGlobalDataLength) then (false, metadata_, globalDataOffset)
    else (true, {| globalDataLength := value newGlobalDataLength |}, globalDataOffset).

(** ** Globals: [ModuleGenerator::allocateGlobal] and the loop of [initWasm] *)

Module GlobalDesc.
(** The value types of the [switch] of [allocateGlobal]. *)
Inductive ValType :=
| I32 | F32 | I64 | F64
| I8x16 | I16x8 | I32x4 | F32x4 | B8x16 | B16x8 | B32x4.

(** Modelled from the spec: a global has a type, is a constant or not, and
    has an offset in the global data once it is allocated. *)
Record t := { type : ValType; isConstant : bool; offset : Z }.

Definition setOffset (o : Z) (global : t) : t :=
  {| type := type global; isConstant := isConstant global; offset := o |}.
End GlobalDesc.

(** The [switch] of [allocateGlobal]. *)
Definition globalWidth (type : GlobalDesc.ValType) : Z :=
  match type with
  | GlobalDesc.I32 | GlobalDesc.F32 => 4
  | GlobalDesc.I64 | GlobalDesc.F64 => 8
  | GlobalDesc.I8x16 | GlobalDesc.I16x8 | GlobalDesc.I32x4 | GlobalDesc.F32x4
  | GlobalDesc.B8x16 | GlobalDesc.B16x8 | GlobalDesc.B32x4 => 16
  end.

(** [offset] is not initialised; it is read only when
    [allocateGlobalBytes] has written it. *)
Definition allocateGlobal (global : GlobalDesc.t) (metadata_ : Metadata) :
    bool * Metadata * GlobalDesc.t :=
  let width := globalWidth (GlobalDesc.type global) in
  match allocateGlobalBytes width width metadata_ 0 with
  | (false, metadata_, _) => (false, metadata_, global)
  | (true, metadata_, offset) => (true, metadata_, GlobalDesc.setOffset offset global)
  end.

(** The loop of [initWasm] over [env_->globals]. *)
Fixpoint allocateGlobals (globals : list GlobalDesc.t) (metadata_ : Metadata) :
    bool * Metadata * list GlobalDesc.t :=
  match globals with
  | [] => (true, metadata_, [])
  | global :: rest =>
      if GlobalDesc.isConstant global then
        match allocateGlobals rest metadata_ with
        | (ok, metadata_, rest) => (ok, metadata_, global :: rest)
        end
      else
        match allocateGlobal global metadata_ with
        | (false, metadata_, global) => (false, metadata_, global :: rest)
        | (true, metadata_, global) =>
            match allocateGlobals rest metadata_ with
            | (ok, metadata_, rest) => (ok, metadata_, global :: rest)
            end
        end
  end.

(** The slots of the globals that are not constants: offset and width, in
    the order of the globals. *)
Definition globalSlots (globals : list GlobalDesc.t) : list (Z * Z) :=
  (fun global => (GlobalDesc.offset global, globalWidth (GlobalDesc.type global)))
    <$> filter (fun global => GlobalDesc.isConstant global = false) globals.

(** The slots lie one after the other from [from] on, each at a multiple of
    its width, and end at [to] at the latest. *)
Fixpoint slots_in_order (from to : Z) (slots : list (Z * Z)) : Prop :=
  match slots with
  | [] => from <= to
  | (offset, width) :: rest =>
      from <= offset /\ offset mod width = 0 /\ slots_in_order (offset + width) to rest
  end.

(** ** The state shared with the helper threads *)

(** A [UniqueChars] is an owned C string or null. *)
Definition UniqueChars := option string.

(** Tasks live in the vector [tasks_]; a [CompileTask*] is an index in it. *)
Definition CompileTaskPtr := nat.

Record CompileTaskState := {
  finished : list CompileTaskPtr;
  numFailed : Z;
  errorMessage : UniqueChars
}.


(** ** Records of the side tables

    The classes below are declared in the headers of the wasm directory
    ([WasmTypes.h], [WasmCode.h], [WasmModule.h]); the generator uses their
    fields through accessors and [offsetBy]. *)

(** [enum class Trap] and [enum class SymbolicAddress], by ordinal. *)
Abbreviation Trap := nat (only parsing).
Abbreviation SymbolicAddress := nat (only parsing).

Inductive Tier := Baseline | Ion.

Module CodeRange.
Inductive Kind :=
| Function | Entry | ImportJitExit | ImportInterpExit | TrapExit | DebugTrap
| OutOfBoundsExit | UnalignedExit | Interrupt | Throw | FarJumpIsland
| BuiltinThunk.

(** Modelled from the spec: [CodeRange{kind, begin, end, extra}], where
    [extra] carries a function index or a trap; the normal entry of a
    function lies [beginToNormalEntry] bytes after its [begin]. *)
Record t := {
  kind : Kind;
  begin : Z;
  end_ : Z;
  funcIndex : Z;
  trap : Trap;
  beginToNormalEntry : Z
}.

Definition offsetBy (cr : t) (offset : Z) : t :=
  {| kind := kind cr;
     begin := wrap32 (begin cr + offset);
     end_ := wrap32 (end_ cr + offset);
     funcIndex := funcIndex cr;
     trap := trap cr;
     beginToNormalEntry := beginToNormalEntry cr |}.

Definition isFunction (cr : t) : bool :=
  match kind cr with Function => true | _ => false end.

Definition funcNormalEntry (cr : t) : Z :=
  wrap32 (begin cr + beginToNormalEntry cr).

(** [CodeRange(FarJumpIsland, offsets)] *)
Definition island (b e : Z) : t :=
  {| kind := FarJumpIsland; begin := b; end_ := e;
     funcIndex := 0; trap := 0%nat; beginToNormalEntry := 0 |}.
End CodeRange.

Module CallSiteDesc.
Inductive Kind :=
| Func | Dynamic | Symbolic | TrapExit | Breakpoint | EnterFrame | LeaveFrame.
End CallSiteDesc.

Module CallSite.
(** Modelled from the spec: [CallSite{returnAddressOffset, kind}]. *)
Record t := { returnAddressOffset : Z; kind : CallSiteDesc.Kind }.

Definition offsetBy (cs : t) (delta : Z) : t :=
  {| returnAddressOffset := wrap32 (returnAddressOffset cs + delta);
     kind := kind cs |}.
End CallSite.

(** Modelled from the spec: a call-site target carries either a callee
    function index or a trap. *)
Inductive CallSiteTarget :=
| TargetNone
| TargetFunc (funcIndex : Z)
| TargetTrap (trap : Trap).

Module TrapFarJump.
Record t := { trap : Trap; jump : Z }.
Definition offsetBy (f : t) (delta : Z) : t :=
  {| trap := trap f; jump := wrap32 (jump f + delta) |}.
End TrapFarJump.

Module CallFarJump.
Record t := { funcIndex : Z; jump : Z }.
Definition offsetBy (f : t) (delta : Z) : t :=
  {| funcIndex := funcIndex f; jump := wrap32 (jump f + delta) |}.
End CallFarJump.

Module MemoryAccess.
(** Modelled from the spec: a record bearing the offset of the accessing
    instruction. *)
Record t := { insnOffset : Z }.
Definition offsetBy (ma : t) (delta : Z) : t :=
  {| insnOffset := wrap32 (insnOffset ma + delta) |}.
End MemoryAccess.

Module SymbolicAccess.
Record t := { patchAt : Z; target : SymbolicAddress }.
End SymbolicAccess.

Module CodeLabel.
Record t := { patchAt : Z; target : Z }.
End CodeLabel.

Module InternalLink.
Record t := { patchAtOffset : Z; targetOffset : Z }.
End InternalLink.

Inductive ValType := I32 | I64 | F32 | F64.

Record Sig := { sig_args : list ValType; sig_ret : option ValType }.

Module FuncImport.
Record t := {
  sig : Sig;
  globalDataOffset : Z;
  interpExitOffset : Z;
  jitExitOffset : Z
}.
Definition initInterpExitOffset (off : Z) (fi : t) : t :=
  {| sig := sig fi; globalDataOffset := globalDataOffset fi;
     interpExitOffset := off; jitExitOffset := jitExitOffset fi |}.
Definition initJitExitOffset (off : Z) (fi : t) : t :=
  {| sig := sig fi; globalDataOffset := globalDataOffset fi;
     interpExitOffset := interpExitOffset fi; jitExitOffset := off |}.
End FuncImport.

Module FuncExport.
Record t := {
  sig : Sig;
  funcIndex : Z;
  codeRangeIndex : Z;
  entryOffset : Z
}.
(** [FuncExport(Move(sig), funcIndex)] *)
Definition make (s : Sig) (f : Z) : t :=
  {| sig := s; funcIndex := f; codeRangeIndex := UINT32_MAX; entryOffset := 0 |}.
Definition initEntryOffset (off : Z) (fe : t) : t :=
  {| sig := sig fe; funcIndex := funcIndex fe;
     codeRangeIndex := codeRangeIndex fe; entryOffset := off |}.
End FuncExport.

(** The output of one compilation task (or of the stub generator). *)
Record CompiledCode := {
  bytes : list Byte.byte;
  codeRanges : list CodeRange.t;
  callSites : list CallSite.t;
  callSiteTargets : list CallSiteTarget;
  trapSites : list Z;
  trapFarJumps : list TrapFarJump.t;
  callFarJumps : list CallFarJump.t;
  memoryAccesses : list MemoryAccess.t;
  symbolicAccesses : list SymbolicAccess.t;
  codeLabels : list CodeLabel.t
}.

Definition CompiledCode_empty : CompiledCode :=
  {| bytes := []; codeRanges := []; callSites := []; callSiteTargets := [];
     trapSites := []; trapFarJumps := []; callFarJumps := [];
     memoryAccesses := []; symbolicAccesses := []; codeLabels := [] |}.

(** One function body handed to a task: [end - begin] is its length. *)
Record FuncCompileInput := {
  fi_index : Z;
  fi_lineOrBytecode : Z;
  fi_begin : Z;
  fi_end : Z
}.

Record CompileTask := {
  inputs : list FuncCompileInput;
  output : CompiledCode
}.

(** ** The environment of the module *)

Inductive DefinitionKind := DK_Function | DK_Table | DK_Memory | DK_Global.

Record Export := { exp_kind : DefinitionKind; exp_funcIndex : Z }.

Record TableDesc := { external : bool }.

Record ElemSegment := { tableIndex : Z; elemFuncIndices : list Z }.

Record ModuleEnvironment := {
  env_tier : Tier;
  env_exports : list Export;
  env_startFuncIndex : option Z;
  env_tables : list TableDesc;
  env_elemSegments : list ElemSegment;
  env_funcSigs : list Sig
}.

(** ** The assembler

    Modelled from the spec: the Assembler Facade.  The generator reads the
    size of the buffer, never its bytes, so the buffer is its size; the
    patches applied to it are kept as a log.  Emitting past the capacity
    of the buffer sets the sticky [oom] flag and emits nothing. *)

Module MacroAssembler.
Record t := {
  size : Z;   (* bytes emitted so far *)
  oom : bool;
  patchedCalls : list (Z * Z);   (* (caller, callee) of every patchCall *)
  patchedFarJumps : list (Z * Z)   (* (jump, target) of every patchFarJump *)
}.

Definition set_size (v : Z) (r : t) : t :=
  {| size := v; oom := oom r; patchedCalls := patchedCalls r;
     patchedFarJumps := patchedFarJumps r |}.
Definition set_oom (v : bool) (r : t) : t :=
  {| size := size r; oom := v; patchedCalls := patchedCalls r;
     patchedFarJumps := patchedFarJumps r |}.
Definition set_patchedCalls (v : list (Z * Z)) (r : t) : t :=
  {| size := size r; oom := oom r; patchedCalls := v;
     patchedFarJumps := patchedFarJumps r |}.
Definition set_patchedFarJumps (v : list (Z * Z)) (r : t) : t :=
  {| size := size r; oom := oom r; patchedCalls := patchedCalls r;
     patchedFarJumps := v |}.
End MacroAssembler.

Module MetadataTier.
Record t := {
  codeRanges : list CodeRange.t;
  callSites : list CallSite.t;
  memoryAccesses : list MemoryAccess.t;
  funcImports : list FuncImport.t;
  funcExports : list FuncExport.t;
  debugTrapFarJumpOffsets : list Z;
  debugFuncToCodeRange : list Z
}.

Definition set_codeRanges (v : list CodeRange.t) (r : t) : t :=
  {| codeRanges := v; callSites := callSites r;
     memoryAccesses := memoryAccesses r; funcImports := funcImports r;
     funcExports := funcExports r;
     debugTrapFarJumpOffsets := debugTrapFarJumpOffsets r;
     debugFuncToCodeRange := debugFuncToCodeRange r |}.
Definition set_callSites (v : list CallSite.t) (r : t) : t :=
  {| codeRanges := codeRanges r; callSites := v;
     memoryAccesses := memoryAccesses r; funcImports := funcImports r;
     funcExports := funcExports r;
     debugTrapFarJumpOffsets := debugTrapFarJumpOffsets r;
     debugFuncToCodeRange := debugFuncToCodeRange r |}.
Definition set_memoryAccesses (v : list MemoryAccess.t) (r : t) : t :=
  {| codeRanges := codeRanges r; callSites := callSites r;
     memoryAccesses := v; funcImports := funcImports r;
     funcExports := funcExports r;
     debugTrapFarJumpOffsets := debugTrapFarJumpOffsets r;
     debugFuncToCodeRange := debugFuncToCodeRange r |}.
Definition set_funcImports (v : list FuncImport.t) (r : t) : t :=
  {| codeRanges := codeRanges r; callSites := callSites r;
     memoryAccesses := memoryAccesses r; funcImports := v;
     funcExports := funcExports r;
     debugTrapFarJumpOffsets := debugTrapFarJumpOffsets r;
     debugFuncToCodeRange := debugFuncToCodeRange r |}.
Definition set_funcExports (v : list FuncExport.t) (r : t) : t :=
  {| codeRanges := codeRanges r; callSites := callSites r;
     memoryAccesses := memoryAccesses r; funcImports := funcImports r;
     funcExports := v;
     debugTrapFarJumpOffsets := debugTrapFarJumpOffsets r;
     debugFuncToCodeRange := debugFuncToCodeRange r |}.
Definition set_debugTrapFarJumpOffsets (v : list Z) (r : t) : t :=
  {| codeRanges := codeRanges r; callSites := callSites r;
     memoryAccesses := memoryAccesses r; funcImports := funcImports r;
     funcExports := funcExports r; debugTrapFarJumpOffsets := v;
     debugFuncToCodeRange := debugFuncToCodeRange r |}.
Definition set_debugFuncToCodeRange (v : list Z) (r : t) : t :=
  {| codeRanges := codeRanges r; callSites := callSites r;
     memoryAccesses := memoryAccesses r; funcImports := funcImports r;
     funcExports := funcExports r;
     debugTrapFarJumpOffsets := debugTrapFarJumpOffsets r;
     debugFuncToCodeRange := v |}.
End MetadataTier.

Module LinkDataTier.
Record t := {
  internalLinks : list InternalLink.t;
  symbolicLinks : SymbolicAddress -> list Z;
  outOfBoundsOffset : Z;
  unalignedAccessOffset : Z;
  interruptOffset : Z
}.

Definition set_internalLinks (v : list InternalLink.t) (r : t) : t :=
  {| internalLinks := v; symbolicLinks := symbolicLinks r;
     outOfBoundsOffset := outOfBoundsOffset r;
     unalignedAccessOffset := unalignedAccessOffset r;
     interruptOffset := interruptOffset r |}.
Definition set_symbolicLinks (v : SymbolicAddress -> list Z) (r : t) : t :=
  {| internalLinks := internalLinks r; symbolicLinks := v;
     outOfBoundsOffset := outOfBoundsOffset r;
     unalignedAccessOffset := unalignedAccessOffset r;
     interruptOffset := interruptOffset r |}.
Definition set_outOfBoundsOffset (v : Z) (r : t) : t :=
  {| internalLinks := internalLinks r; symbolicLinks := symbolicLinks r;
     outOfBoundsOffset := v;
     unalignedAccessOffset := unalignedAccessOffset r;
     interruptOffset := interruptOffset r |}.
Definition set_unalignedAccessOffset (v : Z) (r : t) : t :=
  {| internalLinks := internalLinks r; symbolicLinks := symbolicLinks r;
     outOfBoundsOffset := outOfBoundsOffset r; unalignedAccessOffset := v;
     interruptOffset := interruptOffset r |}.
Definition set_interruptOffset (v : Z) (r : t) : t :=
  {| internalLinks := internalLinks r; symbolicLinks := symbolicLinks r;
     outOfBoundsOffset := outOfBoundsOffset r;
     unalignedAccessOffset := unalignedAccessOffset r;
     interruptOffset := v |}.
End LinkDataTier.

(** The offsets that [noteCodeRange] must set once. *)
Inductive Slot :=
| SlotTrap (t : Trap)
| SlotDebugTrap
| SlotOutOfBounds
| SlotUnaligned
| SlotInterrupt.

(** ** The generator

    The members of [ModuleGenerator] that the modelled methods touch.  Two
    fields are ghosts, written but never read by the code: [noted_] logs
    every assignment of a [Slot], [launched_] counts the calls of
    [launchBatchCompile]. *)

Record ModuleGenerator := {
  masm_ : MacroAssembler.t;
  metadataTier_ : MetadataTier.t;
  linkDataTier_ : LinkDataTier.t;
  taskState_ : CompileTaskState;
  exportedFuncs_ : gset Z;
  funcToCodeRange_ : list Z;
  trapCodeOffsets_ : Trap -> Z;
  debugTrapCodeOffset_ : Z;
  callSiteTargets_ : list CallSiteTarget;
  callFarJumps_ : list CallFarJump.t;
  trapFarJumps_ : list TrapFarJump.t;
  debugTrapFarJumps_ : list Z;
  lastPatchedCallSite_ : Z;
  startOfUnpatchedCallsites_ : Z;
  parallel_ : bool;
  outstanding_ : Z;
  tasks_ : list CompileTask;
  freeTasks_ : list CompileTaskPtr;
  currentTask_ : option CompileTaskPtr;
  batchedBytecode_ : Z;
  numFuncDefs_ : Z;
  error_ : UniqueChars;   (* the caller's error slot *)
  cancelled_ : bool;   (* the shared cancellation flag, as last read *)
  noted_ : list Slot;   (* ghost *)
  launched_ : nat   (* ghost *)
}.

Definition set_masm_ (v : MacroAssembler.t) (r : ModuleGenerator) : ModuleGenerator :=
  {| masm_ := v; metadataTier_ := metadataTier_ r;
     linkDataTier_ := linkDataTier_ r; taskState_ := taskState_ r;
     exportedFuncs_ := exportedFuncs_ r;
     funcToCodeRange_ := funcToCodeRange_ r;
     trapCodeOffsets_ := trapCodeOffsets_ r;
     debugTrapCodeOffset_ := debugTrapCodeOffset_ r;
     callSiteTargets_ := callSiteTargets_ r;
     callFarJumps_ := callFarJumps_ r; trapFarJumps_ := trapFarJumps_ r;
     debugTrapFarJumps_ := debugTrapFarJumps_ r;
     lastPatchedCallSite_ := lastPatchedCallSite_ r;
     startOfUnpatchedCallsites_ := startOfUnpatchedCallsites_ r;
     parallel_ := parallel_ r; outstanding_ := outstanding_ r;
     tasks_ := tasks_ r; freeTasks_ := freeTasks_ r;
     currentTask_ := currentTask_ r; batchedBytecode_ := batchedBytecode_ r;
     numFuncDefs_ := numFuncDefs_ r; error_ := error_ r;
     cancelled_ := cancelled_ r; noted_ := noted_ r;
     launched_ := launched_ r |}.
Definition set_metadataTier_ (v : MetadataTier.t) (r : ModuleGenerator) : ModuleGenerator :=
  {| masm_ := masm_ r; metadataTier_ := v; linkDataTier_ := linkDataTier_ r;
     taskState_ := taskState_ r; exportedFuncs_ := exportedFuncs_ r;
     funcToCodeRange_ := funcToCodeRange_ r;
     trapCodeOffsets_ := trapCodeOffsets_ r;
     debugTrapCodeOffset_ := debugTrapCodeOffset_ r;
     callSiteTargets_ := callSiteTargets_ r;
     callFarJumps_ := callFarJumps_ r; trapFarJumps_ := trapFarJumps_ r;
     debugTrapFarJumps_ := debugTrapFarJumps_ r;
     lastPatchedCallSite_ := lastPatchedCallSite_ r;
     startOfUnpatchedCallsites_ := startOfUnpatchedCallsites_ r;
     parallel_ := parallel_ r; outstanding_ := outstanding_ r;
     tasks_ := tasks_ r; freeTasks_ := freeTasks_ r;
     currentTask_ := currentTask_ r; batchedBytecode_ := batchedBytecode_ r;
     numFuncDefs_ := numFuncDefs_ r; error_ := error_ r;
     cancelled_ := cancelled_ r; noted_ := noted_ r;
     launched_ := launched_ r |}.
Definition set_linkDataTier_ (v : LinkDataTier.t) (r : ModuleGenerator) : ModuleGenerator :=
  {| masm_ := masm_ r; metadataTier_ := metadataTier_ r; linkDataTier_ := v;
     taskState_ := taskState_ r; exportedFuncs_ := exportedFuncs_ r;
     funcToCodeRange_ := funcToCodeRange_ r;
     trapCodeOffsets_ := trapCodeOffsets_ r;
     debugTrapCodeOffset_ := debugTrapCodeOffset_ r;
     callSiteTargets_ := callSiteTargets_ r;
     callFarJumps_ := callFarJumps_ r; trapFarJumps_ := trapFarJumps_ r;
     debugTrapFarJumps_ := debugTrapFarJumps_ r;
     lastPatchedCallSite_ := lastPatchedCallSite_ r;
     startOfUnpatchedCallsites_ := startOfUnpatchedCallsites_ r;
     parallel_ := parallel_ r; outstanding_ := outstanding_ r;
     tasks_ := tasks_ r; freeTasks_ := freeTasks_ r;
     currentTask_ := currentTask_ r; batchedBytecode_ := batchedBytecode_ r;
     numFuncDefs_ := numFuncDefs_ r; error_ := error_ r;
     cancelled_ := cancelled_ r; noted_ := noted_ r;
     launched_ := launched_ r |}.
Definition set_taskState_ (v : CompileTaskState) (r : ModuleGenerator) : ModuleGenerator :=
  {| masm_ := masm_ r; metadataTier_ := metadataTier_ r;
     linkDataTier_ := linkDataTier_ r; taskState_ := v;
     exportedFuncs_ := exportedFuncs_ r;
     funcToCodeRange_ := funcToCodeRange_ r;
     trapCodeOffsets_ := trapCodeOffsets_ r;
     debugTrapCodeOffset_ := debugTrapCodeOffset_ r;
     callSiteTargets_ := callSiteTargets_ r;
     callFarJumps_ := callFarJumps_ r; trapFarJumps_ := trapFarJumps_ r;
     debugTrapFarJumps_ := debugTrapFarJumps_ r;
     lastPatchedCallSite_ := lastPatchedCallSite_ r;
     startOfUnpatchedCallsites_ := startOfUnpatchedCallsites_ r;
     parallel_ := parallel_ r; outstanding_ := outstanding_ r;
     tasks_ := tasks_ r; freeTasks_ := freeTasks_ r;
     currentTask_ := currentTask_ r; batchedBytecode_ := batchedBytecode_ r;
     numFuncDefs_ := numFuncDefs_ r; error_ := error_ r;
     cancelled_ := cancelled_ r; noted_ := noted_ r;
     launched_ := launched_ r |}.
Definition set_exportedFuncs_ (v : gset Z) (r : ModuleGenerator) : ModuleGenerator :=
  {| masm_ := masm_ r; metadataTier_ := metadataTier_ r;
     linkDataTier_ := linkDataTier_ r; taskState_ := taskState_ r;
     exportedFuncs_ := v; funcToCodeRange_ := funcToCodeRange_ r;
     trapCodeOffsets_ := trapCodeOffsets_ r;
     debugTrapCodeOffset_ := debugTrapCodeOffset_ r;
     callSiteTargets_ := callSiteTargets_ r;
     callFarJumps_ := callFarJumps_ r; trapFarJumps_ := trapFarJumps_ r;
     debugTrapFarJumps_ := debugTrapFarJumps_ r;
     lastPatchedCallSite_ := lastPatchedCallSite_ r;
     startOfUnpatchedCallsites_ := startOfUnpatchedCallsites_ r;
     parallel_ := parallel_ r; outstanding_ := outstanding_ r;
     tasks_ := tasks_ r; freeTasks_ := freeTasks_ r;
     currentTask_ := currentTask_ r; batchedBytecode_ := batchedBytecode_ r;
     numFuncDefs_ := numFuncDefs_ r; error_ := error_ r;
     cancelled_ := cancelled_ r; noted_ := noted_ r;
     launched_ := launched_ r |}.
Definition set_funcToCodeRange_ (v : list Z) (r : ModuleGenerator) : ModuleGenerator :=
  {| masm_ := masm_ r; metadataTier_ := metadataTier_ r;
     linkDataTier_ := linkDataTier_ r; taskState_ := taskState_ r;
     exportedFuncs_ := exportedFuncs_ r; funcToCodeRange_ := v;
     trapCodeOffsets_ := trapCodeOffsets_ r;
     debugTrapCodeOffset_ := debugTrapCodeOffset_ r;
     callSiteTargets_ := callSiteTargets_ r;
     callFarJumps_ := callFarJumps_ r; trapFarJumps_ := trapFarJumps_ r;
     debugTrapFarJumps_ := debugTrapFarJumps_ r;
     lastPatchedCallSite_ := lastPatchedCallSite_ r;
     startOfUnpatchedCallsites_ := startOfUnpatchedCallsites_ r;
     parallel_ := parallel_ r; outstanding_ := outstanding_ r;
     tasks_ := tasks_ r; freeTasks_ := freeTasks_ r;
     currentTask_ := currentTask_ r; batchedBytecode_ := batchedBytecode_ r;
     numFuncDefs_ := numFuncDefs_ r; error_ := error_ r;
     cancelled_ := cancelled_ r; noted_ := noted_ r;
     launched_ := launched_ r |}.
Definition set_trapCodeOffsets_ (v : Trap -> Z) (r : ModuleGenerator) : ModuleGenerator :=
  {| masm_ := masm_ r; metadataTier_ := metadataTier_ r;
     linkDataTier_ := linkDataTier_ r; taskState_ := taskState_ r;
     exportedFuncs_ := exportedFuncs_ r;
     funcToCodeRange_ := funcToCodeRange_ r; trapCodeOffsets_ := v;
     debugTrapCodeOffset_ := debugTrapCodeOffset_ r;
     callSiteTargets_ := callSiteTargets_ r;
     callFarJumps_ := callFarJumps_ r; trapFarJumps_ := trapFarJumps_ r;
     debugTrapFarJumps_ := debugTrapFarJumps_ r;
     lastPatchedCallSite_ := lastPatchedCallSite_ r;
     startOfUnpatchedCallsites_ := startOfUnpatchedCallsites_ r;
     parallel_ := parallel_ r; outstanding_ := outstanding_ r;
     tasks_ := tasks_ r; freeTasks_ := freeTasks_ r;
     currentTask_ := currentTask_ r; batchedBytecode_ := batchedBytecode_ r;
     numFuncDefs_ := numFuncDefs_ r; error_ := error_ r;
     cancelled_ := cancelled_ r; noted_ := noted_ r;
     launched_ := launched_ r |}.
Definition set_debugTrapCodeOffset_ (v : Z) (r : ModuleGenerator) : ModuleGenerator :=
  {| masm_ := masm_ r; metadataTier_ := metadataTier_ r;
     linkDataTier_ := linkDataTier_ r; taskState_ := taskState_ r;
     exportedFuncs_ := exportedFuncs_ r;
     funcToCodeRange_ := funcToCodeRange_ r;
     trapCodeOffsets_ := trapCodeOffsets_ r; debugTrapCodeOffset_ := v;
     callSiteTargets_ := callSiteTargets_ r;
     callFarJumps_ := callFarJumps_ r; trapFarJumps_ := trapFarJumps_ r;
     debugTrapFarJumps_ := debugTrapFarJumps_ r;
     lastPatchedCallSite_ := lastPatchedCallSite_ r;
     startOfUnpatchedCallsites_ := startOfUnpatchedCallsites_ r;
     parallel_ := parallel_ r; outstanding_ := outstanding_ r;
     tasks_ := tasks_ r; freeTasks_ := freeTasks_ r;
     currentTask_ := currentTask_ r; batchedBytecode_ := batchedBytecode_ r;
     numFuncDefs_ := numFuncDefs_ r; error_ := error_ r;
     cancelled_ := cancelled_ r; noted_ := noted_ r;
     launched_ := launched_ r |}.
Definition set_callSiteTargets_ (v : list CallSiteTarget) (r : ModuleGenerator) : ModuleGenerator :=
  {| masm_ := masm_ r; metadataTier_ := metadataTier_ r;
     linkDataTier_ := linkDataTier_ r; taskState_ := taskState_ r;
     exportedFuncs_ := exportedFuncs_ r;
     funcToCodeRange_ := funcToCodeRange_ r;
     trapCodeOffsets_ := trapCodeOffsets_ r;
     debugTrapCodeOffset_ := debugTrapCodeOffset_ r; callSiteTargets_ := v;
     callFarJumps_ := callFarJumps_ r; trapFarJumps_ := trapFarJumps_ r;
     debugTrapFarJumps_ := debugTrapFarJumps_ r;
     lastPatchedCallSite_ := lastPatchedCallSite_ r;
     startOfUnpatchedCallsites_ := startOfUnpatchedCallsites_ r;
     parallel_ := parallel_ r; outstanding_ := outstanding_ r;
     tasks_ := tasks_ r; freeTasks_ := freeTasks_ r;
     currentTask_ := currentTask_ r; batchedBytecode_ := batchedBytecode_ r;
     numFuncDefs_ := numFuncDefs_ r; error_ := error_ r;
     cancelled_ := cancelled_ r; noted_ := noted_ r;
     launched_ := launched_ r |}.
Definition set_callFarJumps_ (v : list CallFarJump.t) (r : ModuleGenerator) : ModuleGenerator :=
  {| masm_ := masm_ r; metadataTier_ := metadataTier_ r;
     linkDataTier_ := linkDataTier_ r; taskState_ := taskState_ r;
     exportedFuncs_ := exportedFuncs_ r;
     funcToCodeRange_ := funcToCodeRange_ r;
     trapCodeOffsets_ := trapCodeOffsets_ r;
     debugTrapCodeOffset_ := debugTrapCodeOffset_ r;
     callSiteTargets_ := callSiteTargets_ r; callFarJumps_ := v;
     trapFarJumps_ := trapFarJumps_ r;
     debugTrapFarJumps_ := debugTrapFarJumps_ r;
     lastPatchedCallSite_ := lastPatchedCallSite_ r;
     startOfUnpatchedCallsites_ := startOfUnpatchedCallsites_ r;
     parallel_ := parallel_ r; outstanding_ := outstanding_ r;
     tasks_ := tasks_ r; freeTasks_ := freeTasks_ r;
     currentTask_ := currentTask_ r; batchedBytecode_ := batchedBytecode_ r;
     numFuncDefs_ := numFuncDefs_ r; error_ := error_ r;
     cancelled_ := cancelled_ r; noted_ := noted_ r;
     launched_ := launched_ r |}.
Definition set_trapFarJumps_ (v : list TrapFarJump.t) (r : ModuleGenerator) : ModuleGenerator :=
  {| masm_ := masm_ r; metadataTier_ := metadataTier_ r;
     linkDataTier_ := linkDataTier_ r; taskState_ := taskState_ r;
     exportedFuncs_ := exportedFuncs_ r;
     funcToCodeRange_ := funcToCodeRange_ r;
     trapCodeOffsets_ := trapCodeOffsets_ r;
     debugTrapCodeOffset_ := debugTrapCodeOffset_ r;
     callSiteTargets_ := callSiteTargets_ r;
     callFarJumps_ := callFarJumps_ r; trapFarJumps_ := v;
     debugTrapFarJumps_ := debugTrapFarJumps_ r;
     lastPatchedCallSite_ := lastPatchedCallSite_ r;
     startOfUnpatchedCallsites_ := startOfUnpatchedCallsites_ r;
     parallel_ := parallel_ r; outstanding_ := outstanding_ r;
     tasks_ := tasks_ r; freeTasks_ := freeTasks_ r;
     currentTask_ := currentTask_ r; batchedBytecode_ := batchedBytecode_ r;
     numFuncDefs_ := numFuncDefs_ r; error_ := error_ r;
     cancelled_ := cancelled_ r; noted_ := noted_ r;
     launched_ := launched_ r |}.
Definition set_debugTrapFarJumps_ (v : list Z) (r : ModuleGenerator) : ModuleGenerator :=
  {| masm_ := masm_ r; metadataTier_ := metadataTier_ r;
     linkDataTier_ := linkDataTier_ r; taskState_ := taskState_ r;
     exportedFuncs_ := exportedFuncs_ r;
     funcToCodeRange_ := funcToCodeRange_ r;
     trapCodeOffsets_ := trapCodeOffsets_ r;
     debugTrapCodeOffset_ := debugTrapCodeOffset_ r;
     callSiteTargets_ := callSiteTargets_ r;
     callFarJumps_ := callFarJumps_ r; trapFarJumps_ := trapFarJumps_ r;
     debugTrapFarJumps_ := v; lastPatchedCallSite_ := lastPatchedCallSite_ r;
     startOfUnpatchedCallsites_ := startOfUnpatchedCallsites_ r;
     parallel_ := parallel_ r; outstanding_ := outstanding_ r;
     tasks_ := tasks_ r; freeTasks_ := freeTasks_ r;
     currentTask_ := currentTask_ r; batchedBytecode_ := batchedBytecode_ r;
     numFuncDefs_ := numFuncDefs_ r; error_ := error_ r;
     cancelled_ := cancelled_ r; noted_ := noted_ r;
     launched_ := launched_ r |}.
Definition set_lastPatchedCallSite_ (v : Z) (r : ModuleGenerator) : ModuleGenerator :=
  {| masm_ := masm_ r; metadataTier_ := metadataTier_ r;
     linkDataTier_ := linkDataTier_ r; taskState_ := taskState_ r;
     exportedFuncs_ := exportedFuncs_ r;
     funcToCodeRange_ := funcToCodeRange_ r;
     trapCodeOffsets_ := trapCodeOffsets_ r;
     debugTrapCodeOffset_ := debugTrapCodeOffset_ r;
     callSiteTargets_ := callSiteTargets_ r;
     callFarJumps_ := callFarJumps_ r; trapFarJumps_ := trapFarJumps_ r;
     debugTrapFarJumps_ := debugTrapFarJumps_ r; lastPatchedCallSite_ := v;
     startOfUnpatchedCallsites_ := startOfUnpatchedCallsites_ r;
     parallel_ := parallel_ r; outstanding_ := outstanding_ r;
     tasks_ := tasks_ r; freeTasks_ := freeTasks_ r;
     currentTask_ := currentTask_ r; batchedBytecode_ := batchedBytecode_ r;
     numFuncDefs_ := numFuncDefs_ r; error_ := error_ r;
     cancelled_ := cancelled_ r; noted_ := noted_ r;
     launched_ := launched_ r |}.
Definition set_startOfUnpatchedCallsites_ (v : Z) (r : ModuleGenerator) : ModuleGenerator :=
  {| masm_ := masm_ r; metadataTier_ := metadataTier_ r;
     linkDataTier_ := linkDataTier_ r; taskState_ := taskState_ r;
     exportedFuncs_ := exportedFuncs_ r;
     funcToCodeRange_ := funcToCodeRange_ r;
     trapCodeOffsets_ := trapCodeOffsets_ r;
     debugTrapCodeOffset_ := debugTrapCodeOffset_ r;
     callSiteTargets_ := callSiteTargets_ r;
     callFarJumps_ := callFarJumps_ r; trapFarJumps_ := trapFarJumps_ r;
     debugTrapFarJumps_ := debugTrapFarJumps_ r;
     lastPatchedCallSite_ := lastPatchedCallSite_ r;
     startOfUnpatchedCallsites_ := v; parallel_ := parallel_ r;
     outstanding_ := outstanding_ r; tasks_ := tasks_ r;
     freeTasks_ := freeTasks_ r; currentTask_ := currentTask_ r;
     batchedBytecode_ := batchedBytecode_ r; numFuncDefs_ := numFuncDefs_ r;
     error_ := error_ r; cancelled_ := cancelled_ r; noted_ := noted_ r;
     launched_ := launched_ r |}.
Definition set_parallel_ (v : bool) (r : ModuleGenerator) : ModuleGenerator :=
  {| masm_ := masm_ r; metadataTier_ := metadataTier_ r;
     linkDataTier_ := linkDataTier_ r; taskState_ := taskState_ r;
     exportedFuncs_ := exportedFuncs_ r;
     funcToCodeRange_ := funcToCodeRange_ r;
     trapCodeOffsets_ := trapCodeOffsets_ r;
     debugTrapCodeOffset_ := debugTrapCodeOffset_ r;
     callSiteTargets_ := callSiteTargets_ r;
     callFarJumps_ := callFarJumps_ r; trapFarJumps_ := trapFarJumps_ r;
     debugTrapFarJumps_ := debugTrapFarJumps_ r;
     lastPatchedCallSite_ := lastPatchedCallSite_ r;
     startOfUnpatchedCallsites_ := startOfUnpatchedCallsites_ r;
     parallel_ := v; outstanding_ := outstanding_ r; tasks_ := tasks_ r;
     freeTasks_ := freeTasks_ r; currentTask_ := currentTask_ r;
     batchedBytecode_ := batchedBytecode_ r; numFuncDefs_ := numFuncDefs_ r;
     error_ := error_ r; cancelled_ := cancelled_ r; noted_ := noted_ r;
     launched_ := launched_ r |}.
Definition set_outstanding_ (v : Z) (r : ModuleGenerator) : ModuleGenerator :=
  {| masm_ := masm_ r; metadataTier_ := metadataTier_ r;
     linkDataTier_ := linkDataTier_ r; taskState_ := taskState_ r;
     exportedFuncs_ := exportedFuncs_ r;
     funcToCodeRange_ := funcToCodeRange_ r;
     trapCodeOffsets_ := trapCodeOffsets_ r;
     debugTrapCodeOffset_ := debugTrapCodeOffset_ r;
     callSiteTargets_ := callSiteTargets_ r;
     callFarJumps_ := callFarJumps_ r; trapFarJumps_ := trapFarJumps_ r;
     debugTrapFarJumps_ := debugTrapFarJumps_ r;
     lastPatchedCallSite_ := lastPatchedCallSite_ r;
     startOfUnpatchedCallsites_ := startOfUnpatchedCallsites_ r;
     parallel_ := parallel_ r; outstanding_ := v; tasks_ := tasks_ r;
     freeTasks_ := freeTasks_ r; currentTask_ := currentTask_ r;
     batchedBytecode_ := batchedBytecode_ r; numFuncDefs_ := numFuncDefs_ r;
     error_ := error_ r; cancelled_ := cancelled_ r; noted_ := noted_ r;
     launched_ := launched_ r |}.
Definition set_tasks_ (v : list CompileTask) (r : ModuleGenerator) : ModuleGenerator :=
  {| masm_ := masm_ r; metadataTier_ := metadataTier_ r;
     linkDataTier_ := linkDataTier_ r; taskState_ := taskState_ r;
     exportedFuncs_ := exportedFuncs_ r;
     funcToCodeRange_ := funcToCodeRange_ r;
     trapCodeOffsets_ := trapCodeOffsets_ r;
     debugTrapCodeOffset_ := debugTrapCodeOffset_ r;
     callSiteTargets_ := callSiteTargets_ r;
     callFarJumps_ := callFarJumps_ r; trapFarJumps_ := trapFarJumps_ r;
     debugTrapFarJumps_ := debugTrapFarJumps_ r;
     lastPatchedCallSite_ := lastPatchedCallSite_ r;
     startOfUnpatchedCallsites_ := startOfUnpatchedCallsites_ r;
     parallel_ := parallel_ r; outstanding_ := outstanding_ r; tasks_ := v;
     freeTasks_ := freeTasks_ r; currentTask_ := currentTask_ r;
     batchedBytecode_ := batchedBytecode_ r; numFuncDefs_ := numFuncDefs_ r;
     error_ := error_ r; cancelled_ := cancelled_ r; noted_ := noted_ r;
     launched_ := launched_ r |}.
Definition set_freeTasks_ (v : list CompileTaskPtr) (r : ModuleGenerator) : ModuleGenerator :=
  {| masm_ := masm_ r; metadataTier_ := metadataTier_ r;
     linkDataTier_ := linkDataTier_ r; taskState_ := taskState_ r;
     exportedFuncs_ := exportedFuncs_ r;
     funcToCodeRange_ := funcToCodeRange_ r;
     trapCodeOffsets_ := trapCodeOffsets_ r;
     debugTrapCodeOffset_ := debugTrapCodeOffset_ r;
     callSiteTargets_ := callSiteTargets_ r;
     callFarJumps_ := callFarJumps_ r; trapFarJumps_ := trapFarJumps_ r;
     debugTrapFarJumps_ := debugTrapFarJumps_ r;
     lastPatchedCallSite_ := lastPatchedCallSite_ r;
     startOfUnpatchedCallsites_ := startOfUnpatchedCallsites_ r;
     parallel_ := parallel_ r; outstanding_ := outstanding_ r;
     tasks_ := tasks_ r; freeTasks_ := v; currentTask_ := currentTask_ r;
     batchedBytecode_ := batchedBytecode_ r; numFuncDefs_ := numFuncDefs_ r;
     error_ := error_ r; cancelled_ := cancelled_ r; noted_ := noted_ r;
     launched_ := launched_ r |}.
Definition set_currentTask_ (v : option CompileTaskPtr) (r : ModuleGenerator) : ModuleGenerator :=
  {| masm_ := masm_ r; metadataTier_ := metadataTier_ r;
     linkDataTier_ := linkDataTier_ r; taskState_ := taskState_ r;
     exportedFuncs_ := exportedFuncs_ r;
     funcToCodeRange_ := funcToCodeRange_ r;
     trapCodeOffsets_ := trapCodeOffsets_ r;
     debugTrapCodeOffset_ := debugTrapCodeOffset_ r;
     callSiteTargets_ := callSiteTargets_ r;
     callFarJumps_ := callFarJumps_ r; trapFarJumps_ := trapFarJumps_ r;
     debugTrapFarJumps_ := debugTrapFarJumps_ r;
     lastPatchedCallSite_ := lastPatchedCallSite_ r;
     startOfUnpatchedCallsites_ := startOfUnpatchedCallsites_ r;
     parallel_ := parallel_ r; outstanding_ := outstanding_ r;
     tasks_ := tasks_ r; freeTasks_ := freeTasks_ r; currentTask_ := v;
     batchedBytecode_ := batchedBytecode_ r; numFuncDefs_ := numFuncDefs_ r;
     error_ := error_ r; cancelled_ := cancelled_ r; noted_ := noted_ r;
     launched_ := launched_ r |}.
Definition set_batchedBytecode_ (v : Z) (r : ModuleGenerator) : ModuleGenerator :=
  {| masm_ := masm_ r; metadataTier_ := metadataTier_ r;
     linkDataTier_ := linkDataTier_ r; taskState_ := taskState_ r;
     exportedFuncs_ := exportedFuncs_ r;
     funcToCodeRange_ := funcToCodeRange_ r;
     trapCodeOffsets_ := trapCodeOffsets_ r;
     debugTrapCodeOffset_ := debugTrapCodeOffset_ r;
     callSiteTargets_ := callSiteTargets_ r;
     callFarJumps_ := callFarJumps_ r; trapFarJumps_ := trapFarJumps_ r;
     debugTrapFarJumps_ := debugTrapFarJumps_ r;
     lastPatchedCallSite_ := lastPatchedCallSite_ r;
     startOfUnpatchedCallsites_ := startOfUnpatchedCallsites_ r;
     parallel_ := parallel_ r; outstanding_ := outstanding_ r;
     tasks_ := tasks_ r; freeTasks_ := freeTasks_ r;
     currentTask_ := currentTask_ r; batchedBytecode_ := v;
     numFuncDefs_ := numFuncDefs_ r; error_ := error_ r;
     cancelled_ := cancelled_ r; noted_ := noted_ r;
     launched_ := launched_ r |}.
Definition set_numFuncDefs_ (v : Z) (r : ModuleGenerator) : ModuleGenerator :=
  {| masm_ := masm_ r; metadataTier_ := metadataTier_ r;
     linkDataTier_ := linkDataTier_ r; taskState_ := taskState_ r;
     exportedFuncs_ := exportedFuncs_ r;
     funcToCodeRange_ := funcToCodeRange_ r;
     trapCodeOffsets_ := trapCodeOffsets_ r;
     debugTrapCodeOffset_ := debugTrapCodeOffset_ r;
     callSiteTargets_ := callSiteTargets_ r;
     callFarJumps_ := callFarJumps_ r; trapFarJumps_ := trapFarJumps_ r;
     debugTrapFarJumps_ := debugTrapFarJumps_ r;
     lastPatchedCallSite_ := lastPatchedCallSite_ r;
     startOfUnpatchedCallsites_ := startOfUnpatchedCallsites_ r;
     parallel_ := parallel_ r; outstanding_ := outstanding_ r;
     tasks_ := tasks_ r; freeTasks_ := freeTasks_ r;
     currentTask_ := currentTask_ r; batchedBytecode_ := batchedBytecode_ r;
     numFuncDefs_ := v; error_ := error_ r; cancelled_ := cancelled_ r;
     noted_ := noted_ r; launched_ := launched_ r |}.
Definition set_error_ (v : UniqueChars) (r : ModuleGenerator) : ModuleGenerator :=
  {| masm_ := masm_ r; metadataTier_ := metadataTier_ r;
     linkDataTier_ := linkDataTier_ r; taskState_ := taskState_ r;
     exportedFuncs_ := exportedFuncs_ r;
     funcToCodeRange_ := funcToCodeRange_ r;
     trapCodeOffsets_ := trapCodeOffsets_ r;
     debugTrapCodeOffset_ := debugTrapCodeOffset_ r;
     callSiteTargets_ := callSiteTargets_ r;
     callFarJumps_ := callFarJumps_ r; trapFarJumps_ := trapFarJumps_ r;
     debugTrapFarJumps_ := debugTrapFarJumps_ r;
     lastPatchedCallSite_ := lastPatchedCallSite_ r;
     startOfUnpatchedCallsites_ := startOfUnpatchedCallsites_ r;
     parallel_ := parallel_ r; outstanding_ := outstanding_ r;
     tasks_ := tasks_ r; freeTasks_ := freeTasks_ r;
     currentTask_ := currentTask_ r; batchedBytecode_ := batchedBytecode_ r;
     numFuncDefs_ := numFuncDefs_ r; error_ := v; cancelled_ := cancelled_ r;
     noted_ := noted_ r; launched_ := launched_ r |}.
Definition set_cancelled_ (v : bool) (r : ModuleGenerator) : ModuleGenerator :=
  {| masm_ := masm_ r; metadataTier_ := metadataTier_ r;
     linkDataTier_ := linkDataTier_ r; taskState_ := taskState_ r;
     exportedFuncs_ := exportedFuncs_ r;
     funcToCodeRange_ := funcToCodeRange_ r;
     trapCodeOffsets_ := trapCodeOffsets_ r;
     debugTrapCodeOffset_ := debugTrapCodeOffset_ r;
     callSiteTargets_ := callSiteTargets_ r;
     callFarJumps_ := callFarJumps_ r; trapFarJumps_ := trapFarJumps_ r;
     debugTrapFarJumps_ := debugTrapFarJumps_ r;
     lastPatchedCallSite_ := lastPatchedCallSite_ r;
     startOfUnpatchedCallsites_ := startOfUnpatchedCallsites_ r;
     parallel_ := parallel_ r; outstanding_ := outstanding_ r;
     tasks_ := tasks_ r; freeTasks_ := freeTasks_ r;
     currentTask_ := currentTask_ r; batchedBytecode_ := batchedBytecode_ r;
     numFuncDefs_ := numFuncDefs_ r; error_ := error_ r; cancelled_ := v;
     noted_ := noted_ r; launched_ := launched_ r |}.
Definition set_noted_ (v : list Slot) (r : ModuleGenerator) : ModuleGenerator :=
  {| masm_ := masm_ r; metadataTier_ := metadataTier_ r;
     linkDataTier_ := linkDataTier_ r; taskState_ := taskState_ r;
     exportedFuncs_ := exportedFuncs_ r;
     funcToCodeRange_ := funcToCodeRange_ r;
     trapCodeOffsets_ := trapCodeOffsets_ r;
     debugTrapCodeOffset_ := debugTrapCodeOffset_ r;
     callSiteTargets_ := callSiteTargets_ r;
     callFarJumps_ := callFarJumps_ r; trapFarJumps_ := trapFarJumps_ r;
     debugTrapFarJumps_ := debugTrapFarJumps_ r;
     lastPatchedCallSite_ := lastPatchedCallSite_ r;
     startOfUnpatchedCallsites_ := startOfUnpatchedCallsites_ r;
     parallel_ := parallel_ r; outstanding_ := outstanding_ r;
     tasks_ := tasks_ r; freeTasks_ := freeTasks_ r;
     currentTask_ := currentTask_ r; batchedBytecode_ := batchedBytecode_ r;
     numFuncDefs_ := numFuncDefs_ r; error_ := error_ r;
     cancelled_ := cancelled_ r; noted_ := v; launched_ := launched_ r |}.
Definition set_launched_ (v : nat) (r : ModuleGenerator) : ModuleGenerator :=
  {| masm_ := masm_ r; metadataTier_ := metadataTier_ r;
     linkDataTier_ := linkDataTier_ r; taskState_ := taskState_ r;
     exportedFuncs_ := exportedFuncs_ r;
     funcToCodeRange_ := funcToCodeRange_ r;
     trapCodeOffsets_ := trapCodeOffsets_ r;
     debugTrapCodeOffset_ := debugTrapCodeOffset_ r;
     callSiteTargets_ := callSiteTargets_ r;
     callFarJumps_ := callFarJumps_ r; trapFarJumps_ := trapFarJumps_ r;
     debugTrapFarJumps_ := debugTrapFarJumps_ r;
     lastPatchedCallSite_ := lastPatchedCallSite_ r;
     startOfUnpatchedCallsites_ := startOfUnpatchedCallsites_ r;
     parallel_ := parallel_ r; outstanding_ := outstanding_ r;
     tasks_ := tasks_ r; freeTasks_ := freeTasks_ r;
     currentTask_ := currentTask_ r; batchedBytecode_ := batchedBytecode_ r;
     numFuncDefs_ := numFuncDefs_ r; error_ := error_ r;
     cancelled_ := cancelled_ r; noted_ := noted_ r; launched_ := v |}.

(** ** Results of a method

    A method that returns [bool] ends with [Ok] for [true] and [Fail] for
    [false]; in both cases the members of the generator are as the method
    left them.  Assertions are checked, as in a debug build: a failed
    [MOZ_ASSERT], a [MOZ_CRASH] or an index past the end of a vector end
    the run with [Abort].  [Blocked] is the coordinator suspended on the
    condition variable [failedOrFinished]. *)

Inductive Fault :=
| UnexpectedCodeRangeKind        (* MOZ_CRASH of noteCodeRange *)
| SlotAlreadySet (s : Slot)      (* the assertion guarding a slot *)
| FuncAlreadyNoted               (* funcToCodeRange_[f] == BAD_CODE_RANGE *)
| FuncNotCompiled                (* funcIsCompiled(funcIndex) *)
| NotAFunction                   (* cr.isFunction() *)
| BadCallSiteTarget              (* accessor of a target of another kind *)
| IndexOutOfBounds               (* index past the end of a vector *)
| NoSuchFuncExport               (* lookupFuncExport found nothing *)
| TrapSitesNotEmpty              (* code.trapSites.empty() *)
| FuncExportsNotEmpty            (* metadataTier_->funcExports.empty() *)
| NoCurrentTask                  (* currentTask_ *)
| NothingOutstanding             (* outstanding_ > 0 *)
| NotParallel                    (* parallel_ *)
| TaskNotReset                   (* inputs, output or lifo not empty *)
| OutputMismatch                 (* inputs.length() == output.codeRanges.length() *)
| ModuleTooBig                   (* batchedBytecode_ <= MaxModuleBytes *)
| FuncNotDefined                 (* funcToCodeRange_[i] == BAD_CODE_RANGE, of finishLinking *)
| ModuleIsAsmJS                  (* !isAsmJS() *)
| ModeNotTier1.                  (* mode() == CompileMode::Tier1 *)

Inductive Res (A : Type) :=
| Ok (a : A) (g : ModuleGenerator)
| Fail (g : ModuleGenerator)
| Blocked (g : ModuleGenerator)
| Abort (f : Fault).

Arguments Ok {A} a g.
Arguments Fail {A} g.
Arguments Blocked {A} g.
Arguments Abort {A} f.

Definition M (A : Type) : Type := ModuleGenerator -> Res A.

Definition ret {A} (a : A) : M A := fun g => Ok a g.

Definition bind {A B} (m : M A) (k : A -> M B) : M B := fun g =>
  match m g with
  | Ok a g' => k a g'
  | Fail g' => Fail g'
  | Blocked g' => Blocked g'
  | Abort f => Abort f
  end.

Notation "'let*' x ':=' m 'in' k" := (bind m (fun x => k))
  (at level 10, x name, m at level 100, k at level 200).

Notation "m '>>' k" := (bind m (fun _ => k))
  (at level 100, k at level 200, right associativity).

Definition gets {A} (proj : ModuleGenerator -> A) : M A := fun g => Ok (proj g) g.

Definition modify (f : ModuleGenerator -> ModuleGenerator) : M unit :=
  fun g => Ok tt (f g).

(** [return false] *)
Definition fail {A} : M A := fun g => Fail g.

Definition abort {A} (f : Fault) : M A := fun _ => Abort f.

Definition MOZ_ASSERT (b : bool) (f : Fault) : M unit :=
  if b then ret tt else abort f.

(** [v[i]] on a vector: past the end the debug build aborts. *)
Definition at_ {A} (v : list A) (i : Z) : M A :=
  match v !! Z.to_nat i with
  | Some x => ret x
  | None => abort IndexOutOfBounds
  end.

Fixpoint forEach {A} (l : list A) (body : A -> M unit) : M unit :=
  match l with
  | [] => ret tt
  | x :: l' => body x  >> forEach l' body
  end.

Section Generator.

Variable JitOptions : JitOptionsT.
Variable isa : Platform.
Variable env_ : ModuleEnvironment.

(** The compilers and the helper-thread pool are outside the generator.
    A compiler returns the code of the inputs or an error message (which
    is null when it ran out of memory). *)
Variable IonCompileFunctions : list FuncCompileInput -> CompiledCode + UniqueChars.
Variable BaselineCompileFunctions : list FuncCompileInput -> CompiledCode + UniqueChars.
Variable StartOffThreadWasmCompile : CompileTaskPtr -> bool.

(** ** The assembler's operations *)

Definition masm_emit (n : Z) (m : MacroAssembler.t) : MacroAssembler.t :=
  if MacroAssembler.oom m || (MaxCodeBytes isa <? MacroAssembler.size m + n)
  then MacroAssembler.set_oom true m
  else MacroAssembler.set_size (MacroAssembler.size m + n) m.

Definition masm_haltingAlign (alignment : Z) (m : MacroAssembler.t) : MacroAssembler.t :=
  masm_emit (ComputeByteAlignment (MacroAssembler.size m) alignment) m.

Definition masm_patchCall (callerOffset calleeOffset : Z) (m : MacroAssembler.t) :
    MacroAssembler.t :=
  MacroAssembler.set_patchedCalls
    (MacroAssembler.patchedCalls m ++ [(callerOffset, calleeOffset)]) m.

Definition masm_patchFarJump (farJump targetOffset : Z) (m : MacroAssembler.t) :
    MacroAssembler.t :=
  MacroAssembler.set_patchedFarJumps
    (MacroAssembler.patchedFarJumps m ++ [(farJump, targetOffset)]) m.

Definition haltingAlign (alignment : Z) : M unit :=
  modify (fun g => set_masm_ (masm_haltingAlign alignment (masm_ g)) g).

Definition masm_size : M Z := gets (fun g => MacroAssembler.size (masm_ g)).

Definition currentOffset : M Z := gets (fun g => MacroAssembler.size (masm_ g)).

Definition masm_oom : M bool := gets (fun g => MacroAssembler.oom (masm_ g)).

Definition appendRawCode (numBytes : Z) : M bool :=
  modify (fun g => set_masm_ (masm_emit numBytes (masm_ g)) g) >>
  let* oom := masm_oom in
  ret (negb oom).

(** Emits the placeholder of a far jump and returns its patch point. *)
Definition farJumpWithPatch : M Z :=
  let* offset := currentOffset in
  modify (fun g => set_masm_ (masm_emit (FarJumpSize isa) (masm_ g)) g) >>
  ret (offset + FarJumpPatchAt isa).

(** [masm_.loadPtr(Address(FramePointer, offsetof(Frame, tls)), WasmTlsReg)] *)
Definition loadTls : M unit :=
  modify (fun g => set_masm_ (masm_emit (TlsReloadSize isa) (masm_ g)) g).

Definition patchCall (callerOffset calleeOffset : Z) : M unit :=
  modify (fun g => set_masm_ (masm_patchCall callerOffset calleeOffset (masm_ g)) g).

Definition patchFarJump (farJump targetOffset : Z) : M unit :=
  modify (fun g => set_masm_ (masm_patchFarJump farJump targetOffset (masm_ g)) g).

(** ** Branch range *)

Definition InRange (caller callee : Z) : bool :=
  let range := Z.min (jumpThreshold JitOptions) (JumpImmediateRange isa) in
  if caller <? callee then wrap32 (callee - caller) <? range
  else wrap32 (caller - callee) <? range.

(** ** Code ranges of functions *)

Definition funcIsCompiled (funcIndex : Z) : M bool :=
  let* v := gets funcToCodeRange_ in
  let* codeRangeIndex := at_ v funcIndex in
  ret (negb (codeRangeIndex =? BAD_CODE_RANGE)).

Definition funcCodeRange (funcIndex : Z) : M CodeRange.t :=
  let* compiled := funcIsCompiled funcIndex in
  MOZ_ASSERT compiled FuncNotCompiled >>
  let* v := gets funcToCodeRange_ in
  let* codeRangeIndex := at_ v funcIndex in
  let* codeRanges := gets (fun g => MetadataTier.codeRanges (metadataTier_ g)) in
  let* cr := at_ codeRanges codeRangeIndex in
  MOZ_ASSERT (CodeRange.isFunction cr) NotAFunction >>
  ret cr.

(** Accessors of a call-site target. *)
Definition target_funcIndex (target : CallSiteTarget) : M Z :=
  match target with
  | TargetFunc f => ret f
  | _ => abort BadCallSiteTarget
  end.

Definition target_trap (target : CallSiteTarget) : M Trap :=
  match target with
  | TargetTrap t => ret t
  | _ => abort BadCallSiteTarget
  end.

(** ** The call-site patcher: [ModuleGenerator::linkCallSites] *)

(** [OffsetMap] is a hash map from function index to island offset,
    [TrapOffsetArray] an array of optional offsets indexed by trap. *)
Abbreviation TrapOffsetArray := (Trap -> option Z) (only parsing).

Definition push_codeRange (cr : CodeRange.t) (g : ModuleGenerator) : ModuleGenerator :=
  set_metadataTier_
    (MetadataTier.set_codeRanges
       (MetadataTier.codeRanges (metadataTier_ g) ++ [cr]) (metadataTier_ g)) g.

(** The first [if] of the [Func] case: patches a direct call when the callee
    is compiled and in range, and tells whether it did ([break]). *)
Definition patchDirect (callerOffset funcIndex : Z) : M bool :=
  let* compiled := funcIsCompiled funcIndex in
  if compiled then
    let* cr := funcCodeRange funcIndex in
    let calleeOffset := CodeRange.funcNormalEntry cr in
    if InRange callerOffset calleeOffset then
      patchCall callerOffset calleeOffset >> ret true
    else ret false
  else ret false.

(** The body of the loop, for one call site and its target.  The maps of
    the islands emitted so far in this pass are passed in and returned. *)
Definition linkCallSite (callSite : CallSite.t) (target : CallSiteTarget)
    (existingCallFarJumps : gmap Z Z) (existingTrapFarJumps : TrapOffsetArray) :
    M (gmap Z Z * TrapOffsetArray) :=
  let callerOffset := CallSite.returnAddressOffset callSite in
  match CallSite.kind callSite with
  | CallSiteDesc.Dynamic | CallSiteDesc.Symbolic =>
      ret (existingCallFarJumps, existingTrapFarJumps)
  | CallSiteDesc.Func =>
      let* funcIndex := target_funcIndex target in
      let* direct := patchDirect callerOffset funcIndex in
      if direct then ret (existingCallFarJumps, existingTrapFarJumps)
      else
        match existingCallFarJumps !! funcIndex with
        | Some p =>
            patchCall callerOffset p >>
            ret (existingCallFarJumps, existingTrapFarJumps)
        | None =>
            let* offsets_begin := currentOffset in
            let offsets_begin := wrap32 offsets_begin in
            let* jump := farJumpWithPatch in
            modify (fun g =>
              set_callFarJumps_
                (callFarJumps_ g ++
                   [{| CallFarJump.funcIndex := funcIndex; CallFarJump.jump := jump |}]) g) >>
            let* offsets_end := currentOffset in
            let offsets_end := wrap32 offsets_end in
            let* oom := masm_oom in
            if oom then fail
            else
              modify (push_codeRange (CodeRange.island offsets_begin offsets_end)) >>
              patchCall callerOffset offsets_begin >>
              ret (<[funcIndex := offsets_begin]> existingCallFarJumps,
                    existingTrapFarJumps)
        end
  | CallSiteDesc.TrapExit =>
      let* trap := target_trap target in
      match existingTrapFarJumps trap with
      | Some p =>
          patchCall callerOffset p >>
          ret (existingCallFarJumps, existingTrapFarJumps)
      | None =>
          let* offsets_begin := currentOffset in
          let offsets_begin := wrap32 offsets_begin in
          loadTls >>
          let* jump := farJumpWithPatch in
          modify (fun g =>
            set_trapFarJumps_
              (trapFarJumps_ g ++
                 [{| TrapFarJump.trap := trap; TrapFarJump.jump := jump |}]) g) >>
          let* offsets_end := currentOffset in
          let offsets_end := wrap32 offsets_end in
          let* oom := masm_oom in
          if oom then fail
          else
            modify (push_codeRange (CodeRange.island offsets_begin offsets_end)) >>
            patchCall callerOffset offsets_begin >>
            ret (existingCallFarJumps,
                  <[trap := Some offsets_begin]> existingTrapFarJumps)
      end
  | CallSiteDesc.Breakpoint | CallSiteDesc.EnterFrame | CallSiteDesc.LeaveFrame =>
      let* jumps := gets (fun g => MetadataTier.debugTrapFarJumpOffsets (metadataTier_ g)) in
      if match list.last jumps with
         | None => true
         | Some back => negb (InRange back callerOffset)
         end
      then
        let* offsets_begin := currentOffset in
        let offsets_begin := wrap32 offsets_begin in
        loadTls >>
        let* jumpOffset := farJumpWithPatch in
        let* offsets_end := currentOffset in
        let offsets_end := wrap32 offsets_end in
        let* oom := masm_oom in
        if oom then fail
        else
          modify (push_codeRange (CodeRange.island offsets_begin offsets_end)) >>
          modify (fun g => set_debugTrapFarJumps_ (debugTrapFarJumps_ g ++ [jumpOffset]) g) >>
          modify (fun g =>
            set_metadataTier_
              (MetadataTier.set_debugTrapFarJumpOffsets
                 (MetadataTier.debugTrapFarJumpOffsets (metadataTier_ g) ++ [offsets_begin])
                 (metadataTier_ g)) g) >>
          ret (existingCallFarJumps, existingTrapFarJumps)
      else ret (existingCallFarJumps, existingTrapFarJumps)
  end.

(** The loop from [lastPatchedCallSite_] to the end of the call sites;
    [pending] is the call sites not yet visited (the loop appends none). *)
Fixpoint linkCallSites_loop (pending : list CallSite.t)
    (existingCallFarJumps : gmap Z Z) (existingTrapFarJumps : TrapOffsetArray) :
    M unit :=
  match pending with
  | [] => ret tt
  | callSite :: pending' =>
      let* i := gets lastPatchedCallSite_ in
      let* targets := gets callSiteTargets_ in
      let* target := at_ targets i in
      let* existing := linkCallSite callSite target existingCallFarJumps existingTrapFarJumps in
      modify (fun g => set_lastPatchedCallSite_ (wrap32 (lastPatchedCallSite_ g + 1)) g) >>
      linkCallSites_loop pending' existing.1 existing.2
  end.

Definition linkCallSites : M unit :=
  haltingAlign (CodeAlignment isa) >>
  let* i := gets lastPatchedCallSite_ in
  let* callSites := gets (fun g => MetadataTier.callSites (metadataTier_ g)) in
  linkCallSites_loop (drop (Z.to_nat i) callSites) ∅ (fun _ => None) >>
  let* oom := masm_oom in
  if oom then fail else ret tt.

(** ** [ModuleGenerator::noteCodeRange] *)

Fixpoint initEntryOffsetOf (funcIndex off : Z) (l : list FuncExport.t) :
    option (list FuncExport.t) :=
  match l with
  | [] => None
  | fe :: l' =>
      if FuncExport.funcIndex fe =? funcIndex
      then Some (FuncExport.initEntryOffset off fe :: l')
      else cons fe <$> initEntryOffsetOf funcIndex off l'
  end.

Definition note (s : Slot) : M unit :=
  modify (fun g => set_noted_ (noted_ g ++ [s]) g).

Definition noteCodeRange (codeRangeIndex : Z) (codeRange : CodeRange.t) : M unit :=
  match CodeRange.kind codeRange with
  | CodeRange.Function =>
      let* v := gets funcToCodeRange_ in
      let* old := at_ v (CodeRange.funcIndex codeRange) in
      MOZ_ASSERT (old =? BAD_CODE_RANGE) FuncAlreadyNoted >>
      modify (fun g =>
        set_funcToCodeRange_
          (<[Z.to_nat (CodeRange.funcIndex codeRange) := codeRangeIndex]>
             (funcToCodeRange_ g)) g)
  | CodeRange.Entry =>
      let* exports := gets (fun g => MetadataTier.funcExports (metadataTier_ g)) in
      match initEntryOffsetOf (CodeRange.funcIndex codeRange)
              (CodeRange.begin codeRange) exports with
      | None => abort NoSuchFuncExport
      | Some exports' =>
          modify (fun g =>
            set_metadataTier_
              (MetadataTier.set_funcExports exports' (metadataTier_ g)) g)
      end
  | CodeRange.ImportJitExit =>
      let* imports := gets (fun g => MetadataTier.funcImports (metadataTier_ g)) in
      let* fi := at_ imports (CodeRange.funcIndex codeRange) in
      modify (fun g =>
        set_metadataTier_
          (MetadataTier.set_funcImports
             (<[Z.to_nat (CodeRange.funcIndex codeRange) :=
                  FuncImport.initJitExitOffset (CodeRange.begin codeRange) fi]> imports)
             (metadataTier_ g)) g)
  | CodeRange.ImportInterpExit =>
      let* imports := gets (fun g => MetadataTier.funcImports (metadataTier_ g)) in
      let* fi := at_ imports (CodeRange.funcIndex codeRange) in
      modify (fun g =>
        set_metadataTier_
          (MetadataTier.set_funcImports
             (<[Z.to_nat (CodeRange.funcIndex codeRange) :=
                  FuncImport.initInterpExitOffset (CodeRange.begin codeRange) fi]> imports)
             (metadataTier_ g)) g)
  | CodeRange.TrapExit =>
      let* offsets := gets trapCodeOffsets_ in
      MOZ_ASSERT (offsets (CodeRange.trap codeRange) =? 0)
        (SlotAlreadySet (SlotTrap (CodeRange.trap codeRange))) >>
      modify (fun g =>
        set_trapCodeOffsets_
          (<[CodeRange.trap codeRange := CodeRange.begin codeRange]> (trapCodeOffsets_ g)) g) >>
      note (SlotTrap (CodeRange.trap codeRange))
  | CodeRange.DebugTrap =>
      let* old := gets debugTrapCodeOffset_ in
      MOZ_ASSERT (old =? 0) (SlotAlreadySet SlotDebugTrap) >>
      modify (set_debugTrapCodeOffset_ (CodeRange.begin codeRange)) >>
      note SlotDebugTrap
  | CodeRange.OutOfBoundsExit =>
      let* old := gets (fun g => LinkDataTier.outOfBoundsOffset (linkDataTier_ g)) in
      MOZ_ASSERT (old =? 0) (SlotAlreadySet SlotOutOfBounds) >>
      modify (fun g =>
        set_linkDataTier_
          (LinkDataTier.set_outOfBoundsOffset (CodeRange.begin codeRange)
             (linkDataTier_ g)) g) >>
      note SlotOutOfBounds
  | CodeRange.UnalignedExit =>
      let* old := gets (fun g => LinkDataTier.unalignedAccessOffset (linkDataTier_ g)) in
      MOZ_ASSERT (old =? 0) (SlotAlreadySet SlotUnaligned) >>
      modify (fun g =>
        set_linkDataTier_
          (LinkDataTier.set_unalignedAccessOffset (CodeRange.begin codeRange)
             (linkDataTier_ g)) g) >>
      note SlotUnaligned
  | CodeRange.Interrupt =>
      let* old := gets (fun g => LinkDataTier.interruptOffset (linkDataTier_ g)) in
      MOZ_ASSERT (old =? 0) (SlotAlreadySet SlotInterrupt) >>
      modify (fun g =>
        set_linkDataTier_
          (LinkDataTier.set_interruptOffset (CodeRange.begin codeRange)
             (linkDataTier_ g)) g) >>
      note SlotInterrupt
  | CodeRange.Throw => ret tt
  | CodeRange.FarJumpIsland | CodeRange.BuiltinThunk =>
      abort UnexpectedCodeRangeKind
  end.

(** ** The linker: [AppendForEach] and [ModuleGenerator::linkCompiledCode] *)

(** [AppendForEach(dstVec, srcVec, op)] copies every element of [srcVec] to
    the end of [dstVec] and applies [op] to the copy and its index there.
    The source grows the vector once and then fills it in order; no [op]
    reads the destination, so the elements are appended one by one. *)
Fixpoint AppendForEach {T} (dstVec : ModuleGenerator -> list T)
    (set_dstVec : list T -> ModuleGenerator -> ModuleGenerator)
    (srcVec : list T) (op : Z -> T -> M T) : M unit :=
  match srcVec with
  | [] => ret tt
  | src :: srcVec' =>
      let* dst := gets dstVec in
      let* elem := op (wrap32 (Z.of_nat (length dst))) src in
      modify (fun g => set_dstVec (dstVec g ++ [elem]) g) >>
      AppendForEach dstVec set_dstVec srcVec' op
  end.

Definition set_codeRanges (v : list CodeRange.t) (g : ModuleGenerator) :=
  set_metadataTier_ (MetadataTier.set_codeRanges v (metadataTier_ g)) g.

Definition set_callSites (v : list CallSite.t) (g : ModuleGenerator) :=
  set_metadataTier_ (MetadataTier.set_callSites v (metadataTier_ g)) g.

Definition set_memoryAccesses (v : list MemoryAccess.t) (g : ModuleGenerator) :=
  set_metadataTier_ (MetadataTier.set_memoryAccesses v (metadataTier_ g)) g.

Definition linkCompiledCode (code : CompiledCode) : M unit :=
  haltingAlign (CodeAlignment isa) >>
  let* offsetInModule := masm_size in
  let* appended := appendRawCode (Z.of_nat (length (bytes code))) in
  if negb appended then fail
  else
    AppendForEach (fun g => MetadataTier.codeRanges (metadataTier_ g)) set_codeRanges
      (codeRanges code)
      (fun codeRangeIndex codeRange =>
         let codeRange := CodeRange.offsetBy codeRange offsetInModule in
         noteCodeRange codeRangeIndex codeRange >>
         ret codeRange) >>
    AppendForEach (fun g => MetadataTier.callSites (metadataTier_ g)) set_callSites
      (callSites code)
      (fun _ cs => ret (CallSite.offsetBy cs offsetInModule)) >>
    modify (fun g => set_callSiteTargets_ (callSiteTargets_ g ++ callSiteTargets code) g) >>
    MOZ_ASSERT (bool_decide (trapSites code = [])) TrapSitesNotEmpty >>
    AppendForEach trapFarJumps_ set_trapFarJumps_ (trapFarJumps code)
      (fun _ tfj => ret (TrapFarJump.offsetBy tfj offsetInModule)) >>
    AppendForEach callFarJumps_ set_callFarJumps_ (callFarJumps code)
      (fun _ cfj => ret (CallFarJump.offsetBy cfj offsetInModule)) >>
    AppendForEach (fun g => MetadataTier.memoryAccesses (metadataTier_ g))
      set_memoryAccesses (memoryAccesses code)
      (fun _ ma => ret (MemoryAccess.offsetBy ma offsetInModule)) >>
    forEach (symbolicAccesses code) (fun access =>
      let patchAt := wrap32 (offsetInModule + SymbolicAccess.patchAt access) in
      modify (fun g =>
        set_linkDataTier_
          (LinkDataTier.set_symbolicLinks
             (<[SymbolicAccess.target access :=
                  LinkDataTier.symbolicLinks (linkDataTier_ g)
                    (SymbolicAccess.target access) ++ [patchAt]]>
                (LinkDataTier.symbolicLinks (linkDataTier_ g)))
             (linkDataTier_ g)) g)) >>
    forEach (codeLabels code) (fun codeLabel =>
      let link :=
        {| InternalLink.patchAtOffset :=
             wrap32 (offsetInModule + CodeLabel.patchAt codeLabel);
           InternalLink.targetOffset :=
             wrap32 (offsetInModule + CodeLabel.target codeLabel) |} in
      modify (fun g =>
        set_linkDataTier_
          (LinkDataTier.set_internalLinks
             (LinkDataTier.internalLinks (linkDataTier_ g) ++ [link])
             (linkDataTier_ g)) g)).

(** ** [ModuleGenerator::finishTask] *)

Definition clearOutput (t : CompileTask) : CompileTask :=
  {| inputs := inputs t; output := CompiledCode_empty |}.

Definition finishTask (task : CompileTaskPtr) : M unit :=
  haltingAlign (CodeAlignment isa) >>
  let* tasks := gets tasks_ in
  let* t := at_ tasks (Z.of_nat task) in
  let* start := gets startOfUnpatchedCallsites_ in
  let* size := masm_size in
  (if negb (InRange start (wrap32 (size + Z.of_nat (length (bytes (output t))))))
   then
     modify (set_startOfUnpatchedCallsites_ (wrap32 size)) >>
     linkCallSites
   else ret tt) >>
  linkCompiledCode (output t) >>
  modify (fun g => set_tasks_ (<[task := clearOutput t]> (tasks_ g)) g) >>
  MOZ_ASSERT (bool_decide (inputs t = [])) TaskNotReset >>
  modify (fun g => set_freeTasks_ (freeTasks_ g ++ [task]) g).

(** ** [ModuleGenerator::finishLinking] *)

(** [for (uint32_t i = begin; i < end; i++)] *)
Definition forRange (begin end_ : Z) (body : Z -> M unit) : M unit :=
  forEach (seqZ begin (end_ - begin)) body.

(** The [#ifdef DEBUG] block at the head of [finishLinking].  For asm.js
    the functions that the module defines, [numFuncDefs_] of them from
    [AsmJSFirstDefFuncIndex] on, are compiled and no other function is; for
    wasm every function is compiled.  [isAsmJS()] and
    [AsmJSFirstDefFuncIndex] are declared outside the generator. *)
Definition finishLinking_debug (isAsmJS : bool) (AsmJSFirstDefFuncIndex : Z) : M unit :=
  if isAsmJS then
    forRange 0 AsmJSFirstDefFuncIndex (fun i =>
      let* v := gets funcToCodeRange_ in
      let* codeRangeIndex := at_ v i in
      MOZ_ASSERT (codeRangeIndex =? BAD_CODE_RANGE) FuncNotDefined) >>
    let* numFuncDefs := gets numFuncDefs_ in
    forRange AsmJSFirstDefFuncIndex (wrap32 (AsmJSFirstDefFuncIndex + numFuncDefs))
      (fun i =>
        let* v := gets funcToCodeRange_ in
        let* codeRangeIndex := at_ v i in
        MOZ_ASSERT (negb (codeRangeIndex =? BAD_CODE_RANGE)) FuncNotCompiled) >>
    let* numFuncDefs := gets numFuncDefs_ in
    let* v := gets funcToCodeRange_ in
    forRange (wrap32 (AsmJSFirstDefFuncIndex + numFuncDefs)) (Z.of_nat (length v))
      (fun i =>
        let* v := gets funcToCodeRange_ in
        let* codeRangeIndex := at_ v i in
        MOZ_ASSERT (codeRangeIndex =? BAD_CODE_RANGE) FuncNotDefined)
  else
    let* v := gets funcToCodeRange_ in
    forEach v (fun codeRangeIndex =>
      MOZ_ASSERT (negb (codeRangeIndex =? BAD_CODE_RANGE)) FuncNotCompiled).

Definition finishLinking (isAsmJS : bool) (AsmJSFirstDefFuncIndex : Z) : M unit :=
  finishLinking_debug isAsmJS AsmJSFirstDefFuncIndex >>
  linkCallSites >>
  let* fars := gets callFarJumps_ in
  forEach fars (fun far =>
    let* cr := funcCodeRange (CallFarJump.funcIndex far) in
    patchFarJump (CallFarJump.jump far) (CodeRange.funcNormalEntry cr)) >>
  let* fars := gets trapFarJumps_ in
  forEach fars (fun far =>
    let* offsets := gets trapCodeOffsets_ in
    patchFarJump (TrapFarJump.jump far) (offsets (TrapFarJump.trap far))) >>
  let* fars := gets debugTrapFarJumps_ in
  forEach fars (fun farJump =>
    let* target := gets debugTrapCodeOffset_ in
    patchFarJump farJump target) >>
  let* oom := masm_oom in
  if oom then fail else ret tt.

(** ** Function exports: the end of [initWasm], and [finishFuncExports] *)

Definition exportedFuncs_put (funcIndex : Z) : M unit :=
  modify (fun g => set_exportedFuncs_ ({[funcIndex]} ∪ exportedFuncs_ g) g).

(** The last two loops of [ModuleGenerator::initWasm]. *)
Definition initExportedFuncs : M unit :=
  forEach (env_exports env_) (fun exp =>
    match exp_kind exp with
    | DK_Function => exportedFuncs_put (exp_funcIndex exp)
    | _ => ret tt
    end) >>
  match env_startFuncIndex env_ with
  | Some startFuncIndex => exportedFuncs_put startFuncIndex
  | None => ret tt
  end.

Definition funcSig (funcIndex : Z) : M Sig := at_ (env_funcSigs env_) funcIndex.

Definition is_nil {A} (l : list A) : bool :=
  match l with [] => true | _ => false end.

(** [std::sort] on a vector of [uint32_t] is the ascending sort. *)
Definition finishFuncExports : M unit :=
  forEach (env_elemSegments env_) (fun elems =>
    let* table := at_ (env_tables env_) (tableIndex elems) in
    if external table then forEach (elemFuncIndices elems) exportedFuncs_put
    else ret tt) >>
  let* exported := gets exportedFuncs_ in
  let sorted := merge_sort Z.le (elements exported) in
  let* exports := gets (fun g => MetadataTier.funcExports (metadataTier_ g)) in
  MOZ_ASSERT (is_nil exports) FuncExportsNotEmpty >>
  forEach sorted (fun funcIndex =>
    let* sig := funcSig funcIndex in
    modify (fun g =>
      set_metadataTier_
        (MetadataTier.set_funcExports
           (MetadataTier.funcExports (metadataTier_ g) ++ [FuncExport.make sig funcIndex])
           (metadataTier_ g)) g)).

(** ** Batching: [compileFuncDef] and what it calls *)

Definition tier : Tier := env_tier env_.

Definition CompiledCode_isEmpty (c : CompiledCode) : bool :=
  is_nil (bytes c) && is_nil (codeRanges c) && is_nil (callSites c) &&
  is_nil (callSiteTargets c) && is_nil (trapSites c) && is_nil (trapFarJumps c) &&
  is_nil (callFarJumps c) && is_nil (memoryAccesses c) &&
  is_nil (symbolicAccesses c) && is_nil (codeLabels c).

Inductive TaskResult :=
| TaskDone (t : CompileTask)        (* returned true *)
| TaskFailed (error : UniqueChars)  (* returned false, with [*error] *)
| TaskAbort (f : Fault).

(** [ExecuteCompileTask(task, error)] *)
Definition ExecuteCompileTask (task : CompileTask) : TaskResult :=
  if negb (CompiledCode_isEmpty (output task)) then TaskAbort TaskNotReset
  else
    match match tier with
          | Ion => IonCompileFunctions (inputs task)
          | Baseline => BaselineCompileFunctions (inputs task)
          end with
    | inr error => TaskFailed error
    | inl out =>
        if (length (inputs task) =? length (codeRanges out))%nat
        then TaskDone {| inputs := []; output := out |}
        else TaskAbort OutputMismatch
    end.

(** [Vector::popCopy]: removes and returns the last element. *)
Definition popCopy {A} (v : list A) : option (A * list A) :=
  match list.last v with
  | Some x => Some (x, removelast v)
  | None => None
  end.

Definition launchBatchCompile : M unit :=
  modify (fun g => set_launched_ (S (launched_ g)) g) >>
  let* current := gets currentTask_ in
  match current with
  | None => abort NoCurrentTask
  | Some task =>
      let* cancelled := gets cancelled_ in
      if cancelled then fail
      else
        let* parallel := gets parallel_ in
        (if parallel then
           if StartOffThreadWasmCompile task
           then modify (fun g => set_outstanding_ (wrap32 (outstanding_ g + 1)) g)
           else fail
         else
           let* tasks := gets tasks_ in
           let* t := at_ tasks (Z.of_nat task) in
           match ExecuteCompileTask t with
           | TaskAbort f => abort f
           | TaskFailed error => modify (set_error_ error) >> fail
           | TaskDone t' =>
               modify (fun g => set_tasks_ (<[task := t']> (tasks_ g)) g) >>
               finishTask task
           end) >>
        modify (set_currentTask_ None) >>
        modify (set_batchedBytecode_ 0)
  end.

(** The loop of [finishOutstandingTask] leaves when a task failed or one
    finished; otherwise the coordinator waits, and runs the same test
    again when it is woken up. *)
Definition finishOutstandingTask : M unit :=
  let* parallel := gets parallel_ in
  MOZ_ASSERT parallel NotParallel >>
  let* outstanding := gets outstanding_ in
  MOZ_ASSERT (0 <? outstanding) NothingOutstanding >>
  let* taskState := gets taskState_ in
  if 0 <? numFailed taskState then fail
  else
    match popCopy (finished taskState) with
    | None => fun g => Blocked g
    | Some (task, rest) =>
        modify (fun g => set_outstanding_ (wrap32 (outstanding_ g - 1)) g) >>
        modify (set_taskState_
                  {| finished := rest;
                     numFailed := numFailed taskState;
                     errorMessage := errorMessage taskState |}) >>
        finishTask task
    end.

Definition addInput (input : FuncCompileInput) (t : CompileTask) : CompileTask :=
  {| inputs := inputs t ++ [input]; output := output t |}.

Definition funcBytecodeLength (begin end_ : Z) : Z := wrap32 (end_ - begin).

Definition compileFuncDef (funcIndex lineOrBytecode begin end_ : Z) : M unit :=
  modify (fun g => set_numFuncDefs_ (wrap32 (numFuncDefs_ g + 1)) g) >>
  let* current := gets currentTask_ in
  match current with
  | Some _ => ret tt
  | None =>
      let* free := gets freeTasks_ in
      (if is_nil free then finishOutstandingTask else ret tt) >>
      let* free := gets freeTasks_ in
      match popCopy free with
      | None => abort IndexOutOfBounds
      | Some (task, rest) =>
          modify (set_freeTasks_ rest) >>
          modify (set_currentTask_ (Some task))
      end
  end >>
  let* current := gets currentTask_ in
  match current with
  | None => abort NoCurrentTask
  | Some task =>
      let* tasks := gets tasks_ in
      let* t := at_ tasks (Z.of_nat task) in
      let input :=
        {| fi_index := funcIndex; fi_lineOrBytecode := lineOrBytecode;
           fi_begin := begin; fi_end := end_ |} in
      modify (fun g => set_tasks_ (<[task := addInput input t]> (tasks_ g)) g) >>
      let threshold :=
        match tier with
        | Baseline => wasmBatchBaselineThreshold JitOptions
        | Ion => wasmBatchIonThreshold JitOptions
        end in
      modify (fun g =>
        set_batchedBytecode_
          (wrap32 (batchedBytecode_ g + funcBytecodeLength begin end_)) g) >>
      let* batched := gets batchedBytecode_ in
      MOZ_ASSERT (batched <=? MaxModuleBytes isa) ModuleTooBig >>
      if batched <=? threshold then ret tt else launchBatchCompile
  end.

(** ** Construction and start *)

Definition MacroAssembler_new : MacroAssembler.t :=
  {| MacroAssembler.size := 0; MacroAssembler.oom := false;
     MacroAssembler.patchedCalls := []; MacroAssembler.patchedFarJumps := [] |}.

(** The constructor, with the tiers as [initWasm] creates them. *)
Definition ModuleGenerator_new (cancelled : bool) : ModuleGenerator :=
  {| masm_ := MacroAssembler_new;
     metadataTier_ :=
       {| MetadataTier.codeRanges := []; MetadataTier.callSites := [];
          MetadataTier.memoryAccesses := []; MetadataTier.funcImports := [];
          MetadataTier.funcExports := [];
          MetadataTier.debugTrapFarJumpOffsets := [];
          MetadataTier.debugFuncToCodeRange := [] |};
     linkDataTier_ :=
       {| LinkDataTier.internalLinks := [];
          LinkDataTier.symbolicLinks := fun _ => [];
          LinkDataTier.outOfBoundsOffset := 0;
          LinkDataTier.unalignedAccessOffset := 0;
          LinkDataTier.interruptOffset := 0 |};
     taskState_ := {| finished := []; numFailed := 0; errorMessage := None |};
     exportedFuncs_ := ∅;
     funcToCodeRange_ := [];
     trapCodeOffsets_ := fun _ => 0;
     debugTrapCodeOffset_ := 0;
     callSiteTargets_ := [];
     callFarJumps_ := [];
     trapFarJumps_ := [];
     debugTrapFarJumps_ := [];
     lastPatchedCallSite_ := 0;
     startOfUnpatchedCallsites_ := 0;
     parallel_ := false;
     outstanding_ := 0;
     tasks_ := [];
     freeTasks_ := [];
     currentTask_ := None;
     batchedBytecode_ := 0;
     numFuncDefs_ := 0;
     error_ := None;
     cancelled_ := cancelled;
     noted_ := [];
     launched_ := 0%nat |}.

(** [ModuleGenerator::init], for a wasm module: the code-range index of
    every function starts as [BAD_CODE_RANGE] and the exported functions
    are seeded by [initWasm]. *)
Definition init : M unit :=
  modify (fun g =>
    set_funcToCodeRange_
      (funcToCodeRange_ g ++ replicate (length (env_funcSigs env_)) BAD_CODE_RANGE) g) >>
  modify (set_exportedFuncs_ ∅) >>
  initExportedFuncs.

(** [ModuleGenerator::startFuncDefs]; [extraThreads] is
    [CanUseExtraThreads() && threads.cpuCount > 1]. *)
Definition startFuncDefs (extraThreads : bool) (maxWasmCompilationThreads : nat) :
    M unit :=
  let numTasks := if extraThreads then (2 * maxWasmCompilationThreads)%nat else 1%nat in
  (if extraThreads then modify (set_parallel_ true) else ret tt) >>
  modify (fun g =>
    set_tasks_
      (tasks_ g ++ replicate numTasks {| inputs := []; output := CompiledCode_empty |}) g) >>
  modify (fun g => set_freeTasks_ (freeTasks_ g ++ seq 0 numTasks) g).

(** ** Notions used in the statements *)

Definition codeRanges_of (g : ModuleGenerator) := MetadataTier.codeRanges (metadataTier_ g).
Definition callSites_of (g : ModuleGenerator) := MetadataTier.callSites (metadataTier_ g).
Definition memoryAccesses_of (g : ModuleGenerator) :=
  MetadataTier.memoryAccesses (metadataTier_ g).
Definition funcExports_of (g : ModuleGenerator) := MetadataTier.funcExports (metadataTier_ g).
Definition debugTrapFarJumpOffsets_of (g : ModuleGenerator) :=
  MetadataTier.debugTrapFarJumpOffsets (metadataTier_ g).
Definition symbolicLinks_of (g : ModuleGenerator) :=
  LinkDataTier.symbolicLinks (linkDataTier_ g).
Definition internalLinks_of (g : ModuleGenerator) :=
  LinkDataTier.internalLinks (linkDataTier_ g).
Definition size_of (g : ModuleGenerator) := MacroAssembler.size (masm_ g).
Definition oom_of (g : ModuleGenerator) := MacroAssembler.oom (masm_ g).
Definition patchedCalls_of (g : ModuleGenerator) := MacroAssembler.patchedCalls (masm_ g).
Definition patchedFarJumps_of (g : ModuleGenerator) :=
  MacroAssembler.patchedFarJumps (masm_ g).

(** What the generator needs of the target: a positive alignment, a buffer
    whose size fits the [uint32_t] that [size()] returns, and a patch point
    inside the far jump. *)
Record PlatformOk : Prop := {
  alignment_pos : 0 < CodeAlignment isa;
  capacity_u32 : MaxCodeBytes isa <= UINT32_MAX;
  farJump_patch : 0 <= FarJumpPatchAt isa <= FarJumpSize isa;
  tlsReload_size : 0 <= TlsReloadSize isa
}.

(** The append offset [B]: the size of the master buffer once aligned. *)
Definition appendOffset (g : ModuleGenerator) : Z :=
  MacroAssembler.size (masm_haltingAlign (CodeAlignment isa) (masm_ g)).

(** A task-local offset lies within the bytes of its code. *)
Definition within (code : CompiledCode) (o : Z) : Prop :=
  0 <= o <= Z.of_nat (length (bytes code)).

Record offsets_in_bytes (code : CompiledCode) : Prop := {
  oib_codeRanges :
    Forall (fun cr => within code (CodeRange.begin cr) /\ within code (CodeRange.end_ cr))
      (codeRanges code);
  oib_callSites :
    Forall (fun cs => within code (CallSite.returnAddressOffset cs)) (callSites code);
  oib_trapFarJumps :
    Forall (fun f => within code (TrapFarJump.jump f)) (trapFarJumps code);
  oib_callFarJumps :
    Forall (fun f => within code (CallFarJump.jump f)) (callFarJumps code);
  oib_memoryAccesses :
    Forall (fun ma => within code (MemoryAccess.insnOffset ma)) (memoryAccesses code);
  oib_symbolicAccesses :
    Forall (fun a => within code (SymbolicAccess.patchAt a)) (symbolicAccesses code);
  oib_codeLabels :
    Forall (fun l => within code (CodeLabel.patchAt l) /\ within code (CodeLabel.target l))
      (codeLabels code)
}.

(** The records of a task shifted by [B], in the words of the spec: plain
    sums, without wrap-around. *)
Definition shift_codeRange (B : Z) (cr : CodeRange.t) : CodeRange.t :=
  {| CodeRange.kind := CodeRange.kind cr;
     CodeRange.begin := B + CodeRange.begin cr;
     CodeRange.end_ := B + CodeRange.end_ cr;
     CodeRange.funcIndex := CodeRange.funcIndex cr;
     CodeRange.trap := CodeRange.trap cr;
     CodeRange.beginToNormalEntry := CodeRange.beginToNormalEntry cr |}.

Definition shift_callSite (B : Z) (cs : CallSite.t) : CallSite.t :=
  {| CallSite.returnAddressOffset := B + CallSite.returnAddressOffset cs;
     CallSite.kind := CallSite.kind cs |}.

Definition shift_trapFarJump (B : Z) (f : TrapFarJump.t) : TrapFarJump.t :=
  {| TrapFarJump.trap := TrapFarJump.trap f; TrapFarJump.jump := B + TrapFarJump.jump f |}.

Definition shift_callFarJump (B : Z) (f : CallFarJump.t) : CallFarJump.t :=
  {| CallFarJump.funcIndex := CallFarJump.funcIndex f;
     CallFarJump.jump := B + CallFarJump.jump f |}.

Definition shift_memoryAccess (B : Z) (ma : MemoryAccess.t) : MemoryAccess.t :=
  {| MemoryAccess.insnOffset := B + MemoryAccess.insnOffset ma |}.

Definition shift_codeLabel (B : Z) (l : CodeLabel.t) : InternalLink.t :=
  {| InternalLink.patchAtOffset := B + CodeLabel.patchAt l;
     InternalLink.targetOffset := B + CodeLabel.target l |}.

(** The patch offsets that the symbolic accesses of a code push for [target]. *)
Definition symbolicPatches (B : Z) (target : SymbolicAddress)
    (accesses : list SymbolicAccess.t) : list Z :=
  (fun a => B + SymbolicAccess.patchAt a) <$>
    filter (fun a => SymbolicAccess.target a = target) accesses.

(** The rest of [linkCompiledCode], once the bytes are appended at
    [offsetInModule]. *)
Definition appendTables (code : CompiledCode) (offsetInModule : Z) : M unit :=
    AppendForEach (fun g => MetadataTier.codeRanges (metadataTier_ g)) set_codeRanges
      (codeRanges code)
      (fun codeRangeIndex codeRange =>
         let codeRange := CodeRange.offsetBy codeRange offsetInModule in
         noteCodeRange codeRangeIndex codeRange >>
         ret codeRange) >>
    AppendForEach (fun g => MetadataTier.callSites (metadataTier_ g)) set_callSites
      (callSites code)
      (fun _ cs => ret (CallSite.offsetBy cs offsetInModule)) >>
    modify (fun g => set_callSiteTargets_ (callSiteTargets_ g ++ callSiteTargets code) g) >>
    MOZ_ASSERT (bool_decide (trapSites code = [])) TrapSitesNotEmpty >>
    AppendForEach trapFarJumps_ set_trapFarJumps_ (trapFarJumps code)
      (fun _ tfj => ret (TrapFarJump.offsetBy tfj offsetInModule)) >>
    AppendForEach callFarJumps_ set_callFarJumps_ (callFarJumps code)
      (fun _ cfj => ret (CallFarJump.offsetBy cfj offsetInModule)) >>
    AppendForEach (fun g => MetadataTier.memoryAccesses (metadataTier_ g))
      set_memoryAccesses (memoryAccesses code)
      (fun _ ma => ret (MemoryAccess.offsetBy ma offsetInModule)) >>
    forEach (symbolicAccesses code) (fun access =>
      let patchAt := wrap32 (offsetInModule + SymbolicAccess.patchAt access) in
      modify (fun g =>
        set_linkDataTier_
          (LinkDataTier.set_symbolicLinks
             (<[SymbolicAccess.target access :=
                  LinkDataTier.symbolicLinks (linkDataTier_ g)
                    (SymbolicAccess.target access) ++ [patchAt]]>
                (LinkDataTier.symbolicLinks (linkDataTier_ g)))
             (linkDataTier_ g)) g)) >>
    forEach (codeLabels code) (fun codeLabel =>
      let link :=
        {| InternalLink.patchAtOffset :=
             wrap32 (offsetInModule + CodeLabel.patchAt codeLabel);
           InternalLink.targetOffset :=
             wrap32 (offsetInModule + CodeLabel.target codeLabel) |} in
      modify (fun g =>
        set_linkDataTier_
          (LinkDataTier.set_internalLinks
             (LinkDataTier.internalLinks (linkDataTier_ g) ++ [link])
             (linkDataTier_ g)) g)).

(** The generator after the alignment and the append of the bytes. *)
Definition appended (code : CompiledCode) (g : ModuleGenerator) : ModuleGenerator :=
  let g1 := set_masm_ (masm_haltingAlign (CodeAlignment isa) (masm_ g)) g in
  set_masm_ (masm_emit (Z.of_nat (length (bytes code))) (masm_ g1)) g1.

(** ** Sortedness of the tables of the module *)

Definition nondecreasing (l : list Z) : Prop := StronglySorted Z.le l.

Definition begins (l : list CodeRange.t) : list Z := CodeRange.begin <$> l.

Definition returnAddresses (l : list CallSite.t) : list Z :=
  CallSite.returnAddressOffset <$> l.

(** The code ranges and call sites of a task come in the order of their
    offsets. *)
Definition ordered (code : CompiledCode) : Prop :=
  nondecreasing (begins (codeRanges code)) /\
  nondecreasing (returnAddresses (callSites code)).

(** The invariant of the linker: both tables are sorted and lie in the
    part of the buffer emitted so far. *)
Record link_inv (g : ModuleGenerator) : Prop := {
  inv_size : 0 <= size_of g;
  inv_codeRanges : nondecreasing (begins (codeRanges_of g));
  inv_callSites : nondecreasing (returnAddresses (callSites_of g));
  inv_codeRanges_emitted : Forall (fun b => b <= size_of g) (begins (codeRanges_of g));
  inv_callSites_emitted : Forall (fun r => r <= size_of g) (returnAddresses (callSites_of g))
}.

(** The generators reached from a fresh one by the calls that touch the
    buffer and the tables, whether they return true or false; any other
    method leaves the buffer size and both tables as they are. *)
Inductive returns {A} (m : M A) (g g' : ModuleGenerator) : Prop :=
| returns_true a : m g = Ok a g' -> returns m g g'
| returns_false : m g = Fail g' -> returns m g g'.

Inductive linked : ModuleGenerator -> Prop :=
| linked_new g :
    size_of g = 0 -> codeRanges_of g = [] -> callSites_of g = [] -> linked g
| linked_code code g g' :
    linked g -> ordered code -> offsets_in_bytes code ->
    returns (linkCompiledCode code) g g' -> linked g'
| linked_callSites g g' :
    linked g -> returns linkCallSites g g' -> linked g'
| linked_other g g' :
    linked g -> size_of g' = size_of g -> codeRanges_of g' = codeRanges_of g ->
    callSites_of g' = callSites_of g -> linked g'.

(** ** Exported functions *)

(** A function is exported when an export names it, when it is the start
    function, or when it is an element of a segment of an external table. *)
Definition explicitly_exported (f : Z) : Prop :=
  exists exp, exp ∈ env_exports env_ /\ exp_kind exp = DK_Function /\ exp_funcIndex exp = f.

Definition in_external_table (f : Z) : Prop :=
  exists elems table,
    elems ∈ env_elemSegments env_ /\
    env_tables env_ !! Z.to_nat (tableIndex elems) = Some table /\
    external table = true /\
    f ∈ elemFuncIndices elems.

Definition exported (f : Z) : Prop :=
  explicitly_exported f \/ env_startFuncIndex env_ = Some f \/ in_external_table f.

Definition exportIndices (g : ModuleGenerator) : list Z :=
  FuncExport.funcIndex <$> funcExports_of g.

(** ** Runs of the linker and the slots they set *)

Global Instance Slot_eq_dec : EqDecision Slot.
Proof. solve_decision. Defined.

(** The calls that append to the buffer, in the order of a run; the run
    ends with [finishLinking].  [finishTask] is a pass over the call sites
    (when the buffer has grown out of range) followed by the link of the
    output of the task. *)
Inductive LinkStep :=
| StepCode (code : CompiledCode)
| StepCallSites.

Definition runStep (s : LinkStep) : M unit :=
  match s with
  | StepCode code => linkCompiledCode code
  | StepCallSites => linkCallSites
  end.

Definition runLinker (isAsmJS : bool) (AsmJSFirstDefFuncIndex : Z)
    (steps : list LinkStep) : M unit :=
  forEach steps runStep >> finishLinking isAsmJS AsmJSFirstDefFuncIndex.

(** The slot that a code range sets, by its kind. *)
Definition slotOf (cr : CodeRange.t) : option Slot :=
  match CodeRange.kind cr with
  | CodeRange.TrapExit => Some (SlotTrap (CodeRange.trap cr))
  | CodeRange.DebugTrap => Some SlotDebugTrap
  | CodeRange.OutOfBoundsExit => Some SlotOutOfBounds
  | CodeRange.UnalignedExit => Some SlotUnaligned
  | CodeRange.Interrupt => Some SlotInterrupt
  | _ => None
  end.







(** ** Reasoning about methods

    [wp m Q E g]: run from [g], the method [m] aborts, or returns a value
    and a state that satisfy [Q], or fails or blocks in a state that
    satisfies [E]. *)

Definition wp {A} (m : M A) (Q : A -> ModuleGenerator -> Prop)
    (E : ModuleGenerator -> Prop) (g : ModuleGenerator) : Prop :=
  match m g with
  | Ok a g' => Q a g'
  | Fail g' => E g'
  | Blocked g' => E g'
  | Abort _ => True
  end.

(** A method preserves a component of the state. *)
Definition preserves {A X} (proj : ModuleGenerator -> X) (m : M A) : Prop :=
  forall g, wp m (fun _ g' => proj g' = proj g) (fun g' => proj g' = proj g) g.


(** A method that never returns false. *)
Definition nofail {A} (m : M A) : Prop :=
  forall g, wp m (fun _ _ => True) (fun _ => False) g.



(** The state in which a method leaves the generator. *)
Definition after {A} (m : M A) (g : ModuleGenerator) : ModuleGenerator :=
  match m g with
  | Ok _ g' | Fail g' | Blocked g' => g'
  | Abort _ => g
  end.

(** [wpx] is [wp] with a condition on the fault of an abort. *)
Definition wpx {A} (m : M A) (Q : A -> ModuleGenerator -> Prop)
    (E : ModuleGenerator -> Prop) (F : Fault -> Prop) (g : ModuleGenerator) : Prop :=
  match m g with
  | Ok a g' => Q a g'
  | Fail g' => E g'
  | Blocked g' => E g'
  | Abort f => F f
  end.

(** Every abort of the method has a fault in [F]. *)
Definition faults {A} (F : Fault -> Prop) (m : M A) : Prop :=
  forall g, wpx m (fun _ _ => True) (fun _ => True) F g.

Definition not_a_slot_fault (f : Fault) : Prop := forall s, f <> SlotAlreadySet s.


(** ** What a pass over the call sites has done

    [g0] is the generator when the loop of [linkCallSites] starts, [g] the
    generator later in the same pass, [ex] and [exT] the islands of the
    pass so far.  A call needs an island when [patchDirect] leaves it
    unpatched: its callee is not compiled yet or not in range. *)
Definition needs_island (g : ModuleGenerator) (cs : CallSite.t) (f : Z) : Prop :=
  patchDirect (CallSite.returnAddressOffset cs) f g = Ok false g.

Definition callIsland (f p : Z) : CallFarJump.t :=
  {| CallFarJump.funcIndex := f; CallFarJump.jump := p + FarJumpPatchAt isa |}.

Definition trapIsland (t : Trap) (p : Z) : TrapFarJump.t :=
  {| TrapFarJump.trap := t;
     TrapFarJump.jump := p + TlsReloadSize isa + FarJumpPatchAt isa |}.

Definition pass_inv (g0 g : ModuleGenerator) (ex : gmap Z Z) (exT : nat -> option Z) :
    Prop :=
  exists addP addR newJ newT,
    (funcToCodeRange_ g = funcToCodeRange_ g0 /\
     callSites_of g = callSites_of g0 /\
     callSiteTargets_ g = callSiteTargets_ g0 /\
     patchedFarJumps_of g = patchedFarJumps_of g0 /\
     size_of g0 <= size_of g /\
     lastPatchedCallSite_ g0 <= lastPatchedCallSite_ g) /\
    patchedCalls_of g = patchedCalls_of g0 ++ addP /\
    codeRanges_of g = codeRanges_of g0 ++ addR /\
    callFarJumps_ g = callFarJumps_ g0 ++ newJ /\
    trapFarJumps_ g = trapFarJumps_ g0 ++ newT /\
    NoDup (CallFarJump.funcIndex <$> newJ) /\
    NoDup (TrapFarJump.trap <$> newT) /\
    (forall f, f ∈ (CallFarJump.funcIndex <$> newJ) <-> is_Some (ex !! f)) /\
    (forall t, t ∈ (TrapFarJump.trap <$> newT) <-> is_Some (exT t)) /\
    (forall f p, ex !! f = Some p ->
       size_of g0 <= p /\ p + FarJumpSize isa <= size_of g /\
       CodeRange.island p (p + FarJumpSize isa) ∈ addR /\
       callIsland f p ∈ newJ) /\
    (forall (i : nat) cs f,
       lastPatchedCallSite_ g0 <= Z.of_nat i < lastPatchedCallSite_ g ->
       callSites_of g0 !! i = Some cs ->
       CallSite.kind cs = CallSiteDesc.Func ->
       callSiteTargets_ g0 !! i = Some (TargetFunc f) ->
       needs_island g0 cs f ->
       exists p, ex !! f = Some p /\ (CallSite.returnAddressOffset cs, p) ∈ addP) /\
    (forall t p, exT t = Some p ->
       size_of g0 <= p /\
       CodeRange.island p (p + TlsReloadSize isa + FarJumpSize isa) ∈ addR /\
       trapIsland t p ∈ newT) /\
    (forall (i : nat) cs t,
       lastPatchedCallSite_ g0 <= Z.of_nat i < lastPatchedCallSite_ g ->
       callSites_of g0 !! i = Some cs ->
       CallSite.kind cs = CallSiteDesc.TrapExit ->
       callSiteTargets_ g0 !! i = Some (TargetTrap t) ->
       exists p, exT t = Some p /\ (CallSite.returnAddressOffset cs, p) ∈ addP).

(** The part of the state that patching a far jump leaves alone. *)
Definition link_view (g : ModuleGenerator) :=
  (funcToCodeRange_ g, codeRanges_of g, callFarJumps_ g, patchedCalls_of g,
   callSites_of g, callSiteTargets_ g).

(** What a pass or a linked task leaves in place: the code ranges, the
    patched calls and the far jumps of calls recorded so far. *)
Definition grown (g g' : ModuleGenerator) : Prop :=
  codeRanges_of g `prefix_of` codeRanges_of g' /\
  patchedCalls_of g `prefix_of` patchedCalls_of g' /\
  callFarJumps_ g `prefix_of` callFarJumps_ g'.

Definition grows {A} (m : M A) : Prop :=
  forall g, wp m (fun _ g' => grown g g') (fun _ => True) g.

(** The call site [i] has not been visited by a pass yet. *)
Definition pending (g : ModuleGenerator) (i : nat) (cs : CallSite.t)
    (target : CallSiteTarget) : Prop :=
  lastPatchedCallSite_ g <= Z.of_nat i /\
  callSites_of g !! i = Some cs /\
  callSiteTargets_ g !! i = Some target.

(** In the state [g3] the call at [cs] goes to an island emitted at or after
    the offset [from], and the far jump of the island goes to the entry of
    the function [f]. *)
Definition reaches_callee (from : Z) (g3 : ModuleGenerator) (cs : CallSite.t) (f : Z) :
    Prop :=
  exists p cr,
    from <= p /\
    CodeRange.island p (p + FarJumpSize isa) ∈ codeRanges_of g3 /\
    (CallSite.returnAddressOffset cs, p) ∈ patchedCalls_of g3 /\
    funcCodeRange f g3 = Ok cr g3 /\
    (p + FarJumpPatchAt isa, CodeRange.funcNormalEntry cr) ∈ patchedFarJumps_of g3.

(** ** Batches of function bodies *)

Definition batchThreshold : Z :=
  match tier with
  | Baseline => wasmBatchBaselineThreshold JitOptions
  | Ion => wasmBatchIonThreshold JitOptions
  end.

(** The bytecode of the inputs of a task, added up as [batchedBytecode_]
    is. *)
Definition batchedBytecodeOf (l : list FuncCompileInput) : Z :=
  foldl (fun acc input => wrap32 (acc + funcBytecodeLength (fi_begin input) (fi_end input)))
        0 l.

(** The inputs of the current task; none when there is no current task. *)
Definition currentInputs (g : ModuleGenerator) : list FuncCompileInput :=
  match currentTask_ g with
  | Some task =>
      match tasks_ g !! task with
      | Some t => inputs t
      | None => []
      end
  | None => []
  end.

(** [batchedBytecode_] counts the inputs of the current task, and the free
    tasks have no inputs. *)
Definition batch_inv (g : ModuleGenerator) : Prop :=
  batchedBytecode_ g = batchedBytecodeOf (currentInputs g) /\
  forall task t, task ∈ freeTasks_ g -> tasks_ g !! task = Some t -> inputs t = [].

Definition batch_view (g : ModuleGenerator) :=
  (tasks_ g, freeTasks_ g, currentTask_ g, batchedBytecode_ g, launched_ g).

(** ** A small module

    Two functions, on a platform whose direct branches reach less than 16
    bytes.  Function 0 calls itself twice and has one trap exit; function 1
    calls function 0; the stubs come last. *)

Definition ex_JitOptions : JitOptionsT :=
  {| jumpThreshold := 16; wasmBatchBaselineThreshold := 10;
     wasmBatchIonThreshold := 20 |}.

Definition ex_isa : Platform :=
  {| CodeAlignment := 16; JumpImmediateRange := 1024; FarJumpSize := 8;
     FarJumpPatchAt := 4; TlsReloadSize := 4; MaxCodeBytes := 4096;
     MaxModuleBytes := 1000000 |}.

Definition ex_sig : Sig := {| sig_args := [I32]; sig_ret := Some I32 |}.

Definition ex_env : ModuleEnvironment :=
  {| env_tier := Baseline;
     env_exports :=
       [ {| exp_kind := DK_Function; exp_funcIndex := 1 |};
         {| exp_kind := DK_Memory; exp_funcIndex := 0 |} ];
     env_startFuncIndex := Some 0;
     env_tables := [ {| external := true |}; {| external := false |} ];
     env_elemSegments :=
       [ {| tableIndex := 0; elemFuncIndices := [2; 1] |};
         {| tableIndex := 1; elemFuncIndices := [3] |} ];
     env_funcSigs := [ex_sig; ex_sig; ex_sig; ex_sig] |}.

Definition ex_function (f len entry : Z) : CodeRange.t :=
  {| CodeRange.kind := CodeRange.Function; CodeRange.begin := 0;
     CodeRange.end_ := len; CodeRange.funcIndex := f; CodeRange.trap := 0%nat;
     CodeRange.beginToNormalEntry := entry |}.

Definition ex_call (ra : Z) : CallSite.t :=
  {| CallSite.returnAddressOffset := ra; CallSite.kind := CallSiteDesc.Func |}.

Definition ex_code0 : CompiledCode :=
  {| bytes := replicate 64 Byte.x00;
     codeRanges := [ex_function 0 64 4];
     callSites :=
       [ ex_call 40; ex_call 48;
         {| CallSite.returnAddressOffset := 56;
            CallSite.kind := CallSiteDesc.TrapExit |} ];
     callSiteTargets := [TargetFunc 0; TargetFunc 0; TargetTrap 1];
     trapSites := [];
     trapFarJumps := [];
     callFarJumps := [];
     memoryAccesses := [ {| MemoryAccess.insnOffset := 12 |} ];
     symbolicAccesses :=
       [ {| SymbolicAccess.patchAt := 20; SymbolicAccess.target := 3%nat |} ];
     codeLabels := [ {| CodeLabel.patchAt := 24; CodeLabel.target := 32 |} ] |}.

Definition ex_code1 : CompiledCode :=
  {| bytes := replicate 32 Byte.x00;
     codeRanges := [ex_function 1 32 0];
     callSites := [ex_call 8];
     callSiteTargets := [TargetFunc 0];
     trapSites := [];
     trapFarJumps := [ {| TrapFarJump.trap := 2%nat; TrapFarJump.jump := 16 |} ];
     callFarJumps := [ {| CallFarJump.funcIndex := 0; CallFarJump.jump := 20 |} ];
     memoryAccesses := [ {| MemoryAccess.insnOffset := 4 |} ];
     symbolicAccesses :=
       [ {| SymbolicAccess.patchAt := 12; SymbolicAccess.target := 3%nat |};
         {| SymbolicAccess.patchAt := 24; SymbolicAccess.target := 5%nat |} ];
     codeLabels := [ {| CodeLabel.patchAt := 28; CodeLabel.target := 0 |} ] |}.

Definition ex_stub (k : CodeRange.Kind) (t : Trap) (b : Z) : CodeRange.t :=
  {| CodeRange.kind := k; CodeRange.begin := b; CodeRange.end_ := b + 8;
     CodeRange.funcIndex := 0; CodeRange.trap := t;
     CodeRange.beginToNormalEntry := 0 |}.

Definition ex_stubs : CompiledCode :=
  {| bytes := replicate 48 Byte.x00;
     codeRanges :=
       [ ex_stub CodeRange.TrapExit 0 0; ex_stub CodeRange.TrapExit 1 8;
         ex_stub CodeRange.DebugTrap 0 16; ex_stub CodeRange.OutOfBoundsExit 0 24;
         ex_stub CodeRange.UnalignedExit 0 32; ex_stub CodeRange.Interrupt 0 40 ];
     callSites := [];
     callSiteTargets := [];
     trapSites := [];
     trapFarJumps := [];
     callFarJumps := [];
     memoryAccesses := [];
     symbolicAccesses := [];
     codeLabels := [] |}.


(** A generator that has just been initialised for two functions. *)
Definition ex_g0 : ModuleGenerator :=
  set_funcToCodeRange_ [BAD_CODE_RANGE; BAD_CODE_RANGE] (ModuleGenerator_new false).

(** The same, with 84 bytes in the buffer. *)
Definition ex_g84 : ModuleGenerator :=
  set_masm_
    {| MacroAssembler.size := 84; MacroAssembler.oom := false;
       MacroAssembler.patchedCalls := []; MacroAssembler.patchedFarJumps := [] |}
    ex_g0.

Definition ex_steps : list LinkStep :=
  [StepCode ex_code0; StepCallSites; StepCode ex_code1; StepCode ex_stubs].

(** A compiler for the examples: eight bytes of code for every function
    body. *)
Definition ex_compile (inputs : list FuncCompileInput) : CompiledCode + UniqueChars :=
  inl {| bytes := replicate (8 * length inputs) Byte.x00;
         codeRanges :=
           imap (fun k input =>
                   {| CodeRange.kind := CodeRange.Function;
                      CodeRange.begin := 8 * Z.of_nat k;
                      CodeRange.end_ := 8 * Z.of_nat k + 8;
                      CodeRange.funcIndex := fi_index input;
                      CodeRange.trap := 0%nat;
                      CodeRange.beginToNormalEntry := 0 |}) inputs;
         callSites := []; callSiteTargets := []; trapSites := [];
         trapFarJumps := []; callFarJumps := []; memoryAccesses := [];
         symbolicAccesses := []; codeLabels := [] |}.

(** The generator of the small module when the function bodies start, with
    one task and no helper thread. *)
Definition ex_started : ModuleGenerator :=
  set_freeTasks_ [0%nat]
    (set_tasks_ [ {| inputs := []; output := CompiledCode_empty |} ]
       (set_funcToCodeRange_ (replicate 4 BAD_CODE_RANGE) (ModuleGenerator_new false))).

(** The generator of the small module with helper threads, its two tasks
    outstanding, and the tasks [finished_] delivered by the helper threads:
    task 0 holds the code of function 0 and task 1 the code of function
    1. *)
Definition ex_delivered (finished_ : list CompileTaskPtr) : ModuleGenerator :=
  set_taskState_ {| finished := finished_; numFailed := 0; errorMessage := None |}
    (set_outstanding_ 2
       (set_parallel_ true
          (set_numFuncDefs_ 2
             (set_tasks_ [ {| inputs := []; output := ex_code0 |};
                           {| inputs := []; output := ex_code1 |} ] ex_g0)))).

(** The invariant of the batches when no helper thread is used: moreover
    the free tasks are distinct and the current task is not one of them. *)
Definition batch_ok (g : ModuleGenerator) : Prop :=
  batch_inv g /\
  NoDup (freeTasks_ g) /\
  (forall task, currentTask_ g = Some task -> task ∉ freeTasks_ g) /\
  parallel_ g = false.

(** ** The index of the functions

    [funcToCodeRange_] gives, for a compiled function, the index of a
    [Function] code range of that function. *)
Definition func_index_inv (g : ModuleGenerator) : Prop :=
  forall (f : nat) (i : Z),
    funcToCodeRange_ g !! f = Some i -> i <> BAD_CODE_RANGE ->
    exists cr,
      codeRanges_of g !! Z.to_nat i = Some cr /\
      CodeRange.kind cr = CodeRange.Function /\
      Z.to_nat (CodeRange.funcIndex cr) = f.

(** No function is compiled yet, as after [init]. *)
Definition no_function_compiled (g : ModuleGenerator) : Prop :=
  Forall (fun i => i = BAD_CODE_RANGE) (funcToCodeRange_ g).

(** From [g] to [g'] the code ranges are only appended to and the compiled
    functions keep their index. *)
Definition settled (g g' : ModuleGenerator) : Prop :=
  (exists add, codeRanges_of g' = codeRanges_of g ++ add) /\
  forall (f : nat) i,
    funcToCodeRange_ g !! f = Some i -> i <> BAD_CODE_RANGE ->
    funcToCodeRange_ g' !! f = Some i.

(** The kinds of call site that a pass patches. *)
Definition patched_kind (cs : CallSite.t) : bool :=
  match CallSite.kind cs with
  | CallSiteDesc.Func | CallSiteDesc.TrapExit => true
  | _ => false
  end.

(** From [g0] to [g] the index of the functions is the same and the code
    ranges appended are not of functions. *)
Definition same_functions (g0 g : ModuleGenerator) : Prop :=
  funcToCodeRange_ g = funcToCodeRange_ g0 /\
  exists addR,
    codeRanges_of g = codeRanges_of g0 ++ addR /\
    Forall (fun cr => CodeRange.isFunction cr = false) addR.

(** The generator with the far-jump patches [add] applied after those
    already in the log. *)
Definition with_patchedFarJumps (add : list (Z * Z)) (g : ModuleGenerator) :
    ModuleGenerator :=
  set_masm_
    (MacroAssembler.set_patchedFarJumps
       (MacroAssembler.patchedFarJumps (masm_ g) ++ add) (masm_ g)) g.

(** ** [ModuleGenerator::finishMetadata]

    The copies from the environment, the shrinking of the vectors and the
    debug information copied into [metadata_] do not show in the members
    kept here; the code-range indices of the element segments are returned.
    With debugging enabled [funcToCodeRange_] is moved into
    [debugFuncToCodeRange]; the vector moved from is left empty. *)

(** Modelled from the spec: [AlignBytes], declared outside the generator;
    [bytes] rounded up to a multiple of [alignment], in [uint32_t]. *)
Definition AlignBytes (bytes alignment : Z) : Z :=
  wrap32 (bytes + ComputeByteAlignment bytes alignment).

(** Modelled from the spec: [FuncExport::initCodeRangeIndex]. *)
Definition FuncExport_initCodeRangeIndex (codeRangeIndex : Z) (fe : FuncExport.t) :
    FuncExport.t :=
  {| FuncExport.sig := FuncExport.sig fe; FuncExport.funcIndex := FuncExport.funcIndex fe;
     FuncExport.codeRangeIndex := codeRangeIndex;
     FuncExport.entryOffset := FuncExport.entryOffset fe |}.

(** The two loops of the debug build, from [lastEnd] and from [lastOffset];
    [false] when an assertion fires. *)
Fixpoint codeRangesSorted (lastEnd : Z) (codeRanges : list CodeRange.t) : bool :=
  match codeRanges with
  | [] => true
  | codeRange :: rest =>
      (lastEnd <=? CodeRange.begin codeRange) &&
      codeRangesSorted (CodeRange.end_ codeRange) rest
  end.

Fixpoint debugTrapFarJumpOffsetsSorted (lastOffset : Z) (offsets : list Z) : bool :=
  match offsets with
  | [] => true
  | debugTrapFarJumpOffset :: rest =>
      (lastOffset <=? debugTrapFarJumpOffset) &&
      debugTrapFarJumpOffsetsSorted debugTrapFarJumpOffset rest
  end.

Inductive FinishFault :=
| CodeRangesNotSorted               (* codeRange.begin() >= lastEnd *)
| DebugTrapFarJumpOffsetsNotSorted  (* debugTrapFarJumpOffset >= lastOffset *)
| NumFuncDefsMismatch.              (* numFuncDefs_ == env_->numFuncDefs() *)

(** A loop that fills a vector of the same length, element by element. *)
Fixpoint mapM {A B} (f : A -> M B) (l : list A) : M (list B) :=
  match l with
  | [] => ret []
  | x :: rest =>
      let* y := f x in
      let* ys := mapM f rest in
      ret (y :: ys)
  end.

Section FinishMetadata.

(** [gc::SystemPageSize()] and [env_->debugEnabled()] *)
Variable SystemPageSize : Z.
Variable debugEnabled : bool.

Definition finishMetadata (metadata_ : Metadata) (g : ModuleGenerator) :
    FinishFault + Res (Metadata * list (list Z)) :=
  if negb (codeRangesSorted 0 (MetadataTier.codeRanges (metadataTier_ g)))
  then inl CodeRangesNotSorted
  else if negb (debugTrapFarJumpOffsetsSorted 0
                  (MetadataTier.debugTrapFarJumpOffsets (metadataTier_ g)))
  then inl DebugTrapFarJumpOffsetsNotSorted
  else
    inr
      ((let metadata_ :=
          {| globalDataLength := AlignBytes (globalDataLength metadata_) SystemPageSize |} in
        let* exports := gets (fun g => MetadataTier.funcExports (metadataTier_ g)) in
        let* exports :=
          mapM (fun fe =>
                  let* v := gets funcToCodeRange_ in
                  let* codeRangeIndex := at_ v (FuncExport.funcIndex fe) in
                  ret (FuncExport_initCodeRangeIndex codeRangeIndex fe)) exports in
        modify (fun g =>
          set_metadataTier_
            (MetadataTier.set_funcExports exports (metadataTier_ g)) g) >>
        let* codeRangeIndices :=
          mapM (fun elems =>
                  mapM (fun funcIndex =>
                          let* v := gets funcToCodeRange_ in
                          at_ v funcIndex) (elemFuncIndices elems))
               (env_elemSegments env_) in
        (if debugEnabled then
           modify (fun g =>
             set_funcToCodeRange_ []
               (set_metadataTier_
                  (MetadataTier.set_debugFuncToCodeRange (funcToCodeRange_ g)
                     (metadataTier_ g)) g))
         else ret tt) >>
        ret (metadata_, codeRangeIndices)) g).

End FinishMetadata.

(** The code ranges of a task are laid out one after the other within its
    bytes. *)
Definition laid_out (code : CompiledCode) : Prop :=
  codeRangesSorted 0 (codeRanges code) = true /\ offsets_in_bytes code.

Definition steps_laid_out (steps : list LinkStep) : Prop :=
  Forall (fun s => match s with StepCode code => laid_out code | StepCallSites => True end)
         steps.

(** The end of the last code range, [from] when there is none. *)
Definition lastEndOf (from : Z) (codeRanges : list CodeRange.t) : Z :=
  foldl (fun _ cr => CodeRange.end_ cr) from codeRanges.

(** The code ranges and the offsets of the debug-trap islands are in the
    order of the buffer and lie in the part of it emitted so far. *)
Record layout_inv (g : ModuleGenerator) : Prop := {
  lay_size : 0 <= size_of g;
  lay_codeRanges : codeRangesSorted 0 (codeRanges_of g) = true;
  lay_lastEnd : lastEndOf 0 (codeRanges_of g) <= size_of g;
  lay_offsets : debugTrapFarJumpOffsetsSorted 0 (debugTrapFarJumpOffsets_of g) = true;
  lay_lastOffset : Forall (fun o => o <= size_of g) (debugTrapFarJumpOffsets_of g)
}.

(** The code range at the index [codeRangeIndex] is the code range of the
    function [funcIndex], and it is a [Function] code range. *)
Definition resolves (g : ModuleGenerator) (funcIndex codeRangeIndex : Z) : Prop :=
  exists cr,
    codeRanges_of g !! Z.to_nat codeRangeIndex = Some cr /\
    funcCodeRange funcIndex g = Ok cr g /\
    CodeRange.kind cr = CodeRange.Function /\
    Z.to_nat (CodeRange.funcIndex cr) = Z.to_nat funcIndex.

(** ** [ModuleGenerator::createJumpTable] *)

Section JumpTable.

(** [env_->numFuncs()], the number of entries of the table, and
    [CodeRange::funcTierEntry], both declared outside the generator. *)
Variable numFuncs : nat.
Variable funcTierEntry : CodeRange.t -> Z.

(** The loop over the code ranges.  The table is a plain array: a store
    past its end is taken as a fault. *)
Fixpoint fillJumpTable (codeBase : Z) (codeRanges : list CodeRange.t)
    (jumpTable : list Z) : M (list Z) :=
  match codeRanges with
  | [] => ret jumpTable
  | codeRange :: rest =>
      if CodeRange.isFunction codeRange then
        let funcIndex := Z.to_nat (CodeRange.funcIndex codeRange) in
        if bool_decide (funcIndex < length jumpTable)%nat then
          fillJumpTable codeBase rest
            (<[funcIndex := codeBase + funcTierEntry codeRange]> jumpTable)
        else abort IndexOutOfBounds
      else fillJumpTable codeBase rest jumpTable
  end.

(** [CompileMode], declared outside the generator. *)
Inductive CompileMode := Once | Tier1 | Tier2.

Definition isTier1 (mode : CompileMode) : bool :=
  match mode with Tier1 => true | _ => false end.

(** [js_pod_calloc<void*>(numElems)] gives a table whose entries are all
    null, or null when the allocation fails; [allocates] tells which. *)
Definition js_pod_calloc (allocates : bool) (numElems : nat) : option (list Z) :=
  if allocates then Some (replicate numElems 0) else None.

(** [mode()] and [isAsmJS()] are declared outside the generator; returning
    null is [fail]. *)
Definition createJumpTable (mode : CompileMode) (isAsmJS allocates : bool)
    (codeBase : Z) : M (list Z) :=
  MOZ_ASSERT (isTier1 mode) ModeNotTier1 >>
  MOZ_ASSERT (negb isAsmJS) ModuleIsAsmJS >>
  let tableSize := numFuncs in
  match js_pod_calloc allocates tableSize with
  | None => fail
  | Some jumpTable =>
      let* codeRanges := gets (fun g => MetadataTier.codeRanges (metadataTier_ g)) in
      fillJumpTable codeBase codeRanges jumpTable
  end.

End JumpTable.

(** Every [Function] code range of the module is the one recorded for its
    function. *)
Definition range_index_inv (g : ModuleGenerator) : Prop :=
  forall (k : nat) cr,
    codeRanges_of g !! k = Some cr -> CodeRange.kind cr = CodeRange.Function ->
    funcToCodeRange_ g !! Z.to_nat (CodeRange.funcIndex cr) = Some (Z.of_nat k).

(** The environment of the small module, with both functions in a table,
    and its generator once the function exports are made. *)
Definition ex_env2 : ModuleEnvironment :=
  {| env_tier := Baseline;
     env_exports := [ {| exp_kind := DK_Function; exp_funcIndex := 1 |} ];
     env_startFuncIndex := Some 0;
     env_tables := [ {| external := true |} ];
     env_elemSegments := [ {| tableIndex := 0; elemFuncIndices := [1; 0; 1] |} ];
     env_funcSigs := [ex_sig; ex_sig] |}.

Definition ex_g0_exports : ModuleGenerator :=
  set_metadataTier_
    (MetadataTier.set_funcExports [FuncExport.make ex_sig 0; FuncExport.make ex_sig 1]
       (metadataTier_ ex_g0)) ex_g0.

(** ** [ModuleGenerator::finishFuncDefs] *)

(** The loop [while (outstanding_ > 0)].  A turn that goes on has taken
    one from [outstanding_], so the loop is given the number of turns it
    may take; [None] tells that they did not suffice. *)
Fixpoint finishOutstandingTasks (fuel : nat) (g : ModuleGenerator) : option (Res unit) :=
  if 0 <? outstanding_ g then
    match fuel with
    | O => None
    | S fuel =>
        match finishOutstandingTask g with
        | Ok _ g' => finishOutstandingTasks fuel g'
        | Fail g' => Some (Fail g')
        | Blocked g' => Some (Blocked g')
        | Abort f => Some (Abort f)
        end
    end
  else Some (Ok tt g).

Section FinishFuncDefs.

(** [isAsmJS()] and [env_->numFuncDefs()] *)
Variable isAsmJS : bool.
Variable env_numFuncDefs : Z.

Definition finishFuncDefs (fuel : nat) (g : ModuleGenerator) :
    option (FinishFault + Res unit) :=
  match (let* current := gets currentTask_ in
         match current with
         | Some _ => launchBatchCompile
         | None => ret tt
         end) g with
  | Ok _ g1 =>
      match finishOutstandingTasks fuel g1 with
      | None => None
      | Some (Ok _ g2) =>
          if negb isAsmJS && negb (numFuncDefs_ g2 =? env_numFuncDefs)
          then Some (inl NumFuncDefsMismatch)
          else Some (inr (Ok tt g2))
      | Some r => Some (inr r)
      end
  | r => Some (inr r)
  end.

End FinishFuncDefs.

(** ** Function bodies handed to the generator

    The bodies of a module, handed over one by one as a decoder does. *)
Definition compileFuncDefs (defs : list FuncCompileInput) : M unit :=
  forEach defs (fun d =>
    compileFuncDef (fi_index d) (fi_lineOrBytecode d) (fi_begin d) (fi_end d)).

(** The compiler of the tier of the module. *)
Definition compileFunctions : list FuncCompileInput -> CompiledCode + UniqueChars :=
  match tier with
  | Ion => IonCompileFunctions
  | Baseline => BaselineCompileFunctions
  end.

(** The compiler gives one code range for every input, in the order of the
    inputs: a [Function] code range of the function of the input. *)
Definition compiles_every_input : Prop :=
  forall inputs out,
    compileFunctions inputs = inl out ->
    Forall2 (fun input cr =>
               CodeRange.kind cr = CodeRange.Function /\
               CodeRange.funcIndex cr = fi_index input)
            inputs (codeRanges out).

(** The function of every one of [defs] is compiled, or waits as an input
    of the current task. *)
Definition compiled_or_batched (defs : list FuncCompileInput) (g : ModuleGenerator) : Prop :=
  Forall (fun d => funcIsCompiled (fi_index d) g = Ok true g \/ d ∈ currentInputs g) defs.

(** ** Call sites that wait for a pass

    The call sites not yet visited by a pass lie between
    [startOfUnpatchedCallsites_] and the end of the buffer. *)
Record unpatched_inv (g : ModuleGenerator) : Prop := {
  un_last : 0 <= lastPatchedCallSite_ g <= Z.of_nat (length (callSites_of g));
  un_start : 0 <= startOfUnpatchedCallsites_ g <= size_of g;
  un_size : size_of g <= MaxCodeBytes isa;
  un_sites :
    forall (i : nat) cs,
      lastPatchedCallSite_ g <= Z.of_nat i -> callSites_of g !! i = Some cs ->
      startOfUnpatchedCallsites_ g <= CallSite.returnAddressOffset cs <= size_of g
}.

(** In the state [g3] the trap exit at [cs] goes to an island emitted at or
    after the offset [from], and the far jump of the island goes to the
    stub of the trap [t]. *)
Definition reaches_trap (from : Z) (g3 : ModuleGenerator) (cs : CallSite.t) (t : Trap) :
    Prop :=
  exists p,
    from <= p /\
    CodeRange.island p (p + TlsReloadSize isa + FarJumpSize isa) ∈ codeRanges_of g3 /\
    (CallSite.returnAddressOffset cs, p) ∈ patchedCalls_of g3 /\
    (p + TlsReloadSize isa + FarJumpPatchAt isa, trapCodeOffsets_ g3 t)
      ∈ patchedFarJumps_of g3.

(** ** The entry offsets of the exports

    What noting one code range does to a function export, and what noting
    the code ranges [ranges] in their order does: the export has the entry
    offset of the last [Entry] code range of its function. *)
Definition withEntryOffset (cr : CodeRange.t) (fe : FuncExport.t) : FuncExport.t :=
  match CodeRange.kind cr with
  | CodeRange.Entry =>
      if FuncExport.funcIndex fe =? CodeRange.funcIndex cr
      then FuncExport.initEntryOffset (CodeRange.begin cr) fe
      else fe
  | _ => fe
  end.

Definition withEntryOffsets (ranges : list CodeRange.t) (fe : FuncExport.t) :
    FuncExport.t :=
  foldl (fun fe cr => withEntryOffset cr fe) fe ranges.

(** The entry stubs of the two exports of the small module, function 1
    first. *)
Definition ex_entry (f b : Z) : CodeRange.t :=
  {| CodeRange.kind := CodeRange.Entry; CodeRange.begin := b; CodeRange.end_ := b + 8;
     CodeRange.funcIndex := f; CodeRange.trap := 0%nat;
     CodeRange.beginToNormalEntry := 0 |}.

Definition ex_entries : CompiledCode :=
  {| bytes := replicate 16 Byte.x00;
     codeRanges := [ex_entry 1 0; ex_entry 0 8];
     callSites := []; callSiteTargets := []; trapSites := [];
     trapFarJumps := []; callFarJumps := []; memoryAccesses := [];
     symbolicAccesses := []; codeLabels := [] |}.

(** ** The bookkeeping of the tasks without helper threads *)

(** The assertions on the tasks: [currentTask_], [outstanding_ > 0],
    [parallel_], and a task that is not reset. *)
Definition is_task_fault (f : Fault) : bool :=
  match f with
  | NoCurrentTask | NothingOutstanding | NotParallel | TaskNotReset => true
  | _ => false
  end.

Definition not_a_task_fault (f : Fault) : Prop := is_task_fault f = false.

(** Without helper threads: the invariant of the batches holds, nothing is
    outstanding, there is a task, no task holds an output, and every task
    is free or is the current one. *)
Definition tasks_ok (g : ModuleGenerator) : Prop :=
  batch_ok g /\
  outstanding_ g = 0 /\
  tasks_ g <> [] /\
  (forall (task : nat) t,
     tasks_ g !! task = Some t -> CompiledCode_isEmpty (output t) = true) /\
  (forall task : nat,
     (task < length (tasks_ g))%nat -> task ∈ freeTasks_ g \/ currentTask_ g = Some task).

(** ** [ModuleGenerator::finishCodeSegment]

    Up to the call of [CodeSegment::create], which is declared outside the
    generator: the result is the generator and the metadata handed to it.
    The stub generator is declared outside as well; it fills the output of
    the first task, which is then linked like the code of a function.  The
    flag [finishedFuncDefs_], which only assertions read, is not
    modelled. *)

Definition setOutput (stubCode : CompiledCode) (t : CompileTask) : CompileTask :=
  {| inputs := inputs t; output := stubCode |}.

Section FinishCodeSegment.

(** [GenerateStubs(env, funcImports, funcExports, &stubCode)]: the stubs,
    or [None] when it returns false. *)
Variable GenerateStubs :
  ModuleEnvironment -> list FuncImport.t -> list FuncExport.t -> option CompiledCode.

(** [gc::SystemPageSize()], [env_->debugEnabled()], [isAsmJS()] and
    [AsmJSFirstDefFuncIndex] *)
Variable SystemPageSize : Z.
Variable debugEnabled : bool.
Variable isAsmJS : bool.
Variable AsmJSFirstDefFuncIndex : Z.

Definition finishCodeSegment (metadata_ : Metadata) (g : ModuleGenerator) :
    FinishFault + Res (Metadata * list (list Z)) :=
  match (finishFuncExports >>
         let* tasks := gets tasks_ in
         let* t0 := at_ tasks 0 in
         MOZ_ASSERT (CompiledCode_isEmpty (output t0)) TaskNotReset >>
         let* funcImports := gets (fun g => MetadataTier.funcImports (metadataTier_ g)) in
         let* funcExports := gets (fun g => MetadataTier.funcExports (metadataTier_ g)) in
         match GenerateStubs env_ funcImports funcExports with
         | None => fail
         | Some stubCode =>
             modify (fun g =>
               set_tasks_ (<[0%nat := setOutput stubCode t0]> (tasks_ g)) g) >>
             linkCompiledCode stubCode >>
             finishLinking isAsmJS AsmJSFirstDefFuncIndex
         end) g with
  | Ok _ g' => finishMetadata SystemPageSize debugEnabled metadata_ g'
  | Fail g' => inr (Fail g')
  | Blocked g' => inr (Blocked g')
  | Abort f => inr (Abort f)
  end.

End FinishCodeSegment.

(** The stubs of the small module: those of the traps and of the exits,
    then the entries of the two exports. *)
Definition ex_GenerateStubs (_ : ModuleEnvironment) (_ : list FuncImport.t)
    (funcExports : list FuncExport.t) : option CompiledCode :=
  Some {| bytes := replicate 64 Byte.x00;
          codeRanges :=
            codeRanges ex_stubs ++
            imap (fun k fe => ex_entry (FuncExport.funcIndex fe) (48 + 8 * Z.of_nat k))
                 funcExports;
          callSites := []; callSiteTargets := []; trapSites := [];
          trapFarJumps := []; callFarJumps := []; memoryAccesses := [];
          symbolicAccesses := []; codeLabels := [] |}.

(** ** The slots and the code ranges that set them *)

(** The code ranges of [l] that set the slot [s], in the order of [l], and
    the offset that the last of them gives, zero when there is none. *)
Definition slotRanges (s : Slot) (l : list CodeRange.t) : list CodeRange.t :=
  filter (fun cr => slotOf cr = Some s) l.

Definition lastOffset (s : Slot) (l : list CodeRange.t) : Z :=
  from_option CodeRange.begin 0 (list.last (slotRanges s l)).



(** ** The islands that a pass emits *)

(** An island: the far jump to a function or to the exit of a trap, or the
    far jump to the debug trap stub, and the offset at which it begins.
    The islands of traps and of the debug trap reload the TLS register
    first. *)
Inductive Island :=
| CallIsland (funcIndex : Z) (offset : Z)
| TrapIsland (trap : Trap) (offset : Z)
| DebugTrapIsland (offset : Z).

Definition islandOffset (i : Island) : Z :=
  match i with
  | CallIsland _ p | TrapIsland _ p | DebugTrapIsland p => p
  end.

Definition islandSize (i : Island) : Z :=
  match i with
  | CallIsland _ _ => FarJumpSize isa
  | TrapIsland _ _ | DebugTrapIsland _ => TlsReloadSize isa + FarJumpSize isa
  end.

Definition islandRange (i : Island) : CodeRange.t :=
  CodeRange.island (islandOffset i) (islandOffset i + islandSize i).

Definition callFarJumpOf (i : Island) : option CallFarJump.t :=
  match i with
  | CallIsland f p => Some (callIsland f p)
  | _ => None
  end.

Definition trapFarJumpOf (i : Island) : option TrapFarJump.t :=
  match i with
  | TrapIsland t p => Some (trapIsland t p)
  | _ => None
  end.

Definition debugTrapFarJumpOf (i : Island) : option Z :=
  match i with
  | DebugTrapIsland p => Some (p + TlsReloadSize isa + FarJumpPatchAt isa)
  | _ => None
  end.

(** The islands lie one after the other from the offset [from]. *)
Fixpoint islandsFrom (from : Z) (islands : list Island) : Prop :=
  match islands with
  | [] => True
  | i :: islands' =>
      islandOffset i = from /\ islandsFrom (from + islandSize i) islands'
  end.

Fixpoint islandsSize (islands : list Island) : Z :=
  match islands with
  | [] => 0
  | i :: islands' => islandSize i + islandsSize islands'
  end.

(** What a run of the loop adds to the module: the code ranges and the far
    jumps of a list of islands laid end to end from the size of the buffer,
    and nothing but their bytes. *)
Definition emits (from : Z) (islands : list Island) (g g' : ModuleGenerator) : Prop :=
  codeRanges_of g' = codeRanges_of g ++ (islandRange <$> islands) /\
  callFarJumps_ g' = callFarJumps_ g ++ omap callFarJumpOf islands /\
  trapFarJumps_ g' = trapFarJumps_ g ++ omap trapFarJumpOf islands /\
  debugTrapFarJumps_ g' = debugTrapFarJumps_ g ++ omap debugTrapFarJumpOf islands /\
  islandsFrom from islands /\
  size_of g' = from + islandsSize islands.

(** The debug block of [finishLinking] only checks: it leaves the generator
    as it is, or an assertion fires. *)
Definition checks {A} (m : M A) : Prop :=
  forall g, (exists a, m g = Ok a g) \/ exists f, m g = Abort f /\ not_a_slot_fault f.

(** A method that never waits for the helper threads. *)
Definition noblock {A} (m : M A) : Prop := forall g g', m g <> Blocked g'.

(** * Properties *)

(** ** Reasoning about methods *)

Lemma wp_ret {A} (a : A) Q E g : Q a g -> wp (ret a) Q E g.
Proof. done. Qed.

Lemma wp_bind {A B} (m : M A) (k : A -> M B) Q E g :
  wp m (fun a g' => wp (k a) Q E g') E g -> wp (bind m k) Q E g.
Proof. unfold wp, bind. by destruct (m g). Qed.

Lemma wp_gets {A} (proj : ModuleGenerator -> A) Q E g :
  Q (proj g) g -> wp (gets proj) Q E g.
Proof. done. Qed.

Lemma wp_modify f Q E g : Q tt (f g) -> wp (modify f) Q E g.
Proof. done. Qed.

Lemma wp_fail {A} (Q : A -> ModuleGenerator -> Prop) E g : E g -> wp fail Q E g.
Proof. done. Qed.

Lemma wp_abort {A} f (Q : A -> ModuleGenerator -> Prop) E g : wp (abort f) Q E g.
Proof. done. Qed.

Lemma wp_MOZ_ASSERT b f Q E g : (b = true -> Q tt g) -> wp (MOZ_ASSERT b f) Q E g.
Proof. destruct b; cbn; auto. Qed.

Lemma wp_at {A} (v : list A) i Q E g :
  (forall x, v !! Z.to_nat i = Some x -> Q x g) -> wp (at_ v i) Q E g.
Proof. unfold at_. destruct (v !! Z.to_nat i); cbn; auto. Qed.

Lemma wp_mono {A} (m : M A) (Q Q' : A -> ModuleGenerator -> Prop)
    (E E' : ModuleGenerator -> Prop) g :
  wp m Q E g ->
  (forall a g', Q a g' -> Q' a g') ->
  (forall g', E g' -> E' g') ->
  wp m Q' E' g.
Proof. unfold wp. destruct (m g); auto. Qed.

Lemma wp_Ok {A} (m : M A) Q E g a g' : wp m Q E g -> m g = Ok a g' -> Q a g'.
Proof. unfold wp. intros H Heq. by rewrite Heq in H. Qed.

Lemma wp_Fail {A} (m : M A) Q E g g' : wp m Q E g -> m g = Fail g' -> E g'.
Proof. unfold wp. intros H Heq. by rewrite Heq in H. Qed.

Lemma wp_forEach {A} (l : list A) (body : A -> M unit)
    (I : list A -> ModuleGenerator -> Prop) E g :
  I [] g ->
  (forall done x g, I done g -> x ∈ l ->
     wp (body x) (fun _ g' => I (done ++ [x]) g') E g) ->
  wp (forEach l body) (fun _ g' => I l g') E g.
Proof.
  intros H0 Hstep.
  assert (forall done rest g, done ++ rest = l -> I done g ->
            wp (forEach rest body) (fun _ g' => I l g') E g) as Hgen.
  { intros done rest. revert done.
    induction rest as [|x rest IH]; intros done g1 Heq HI.
    - rewrite app_nil_r in Heq. by rewrite <- Heq.
    - cbn [forEach]. apply wp_bind.
      eapply wp_mono; [apply (Hstep done x g1 HI)| |done].
      + rewrite <- Heq. set_solver.
      + intros [] g2 HI2. cbn beta. apply (IH (done ++ [x])); [|done].
        by rewrite <- app_assoc. }
  by apply (Hgen [] l).
Qed.

Lemma preserves_ret {A X} (proj : ModuleGenerator -> X) (a : A) : preserves proj (ret a).
Proof. by intros g. Qed.

Lemma preserves_bind {A B X} (proj : ModuleGenerator -> X) (m : M A) (k : A -> M B) :
  preserves proj m -> (forall a, preserves proj (k a)) -> preserves proj (bind m k).
Proof.
  intros Hm Hk g. apply wp_bind.
  eapply wp_mono; [apply Hm| |done].
  intros a g1 H1. cbn beta.
  eapply wp_mono; [apply Hk| |]; cbn beta; congruence.
Qed.

Lemma preserves_gets {A X} (proj : ModuleGenerator -> X) (p : ModuleGenerator -> A) :
  preserves proj (gets p).
Proof. by intros g. Qed.

Lemma preserves_modify {X} (proj : ModuleGenerator -> X) f :
  (forall g, proj (f g) = proj g) -> preserves proj (modify f).
Proof. intros H g. apply H. Qed.

Lemma preserves_fail {A X} (proj : ModuleGenerator -> X) : preserves proj (@fail A).
Proof. by intros g. Qed.

Lemma preserves_abort {A X} (proj : ModuleGenerator -> X) f : preserves proj (@abort A f).
Proof. by intros g. Qed.

Lemma preserves_MOZ_ASSERT {X} (proj : ModuleGenerator -> X) b f :
  preserves proj (MOZ_ASSERT b f).
Proof. intros g. by destruct b. Qed.

Lemma preserves_at {A X} (proj : ModuleGenerator -> X) (v : list A) i :
  preserves proj (at_ v i).
Proof. intros g. unfold at_. by destruct (v !! Z.to_nat i). Qed.

Lemma preserves_forEach {A X} (proj : ModuleGenerator -> X) (l : list A) body :
  (forall x, preserves proj (body x)) -> preserves proj (forEach l body).
Proof.
  intros H. induction l as [|x l IH]; cbn [forEach].
  - apply preserves_ret.
  - apply preserves_bind; auto.
Qed.

Lemma preserves_AppendForEach {T X} (proj : ModuleGenerator -> X)
    (dstVec : ModuleGenerator -> list T) set_dstVec srcVec op :
  (forall v g, proj (set_dstVec v g) = proj g) ->
  (forall i x, preserves proj (op i x)) ->
  preserves proj (AppendForEach dstVec set_dstVec srcVec op).
Proof.
  intros Hset Hop. induction srcVec as [|x l IH]; cbn [AppendForEach].
  - apply preserves_ret.
  - apply preserves_bind; [apply preserves_gets|]. intros dst.
    apply preserves_bind; [apply Hop|]. intros elem.
    apply preserves_bind; [|done].
    apply preserves_modify. intros g. apply Hset.
Qed.

Lemma preserves_wp {A X} (proj : ModuleGenerator -> X) (m : M A) g :
  preserves proj m ->
  wp m (fun _ g' => proj g' = proj g) (fun g' => proj g' = proj g) g.
Proof. intros H. apply H. Qed.

(** ** Machine integers *)

Lemma wrap32_small z : is_u32 z -> wrap32 z = z.
Proof. unfold is_u32, wrap32, UINT32_MAX. intros H. apply Z.mod_small. lia. Qed.

Lemma wrap32_range z : is_u32 (wrap32 z).
Proof.
  unfold is_u32, wrap32, UINT32_MAX.
  pose proof (Z.mod_pos_bound z 4294967296 ltac:(lia)). lia.
Qed.

(** ** Rounding up *)

Lemma ComputeByteAlignment_range n align :
  0 < align -> 0 <= ComputeByteAlignment n align < align.
Proof. intros H. unfold ComputeByteAlignment. apply Z.mod_pos_bound. lia. Qed.

Lemma ComputeByteAlignment_rounds_up n align :
  0 < align -> n + ComputeByteAlignment n align = rounded_up n align.
Proof.
  intros Ha. unfold ComputeByteAlignment, rounded_up.
  pose proof (Z.div_mod n align ltac:(lia)) as Hdm.
  pose proof (Z.mod_pos_bound n align Ha) as Hr.
  set (q := n / align) in *. set (r := n mod align) in *.
  destruct (Z.eq_dec r 0) as [Hr0|Hr0].
  - rewrite Hr0, Z.sub_0_r, Z.mod_same by lia.
    replace ((n + align - 1) / align) with q; [lia|].
    apply (Z.div_unique _ _ q (align - 1)); lia.
  - rewrite Z.mod_small by lia.
    replace ((n + align - 1) / align) with (q + 1); [lia|].
    apply (Z.div_unique _ _ (q + 1) (r - 1)); lia.
Qed.

Lemma rounded_up_ge n align : 0 < align -> n <= rounded_up n align.
Proof.
  intros Ha. rewrite <- ComputeByteAlignment_rounds_up by done.
  pose proof (ComputeByteAlignment_range n align Ha). lia.
Qed.

(** C10. [allocateGlobalBytes] returns true exactly when the old length
    rounded up to [align], plus [bytes], fits in 32 bits; then the new
    length is that sum and [*globalDataOffset] is the old length rounded
    up.  When it returns false the length is unchanged. *)
Theorem allocateGlobalBytes_atomic (old bytes align out : Z) :
  is_u32 old -> is_u32 bytes -> 0 < align ->
  let r := allocateGlobalBytes bytes align {| globalDataLength := old |} out in
  (r.1.1 = true <-> rounded_up old align + bytes <= UINT32_MAX) /\
  (r.1.1 = false -> globalDataLength r.1.2 = old) /\
  (r.1.1 = true ->
     globalDataLength r.1.2 = rounded_up old align + bytes /\
     r.2 = rounded_up old align).
Proof.
  intros Hold Hbytes Ha. cbv zeta.
  pose proof (ComputeByteAlignment_rounds_up old align Ha) as Hru.
  pose proof (ComputeByteAlignment_range old align Ha) as Hpad.
  unfold allocateGlobalBytes, CheckedInt_add, CheckedInt_of.
  cbn [value isValid globalDataLength].
  rewrite Hru. cbn [andb negb].
  destruct (Z.leb_spec (rounded_up old align) UINT32_MAX) as [Hfit|Hover]; cbn [negb].
  - assert (is_u32 (rounded_up old align)) as Hu
      by (unfold is_u32 in *; lia).
    rewrite (wrap32_small _ Hu). cbn [andb].
    destruct (Z.leb_spec (rounded_up old align + bytes) UINT32_MAX) as [Hfit2|Hover2];
      cbn [negb fst snd globalDataLength].
    + rewrite wrap32_small by (unfold is_u32 in *; lia). done.
    + split; [|done]. split; [done|lia].
  - cbn [fst snd globalDataLength]. split; [|done].
    split; [done|]. unfold is_u32 in *. lia.
Qed.

(** ** Failures of the helper threads *)




(** ** Branch range *)

Lemma InRange_spec (a b : Z) :
  is_u32 a -> is_u32 b ->
  InRange a b = true <->
  Z.abs (a - b) < Z.min (jumpThreshold JitOptions) (JumpImmediateRange isa).
Proof.
  intros Ha Hb. unfold InRange. cbv zeta.
  destruct (Z.ltb_spec a b).
  - rewrite wrap32_small by (unfold is_u32 in *; lia). rewrite Z.ltb_lt. lia.
  - rewrite wrap32_small by (unfold is_u32 in *; lia). rewrite Z.ltb_lt. lia.
Qed.

Lemma InRange_sym (a b : Z) : is_u32 a -> is_u32 b -> InRange a b = InRange b a.
Proof.
  intros Ha Hb. apply eq_true_iff_eq.
  rewrite !InRange_spec by done. replace (b - a) with (- (a - b)) by lia.
  by rewrite Z.abs_opp.
Qed.

(** ** Frames *)

Lemma wp_conj {A} (m : M A) Q1 Q2 E1 E2 g :
  wp m Q1 E1 g -> wp m Q2 E2 g ->
  wp m (fun a g' => Q1 a g' /\ Q2 a g') (fun g' => E1 g' /\ E2 g') g.
Proof. unfold wp. destruct (m g); auto. Qed.

Lemma wp_bind_preserves {A B X} (proj : ModuleGenerator -> X) (m : M A)
    (k : A -> M B) Q g :
  preserves proj m ->
  (forall a g1, proj g1 = proj g -> wp (k a) Q (fun _ => True) g1) ->
  wp (bind m k) Q (fun _ => True) g.
Proof.
  intros Hm Hk. apply wp_bind. eapply wp_mono; [apply Hm| |done].
  intros a g1 H. by apply Hk.
Qed.

Lemma preserves_Ok {A X} (proj : ModuleGenerator -> X) (m : M A) g a g' :
  preserves proj m -> m g = Ok a g' -> proj g' = proj g.
Proof. intros H Heq. exact (wp_Ok _ _ _ _ _ _ (H g) Heq). Qed.

Lemma preserves_Fail {A X} (proj : ModuleGenerator -> X) (m : M A) g g' :
  preserves proj m -> m g = Fail g' -> proj g' = proj g.
Proof. intros H Heq. exact (wp_Fail _ _ _ _ _ (H g) Heq). Qed.

(** ** The linker appends rebased copies *)

Lemma wp_AppendForEach {T} (dstVec : ModuleGenerator -> list T) set_dstVec srcVec
    (op : Z -> T -> M T) (f : T -> T) g :
  (forall v g, dstVec (set_dstVec v g) = v) ->
  (forall i x g, wp (op i x) (fun y g' => y = f x /\ dstVec g' = dstVec g)
                   (fun _ => True) g) ->
  wp (AppendForEach dstVec set_dstVec srcVec op)
     (fun _ g' => dstVec g' = dstVec g ++ map f srcVec) (fun _ => True) g.
Proof.
  intros Hlens Hop. revert g.
  induction srcVec as [|x l IH]; intros g; cbn [AppendForEach map].
  - apply wp_ret. by rewrite app_nil_r.
  - apply wp_bind, wp_gets, wp_bind.
    eapply wp_mono; [apply Hop| |done].
    intros y g1 [-> Hg1]. cbn beta.
    apply wp_bind, wp_modify.
    eapply wp_mono; [apply IH| |done].
    intros [] g2 Hg2. cbn beta in *.
    rewrite Hg2, Hlens, Hg1, <- app_assoc. done.
Qed.

Lemma wp_AppendForEach_pure {T} (dstVec : ModuleGenerator -> list T) set_dstVec
    srcVec (f : T -> T) g :
  (forall v g, dstVec (set_dstVec v g) = v) ->
  wp (AppendForEach dstVec set_dstVec srcVec (fun _ x => ret (f x)))
     (fun _ g' => dstVec g' = dstVec g ++ map f srcVec) (fun _ => True) g.
Proof. intros Hlens. apply wp_AppendForEach; [done|]. intros i x g0. by apply wp_ret. Qed.

Lemma noteCodeRange_preserves {X} (proj : ModuleGenerator -> X) i cr :
  (forall v g, proj (set_funcToCodeRange_ v g) = proj g) ->
  (forall v g, proj (set_metadataTier_ (MetadataTier.set_funcExports v (metadataTier_ g)) g)
               = proj g) ->
  (forall v g, proj (set_metadataTier_ (MetadataTier.set_funcImports v (metadataTier_ g)) g)
               = proj g) ->
  (forall v g, proj (set_trapCodeOffsets_ v g) = proj g) ->
  (forall v g, proj (set_debugTrapCodeOffset_ v g) = proj g) ->
  (forall v g, proj (set_linkDataTier_ (LinkDataTier.set_outOfBoundsOffset v (linkDataTier_ g)) g)
               = proj g) ->
  (forall v g, proj (set_linkDataTier_ (LinkDataTier.set_unalignedAccessOffset v (linkDataTier_ g)) g)
               = proj g) ->
  (forall v g, proj (set_linkDataTier_ (LinkDataTier.set_interruptOffset v (linkDataTier_ g)) g)
               = proj g) ->
  (forall v g, proj (set_noted_ v g) = proj g) ->
  preserves proj (noteCodeRange i cr).
Proof.
  intros H1 H2 H3 H4 H5 H6 H7 H8 H9. unfold noteCodeRange, note.
  destruct (CodeRange.kind cr);
    repeat first
      [ apply preserves_bind; [|intros ?]
      | apply preserves_gets | apply preserves_ret | apply preserves_abort
      | apply preserves_MOZ_ASSERT | apply preserves_at
      | apply preserves_modify; intros ?; auto
      | match goal with |- preserves _ (match ?x with _ => _ end) => destruct x end ].
Qed.

Lemma linkCompiledCode_unfold code g :
  linkCompiledCode code g =
  if MacroAssembler.oom (masm_ (appended code g)) then Fail (appended code g)
  else appendTables code (appendOffset g) (appended code g).
Proof.
  unfold linkCompiledCode, appendTables, appended, appendOffset, haltingAlign,
    masm_size, appendRawCode, masm_oom, bind, gets, modify, ret. cbn.
  destruct (MacroAssembler.oom _); reflexivity.
Qed.


Ltac pres :=
  repeat first
    [ apply preserves_bind; [|intros ?]
    | apply preserves_AppendForEach; [intros ? ?; reflexivity | intros ? ?]
    | apply preserves_forEach; intros ?
    | apply noteCodeRange_preserves; intros ? ?; reflexivity
    | apply preserves_ret | apply preserves_gets | apply preserves_fail
    | apply preserves_abort | apply preserves_MOZ_ASSERT | apply preserves_at
    | apply preserves_modify; intros ?; reflexivity
    | progress cbv zeta ].

Ltac skip_steps proj :=
  repeat (apply (wp_bind_preserves proj); [solve [pres] | intros ? ? ?]).

Ltac frame_rest proj :=
  skip_steps proj;
  eapply wp_mono;
    [ apply (preserves_wp proj); solve [pres]
    | cbn beta; intros; cbn in *; congruence
    | done ].

Lemma appendTables_codeRanges code B g :
  wp (appendTables code B)
     (fun _ g' => codeRanges_of g' =
                  codeRanges_of g ++ map (fun cr => CodeRange.offsetBy cr B) (codeRanges code))
     (fun _ => True) g.
Proof.
  unfold appendTables. apply wp_bind.
  eapply wp_mono;
    [apply (wp_AppendForEach _ _ _ _ (fun cr => CodeRange.offsetBy cr B)) | |done].
  - reflexivity.
  - intros i x g0. cbv zeta. apply wp_bind.
    eapply wp_mono; [apply (preserves_wp codeRanges_of); solve [pres]| |done].
    intros [] g1 H. by apply wp_ret.
  - cbn beta. intros [] g1 H1. fold (codeRanges_of g1) (codeRanges_of g) in H1.
    frame_rest codeRanges_of.
Qed.

Lemma appendTables_callSites code B g :
  wp (appendTables code B)
     (fun _ g' => callSites_of g' =
                  callSites_of g ++ map (fun cs => CallSite.offsetBy cs B) (callSites code))
     (fun _ => True) g.
Proof.
  unfold appendTables. skip_steps callSites_of. apply wp_bind.
  eapply wp_mono; [apply wp_AppendForEach_pure; reflexivity| |done].
  cbn beta. intros [] g2 H2. fold (callSites_of g2) (callSites_of g1) in H2.
  frame_rest callSites_of.
Qed.

Lemma appendTables_callSiteTargets code B g :
  wp (appendTables code B)
     (fun _ g' => callSiteTargets_ g' = callSiteTargets_ g ++ callSiteTargets code)
     (fun _ => True) g.
Proof.
  unfold appendTables. skip_steps callSiteTargets_. apply wp_bind, wp_modify.
  frame_rest callSiteTargets_.
Qed.

Lemma appendTables_trapFarJumps code B g :
  wp (appendTables code B)
     (fun _ g' => trapFarJumps_ g' =
                  trapFarJumps_ g ++ map (fun f => TrapFarJump.offsetBy f B) (trapFarJumps code))
     (fun _ => True) g.
Proof.
  unfold appendTables. skip_steps trapFarJumps_. apply wp_bind.
  eapply wp_mono; [apply wp_AppendForEach_pure; reflexivity| |done].
  cbn beta. intros [] g' H'. frame_rest trapFarJumps_.
Qed.

Lemma appendTables_callFarJumps code B g :
  wp (appendTables code B)
     (fun _ g' => callFarJumps_ g' =
                  callFarJumps_ g ++ map (fun f => CallFarJump.offsetBy f B) (callFarJumps code))
     (fun _ => True) g.
Proof.
  unfold appendTables. skip_steps callFarJumps_. apply wp_bind.
  eapply wp_mono; [apply wp_AppendForEach_pure; reflexivity| |done].
  cbn beta. intros [] g' H'. frame_rest callFarJumps_.
Qed.

Lemma appendTables_memoryAccesses code B g :
  wp (appendTables code B)
     (fun _ g' => memoryAccesses_of g' =
                  memoryAccesses_of g ++
                  map (fun ma => MemoryAccess.offsetBy ma B) (memoryAccesses code))
     (fun _ => True) g.
Proof.
  unfold appendTables. skip_steps memoryAccesses_of. apply wp_bind.
  eapply wp_mono; [apply wp_AppendForEach_pure; reflexivity| |done].
  cbn beta. intros [] g' H'.
  match type of H' with _ ?a = _ ?b ++ _ =>
    fold (memoryAccesses_of g') in H' end.
  match type of H' with _ = MetadataTier.memoryAccesses (metadataTier_ ?b) ++ _ =>
    fold (memoryAccesses_of b) in H' end.
  frame_rest memoryAccesses_of.
Qed.

Lemma appendTables_symbolicLinks code B g :
  wp (appendTables code B)
     (fun _ g' => forall target,
        symbolicLinks_of g' target =
        symbolicLinks_of g target ++
        ((fun a => wrap32 (B + SymbolicAccess.patchAt a)) <$>
           filter (fun a => SymbolicAccess.target a = target) (symbolicAccesses code)))
     (fun _ => True) g.
Proof.
  unfold appendTables. skip_steps symbolicLinks_of. apply wp_bind.
  eapply wp_mono;
    [apply (wp_forEach _ _ (fun done g' => forall target,
        symbolicLinks_of g' target =
        symbolicLinks_of g target ++
        ((fun a => wrap32 (B + SymbolicAccess.patchAt a)) <$>
           filter (fun a => SymbolicAccess.target a = target) done))
        (fun _ => True))| |done].
  - intros target. cbn. rewrite app_nil_r. congruence.
  - intros done x g' HI _. cbv zeta. apply wp_modify. intros target.
    unfold symbolicLinks_of in *. cbn.
    rewrite list.filter_app, fmap_app, list.filter_cons, list.filter_nil.
    destruct (decide (SymbolicAccess.target x = target)) as [->|Hne].
    + rewrite fn_lookup_insert, HI. cbn. by rewrite <- app_assoc.
    + rewrite fn_lookup_insert_ne by done. cbn. by rewrite app_nil_r.
  - cbn beta. intros [] g' H'.
    eapply wp_mono; [apply (preserves_wp symbolicLinks_of); solve [pres]| |done].
    cbn beta. intros [] g'' H'' target. rewrite H''. apply H'.
Qed.

Lemma appendTables_internalLinks code B g :
  wp (appendTables code B)
     (fun _ g' =>
        internalLinks_of g' =
        internalLinks_of g ++
        map (fun l => {| InternalLink.patchAtOffset := wrap32 (B + CodeLabel.patchAt l);
                         InternalLink.targetOffset := wrap32 (B + CodeLabel.target l) |})
            (codeLabels code))
     (fun _ => True) g.
Proof.
  unfold appendTables. skip_steps internalLinks_of.
  eapply wp_mono;
    [apply (wp_forEach _ _ (fun done g' =>
        internalLinks_of g' =
        internalLinks_of g ++
        map (fun l => {| InternalLink.patchAtOffset := wrap32 (B + CodeLabel.patchAt l);
                         InternalLink.targetOffset := wrap32 (B + CodeLabel.target l) |})
            done) (fun _ => True))| |done].
  - cbn. rewrite app_nil_r. congruence.
  - intros done x g' HI _. cbv zeta. apply wp_modify.
    unfold internalLinks_of in *. cbn. rewrite HI, map_app, <- app_assoc. done.
  - done.
Qed.

(** ** The assembler's buffer *)

Lemma masm_emit_ok n m :
  MacroAssembler.oom (masm_emit n m) = false ->
  MacroAssembler.oom m = false /\
  MacroAssembler.size m + n <= MaxCodeBytes isa /\
  MacroAssembler.size (masm_emit n m) = MacroAssembler.size m + n.
Proof.
  unfold masm_emit. destruct (MacroAssembler.oom m) eqn:Hoom; cbn; [done|].
  destruct (Z.ltb_spec (MaxCodeBytes isa) (MacroAssembler.size m + n)); cbn; [done|].
  intros _. repeat split; try done; lia.
Qed.

Lemma masm_emit_size n m :
  0 <= n ->
  MacroAssembler.size m <= MacroAssembler.size (masm_emit n m) /\
  (MacroAssembler.size m <= MaxCodeBytes isa ->
   MacroAssembler.size (masm_emit n m) <= MaxCodeBytes isa).
Proof.
  intros Hn. unfold masm_emit.
  destruct (MacroAssembler.oom m); cbn; [lia|].
  destruct (Z.ltb_spec (MaxCodeBytes isa) (MacroAssembler.size m + n)); cbn; lia.
Qed.

Lemma masm_emit_logs n m :
  MacroAssembler.patchedCalls (masm_emit n m) = MacroAssembler.patchedCalls m /\
  MacroAssembler.patchedFarJumps (masm_emit n m) = MacroAssembler.patchedFarJumps m.
Proof. unfold masm_emit. by destruct (_ || _). Qed.

Lemma appendOffset_ge g : PlatformOk -> size_of g <= appendOffset g.
Proof.
  intros [Ha _ _ _]. unfold appendOffset, masm_haltingAlign, size_of.
  apply masm_emit_size. by apply ComputeByteAlignment_range.
Qed.

Lemma appended_ok code g :
  oom_of (appended code g) = false ->
  size_of (appended code g) = appendOffset g + Z.of_nat (length (bytes code)) /\
  appendOffset g + Z.of_nat (length (bytes code)) <= MaxCodeBytes isa.
Proof.
  unfold oom_of, size_of, appended, appendOffset. cbn. intros H.
  apply masm_emit_ok in H as (_ & H1 & H2). by rewrite H2.
Qed.

Lemma map_ext_Forall {A B} (f g : A -> B) (P : A -> Prop) l :
  Forall P l -> (forall x, P x -> f x = g x) -> map f l = map g l.
Proof. intros Hl Hfg. induction Hl; cbn; [done|]. by rewrite Hfg, IHHl. Qed.

Lemma linkCompiledCode_tables code g g' :
  PlatformOk ->
  0 <= size_of g ->
  offsets_in_bytes code ->
  linkCompiledCode code g = Ok tt g' ->
  let B := appendOffset g in
  (size_of g' = B + Z.of_nat (length (bytes code)) /\
   B + Z.of_nat (length (bytes code)) <= MaxCodeBytes isa) /\
  codeRanges_of g' = codeRanges_of g ++ map (shift_codeRange B) (codeRanges code) /\
  callSites_of g' = callSites_of g ++ map (shift_callSite B) (callSites code) /\
  callSiteTargets_ g' = callSiteTargets_ g ++ callSiteTargets code /\
  trapFarJumps_ g' = trapFarJumps_ g ++ map (shift_trapFarJump B) (trapFarJumps code) /\
  callFarJumps_ g' = callFarJumps_ g ++ map (shift_callFarJump B) (callFarJumps code) /\
  memoryAccesses_of g' =
    memoryAccesses_of g ++ map (shift_memoryAccess B) (memoryAccesses code) /\
  (forall target,
     symbolicLinks_of g' target =
     symbolicLinks_of g target ++ symbolicPatches B target (symbolicAccesses code)) /\
  internalLinks_of g' = internalLinks_of g ++ map (shift_codeLabel B) (codeLabels code).
Proof.
  intros Hisa Hsize [Hcr Hcs Htfj Hcfj Hma Hsa Hcl] Hlink B.
  rewrite linkCompiledCode_unfold in Hlink.
  destruct (MacroAssembler.oom (masm_ (appended code g))) eqn:Hoom; [done|].
  apply appended_ok in Hoom as [Hsz' Hfit].
  pose proof (appendOffset_ge g Hisa) as HB. fold B in Hsz', Hfit, HB, Hlink.
  destruct Hisa as [_ Hcap _ _].
  assert (forall o, within code o -> wrap32 (o + B) = B + o) as Hw.
  { intros o Ho. unfold within in Ho. rewrite wrap32_small; unfold is_u32; lia. }
  assert (forall o, within code o -> wrap32 (B + o) = B + o) as Hw'.
  { intros o Ho. unfold within in Ho. rewrite wrap32_small; unfold is_u32; lia. }
  repeat split.
  - rewrite <- Hsz'. unfold size_of. f_equal.
    refine (preserves_Ok masm_ _ _ _ _ _ Hlink).
    unfold appendTables. solve [pres].
  - done.
  - rewrite (wp_Ok _ _ _ _ _ _ (appendTables_codeRanges code B _) Hlink).
    f_equal. eapply map_ext_Forall; [exact Hcr|].
    intros cr [Hb He]. unfold CodeRange.offsetBy, shift_codeRange.
    by rewrite (Hw _ Hb), (Hw _ He).
  - rewrite (wp_Ok _ _ _ _ _ _ (appendTables_callSites code B _) Hlink).
    f_equal. eapply map_ext_Forall; [exact Hcs|].
    intros cs Hb. unfold CallSite.offsetBy, shift_callSite. by rewrite (Hw _ Hb).
  - by rewrite (wp_Ok _ _ _ _ _ _ (appendTables_callSiteTargets code B _) Hlink).
  - rewrite (wp_Ok _ _ _ _ _ _ (appendTables_trapFarJumps code B _) Hlink).
    f_equal. eapply map_ext_Forall; [exact Htfj|].
    intros f Hb. unfold TrapFarJump.offsetBy, shift_trapFarJump. by rewrite (Hw _ Hb).
  - rewrite (wp_Ok _ _ _ _ _ _ (appendTables_callFarJumps code B _) Hlink).
    f_equal. eapply map_ext_Forall; [exact Hcfj|].
    intros f Hb. unfold CallFarJump.offsetBy, shift_callFarJump. by rewrite (Hw _ Hb).
  - rewrite (wp_Ok _ _ _ _ _ _ (appendTables_memoryAccesses code B _) Hlink).
    f_equal. eapply map_ext_Forall; [exact Hma|].
    intros f Hb. unfold MemoryAccess.offsetBy, shift_memoryAccess. by rewrite (Hw _ Hb).
  - intros target.
    rewrite (wp_Ok _ _ _ _ _ _ (appendTables_symbolicLinks code B _) Hlink).
    f_equal. unfold symbolicPatches.
    eapply map_ext_Forall with (P := fun a => within code (SymbolicAccess.patchAt a)).
    + rewrite list.Forall_forall in Hsa |- *. intros a Ha. apply Hsa.
      by apply list_elem_of_filter in Ha as [_ Ha].
    + intros a Ha. by apply Hw'.
  - rewrite (wp_Ok _ _ _ _ _ _ (appendTables_internalLinks code B _) Hlink).
    f_equal. eapply map_ext_Forall; [exact Hcl|].
    intros l [Hb He]. unfold shift_codeLabel. by rewrite (Hw' _ Hb), (Hw' _ He).
Qed.

(** C1. Every offset that [linkCompiledCode] records in the tables of the
    module is the append offset [B] (the size of the master buffer once
    aligned) plus the offset local to the task. *)
Theorem linkCompiledCode_rebases code g g' :
  PlatformOk ->
  0 <= size_of g ->
  offsets_in_bytes code ->
  linkCompiledCode code g = Ok tt g' ->
  let B := appendOffset g in
  codeRanges_of g' = codeRanges_of g ++ map (shift_codeRange B) (codeRanges code) /\
  callSites_of g' = callSites_of g ++ map (shift_callSite B) (callSites code) /\
  callSiteTargets_ g' = callSiteTargets_ g ++ callSiteTargets code /\
  trapFarJumps_ g' = trapFarJumps_ g ++ map (shift_trapFarJump B) (trapFarJumps code) /\
  callFarJumps_ g' = callFarJumps_ g ++ map (shift_callFarJump B) (callFarJumps code) /\
  memoryAccesses_of g' =
    memoryAccesses_of g ++ map (shift_memoryAccess B) (memoryAccesses code) /\
  (forall target,
     symbolicLinks_of g' target =
     symbolicLinks_of g target ++ symbolicPatches B target (symbolicAccesses code)) /\
  internalLinks_of g' = internalLinks_of g ++ map (shift_codeLabel B) (codeLabels code).
Proof.
  intros Hisa Hsize Hoib Hlink.
  exact (proj2 (linkCompiledCode_tables code g g' Hisa Hsize Hoib Hlink)).
Qed.

(** ** Sortedness *)

Lemma link_inv_frame g g' :
  link_inv g ->
  codeRanges_of g' = codeRanges_of g ->
  callSites_of g' = callSites_of g ->
  size_of g <= size_of g' ->
  link_inv g'.
Proof.
  intros [H1 H2 H3 H4 H5] Hcr Hcs Hsz. split; rewrite ?Hcr, ?Hcs; try done.
  - lia.
  - eapply list.Forall_impl; [exact H4|]. cbn. intros; lia.
  - eapply list.Forall_impl; [exact H5|]. cbn. intros; lia.
Qed.

Lemma nondecreasing_app l1 l2 bound :
  nondecreasing l1 -> nondecreasing l2 ->
  Forall (fun x => x <= bound) l1 -> Forall (fun x => bound <= x) l2 ->
  nondecreasing (l1 ++ l2).
Proof.
  intros H1 H2 Hb1 Hb2. apply StronglySorted_app_2; try done.
  intros x1 x2 Hx1 Hx2. rewrite list.Forall_forall in Hb1, Hb2.
  specialize (Hb1 _ Hx1). specialize (Hb2 _ Hx2). lia.
Qed.

Lemma link_inv_island g g' b e :
  link_inv g ->
  codeRanges_of g' = codeRanges_of g ++ [CodeRange.island b e] ->
  callSites_of g' = callSites_of g ->
  size_of g <= b <= size_of g' ->
  link_inv g'.
Proof.
  intros [H1 H2 H3 H4 H5] Hcr Hcs Hsz. split; rewrite ?Hcr, ?Hcs; try done.
  - lia.
  - unfold begins. rewrite fmap_app. cbn.
    apply (nondecreasing_app _ _ (size_of g)); try done.
    + repeat constructor.
    + repeat constructor. lia.
  - unfold begins. rewrite fmap_app. apply list.Forall_app. split.
    + eapply list.Forall_impl; [exact H4|]. cbn. intros; lia.
    + repeat constructor. cbn. lia.
  - eapply list.Forall_impl; [exact H5|]. cbn. intros; lia.
Qed.
Ltac wp_step :=
  lazymatch goal with
  | |- wp (bind _ _) _ _ _ => apply wp_bind
  | |- wp (gets _) _ _ _ => apply wp_gets
  | |- wp (modify _) _ _ _ => apply wp_modify
  | |- wp (ret _) _ _ _ => apply wp_ret
  | |- wp fail _ _ _ => apply wp_fail
  | |- wp (abort _) _ _ _ => apply wp_abort
  | |- wp (MOZ_ASSERT _ _) _ _ _ => apply wp_MOZ_ASSERT; intros ?
  | |- wp (at_ _ _) _ _ _ => apply wp_at; intros ? ?
  | |- wp (if ?b then _ else _) _ _ _ => destruct b eqn:?
  | |- wp (match ?x with _ => _ end) _ _ _ => destruct x eqn:?
  | |- wp (let _ := _ in _) _ _ _ => cbv zeta
  | |- wp ((fun _ => _) _) _ _ _ => cbv beta
  | |- _ => progress cbv beta
  end.

Ltac wp_exec := repeat wp_step.

Ltac unfold_prims :=
  unfold patchDirect, funcCodeRange, funcIsCompiled, target_funcIndex, target_trap,
    farJumpWithPatch, appendRawCode;
  unfold currentOffset, masm_oom, masm_size, loadTls, patchCall, patchFarJump,
    haltingAlign.

(** Collects what is known of every [masm_emit] in the goal. *)
Ltac emit_facts Hisa :=
  let Ha := fresh "Ha" in let Hcap := fresh "Hcap" in
  let Hfj := fresh "Hfj" in let Htls := fresh "Htls" in
  pose proof Hisa as [Ha Hcap Hfj Htls];
  repeat match goal with
  | H : MacroAssembler.oom (masm_emit ?n ?m) = false |- _ =>
      apply masm_emit_ok in H; destruct H as (? & ? & ?)
  end;
  repeat match goal with
  | |- context [masm_emit ?n ?m] =>
      lazymatch goal with
      | _ : MacroAssembler.size m <= MacroAssembler.size (masm_emit n m) /\ _ |- _ => fail
      | _ => pose proof (masm_emit_size n m ltac:(lia))
      end
  | H : context [masm_emit ?n ?m] |- _ =>
      lazymatch goal with
      | _ : MacroAssembler.size m <= MacroAssembler.size (masm_emit n m) /\ _ |- _ => fail
      | _ => pose proof (masm_emit_size n m ltac:(lia))
      end
  end.

Ltac size_goal Hisa :=
  unfold size_of, oom_of in *; cbn in *; emit_facts Hisa;
  try rewrite wrap32_small by (unfold is_u32, UINT32_MAX in *; cbn in *; lia);
  unfold UINT32_MAX in *; cbn in *; lia.

Lemma linkCallSite_inv callSite target ex exT g :
  PlatformOk -> link_inv g ->
  wp (linkCallSite callSite target ex exT)
     (fun _ g' => link_inv g' /\ callSites_of g' = callSites_of g)
     (fun g' => link_inv g' /\ callSites_of g' = callSites_of g) g.
Proof.
  intros Hisa Hinv. pose proof (inv_size _ Hinv) as Hsz.
  unfold linkCallSite. unfold_prims. cbv zeta.
  destruct (CallSite.kind callSite); wp_exec.
  all: (split; [|reflexivity]).
  all: first
    [ exact Hinv
    | eapply link_inv_frame; [exact Hinv | reflexivity | reflexivity | size_goal Hisa]
    | eapply link_inv_island; [exact Hinv | reflexivity | reflexivity | size_goal Hisa] ].
Qed.
Lemma linkCallSites_loop_inv pending ex exT g :
  PlatformOk -> link_inv g ->
  wp (linkCallSites_loop pending ex exT)
     (fun _ g' => link_inv g' /\ callSites_of g' = callSites_of g)
     (fun g' => link_inv g' /\ callSites_of g' = callSites_of g) g.
Proof.
  intros Hisa. revert ex exT g.
  induction pending as [|callSite pending IH]; intros ex exT g Hinv;
    cbn [linkCallSites_loop].
  - by apply wp_ret.
  - wp_exec.
    eapply wp_mono; [by apply linkCallSite_inv|cbn beta|done].
    intros existing g1 [Hinv1 Hcs1]. wp_exec.
    eapply wp_mono; [apply IH|cbn beta|cbn beta].
    + eapply link_inv_frame; [exact Hinv1|reflexivity|reflexivity|unfold size_of; cbn; lia].
    + intros _ g2 [? Hcs2]. split; [done|]. rewrite Hcs2. exact Hcs1.
    + intros g2 [? Hcs2]. split; [done|]. rewrite Hcs2. exact Hcs1.
Qed.

Lemma haltingAlign_inv g :
  PlatformOk -> link_inv g ->
  link_inv (set_masm_ (masm_haltingAlign (CodeAlignment isa) (masm_ g)) g).
Proof.
  intros Hisa Hinv.
  eapply link_inv_frame; [exact Hinv|reflexivity|reflexivity|].
  apply (appendOffset_ge g Hisa).
Qed.

Lemma linkCallSites_inv g :
  PlatformOk -> link_inv g ->
  wp linkCallSites (fun _ g' => link_inv g') (fun g' => link_inv g') g.
Proof.
  intros Hisa Hinv. unfold linkCallSites. unfold_prims. wp_exec.
  eapply wp_mono; [apply linkCallSites_loop_inv; [done|by apply haltingAlign_inv]| |].
  - cbn beta. intros _ g1 [Hinv1 _]. wp_exec; done.
  - cbn beta. by intros g1 [Hinv1 _].
Qed.

(** ** Methods that never return false *)

Lemma nofail_ret {A} (a : A) : nofail (ret a).
Proof. by intros g. Qed.

Lemma nofail_bind {A B} (m : M A) (k : A -> M B) :
  nofail m -> (forall a, nofail (k a)) -> nofail (bind m k).
Proof.
  intros Hm Hk g. apply wp_bind. eapply wp_mono; [apply Hm| |done].
  intros a g1 _. apply Hk.
Qed.

Lemma nofail_gets {A} (p : ModuleGenerator -> A) : nofail (gets p).
Proof. by intros g. Qed.

Lemma nofail_modify f : nofail (modify f).
Proof. by intros g. Qed.

Lemma nofail_abort {A} f : nofail (@abort A f).
Proof. by intros g. Qed.

Lemma nofail_MOZ_ASSERT b f : nofail (MOZ_ASSERT b f).
Proof. intros g. by destruct b. Qed.

Lemma nofail_at {A} (v : list A) i : nofail (at_ v i).
Proof. intros g. unfold at_. by destruct (v !! Z.to_nat i). Qed.

Lemma nofail_forEach {A} (l : list A) body :
  (forall x, nofail (body x)) -> nofail (forEach l body).
Proof.
  intros H. induction l as [|x l IH]; cbn [forEach].
  - apply nofail_ret.
  - apply nofail_bind; auto.
Qed.

Lemma nofail_AppendForEach {T} (dstVec : ModuleGenerator -> list T) set_dstVec srcVec op :
  (forall i x, nofail (op i x)) ->
  nofail (AppendForEach dstVec set_dstVec srcVec op).
Proof.
  intros Hop. induction srcVec as [|x l IH]; cbn [AppendForEach].
  - apply nofail_ret.
  - apply nofail_bind; [apply nofail_gets|]. intros dst.
    apply nofail_bind; [apply Hop|]. intros elem.
    apply nofail_bind; [apply nofail_modify|done].
Qed.

Ltac nofail_tac :=
  repeat first
    [ apply nofail_bind; [|intros ?]
    | apply nofail_AppendForEach; intros ? ?
    | apply nofail_forEach; intros ?
    | apply nofail_ret | apply nofail_gets | apply nofail_modify
    | apply nofail_abort | apply nofail_MOZ_ASSERT | apply nofail_at
    | progress cbv zeta
    | match goal with
      | |- nofail (match ?x with _ => _ end) => destruct x
      end ].

Lemma noteCodeRange_nofail i cr : nofail (noteCodeRange i cr).
Proof. unfold noteCodeRange, note. destruct (CodeRange.kind cr); nofail_tac. Qed.

Lemma appendTables_nofail code B : nofail (appendTables code B).
Proof.
  unfold appendTables.
  repeat first [apply noteCodeRange_nofail | progress nofail_tac].
Qed.

Lemma nofail_Fail {A} (m : M A) g g' : nofail m -> m g <> Fail g'.
Proof. intros H Heq. exact (wp_Fail _ _ _ _ _ (H g) Heq). Qed.

Lemma nofail_Blocked {A} (m : M A) g g' : nofail m -> m g <> Blocked g'.
Proof. intros H Heq. specialize (H g). unfold wp in H. by rewrite Heq in H. Qed.

Lemma nondecreasing_shift B l : nondecreasing l -> nondecreasing (map (Z.add B) l).
Proof.
  unfold nondecreasing. induction 1 as [|x l Hl IH Hx]; cbn; constructor; [done|].
  rewrite Forall_map. eapply list.Forall_impl; [exact Hx|]. cbn. intros; lia.
Qed.

Lemma begins_shift B l :
  begins (map (shift_codeRange B) l) = map (Z.add B) (begins l).
Proof. induction l as [|x l IH]; [done|]. cbn. f_equal. exact IH. Qed.

Lemma returnAddresses_shift B l :
  returnAddresses (map (shift_callSite B) l) = map (Z.add B) (returnAddresses l).
Proof. induction l as [|x l IH]; [done|]. cbn. f_equal. exact IH. Qed.

Lemma linkCompiledCode_inv code g :
  PlatformOk -> link_inv g -> ordered code -> offsets_in_bytes code ->
  wp (linkCompiledCode code) (fun _ g' => link_inv g') (fun g' => link_inv g') g.
Proof.
  intros Hisa Hinv [Hocr Hocs] Hoib. unfold wp.
  destruct (linkCompiledCode code g) as [[] g'|g'|g'|] eqn:Hlink; [| | |done].
  - pose proof (inv_size _ Hinv) as Hsz.
    pose proof (appendOffset_ge g Hisa) as HB.
    destruct (linkCompiledCode_tables code g g' Hisa Hsz Hoib Hlink)
      as ([Hsz' Hfit] & Hcr & Hcs & _).
    destruct Hinv as [H1 H2 H3 H4 H5]. destruct Hoib as [Hwcr Hwcs _ _ _ _ _].
    assert (begins (map (shift_codeRange (appendOffset g)) (codeRanges code)) =
            map (Z.add (appendOffset g)) (begins (codeRanges code))) as Eb.
    { apply begins_shift. }
    assert (returnAddresses (map (shift_callSite (appendOffset g)) (callSites code)) =
            map (Z.add (appendOffset g)) (returnAddresses (callSites code))) as Er.
    { apply returnAddresses_shift. }
    split.
    + lia.
    + rewrite Hcr. unfold begins at 1. rewrite fmap_app. fold (begins (codeRanges_of g)).
      change (CodeRange.begin <$> ?l) with (begins l). rewrite Eb.
      apply (nondecreasing_app _ _ (size_of g)); try done.
      * by apply nondecreasing_shift.
      * rewrite Forall_map. unfold begins. rewrite Forall_fmap.
        eapply list.Forall_impl; [exact Hwcr|]. cbn. unfold within. intros; lia.
    + rewrite Hcs. unfold returnAddresses at 1. rewrite fmap_app.
      change (CallSite.returnAddressOffset <$> ?l) with (returnAddresses l). rewrite Er.
      apply (nondecreasing_app _ _ (size_of g)); try done.
      * by apply nondecreasing_shift.
      * rewrite Forall_map. unfold returnAddresses. rewrite Forall_fmap.
        eapply list.Forall_impl; [exact Hwcs|]. cbn. unfold within. intros; lia.
    + rewrite Hcr. unfold begins at 1. rewrite fmap_app.
      change (CodeRange.begin <$> ?l) with (begins l). rewrite Eb.
      apply list.Forall_app. split.
      * eapply list.Forall_impl; [exact H4|]. cbn. intros; lia.
      * rewrite Forall_map. unfold begins. rewrite Forall_fmap.
        eapply list.Forall_impl; [exact Hwcr|]. cbn. unfold within. intros; lia.
    + rewrite Hcs. unfold returnAddresses at 1. rewrite fmap_app.
      change (CallSite.returnAddressOffset <$> ?l) with (returnAddresses l). rewrite Er.
      apply list.Forall_app. split.
      * eapply list.Forall_impl; [exact H5|]. cbn. intros; lia.
      * rewrite Forall_map. unfold returnAddresses. rewrite Forall_fmap.
        eapply list.Forall_impl; [exact Hwcs|]. cbn. unfold within. intros; lia.
  - rewrite linkCompiledCode_unfold in Hlink.
    destruct (MacroAssembler.oom (masm_ (appended code g))).
    + injection Hlink as <-.
      eapply link_inv_frame; [exact Hinv|reflexivity|reflexivity|].
      unfold appended, size_of. cbn.
      etransitivity; [apply (appendOffset_ge g Hisa)|].
      apply masm_emit_size. lia.
    + by apply nofail_Fail in Hlink; [|apply appendTables_nofail].
  - rewrite linkCompiledCode_unfold in Hlink.
    destruct (MacroAssembler.oom (masm_ (appended code g))); [done|].
    by apply nofail_Blocked in Hlink; [|apply appendTables_nofail].
Qed.

Lemma linked_inv g : PlatformOk -> linked g -> link_inv g.
Proof.
  intros Hisa. induction 1 as [g H0 Hcr Hcs|code g g' _ IH Ho Hw Hr|g g' _ IH Hr|g g' _ IH Hsz Hcr Hcs].
  - split; rewrite ?Hcr, ?Hcs, ?H0; cbn; try done; constructor.
  - pose proof (linkCompiledCode_inv code g Hisa IH Ho Hw) as Hwp.
    destruct Hr as [a Hr|Hr]; [exact (wp_Ok _ _ _ _ _ _ Hwp Hr)|exact (wp_Fail _ _ _ _ _ Hwp Hr)].
  - pose proof (linkCallSites_inv g Hisa IH) as Hwp.
    destruct Hr as [a Hr|Hr]; [exact (wp_Ok _ _ _ _ _ _ Hwp Hr)|exact (wp_Fail _ _ _ _ _ Hwp Hr)].
  - eapply link_inv_frame; [exact IH|done|done|lia].
Qed.

(** C2. When the code ranges and call sites of every task are ordered (and
    lie within the bytes of the task), after every call of
    [linkCompiledCode] and every pass of [linkCallSites] the code ranges of
    the module are non-decreasing in [begin] and its call sites in
    [returnAddressOffset]. *)
Theorem tables_stay_sorted g :
  PlatformOk -> linked g ->
  nondecreasing (begins (codeRanges_of g)) /\
  nondecreasing (returnAddresses (callSites_of g)).
Proof.
  intros Hisa Hl. destruct (linked_inv g Hisa Hl). done.
Qed.

(** ** Direct calls *)

Lemma bind_Ok {A B} (m : M A) (k : A -> M B) g b g' :
  bind m k g = Ok b g' -> exists a g1, m g = Ok a g1 /\ k a g1 = Ok b g'.
Proof. unfold bind. destruct (m g) as [a g1| | |]; try done. eauto. Qed.

Lemma gets_Ok {A} (p : ModuleGenerator -> A) g a g' :
  gets p g = Ok a g' -> a = p g /\ g' = g.
Proof. by intros [= <- <-]. Qed.

Lemma ret_Ok {A} (x : A) g a g' : ret x g = Ok a g' -> a = x /\ g' = g.
Proof. by intros [= <- <-]. Qed.

Lemma modify_Ok f g a g' : modify f g = Ok a g' -> g' = f g.
Proof. by intros [= <-]. Qed.

Lemma at_Ok {A} (v : list A) i g x g' :
  at_ v i g = Ok x g' -> v !! Z.to_nat i = Some x /\ g' = g.
Proof. unfold at_. destruct (v !! Z.to_nat i); [|done]. by intros [= <- <-]. Qed.

Lemma MOZ_ASSERT_Ok b f g a g' : MOZ_ASSERT b f g = Ok a g' -> b = true /\ g' = g.
Proof. destruct b; [|done]. by intros [= <-]. Qed.

(** Inverts [m g = Ok a g'] along the structure of [m]. *)
Ltac monad_inv H :=
  cbv beta zeta in H;
  lazymatch type of H with
  | bind _ _ _ = Ok _ _ =>
      let H1 := fresh "H" in
      apply bind_Ok in H; destruct H as (? & ? & H1 & H);
      monad_inv H1; monad_inv H
  | gets _ _ = Ok _ _ => apply gets_Ok in H; destruct H as [? ?]; subst
  | ret _ _ = Ok _ _ => apply ret_Ok in H; destruct H as [? ?]; subst
  | modify _ _ = Ok _ _ => apply modify_Ok in H; subst
  | at_ _ _ _ = Ok _ _ => apply at_Ok in H; destruct H as [H ?]; subst
  | MOZ_ASSERT _ _ _ = Ok _ _ => apply MOZ_ASSERT_Ok in H; destruct H as [H ?]; subst
  | fail _ = Ok _ _ => discriminate H
  | abort _ _ = Ok _ _ => discriminate H
  | (if ?b then _ else _) _ = Ok _ _ => destruct b eqn:?; monad_inv H
  | (match ?x with _ => _ end) _ = Ok _ _ => destruct x eqn:?; monad_inv H
  | _ => idtac
  end.

Lemma funcIsCompiled_Ok f g b g' :
  funcIsCompiled f g = Ok b g' ->
  g' = g /\
  exists i, funcToCodeRange_ g !! Z.to_nat f = Some i /\ b = negb (i =? BAD_CODE_RANGE).
Proof. unfold funcIsCompiled. intros H. monad_inv H. eauto. Qed.

Lemma funcCodeRange_Ok f g cr g' :
  funcCodeRange f g = Ok cr g' ->
  g' = g /\
  funcIsCompiled f g = Ok true g /\
  exists i, funcToCodeRange_ g !! Z.to_nat f = Some i /\ i <> BAD_CODE_RANGE /\
            codeRanges_of g !! Z.to_nat i = Some cr /\
            CodeRange.isFunction cr = true.
Proof.
  unfold funcCodeRange. intros H. monad_inv H.
  match goal with H : funcIsCompiled _ _ = Ok _ _ |- _ =>
    pose proof (funcIsCompiled_Ok _ _ _ _ H) as (-> & i & Hi & Hb) end.
  split; [done|]. split; [done|].
  match goal with H : _ !! Z.to_nat f = Some ?j |- _ =>
    rewrite H in Hi; injection Hi as -> end.
  exists i. repeat split; try done.
  intros ->. done.
Qed.

Lemma patchDirect_compiled caller f cr g :
  funcCodeRange f g = Ok cr g ->
  patchDirect caller f g =
  if InRange caller (CodeRange.funcNormalEntry cr)
  then Ok true (set_masm_ (masm_patchCall caller (CodeRange.funcNormalEntry cr) (masm_ g)) g)
  else Ok false g.
Proof.
  intros H. pose proof (funcCodeRange_Ok _ _ _ _ H) as (_ & Hc & _).
  unfold patchDirect. unfold bind at 1. rewrite Hc. unfold bind at 1. rewrite H.
  by destruct (InRange _ _).
Qed.

Lemma patchDirect_not_compiled caller f g :
  funcIsCompiled f g = Ok false g -> patchDirect caller f g = Ok false g.
Proof. intros H. unfold patchDirect. unfold bind at 1. by rewrite H. Qed.

(** C7. Two offsets are in range exactly when their distance is less than
    the smaller of [jumpThreshold] and [JumpImmediateRange]; and the call
    of a [Func] call site to a compiled callee is patched directly exactly
    when the return-address offset of the call site is in range of the
    normal entry of the callee. *)
Theorem InRange_branchRange :
  (forall a b, is_u32 a -> is_u32 b ->
     (InRange a b = true <->
      Z.abs (a - b) < Z.min (jumpThreshold JitOptions) (JumpImmediateRange isa))) /\
  (forall callSite f cr g,
     is_u32 (CallSite.returnAddressOffset callSite) ->
     funcCodeRange f g = Ok cr g ->
     patchDirect (CallSite.returnAddressOffset callSite) f g =
     if bool_decide (Z.abs (CallSite.returnAddressOffset callSite -
                            CodeRange.funcNormalEntry cr)
                     < Z.min (jumpThreshold JitOptions) (JumpImmediateRange isa))
     then Ok true
            (set_masm_
               (masm_patchCall (CallSite.returnAddressOffset callSite)
                  (CodeRange.funcNormalEntry cr) (masm_ g)) g)
     else Ok false g).
Proof.
  split; [exact InRange_spec|].
  intros callSite f cr g Hra Hcr. rewrite (patchDirect_compiled _ _ _ _ Hcr).
  pose proof (InRange_spec (CallSite.returnAddressOffset callSite)
                (CodeRange.funcNormalEntry cr) Hra (wrap32_range _)) as Hspec.
  destruct (InRange _ _); case_bool_decide; try done.
  - exfalso. tauto.
  - exfalso. destruct Hspec as [_ Hspec]. by specialize (Hspec ltac:(done)).
Qed.

(** ** The export table *)

Lemma exists_snoc {A} (P : A -> Prop) (done : list A) x :
  (exists e, e ∈ done ++ [x] /\ P e) <-> (exists e, e ∈ done /\ P e) \/ P x.
Proof.
  split.
  - intros (e & He & HP). apply elem_of_app in He as [He|He]; [left; eauto|].
    apply list_elem_of_singleton in He as ->. by right.
  - intros [(e & He & HP)|HP].
    + exists e. split; [|done]. apply elem_of_app. by left.
    + exists x. split; [|done]. apply elem_of_app. right. by apply list_elem_of_singleton.
Qed.

Lemma exportedFuncs_put_all l g :
  wp (forEach l exportedFuncs_put)
     (fun _ g' => (forall f, f ∈ exportedFuncs_ g' <-> f ∈ exportedFuncs_ g \/ f ∈ l) /\
                  funcExports_of g' = funcExports_of g)
     (fun _ => False) g.
Proof.
  eapply wp_mono;
    [apply (wp_forEach _ _
       (fun done g' => (forall f, f ∈ exportedFuncs_ g' <-> f ∈ exportedFuncs_ g \/ f ∈ done) /\
                       funcExports_of g' = funcExports_of g) (fun _ => False))
    |done|done].
  - split; [|done]. intros f. set_solver.
  - intros done x g1 [HI Hfe] _. unfold exportedFuncs_put. apply wp_modify.
    split; [|exact Hfe]. intros f. cbn. rewrite elem_of_union, HI. set_solver.
Qed.

Lemma initExportedFuncs_spec g :
  wp initExportedFuncs
     (fun _ g' => forall f,
        f ∈ exportedFuncs_ g' <->
        f ∈ exportedFuncs_ g \/ explicitly_exported f \/ env_startFuncIndex env_ = Some f)
     (fun _ => False) g.
Proof.
  unfold initExportedFuncs. apply wp_bind.
  eapply wp_mono;
    [apply (wp_forEach _ _
       (fun done g' => forall f,
          f ∈ exportedFuncs_ g' <->
          f ∈ exportedFuncs_ g \/
          exists exp, exp ∈ done /\ exp_kind exp = DK_Function /\ exp_funcIndex exp = f)
       (fun _ => False))
    | |done].
  - intros f. set_solver.
  - intros done x g1 HI _. unfold exportedFuncs_put.
    destruct (exp_kind x) eqn:Hk; wp_exec; intros f; cbn;
      rewrite ?elem_of_union, ?elem_of_singleton, HI, exists_snoc, Hk;
      intuition congruence.
  - cbn beta. intros _ g1 H1. unfold explicitly_exported, exportedFuncs_put.
    destruct (env_startFuncIndex env_) as [s|]; wp_exec; intros f; cbn;
      rewrite ?elem_of_union, ?elem_of_singleton, H1; intuition congruence.
Qed.

Lemma strictly_sorted_merge_sort (l : list Z) :
  NoDup l -> StronglySorted Z.lt (merge_sort Z.le l).
Proof.
  intros Hnd.
  assert (NoDup (merge_sort Z.le l)) as Hnd'
    by (by rewrite merge_sort_Permutation).
  pose proof (StronglySorted_merge_sort Z.le l) as Hs.
  induction Hs as [|x l' Hl' IH Hx]; [constructor|].
  apply list.NoDup_cons in Hnd' as [Hx' Hnd'].
  constructor; [by apply IH|].
  rewrite list.Forall_forall in Hx |- *. intros y Hy.
  specialize (Hx y Hy). assert (x <> y) by (intros ->; done). lia.
Qed.

Lemma finishFuncExports_spec g :
  wp finishFuncExports
     (fun _ g' =>
        funcExports_of g = [] /\
        exportIndices g' = merge_sort Z.le (elements (exportedFuncs_ g')) /\
        forall f, f ∈ exportedFuncs_ g' <-> f ∈ exportedFuncs_ g \/ in_external_table f)
     (fun _ => False) g.
Proof.
  unfold finishFuncExports. apply wp_bind.
  eapply wp_mono;
    [apply (wp_forEach _ _
       (fun done g' =>
          (forall f, f ∈ exportedFuncs_ g' <->
             f ∈ exportedFuncs_ g \/
             exists elems table,
               elems ∈ done /\
               env_tables env_ !! Z.to_nat (tableIndex elems) = Some table /\
               external table = true /\ f ∈ elemFuncIndices elems) /\
          funcExports_of g' = funcExports_of g)
       (fun _ => False))
    | |done].
  - split; [|done]. intros f. set_solver.
  - intros done elems g1 [HI Hfe] _. wp_exec.
    + eapply wp_mono; [apply exportedFuncs_put_all| |done].
      cbn beta. intros _ g2 [H2 Hfe2]. split; [|congruence].
      intros f. rewrite H2, HI. split.
      * intros [[?|(e & t & He & ? & ? & ?)]|?]; [by left| |].
        -- right. exists e, t. set_solver.
        -- right. exists elems, x. set_solver.
      * intros [?|(e & t & He & Ht & Hext & Hf)]; [by left; left|].
        apply elem_of_app in He as [He|He].
        -- left. right. eauto 10.
        -- apply list_elem_of_singleton in He as ->. by right.
    + split; [|done]. intros f. rewrite HI. split.
      * intros [?|(e & t & He & ? & ? & ?)]; [by left|].
        right. exists e, t. set_solver.
      * intros [?|(e & t & He & Ht & Hext & Hf)]; [by left|].
        apply elem_of_app in He as [He|He]; [right; eauto 10|].
        apply list_elem_of_singleton in He as ->. congruence.
  - cbn beta. intros _ g1 [H1 Hfe1]. wp_exec.
    match goal with H : is_nil _ = true |- _ => rename H into Hnil end.
    eapply wp_mono;
      [apply (wp_forEach _ _
         (fun done g' =>
            exportIndices g' = done /\ exportedFuncs_ g' = exportedFuncs_ g1)
         (fun _ => False))
      | |done].
    + unfold exportIndices, funcExports_of.
      destruct (MetadataTier.funcExports (metadataTier_ g1)); done.
    + intros done f g2 [Hd He] _. unfold funcSig. wp_exec.
      split; [|exact He]. unfold exportIndices, funcExports_of in *. cbn.
      by rewrite fmap_app, Hd.
    + cbn beta. intros _ g2 [Hd He]. split; [|split].
      * rewrite <- Hfe1. unfold funcExports_of.
        by destruct (MetadataTier.funcExports (metadataTier_ g1)).
      * by rewrite Hd, He.
      * rewrite He. intros f. rewrite H1. unfold in_external_table. done.
Qed.

(** C5. After [finishFuncExports] the exports are strictly sorted by
    function index, and a function has an export exactly when it is
    explicitly exported, is the start function, or is an element of a
    segment of an external table. *)
Theorem funcExports_sorted_and_complete g0 g1 g2 g3 :
  init g0 = Ok tt g1 ->
  exportedFuncs_ g2 = exportedFuncs_ g1 ->
  finishFuncExports g2 = Ok tt g3 ->
  StronglySorted Z.lt (exportIndices g3) /\
  (forall f, f ∈ exportIndices g3 <-> exported f).
Proof.
  intros Hinit Heq Hfin.
  assert (forall f, f ∈ exportedFuncs_ g1 <->
            explicitly_exported f \/ env_startFuncIndex env_ = Some f) as H1.
  { unfold init in Hinit. monad_inv Hinit.
    pose proof (wp_Ok _ _ _ _ _ _ (initExportedFuncs_spec _) Hinit) as H.
    cbn in H. intros f. rewrite H. set_solver. }
  pose proof (wp_Ok _ _ _ _ _ _ (finishFuncExports_spec g2) Hfin) as (_ & Hidx & Hset).
  cbn beta in Hidx, Hset. rewrite Hidx. split.
  - apply strictly_sorted_merge_sort, NoDup_elements.
  - intros f. rewrite merge_sort_Permutation, elem_of_elements, Hset, Heq, H1.
    unfold exported. tauto.
Qed.

(** ** Slots are assigned once *)

Lemma wpx_bind {A B} (m : M A) (k : A -> M B) Q E F g :
  wpx m (fun a g' => wpx (k a) Q E F g') E F g -> wpx (bind m k) Q E F g.
Proof. unfold wpx, bind. by destruct (m g). Qed.

Lemma wpx_mono {A} (m : M A) (Q Q' : A -> ModuleGenerator -> Prop) E E' (F F' : Fault -> Prop) g :
  wpx m Q E F g ->
  (forall a g', Q a g' -> Q' a g') -> (forall g', E g' -> E' g') ->
  (forall f, F f -> F' f) ->
  wpx m Q' E' F' g.
Proof. unfold wpx. destruct (m g); auto. Qed.

Lemma wpx_conj {A} (m : M A) Q1 Q2 E1 E2 F1 F2 g :
  wpx m Q1 E1 F1 g -> wpx m Q2 E2 F2 g ->
  wpx m (fun a g' => Q1 a g' /\ Q2 a g') (fun g' => E1 g' /\ E2 g')
    (fun f => F1 f /\ F2 f) g.
Proof. unfold wpx. destruct (m g); auto. Qed.

Lemma wp_wpx {A} (m : M A) Q E g : wp m Q E g -> wpx m Q E (fun _ => True) g.
Proof. unfold wp, wpx. by destruct (m g). Qed.

Lemma faults_ret {A} F (a : A) : faults F (ret a).
Proof. by intros g. Qed.

Lemma faults_bind {A B} F (m : M A) (k : A -> M B) :
  faults F m -> (forall a, faults F (k a)) -> faults F (bind m k).
Proof.
  intros Hm Hk g. apply wpx_bind. eapply wpx_mono; [apply Hm| |done|done].
  intros a g1 _. apply Hk.
Qed.

Lemma faults_gets {A} F (p : ModuleGenerator -> A) : faults F (gets p).
Proof. by intros g. Qed.

Lemma faults_modify F f : faults F (modify f).
Proof. by intros g. Qed.

Lemma faults_fail {A} F : faults F (@fail A).
Proof. by intros g. Qed.

Lemma faults_abort {A} (F : Fault -> Prop) f : F f -> faults F (@abort A f).
Proof. by intros H g. Qed.

Lemma faults_MOZ_ASSERT (F : Fault -> Prop) b f : F f -> faults F (MOZ_ASSERT b f).
Proof. intros H g. by destruct b. Qed.

Lemma faults_at {A} (F : Fault -> Prop) (v : list A) i :
  F IndexOutOfBounds -> faults F (at_ v i).
Proof. intros H g. unfold at_. by destruct (v !! Z.to_nat i). Qed.

Lemma faults_forEach {A} F (l : list A) body :
  (forall x, faults F (body x)) -> faults F (forEach l body).
Proof.
  intros H. induction l as [|x l IH]; cbn [forEach].
  - apply faults_ret.
  - apply faults_bind; auto.
Qed.

Lemma faults_AppendForEach {T} F (dstVec : ModuleGenerator -> list T) set_dstVec srcVec op :
  (forall i x, faults F (op i x)) ->
  faults F (AppendForEach dstVec set_dstVec srcVec op).
Proof.
  intros Hop. induction srcVec as [|x l IH]; cbn [AppendForEach].
  - apply faults_ret.
  - apply faults_bind; [apply faults_gets|]. intros dst.
    apply faults_bind; [apply Hop|]. intros elem.
    apply faults_bind; [apply faults_modify|done].
Qed.

Ltac faults_step :=
  lazymatch goal with
  | |- faults _ (bind _ _) => apply faults_bind; [|intros ?]
  | |- faults _ (AppendForEach _ _ _ _) => apply faults_AppendForEach; intros ? ?
  | |- faults _ (forEach _ _) => apply faults_forEach; intros ?
  | |- faults _ (ret _) => apply faults_ret
  | |- faults _ (gets _) => apply faults_gets
  | |- faults _ (modify _) => apply faults_modify
  | |- faults _ fail => apply faults_fail
  | |- faults _ (abort _) => apply faults_abort; done
  | |- faults _ (MOZ_ASSERT _ _) => apply faults_MOZ_ASSERT; done
  | |- faults _ (at_ _ _) => apply faults_at; done
  | |- faults _ (if ?b then _ else _) => destruct b
  | |- faults _ (match ?x with _ => _ end) => destruct x
  | |- faults _ (let _ := _ in _) => cbv zeta
  end.

Ltac faults_tac := repeat faults_step.




Lemma checks_bind {A B} (m : M A) (k : A -> M B) :
  checks m -> (forall a, checks (k a)) -> checks (bind m k).
Proof.
  intros Hm Hk g. unfold bind. destruct (Hm g) as [[a ->]|(f & -> & Hf)].
  - apply Hk.
  - right. by exists f.
Qed.

Lemma checks_gets {A} (proj : ModuleGenerator -> A) : checks (gets proj).
Proof. intros g. left. by eexists. Qed.

Lemma checks_at {A} (v : list A) i : checks (at_ v i).
Proof.
  intros g. unfold at_. destruct (v !! Z.to_nat i); [left; by eexists|].
  right. eexists. split; [reflexivity|by intros ?].
Qed.

Lemma checks_MOZ_ASSERT b f : not_a_slot_fault f -> checks (MOZ_ASSERT b f).
Proof.
  intros Hf g. unfold MOZ_ASSERT. destruct b; [left; by eexists|].
  right. by exists f.
Qed.

Lemma checks_forEach {A} (l : list A) (body : A -> M unit) :
  (forall x, checks (body x)) -> checks (forEach l body).
Proof.
  intros Hbody. induction l as [|x l IH]; cbn [forEach].
  - intros g. left. by eexists.
  - apply checks_bind; [apply Hbody|intros _; exact IH].
Qed.

Lemma finishLinking_debug_checks isAsmJS AsmJSFirstDefFuncIndex :
  checks (finishLinking_debug isAsmJS AsmJSFirstDefFuncIndex).
Proof.
  unfold finishLinking_debug, forRange. destruct isAsmJS.
  all: repeat first
    [ apply checks_bind; [|intros ?]
    | apply checks_forEach; intros ?
    | apply checks_gets | apply checks_at
    | apply checks_MOZ_ASSERT; by intros ? ].
Qed.

Lemma finishLinking_debug_Ok isAsmJS AsmJSFirstDefFuncIndex g g' :
  finishLinking_debug isAsmJS AsmJSFirstDefFuncIndex g = Ok tt g' -> g' = g.
Proof.
  destruct (finishLinking_debug_checks isAsmJS AsmJSFirstDefFuncIndex g)
    as [[[] ->]|(f & -> & _)]; [|done].
  by intros [= <-].
Qed.


Lemma finishLinking_debug_preserves {X} (proj : ModuleGenerator -> X) isAsmJS
    AsmJSFirstDefFuncIndex :
  preserves proj (finishLinking_debug isAsmJS AsmJSFirstDefFuncIndex).
Proof.
  intros g. unfold wp.
  by destruct (finishLinking_debug_checks isAsmJS AsmJSFirstDefFuncIndex g)
    as [[[] ->]|(f & -> & Hf)].
Qed.


Lemma wpx_ret {A} (a : A) Q E F g : Q a g -> wpx (ret a) Q E F g.
Proof. done. Qed.

Lemma wpx_gets {A} (proj : ModuleGenerator -> A) Q E F g :
  Q (proj g) g -> wpx (gets proj) Q E F g.
Proof. done. Qed.

Lemma wpx_modify f Q E F g : Q tt (f g) -> wpx (modify f) Q E F g.
Proof. done. Qed.


Lemma wpx_MOZ_ASSERT b f Q E (F : Fault -> Prop) g :
  (b = true -> Q tt g) -> (b = false -> F f) -> wpx (MOZ_ASSERT b f) Q E F g.
Proof. destruct b; cbn; auto. Qed.

Lemma wpx_at {A} (v : list A) i Q E (F : Fault -> Prop) g :
  F IndexOutOfBounds ->
  (forall x, v !! Z.to_nat i = Some x -> Q x g) -> wpx (at_ v i) Q E F g.
Proof. unfold at_, wpx. destruct (v !! Z.to_nat i); cbn; auto. Qed.





Lemma slotOf_offsetBy cr B : slotOf (CodeRange.offsetBy cr B) = slotOf cr.
Proof. done. Qed.



Ltac pres_with tac :=
  repeat first
    [ apply preserves_bind; [|intros ?]
    | apply preserves_AppendForEach; [intros ? ?; tac | intros ? ?]
    | apply preserves_forEach; intros ?
    | apply preserves_ret | apply preserves_gets | apply preserves_fail
    | apply preserves_abort | apply preserves_MOZ_ASSERT | apply preserves_at
    | apply preserves_modify; intros ?; tac
    | progress cbv zeta
    | match goal with
      | |- preserves _ (if ?b then _ else _) => destruct b
      | |- preserves _ (match ?x with _ => _ end) => destruct x
      end ].

Section LinkCallSitesFrame.
Context {X : Type} (proj : ModuleGenerator -> X).
Hypothesis proj_masm : forall v g, proj (set_masm_ v g) = proj g.
Hypothesis proj_callFarJumps : forall v g, proj (set_callFarJumps_ v g) = proj g.
Hypothesis proj_trapFarJumps : forall v g, proj (set_trapFarJumps_ v g) = proj g.
Hypothesis proj_debugTrapFarJumps :
  forall v g, proj (set_debugTrapFarJumps_ v g) = proj g.
Hypothesis proj_metadataTier : forall v g, proj (set_metadataTier_ v g) = proj g.
Hypothesis proj_lastPatchedCallSite :
  forall v g, proj (set_lastPatchedCallSite_ v g) = proj g.

Lemma linkCallSite_preserves callSite target ex exT :
  preserves proj (linkCallSite callSite target ex exT).
Proof.
  unfold linkCallSite. unfold_prims. cbv zeta.
  destruct (CallSite.kind callSite);
    pres_with ltac:(unfold push_codeRange; auto).
Qed.

Lemma linkCallSites_loop_preserves pending ex exT :
  preserves proj (linkCallSites_loop pending ex exT).
Proof.
  revert ex exT. induction pending as [|cs pending IH]; intros ex exT;
    cbn [linkCallSites_loop]; [apply preserves_ret|].
  apply preserves_bind; [apply preserves_gets|intros ?].
  apply preserves_bind; [apply preserves_gets|intros ?].
  apply preserves_bind; [apply preserves_at|intros ?].
  apply preserves_bind; [apply linkCallSite_preserves|intros ?].
  apply preserves_bind; [apply preserves_modify; auto|intros ?].
  apply IH.
Qed.

Lemma linkCallSites_preserves : preserves proj linkCallSites.
Proof.
  unfold linkCallSites. unfold_prims.
  apply preserves_bind; [apply preserves_modify; auto|intros ?].
  apply preserves_bind; [apply preserves_gets|intros ?].
  apply preserves_bind; [apply preserves_gets|intros ?].
  apply preserves_bind; [apply linkCallSites_loop_preserves|intros ?].
  pres_with auto.
Qed.

Lemma finishLinking_preserves isAsmJS AsmJSFirstDefFuncIndex :
  preserves proj (finishLinking isAsmJS AsmJSFirstDefFuncIndex).
Proof.
  unfold finishLinking. unfold_prims.
  apply preserves_bind; [apply finishLinking_debug_preserves|intros ?].
  apply preserves_bind; [apply linkCallSites_preserves|intros ?].
  pres_with auto.
Qed.
End LinkCallSitesFrame.



(** ** One pass over the call sites *)

Lemma patchDirect_Ok ra f g b g1 :
  patchDirect ra f g = Ok b g1 ->
  (b = false /\ g1 = g) \/
  (b = true /\ exists cr,
     funcCodeRange f g = Ok cr g /\
     InRange ra (CodeRange.funcNormalEntry cr) = true /\
     g1 = set_masm_ (masm_patchCall ra (CodeRange.funcNormalEntry cr) (masm_ g)) g).
Proof.
  unfold patchDirect. intros H.
  apply bind_Ok in H as (c & g2 & Hc & H).
  pose proof (funcIsCompiled_Ok _ _ _ _ Hc) as [-> _].
  destruct c; [|monad_inv H; by left].
  apply bind_Ok in H as (cr & g3 & Hcr & H).
  pose proof (funcCodeRange_Ok _ _ _ _ Hcr) as [-> _].
  cbv zeta in H. destruct (InRange _ _) eqn:Hin; unfold patchCall in H; monad_inv H.
  - right. split; [done|]. by exists cr.
  - by left.
Qed.

Ltac unfold_masm_in H :=
  unfold target_funcIndex, target_trap, farJumpWithPatch, appendRawCode in H;
  unfold currentOffset, masm_oom, masm_size, loadTls, patchCall, patchFarJump,
    haltingAlign in H.


Ltac linkCallSite_cases H :=
  unfold linkCallSite in H; unfold_masm_in H; cbv zeta in H;
  lazymatch type of H with
  | context [CallSite.kind ?cs] =>
      let Hk := fresh "Hk" in
      destruct (CallSite.kind cs) eqn:Hk; monad_inv H
  end;
  repeat match goal with
  | H : patchDirect _ _ _ = Ok _ _ |- _ =>
      apply patchDirect_Ok in H;
      destruct H as [[? ?]|(? & ? & ? & ? & ?)]; subst; try discriminate
  end;
  try match goal with H : ?a = true, H' : ?a = false |- _ => congruence end;
  cbn [fst snd].

Lemma linkCallSite_frame cs t ex exT g r g' :
  PlatformOk -> 0 <= size_of g ->
  linkCallSite cs t ex exT g = Ok r g' ->
  funcToCodeRange_ g' = funcToCodeRange_ g /\
  callSites_of g' = callSites_of g /\
  callSiteTargets_ g' = callSiteTargets_ g /\
  lastPatchedCallSite_ g' = lastPatchedCallSite_ g /\
  patchedFarJumps_of g' = patchedFarJumps_of g /\
  size_of g <= size_of g'.
Proof.
  intros Hisa Hsz H. linkCallSite_cases H.
  all: repeat split; try reflexivity.
  all: try (unfold patchedFarJumps_of; cbn; by rewrite ?(proj2 (masm_emit_logs _ _))).
  all: size_goal Hisa.
Qed.

Lemma linkCallSite_patches cs t ex exT g r g' :
  PlatformOk -> 0 <= size_of g ->
  linkCallSite cs t ex exT g = Ok r g' ->
  let ra := CallSite.returnAddressOffset cs in
  exists addP,
     patchedCalls_of g' = patchedCalls_of g ++ addP /\
     forall f, CallSite.kind cs = CallSiteDesc.Func -> t = TargetFunc f ->
       patchDirect ra f g = Ok false g ->
       exists p, r.1 !! f = Some p /\ (ra, p) ∈ addP.
Proof.
  intros Hisa Hsz H ra. linkCallSite_cases H.
  all: unfold patchedCalls_of; cbn; rewrite ?(proj1 (masm_emit_logs _ _)).
  all: try (first
    [ exists []; split; [by rewrite app_nil_r|];
      intros f Hf Ht Hpd; first [congruence | discriminate]
    | eexists [_]; split; [reflexivity|];
      intros f Hf Ht Hpd; try congruence ]).
  all: injection Ht as <-.
  - exfalso. unfold ra in Hpd. rewrite (patchDirect_compiled _ _ _ _ H0) in Hpd.
    by match type of Hpd with (if ?b then _ else _) = _ =>
         replace b with true in Hpd end.
  - eexists. split; [eassumption|]. by apply list_elem_of_singleton.
  - eexists. split; [apply lookup_insert_eq|]. by apply list_elem_of_singleton.
Qed.

Lemma linkCallSite_patches_trap cs t ex exT g r g' :
  PlatformOk -> 0 <= size_of g ->
  linkCallSite cs t ex exT g = Ok r g' ->
  let ra := CallSite.returnAddressOffset cs in
  exists addP,
     patchedCalls_of g' = patchedCalls_of g ++ addP /\
     forall trap, CallSite.kind cs = CallSiteDesc.TrapExit -> t = TargetTrap trap ->
       exists p, r.2 trap = Some p /\ (ra, p) ∈ addP.
Proof.
  intros Hisa Hsz H ra. linkCallSite_cases H.
  all: unfold patchedCalls_of; cbn; rewrite ?(proj1 (masm_emit_logs _ _)).
  all: try (first
    [ exists []; split; [by rewrite app_nil_r|];
      intros f Hf Ht; first [congruence | discriminate]
    | eexists [_]; split; [reflexivity|];
      intros f Hf Ht; try congruence ]).
  all: injection Ht as <-.
  - eexists. split; [eassumption|]. by apply list_elem_of_singleton.
  - eexists. split; [apply fn_lookup_insert|]. by apply list_elem_of_singleton.
Qed.

Ltac no_wrap Hisa :=
  unfold size_of, oom_of in *; cbn in *; emit_facts Hisa;
  rewrite ?wrap32_small by (unfold is_u32, UINT32_MAX in *; cbn in *; lia).

Lemma linkCallSite_islands cs t ex exT g r g' :
  PlatformOk -> 0 <= size_of g ->
  linkCallSite cs t ex exT g = Ok r g' ->
  exists addR,
    codeRanges_of g' = codeRanges_of g ++ addR /\
    ((r.1 = ex /\ callFarJumps_ g' = callFarJumps_ g) \/
     (exists f,
        ex !! f = None /\ r.1 = <[f := size_of g]> ex /\
        callFarJumps_ g' =
          callFarJumps_ g ++
          [{| CallFarJump.funcIndex := f;
              CallFarJump.jump := size_of g + FarJumpPatchAt isa |}] /\
        addR = [CodeRange.island (size_of g) (size_of g + FarJumpSize isa)] /\
        size_of g + FarJumpSize isa <= size_of g')) /\
    ((r.2 = exT /\ trapFarJumps_ g' = trapFarJumps_ g) \/
     (exists trap,
        exT trap = None /\ r.2 = <[trap := Some (size_of g)]> exT /\
        trapFarJumps_ g' =
          trapFarJumps_ g ++
          [{| TrapFarJump.trap := trap;
              TrapFarJump.jump :=
                size_of g + TlsReloadSize isa + FarJumpPatchAt isa |}] /\
        addR = [CodeRange.island (size_of g)
                  (size_of g + TlsReloadSize isa + FarJumpSize isa)] /\
        size_of g + TlsReloadSize isa + FarJumpSize isa <= size_of g')).
Proof.
  intros Hisa Hsz H. linkCallSite_cases H.
  all: unfold codeRanges_of; no_wrap Hisa.
  all: first
    [ exists []; split; [by rewrite app_nil_r|]; split; left; done
    | eexists [_]; split; [reflexivity|]; split;
      [ right; eexists; repeat split; try eassumption; try reflexivity;
        repeat f_equal; lia
      | left; done ]
    | eexists [_]; split; [reflexivity|]; split;
      [ left; done
      | right; eexists; repeat split; try eassumption; try reflexivity;
        repeat f_equal; lia ]
    | eexists [_]; split; [reflexivity|]; split; left; done
    ].
Qed.

Lemma funcIsCompiled_stable f g0 g b :
  funcToCodeRange_ g = funcToCodeRange_ g0 ->
  funcIsCompiled f g0 = Ok b g0 -> funcIsCompiled f g = Ok b g.
Proof.
  intros Heq H. apply funcIsCompiled_Ok in H as (_ & i & Hi & ->).
  unfold funcIsCompiled, bind, gets, at_. rewrite Heq, Hi. done.
Qed.

Lemma funcCodeRange_stable f g0 g cr addR :
  funcToCodeRange_ g = funcToCodeRange_ g0 ->
  codeRanges_of g = codeRanges_of g0 ++ addR ->
  funcCodeRange f g0 = Ok cr g0 -> funcCodeRange f g = Ok cr g.
Proof.
  intros Heq Hcr H. apply funcCodeRange_Ok in H as (_ & _ & i & Hi & Hne & Hl & Hf).
  assert (funcIsCompiled f g = Ok true g) as Hc.
  { unfold funcIsCompiled, bind, gets, at_. rewrite Heq, Hi. cbn.
    by destruct (Z.eqb_spec i BAD_CODE_RANGE). }
  unfold funcCodeRange. unfold bind at 1. rewrite Hc. cbn [MOZ_ASSERT].
  unfold bind, gets, at_, ret. cbn. rewrite Heq, Hi.
  unfold codeRanges_of in *. rewrite Hcr, (lookup_app_l_Some _ _ _ _ Hl).
  by rewrite Hf.
Qed.

Lemma patchDirect_false ra f g :
  patchDirect ra f g = Ok false g <->
  funcIsCompiled f g = Ok false g \/
  exists cr, funcCodeRange f g = Ok cr g /\
             InRange ra (CodeRange.funcNormalEntry cr) = false.
Proof.
  split.
  - unfold patchDirect. intros H.
    apply bind_Ok in H as (c & g2 & Hc & H).
    pose proof (funcIsCompiled_Ok _ _ _ _ Hc) as [-> _].
    destruct c; [|by left].
    apply bind_Ok in H as (cr & g3 & Hcr & H).
    pose proof (funcCodeRange_Ok _ _ _ _ Hcr) as [-> _].
    cbv zeta in H. destruct (InRange _ _) eqn:Hin.
    + unfold patchCall in H. apply bind_Ok in H as (? & ? & _ & H). by injection H.
    + right. eauto.
  - intros [H|(cr & Hcr & Hin)].
    + by apply patchDirect_not_compiled.
    + by rewrite (patchDirect_compiled _ _ _ _ Hcr), Hin.
Qed.

Lemma needs_island_stable g0 g cs f addR :
  funcToCodeRange_ g = funcToCodeRange_ g0 ->
  codeRanges_of g = codeRanges_of g0 ++ addR ->
  needs_island g0 cs f -> needs_island g cs f.
Proof.
  unfold needs_island. intros Heq Hcr. rewrite !patchDirect_false.
  intros [H|(cr & H & Hin)].
  - left. by eapply funcIsCompiled_stable.
  - right. exists cr. split; [|done]. by eapply funcCodeRange_stable.
Qed.

Lemma pass_inv_start g : pass_inv g g ∅ (fun _ => None).
Proof.
  exists [], [], [], []. rewrite !app_nil_r.
  repeat split; try done; try lia; try (by constructor);
    try (cbn; by intros ?%elem_of_nil); try (by intros [? ?]);
    try (rewrite lookup_empty; by intros [? ?]).
Qed.

Lemma pass_inv_step g0 g ex exT cs target r g1 (i : nat) :
  PlatformOk -> 0 <= size_of g0 ->
  pass_inv g0 g ex exT ->
  lastPatchedCallSite_ g = Z.of_nat i ->
  callSites_of g0 !! i = Some cs ->
  callSiteTargets_ g0 !! i = Some target ->
  linkCallSite cs target ex exT g = Ok r g1 ->
  pass_inv g0 (set_lastPatchedCallSite_ (Z.of_nat i + 1) g1) r.1 r.2.
Proof.
  intros Hisa Hsz0
    (addP & addR & newJ & newT & (F1 & F2 & F3 & F4 & F5 & F6) &
     HP & HR & HJ & HT & NDJ & NDT & KJ & KT & HI & HC & HIT & HCT) Hlast Hcs Htg Hstep.
  assert (0 <= size_of g) as Hsz by lia.
  pose proof (linkCallSite_frame _ _ _ _ _ _ _ Hisa Hsz Hstep)
    as (G1 & G2 & G3 & G4 & G5 & G6).
  pose proof (linkCallSite_patches _ _ _ _ _ _ _ Hisa Hsz Hstep) as (addP1 & HP1 & HC1).
  pose proof (linkCallSite_islands _ _ _ _ _ _ _ Hisa Hsz Hstep)
    as (addR1 & HR1 & HJ1 & HT1).
  pose proof (linkCallSite_patches_trap _ _ _ _ _ _ _ Hisa Hsz Hstep)
    as (addP2 & HP2 & HC2).
  assert (addP2 = addP1) as -> by (rewrite HP1 in HP2; by apply app_inv_head in HP2).
  cbv zeta in HC1, HC2.
  (* the islands of calls *)
  assert (exists newJ1,
            callFarJumps_ g1 = callFarJumps_ g0 ++ newJ ++ newJ1 /\
            NoDup (CallFarJump.funcIndex <$> newJ ++ newJ1) /\
            (forall f, f ∈ (CallFarJump.funcIndex <$> newJ ++ newJ1) <->
                       is_Some (r.1 !! f)) /\
            ex ⊆ r.1 /\
            (forall f p, r.1 !! f = Some p ->
               size_of g0 <= p /\ p + FarJumpSize isa <= size_of g1 /\
               CodeRange.island p (p + FarJumpSize isa) ∈ addR ++ addR1 /\
               callIsland f p ∈ newJ ++ newJ1)) as (newJ1 & HJ' & NDJ' & KJ' & Hsub & HI').
  { destruct HJ1 as [[Hr HJ1]|(f0 & Hnone & Hr & HJ1 & HaddR & Hsz1)].
    - exists []. rewrite app_nil_r, Hr, HJ1.
      split; [done|]. split; [done|]. split; [done|]. split; [done|].
      intros f p Hp. destruct (HI f p Hp) as (? & ? & ? & ?).
      repeat split; try done; try lia. apply elem_of_app. by left.
    - exists [callIsland f0 (size_of g)]. rewrite Hr, HJ1, HJ, <- app_assoc.
      split; [done|]. rewrite fmap_app. cbn [fmap list_fmap CallFarJump.funcIndex callIsland].
      split; [|split; [|split]].
      + apply list.NoDup_app. split; [done|]. split; [|apply list.NoDup_singleton].
        intros f Hf ->%list_elem_of_singleton. apply KJ in Hf as [? Hf]. congruence.
      + intros f. rewrite elem_of_app, list_elem_of_singleton, KJ, lookup_insert.
        case_decide; subst.
        * split; [eauto|]. by right.
        * split; [by intros [?|?]|]. by left.
      + by apply insert_subseteq.
      + intros f p. rewrite lookup_insert. case_decide; subst.
        * intros [= <-]. repeat split; try lia.
          -- apply elem_of_app. right. by apply list_elem_of_singleton.
          -- apply elem_of_app. right. by apply list_elem_of_singleton.
        * intros H'. apply HI in H' as (? & ? & ? & ?). repeat split; try lia.
          -- apply elem_of_app. by left.
          -- apply elem_of_app. by left. }
  (* the islands of traps *)
  assert (exists newT1,
            trapFarJumps_ g1 = trapFarJumps_ g0 ++ newT ++ newT1 /\
            NoDup (TrapFarJump.trap <$> newT ++ newT1) /\
            (forall t, t ∈ (TrapFarJump.trap <$> newT ++ newT1) <->
                       is_Some (r.2 t)) /\
            (forall t p, exT t = Some p -> r.2 t = Some p) /\
            (forall t p, r.2 t = Some p ->
               size_of g0 <= p /\
               CodeRange.island p (p + TlsReloadSize isa + FarJumpSize isa)
                 ∈ addR ++ addR1 /\
               trapIsland t p ∈ newT ++ newT1))
    as (newT1 & HT' & NDT' & KT' & HsubT & HIT').
  { destruct HT1 as [[Hr HT1]|(t0 & Hnone & Hr & HT1 & HaddR & _)].
    - exists []. rewrite app_nil_r, Hr, HT1.
      split; [done|]. split; [done|]. split; [done|]. split; [done|].
      intros t p Hp. destruct (HIT t p Hp) as (? & ? & ?).
      repeat split; try done. apply elem_of_app. by left.
    - exists [trapIsland t0 (size_of g)].
      rewrite Hr, HT1, HT, <- app_assoc. split; [done|]. rewrite fmap_app.
      cbn [fmap list_fmap TrapFarJump.trap trapIsland]. split; [|split; [|split]].
      + apply list.NoDup_app. split; [done|]. split; [|apply list.NoDup_singleton].
        intros t Ht ->%list_elem_of_singleton. apply KT in Ht as [? Ht]. congruence.
      + intros t. rewrite elem_of_app, list_elem_of_singleton, KT.
        destruct (decide (t0 = t)) as [->|Hne].
        * rewrite fn_lookup_insert. split; [eauto|]. by right.
        * rewrite fn_lookup_insert_ne by done. split; [by intros [?|?]|]. by left.
      + intros t p Hp. destruct (decide (t0 = t)) as [->|Hne]; [congruence|].
        by rewrite fn_lookup_insert_ne.
      + intros t p. destruct (decide (t0 = t)) as [->|Hne].
        * rewrite fn_lookup_insert. intros [= <-]. repeat split; try lia.
          -- apply elem_of_app. right. rewrite HaddR. by apply list_elem_of_singleton.
          -- apply elem_of_app. right. by apply list_elem_of_singleton.
        * rewrite fn_lookup_insert_ne by done.
          intros H'. apply HIT in H' as (? & ? & ?). repeat split; try lia.
          -- apply elem_of_app. by left.
          -- apply elem_of_app. by left. }
  exists (addP ++ addP1), (addR ++ addR1), (newJ ++ newJ1), (newT ++ newT1).
  split; [|split; [|split; [|split; [|split; [|split; [|split; [|split; [|split; [|split;
    [|split; [|split]]]]]]]]]]]; try done.
  - unfold callSites_of, patchedFarJumps_of, size_of in *. cbn.
    repeat split; try congruence; lia.
  - unfold patchedCalls_of in *. cbn. by rewrite HP1, HP, app_assoc.
  - unfold codeRanges_of in *. cbn. by rewrite HR1, HR, app_assoc.
  - intros i' cs' f [Hlo Hhi] Hcs' Hk Htg' Hneed. cbn in Hhi.
    destruct (decide (i' = i)) as [->|Hne].
    + rewrite Hcs in Hcs'. injection Hcs' as <-. rewrite Htg in Htg'. injection Htg' as ->.
      destruct (HC1 f Hk eq_refl) as (p & Hp & Hin).
      { eapply needs_island_stable; [exact F1|exact HR|exact Hneed]. }
      exists p. split; [done|]. apply elem_of_app. by right.
    + destruct (HC i' cs' f) as (p & Hp & Hin); try done; [lia|].
      exists p. split; [by eapply lookup_weaken|]. apply elem_of_app. by left.
  - intros i' cs' t [Hlo Hhi] Hcs' Hk Htg'. cbn in Hhi.
    destruct (decide (i' = i)) as [->|Hne].
    + rewrite Hcs in Hcs'. injection Hcs' as <-. rewrite Htg in Htg'. injection Htg' as ->.
      destruct (HC2 t Hk eq_refl) as (p & Hp & Hin).
      exists p. split; [done|]. apply elem_of_app. by right.
    + destruct (HCT i' cs' t) as (p & Hp & Hin); try done; [lia|].
      exists p. split; [by apply HsubT|]. apply elem_of_app. by left.
Qed.

Lemma linkCallSites_loop_pass g0 pending ex exT g g' (i : nat) :
  PlatformOk -> 0 <= size_of g0 ->
  Z.of_nat (length (callSites_of g0)) <= UINT32_MAX ->
  pass_inv g0 g ex exT ->
  lastPatchedCallSite_ g = Z.of_nat i ->
  pending = drop i (callSites_of g0) ->
  linkCallSites_loop pending ex exT g = Ok tt g' ->
  exists ex' exT',
    pass_inv g0 g' ex' exT' /\
    lastPatchedCallSite_ g' = Z.of_nat (i + length pending).
Proof.
  intros Hisa Hsz0 Hlen. revert ex exT g i.
  induction pending as [|cs pending IH]; intros ex exT g i Hinv Hlast Hdrop H.
  - cbn in H. injection H as <-. exists ex, exT. split; [done|].
    rewrite Hlast. cbn. f_equal. lia.
  - cbn [linkCallSites_loop] in H.
    assert (callSites_of g0 !! i = Some cs) as Hcs.
    { pose proof (lookup_drop (callSites_of g0) i 0) as Hl.
      rewrite <- Hdrop, Nat.add_0_r in Hl. by rewrite <- Hl. }
    assert (pending = drop (S i) (callSites_of g0)) as Hdrop'.
    { rewrite (drop_S _ _ _ Hcs) in Hdrop. by injection Hdrop. }
    pose proof (lookup_lt_Some _ _ _ Hcs) as Hi.
    apply bind_Ok in H as (l & g1 & H1 & H). apply gets_Ok in H1 as [-> ->].
    apply bind_Ok in H as (tg & g1 & H1 & H). apply gets_Ok in H1 as [-> ->].
    apply bind_Ok in H as (target & g1 & H1 & H). apply at_Ok in H1 as [Htg ->].
    apply bind_Ok in H as (r & g1 & Hstep & H).
    apply bind_Ok in H as ([] & g2 & H1 & H). apply modify_Ok in H1. subst g2.
    rewrite Hlast, Nat2Z.id in Htg.
    pose proof Hinv as (_ & _ & _ & _ & (_ & _ & F3 & _ & F5 & _) & _).
    rewrite F3 in Htg.
    assert (0 <= size_of g) as Hsz by lia.
    pose proof (linkCallSite_frame _ _ _ _ _ _ _ Hisa Hsz Hstep)
      as (_ & _ & _ & G4 & _ & _).
    rewrite G4, Hlast, wrap32_small in H by (unfold is_u32; lia).
    pose proof (pass_inv_step _ _ _ _ _ _ _ _ _ Hisa Hsz0 Hinv Hlast Hcs Htg Hstep)
      as Hinv'.
    destruct (IH r.1 r.2 _ (S i) Hinv') as (ex' & exT' & Hfin & Hlast'); try done.
    + cbn. lia.
    + exists ex', exT'. split; [done|]. rewrite Hlast'. cbn [length]. f_equal. lia.
Qed.

Lemma linkCallSites_pass g g' :
  PlatformOk -> 0 <= size_of g ->
  0 <= lastPatchedCallSite_ g ->
  Z.of_nat (length (callSites_of g)) <= UINT32_MAX ->
  linkCallSites g = Ok tt g' ->
  let g0 := set_masm_ (masm_haltingAlign (CodeAlignment isa) (masm_ g)) g in
  exists ex exT,
    pass_inv g0 g' ex exT /\
    Z.of_nat (length (callSites_of g)) <= lastPatchedCallSite_ g' /\
    oom_of g' = false.
Proof.
  intros Hisa Hsz Hlast Hlen H g0. unfold linkCallSites in H. unfold_masm_in H.
  apply bind_Ok in H as ([] & g1 & H1 & H). apply modify_Ok in H1. subst g1.
  fold g0 in H.
  apply bind_Ok in H as (l & g1 & H1 & H). apply gets_Ok in H1 as [-> ->].
  apply bind_Ok in H as (sites & g1 & H1 & H). apply gets_Ok in H1 as [-> ->].
  apply bind_Ok in H as ([] & g1 & Hloop & H).
  apply bind_Ok in H as (oom & g2 & H1 & H). apply gets_Ok in H1 as [-> ->].
  destruct (MacroAssembler.oom (masm_ g1)) eqn:Hoom; [done|]. injection H as <-.
  assert (size_of g <= size_of g0) as Hsz0 by apply (appendOffset_ge g Hisa).
  assert (0 <= size_of g0) as Hsz0' by lia.
  destruct (linkCallSites_loop_pass g0
              (drop (Z.to_nat (lastPatchedCallSite_ g0)) (callSites_of g0))
              ∅ (fun _ => None) g0 g1 (Z.to_nat (lastPatchedCallSite_ g0))
              Hisa Hsz0' Hlen (pass_inv_start g0)) as (ex & exT & Hinv & Hl);
    try done.
  - cbn. lia.
  - exists ex, exT. split; [done|]. split; [|done]. rewrite Hl.
    change (callSites_of g0) with (callSites_of g).
    change (lastPatchedCallSite_ g0) with (lastPatchedCallSite_ g).
    rewrite length_drop. lia.
Qed.

(** ** The far jumps are patched at the end *)

Lemma funcCodeRange_view f g g' cr :
  link_view g' = link_view g ->
  funcCodeRange f g = Ok cr g -> funcCodeRange f g' = Ok cr g'.
Proof.
  unfold link_view. intros [= H1 H2 _ _ _ _] H.
  eapply (funcCodeRange_stable f g g' cr []); [done| |done].
  by rewrite app_nil_r.
Qed.

Lemma patch_callFarJumps_spec fars g :
  wp (forEach fars (fun far =>
        let* cr := funcCodeRange (CallFarJump.funcIndex far) in
        patchFarJump (CallFarJump.jump far) (CodeRange.funcNormalEntry cr)))
     (fun _ g' =>
        link_view g' = link_view g /\
        (exists add, patchedFarJumps_of g' = patchedFarJumps_of g ++ add) /\
        forall far, far ∈ fars ->
          exists cr, funcCodeRange (CallFarJump.funcIndex far) g = Ok cr g /\
                     (CallFarJump.jump far, CodeRange.funcNormalEntry cr)
                       ∈ patchedFarJumps_of g')
     (fun _ => True) g.
Proof.
  eapply wp_mono;
    [apply (wp_forEach _ _
       (fun done g' =>
          link_view g' = link_view g /\
          (exists add, patchedFarJumps_of g' = patchedFarJumps_of g ++ add) /\
          forall far, far ∈ done ->
            exists cr, funcCodeRange (CallFarJump.funcIndex far) g = Ok cr g /\
                       (CallFarJump.jump far, CodeRange.funcNormalEntry cr)
                         ∈ patchedFarJumps_of g')
       (fun _ => True))
    |done|done].
  - split; [done|]. split; [exists []; by rewrite app_nil_r|].
    by intros far ?%elem_of_nil.
  - intros done far g1 (Hv & (add & Hadd) & Hdone) _. apply wp_bind.
    unfold wp at 1.
    destruct (funcCodeRange (CallFarJump.funcIndex far) g1) as [cr g2| | |] eqn:Hcr;
      try done.
    pose proof (funcCodeRange_Ok _ _ _ _ Hcr) as (-> & _).
    unfold patchFarJump. apply wp_modify. split; [|split].
    + rewrite <- Hv. reflexivity.
    + exists (add ++ [(CallFarJump.jump far, CodeRange.funcNormalEntry cr)]).
      unfold patchedFarJumps_of in *. cbn. by rewrite Hadd, app_assoc.
    + intros far' [Hin| ->%list_elem_of_singleton]%elem_of_app.
      * destruct (Hdone far' Hin) as (cr' & Hcr' & Hp). exists cr'. split; [done|].
        unfold patchedFarJumps_of in *. cbn. apply elem_of_app. by left.
      * exists cr. split.
        -- by apply (funcCodeRange_view _ g1 g).
        -- unfold patchedFarJumps_of. cbn. apply elem_of_app. right.
           by apply list_elem_of_singleton.
Qed.

Lemma finishLinking_spec isAsmJS AsmJSFirstDefFuncIndex g g3 :
  finishLinking isAsmJS AsmJSFirstDefFuncIndex g = Ok tt g3 ->
  exists g1,
    linkCallSites g = Ok tt g1 /\
    link_view g3 = link_view g1 /\
    forall far, far ∈ callFarJumps_ g1 ->
      exists cr, funcCodeRange (CallFarJump.funcIndex far) g1 = Ok cr g1 /\
                 (CallFarJump.jump far, CodeRange.funcNormalEntry cr)
                   ∈ patchedFarJumps_of g3.
Proof.
  unfold finishLinking. intros H.
  apply bind_Ok in H as ([] & g0 & H1 & H). apply finishLinking_debug_Ok in H1 as ->.
  apply bind_Ok in H as ([] & g1 & Hpass & H). exists g1. split; [done|].
  apply bind_Ok in H as (fars & g0 & H1 & H). apply gets_Ok in H1 as [-> ->].
  apply bind_Ok in H as ([] & g2 & Hcalls & H).
  pose proof (wp_Ok _ _ _ _ _ _ (patch_callFarJumps_spec _ g1) Hcalls)
    as (Hv2 & (add2 & Hadd2) & Hp2).
  assert (link_view g3 = link_view g2 /\
          exists add, patchedFarJumps_of g3 = patchedFarJumps_of g2 ++ add)
    as (Hv3 & add3 & Hadd3).
  { clear Hcalls Hp2 Hv2 Hadd2.
    apply bind_Ok in H as (fars1 & g0 & H1 & H). apply gets_Ok in H1 as [-> ->].
    apply bind_Ok in H as ([] & g4 & Htraps & H).
    apply bind_Ok in H as (fars2 & g0 & H1 & H). apply gets_Ok in H1 as [-> ->].
    apply bind_Ok in H as ([] & g5 & Hdebug & H).
    unfold masm_oom in H. monad_inv H.
    assert (forall A (l : list A) (body : A -> M unit) ga gb,
              (forall x ga,
                 wp (body x)
                    (fun _ gb => link_view gb = link_view ga /\
                       exists add, patchedFarJumps_of gb = patchedFarJumps_of ga ++ add)
                    (fun _ => True) ga) ->
              forEach l body ga = Ok tt gb ->
              link_view gb = link_view ga /\
              exists add, patchedFarJumps_of gb = patchedFarJumps_of ga ++ add) as Hloop.
    { intros A l body ga gb Hbody Hl.
      refine (wp_Ok _ (fun _ gb => link_view gb = link_view ga /\
              exists add, patchedFarJumps_of gb = patchedFarJumps_of ga ++ add)
              (fun _ => True) _ _ _ _ Hl).
      eapply wp_mono;
        [apply (wp_forEach _ _
           (fun _ gb => link_view gb = link_view ga /\
              exists add, patchedFarJumps_of gb = patchedFarJumps_of ga ++ add)
           (fun _ => True))|done|done].
      - split; [done|]. exists []. by rewrite app_nil_r.
      - intros done x gc (Hv & add & Hadd) _.
        eapply wp_mono; [apply Hbody| |done]. cbn beta.
        intros _ gd (Hv' & add' & Hadd'). split; [congruence|].
        exists (add ++ add'). by rewrite Hadd', Hadd, app_assoc. }
    apply Hloop in Htraps as (Hv4 & add4 & Hadd4).
    2:{ intros far ga. unfold patchFarJump. wp_exec. split; [reflexivity|].
        eexists [_]. reflexivity. }
    apply Hloop in Hdebug as (Hv5 & add5 & Hadd5).
    2:{ intros far ga. unfold patchFarJump. wp_exec. split; [reflexivity|].
        eexists [_]. reflexivity. }
    split; [congruence|]. exists (add4 ++ add5). by rewrite Hadd5, Hadd4, app_assoc. }
  split; [congruence|].
  intros far Hfar. destruct (Hp2 far Hfar) as (cr & Hcr & Hp). exists cr.
  split; [done|]. rewrite Hadd3. apply elem_of_app. by left.
Qed.

(** ** Nothing recorded is dropped *)

Lemma grown_refl g : grown g g.
Proof. by repeat split. Qed.

Lemma grown_trans g1 g2 g3 : grown g1 g2 -> grown g2 g3 -> grown g1 g3.
Proof.
  intros (?&?&?) (?&?&?). repeat split; by etrans.
Qed.

Lemma grows_bind {A B} (m : M A) (k : A -> M B) :
  grows m -> (forall a, grows (k a)) -> grows (bind m k).
Proof.
  intros Hm Hk g. apply wp_bind. eapply wp_mono; [apply Hm| |done].
  intros a g1 H1. cbn beta. eapply wp_mono; [apply Hk| |done].
  intros b g2 H2. exact (grown_trans _ _ _ H1 H2).
Qed.

Lemma grows_ret {A} (a : A) : grows (ret a).
Proof. intros g. apply grown_refl. Qed.

Lemma grows_gets {A} (f : ModuleGenerator -> A) : grows (gets f).
Proof. intros g. apply grown_refl. Qed.

Lemma grows_fail {A} : grows (@fail A).
Proof. by intros g. Qed.

Lemma grows_abort {A} f : grows (@abort A f).
Proof. by intros g. Qed.

Lemma grows_MOZ_ASSERT b f : grows (MOZ_ASSERT b f).
Proof. intros g. destruct b; [apply grown_refl|done]. Qed.

Lemma grows_at {A} (l : list A) i : grows (at_ l i).
Proof. intros g. unfold wp, at_. destruct (l !! _); [apply grown_refl|done]. Qed.

Lemma grows_modify f : (forall g, grown g (f g)) -> grows (modify f).
Proof. intros H g. apply H. Qed.

Lemma grows_forEach {A} (l : list A) body :
  (forall x, grows (body x)) -> grows (forEach l body).
Proof.
  intros H. induction l as [|x l IH]; cbn [forEach].
  - apply grows_ret.
  - apply grows_bind; auto.
Qed.

Lemma grows_preserves {A} (m : M A) :
  preserves codeRanges_of m -> preserves patchedCalls_of m ->
  preserves callFarJumps_ m -> grows m.
Proof.
  intros H1 H2 H3 g. specialize (H1 g). specialize (H2 g). specialize (H3 g).
  unfold wp in *. destruct (m g); try done.
  unfold grown. by rewrite H1, H2, H3.
Qed.

Lemma grows_Ok {A} (m : M A) g a g' : grows m -> m g = Ok a g' -> grown g g'.
Proof. intros H Heq. exact (wp_Ok _ _ _ _ _ _ (H g) Heq). Qed.

Ltac grown_leaf :=
  intros; unfold grown, push_codeRange, codeRanges_of, patchedCalls_of,
    masm_haltingAlign, masm_patchCall, masm_patchFarJump;
  cbn; rewrite ?(proj1 (masm_emit_logs _ _));
  repeat split; first [reflexivity | by apply prefix_app_r].

Ltac grows_tac :=
  repeat first
    [ apply grows_bind; [|intros ?]
    | apply grows_forEach; intros ?
    | apply grows_ret | apply grows_gets | apply grows_fail
    | apply grows_abort | apply grows_MOZ_ASSERT | apply grows_at
    | apply grows_modify; intros ?; grown_leaf
    | progress cbv zeta
    | match goal with
      | |- grows (if ?b then _ else _) => destruct b
      | |- grows (match ?x with _ => _ end) => destruct x
      end ].

Lemma linkCallSite_grows callSite target ex exT :
  grows (linkCallSite callSite target ex exT).
Proof.
  unfold linkCallSite. unfold_prims. cbv zeta.
  destruct (CallSite.kind callSite); grows_tac.
Qed.

Lemma linkCallSites_loop_grows pending ex exT :
  grows (linkCallSites_loop pending ex exT).
Proof.
  revert ex exT. induction pending as [|cs pending IH]; intros ex exT;
    cbn [linkCallSites_loop]; [apply grows_ret|].
  apply grows_bind; [apply grows_gets|intros ?].
  apply grows_bind; [apply grows_gets|intros ?].
  apply grows_bind; [apply grows_at|intros ?].
  apply grows_bind; [apply linkCallSite_grows|intros ?].
  apply grows_bind; [apply grows_modify; grown_leaf|intros ?].
  apply IH.
Qed.

Lemma linkCallSites_grows : grows linkCallSites.
Proof.
  unfold linkCallSites. unfold_prims.
  apply grows_bind; [apply grows_modify; grown_leaf|intros ?].
  apply grows_bind; [apply grows_gets|intros ?].
  apply grows_bind; [apply grows_gets|intros ?].
  apply grows_bind; [apply linkCallSites_loop_grows|intros ?].
  grows_tac.
Qed.

Lemma finishLinking_grows isAsmJS AsmJSFirstDefFuncIndex :
  grows (finishLinking isAsmJS AsmJSFirstDefFuncIndex).
Proof.
  unfold finishLinking. unfold_prims.
  apply grows_bind;
    [apply grows_preserves; apply finishLinking_debug_preserves|intros ?].
  apply grows_bind; [apply linkCallSites_grows|intros ?].
  grows_tac.
Qed.

Lemma linkCompiledCode_grows code : grows (linkCompiledCode code).
Proof.
  intros g. unfold wp. rewrite linkCompiledCode_unfold.
  destruct (MacroAssembler.oom _); [done|].
  assert (grown g (appended code g)) as H0 by (unfold appended; grown_leaf).
  pose proof (appendTables_codeRanges code (appendOffset g) (appended code g)) as H1.
  pose proof (appendTables_callFarJumps code (appendOffset g) (appended code g)) as H2.
  assert (preserves patchedCalls_of (appendTables code (appendOffset g))) as H3
    by (unfold appendTables; pres).
  specialize (H3 (appended code g)). unfold wp in H1, H2, H3.
  destruct (appendTables _ _ _) as [[] g'| | |]; try done.
  eapply grown_trans; [exact H0|]. unfold grown. rewrite H1, H2, H3.
  repeat split; first [reflexivity | by apply prefix_app_r].
Qed.

Lemma runStep_grows step : grows (runStep step).
Proof.
  destruct step; cbn [runStep]; [apply linkCompiledCode_grows|apply linkCallSites_grows].
Qed.

(** ** One pass over the call sites *)

Lemma linkCallSites_islands_shared g g' :
  PlatformOk -> 0 <= size_of g -> 0 <= lastPatchedCallSite_ g ->
  Z.of_nat (length (callSites_of g)) <= UINT32_MAX ->
  linkCallSites g = Ok tt g' ->
  exists (islandOf : Z -> option Z) (trapIslandOf : Trap -> option Z)
         addP addR newJ newT,
    patchedCalls_of g' = patchedCalls_of g ++ addP /\
    codeRanges_of g' = codeRanges_of g ++ addR /\
    callFarJumps_ g' = callFarJumps_ g ++ newJ /\
    trapFarJumps_ g' = trapFarJumps_ g ++ newT /\
    NoDup (CallFarJump.funcIndex <$> newJ) /\
    NoDup (TrapFarJump.trap <$> newT) /\
    (forall f p, islandOf f = Some p ->
       appendOffset g <= p /\
       CodeRange.island p (p + FarJumpSize isa) ∈ addR /\
       callIsland f p ∈ newJ) /\
    (forall t p, trapIslandOf t = Some p ->
       appendOffset g <= p /\
       CodeRange.island p (p + TlsReloadSize isa + FarJumpSize isa) ∈ addR /\
       trapIsland t p ∈ newT) /\
    (forall i cs f,
       pending g i cs (TargetFunc f) -> CallSite.kind cs = CallSiteDesc.Func ->
       needs_island g cs f ->
       exists p, islandOf f = Some p /\ (CallSite.returnAddressOffset cs, p) ∈ addP) /\
    (forall i cs t,
       pending g i cs (TargetTrap t) -> CallSite.kind cs = CallSiteDesc.TrapExit ->
       exists p, trapIslandOf t = Some p /\ (CallSite.returnAddressOffset cs, p) ∈ addP).
Proof.
  intros Hisa Hsz Hlast Hlen Hpass.
  destruct (linkCallSites_pass _ _ Hisa Hsz Hlast Hlen Hpass)
    as (ex & exT &
        (addP & addR & newJ & newT & (F1 & F2 & F3 & F4 & F5 & F6) &
         HP & HR & HJ & HT & NDJ & NDT & KJ & KT & HI & HC & HIT & HCT) & Hend & _).
  exists (fun f => ex !! f), exT, addP, addR, newJ, newT.
  split; [|split; [|split; [|split; [|split; [|split; [|split; [|split; [|split]]]]]]]];
    try done.
  - rewrite HP. unfold patchedCalls_of, masm_haltingAlign. cbn.
    by rewrite (proj1 (masm_emit_logs _ _)).
  - intros f p Hp. destruct (HI f p Hp) as (? & ? & ? & ?). done.
  - intros i cs f (Hlo & Hcs & Htg) Hk Hneed.
    pose proof (lookup_lt_Some _ _ _ Hcs) as Hi.
    apply (HC i cs f); try done.
    + cbn. lia.
    + eapply (needs_island_stable g _ cs f []); [done| |done]. by rewrite app_nil_r.
  - intros i cs t (Hlo & Hcs & Htg) Hk.
    pose proof (lookup_lt_Some _ _ _ Hcs) as Hi.
    apply (HCT i cs t); try done. cbn. lia.
Qed.

Lemma forEach_runStep_grown steps g g' :
  forEach steps runStep g = Ok tt g' -> grown g g'.
Proof. apply grows_Ok, grows_forEach, runStep_grows. Qed.

Lemma reaches_callee_patched from gb g3 cs f p :
  from <= p ->
  CodeRange.island p (p + FarJumpSize isa) ∈ codeRanges_of gb ->
  (CallSite.returnAddressOffset cs, p) ∈ patchedCalls_of gb ->
  callIsland f p ∈ callFarJumps_ gb ->
  link_view g3 = link_view gb ->
  (forall far, far ∈ callFarJumps_ gb ->
     exists cr, funcCodeRange (CallFarJump.funcIndex far) gb = Ok cr gb /\
                (CallFarJump.jump far, CodeRange.funcNormalEntry cr)
                  ∈ patchedFarJumps_of g3) ->
  reaches_callee from g3 cs f.
Proof.
  intros Hfrom Hr Hp Hj Hv Hpatched.
  destruct (Hpatched _ Hj) as (cr & Hcr & Hfar).
  pose proof Hv as [= _ V2 _ V4 _ _].
  exists p, cr. rewrite V2, V4. repeat split; try done.
  by apply (funcCodeRange_view f gb g3).
Qed.

Lemma reaches_callee_finish isAsmJS AsmJSFirstDefFuncIndex from g1 ga g3 cs f p :
  from <= p ->
  CodeRange.island p (p + FarJumpSize isa) ∈ codeRanges_of g1 ->
  (CallSite.returnAddressOffset cs, p) ∈ patchedCalls_of g1 ->
  callIsland f p ∈ callFarJumps_ g1 ->
  grown g1 ga ->
  finishLinking isAsmJS AsmJSFirstDefFuncIndex ga = Ok tt g3 ->
  reaches_callee from g3 cs f.
Proof.
  intros Hfrom Hr Hp Hj (G1 & G2 & G3) Hfin.
  destruct (finishLinking_spec _ _ _ _ Hfin) as (gb & Hpass & Hv & Hpatched).
  pose proof (grows_Ok _ _ _ _ linkCallSites_grows Hpass) as (L1 & L2 & L3).
  apply (reaches_callee_patched from gb g3 cs f p); try done.
  - eapply elem_of_prefix; [|exact L1]. by eapply elem_of_prefix.
  - eapply elem_of_prefix; [|exact L2]. by eapply elem_of_prefix.
  - eapply elem_of_prefix; [|exact L3]. by eapply elem_of_prefix.
Qed.

(** C3 (amended).  A call to a function whose entry is not within direct
    branch range of the call is patched, by the pass that visits it, to an
    island appended at or after the aligned end of the code emitted so far;
    the island is recorded as a code range, and [finishLinking] patches its
    far jump to the normal entry of the callee.  This holds for a pass run
    before further tasks are linked and for the pass of [finishLinking]
    itself, for a wasm module and for an asm.js module alike. *)
Theorem far_call_reaches_callee isAsmJS AsmJSFirstDefFuncIndex steps g g1 g2 g3
    (i : nat) cs f :
  PlatformOk -> 0 <= size_of g -> 0 <= lastPatchedCallSite_ g ->
  Z.of_nat (length (callSites_of g)) <= UINT32_MAX ->
  pending g i cs (TargetFunc f) -> CallSite.kind cs = CallSiteDesc.Func ->
  needs_island g cs f ->
  (linkCallSites g = Ok tt g1 -> forEach steps runStep g1 = Ok tt g2 ->
   finishLinking isAsmJS AsmJSFirstDefFuncIndex g2 = Ok tt g3 ->
   reaches_callee (appendOffset g) g3 cs f) /\
  (finishLinking isAsmJS AsmJSFirstDefFuncIndex g = Ok tt g3 ->
   reaches_callee (appendOffset g) g3 cs f).
Proof.
  intros Hisa Hsz Hlast Hlen Hpend Hk Hneed.
  assert (forall ga, linkCallSites g = Ok tt ga ->
            exists p, appendOffset g <= p /\
              CodeRange.island p (p + FarJumpSize isa) ∈ codeRanges_of ga /\
              (CallSite.returnAddressOffset cs, p) ∈ patchedCalls_of ga /\
              callIsland f p ∈ callFarJumps_ ga) as Hpass.
  { intros ga Hga.
    destruct (linkCallSites_islands_shared _ _ Hisa Hsz Hlast Hlen Hga)
      as (islandOf & trapIslandOf & addP & addR & newJ & newT &
          HP & HR & HJ & _ & _ & _ & HI & _ & HC & _).
    destruct (HC i cs f Hpend Hk Hneed) as (p & Hp & Hin).
    destruct (HI f p Hp) as (Hfrom & Hr & Hj).
    exists p. rewrite HP, HR, HJ, !elem_of_app. auto. }
  split.
  - intros H1 H2 H3. destruct (Hpass g1 H1) as (p & ? & ? & ? & ?).
    apply (reaches_callee_finish isAsmJS AsmJSFirstDefFuncIndex _ g1 g2 g3 cs f p);
      try done.
    by apply (forEach_runStep_grown steps).
  - intros H3.
    destruct (finishLinking_spec _ _ _ _ H3) as (gb & H1 & Hv & Hpatched).
    destruct (Hpass gb H1) as (p & ? & ? & ? & ?).
    by apply (reaches_callee_patched _ gb g3 cs f p).
Qed.

(** ** Batches *)

Lemma linkCompiledCode_batch code : preserves batch_view (linkCompiledCode code).
Proof.
  unfold linkCompiledCode. unfold_prims.
  repeat first
    [ apply noteCodeRange_preserves; intros ? ?; reflexivity
    | progress pres_with ltac:(reflexivity) ].
Qed.

Lemma finishTask_batch task g g' :
  finishTask task g = Ok tt g' ->
  exists t,
    tasks_ g !! task = Some t /\ inputs t = [] /\
    tasks_ g' = <[task := clearOutput t]> (tasks_ g) /\
    freeTasks_ g' = freeTasks_ g ++ [task] /\
    currentTask_ g' = currentTask_ g /\
    batchedBytecode_ g' = batchedBytecode_ g /\
    launched_ g' = launched_ g.
Proof.
  unfold finishTask. unfold_prims. intros H.
  apply bind_Ok in H as ([] & g1 & H1 & H). apply modify_Ok in H1.
  assert (batch_view g1 = batch_view g) as V1 by (by subst g1). clear H1.
  apply bind_Ok in H as (tasks & g0 & H1 & H). apply gets_Ok in H1 as [-> ->].
  apply bind_Ok in H as (t & g0 & H1 & H). apply at_Ok in H1 as [Ht ->].
  rewrite Nat2Z.id in Ht.
  apply bind_Ok in H as (start & g0 & H1 & H). apply gets_Ok in H1 as [-> ->].
  apply bind_Ok in H as (sz & g0 & H1 & H). apply gets_Ok in H1 as [-> ->].
  apply bind_Ok in H as ([] & g2 & H1 & H).
  assert (batch_view g2 = batch_view g1) as V2.
  { destruct (negb _).
    - apply bind_Ok in H1 as ([] & g3 & H1 & H2). apply modify_Ok in H1. subst g3.
      by rewrite (preserves_Ok batch_view _ _ _ _
                    (linkCallSites_preserves batch_view
                       ltac:(done) ltac:(done) ltac:(done) ltac:(done) ltac:(done)
                       ltac:(done)) H2).
    - by injection H1 as <-. }
  clear H1.
  apply bind_Ok in H as ([] & g3 & H1 & H).
  apply (preserves_Ok batch_view _ _ _ _ (linkCompiledCode_batch _)) in H1 as V3.
  clear H1.
  apply bind_Ok in H as ([] & g4 & H1 & H). apply modify_Ok in H1. subst g4.
  apply bind_Ok in H as ([] & g4 & H1 & H). apply MOZ_ASSERT_Ok in H1 as [Hin ->].
  apply bool_decide_eq_true in Hin.
  apply modify_Ok in H. subst g'. cbn.
  assert (batch_view g3 = batch_view g) as [= E1 E2 E3 E4 E5] by congruence.
  exists t. rewrite E1, E2, E3, E4, E5.
  injection V1 as T1 _ _ _ _. rewrite T1 in Ht. done.
Qed.

Lemma finishOutstandingTask_batch g g' :
  finishOutstandingTask g = Ok tt g' ->
  exists task t,
    tasks_ g !! task = Some t /\ inputs t = [] /\
    tasks_ g' = <[task := clearOutput t]> (tasks_ g) /\
    freeTasks_ g' = freeTasks_ g ++ [task] /\
    currentTask_ g' = currentTask_ g /\
    batchedBytecode_ g' = batchedBytecode_ g /\
    launched_ g' = launched_ g.
Proof.
  unfold finishOutstandingTask. intros H.
  apply bind_Ok in H as (par & g0 & H1 & H). apply gets_Ok in H1 as [-> ->].
  apply bind_Ok in H as ([] & g0 & H1 & H). apply MOZ_ASSERT_Ok in H1 as [_ ->].
  apply bind_Ok in H as (out & g0 & H1 & H). apply gets_Ok in H1 as [-> ->].
  apply bind_Ok in H as ([] & g0 & H1 & H). apply MOZ_ASSERT_Ok in H1 as [_ ->].
  apply bind_Ok in H as (ts & g0 & H1 & H). apply gets_Ok in H1 as [-> ->].
  destruct (0 <? numFailed _); [done|].
  destruct (popCopy _) as [[task rest]|]; [|done].
  apply bind_Ok in H as ([] & g1 & H1 & H). apply modify_Ok in H1. subst g1.
  apply bind_Ok in H as ([] & g1 & H1 & H). apply modify_Ok in H1. subst g1.
  apply finishTask_batch in H as (t & H). exists task, t. exact H.
Qed.

Lemma launchBatchCompile_batch g g' :
  launchBatchCompile g = Ok tt g' ->
  launched_ g' = S (launched_ g) /\ currentTask_ g' = None /\ batchedBytecode_ g' = 0.
Proof.
  unfold launchBatchCompile. intros H.
  apply bind_Ok in H as ([] & g1 & H1 & H). apply modify_Ok in H1. subst g1.
  apply bind_Ok in H as (cur & g0 & H1 & H). apply gets_Ok in H1 as [-> ->].
  cbn [currentTask_ set_launched_] in H.
  destruct (currentTask_ g) as [task|]; [|done].
  apply bind_Ok in H as (c & g0 & H1 & H). apply gets_Ok in H1 as [-> ->].
  destruct (cancelled_ _); [done|].
  apply bind_Ok in H as (par & g0 & H1 & H). apply gets_Ok in H1 as [-> ->].
  apply bind_Ok in H as ([] & g1 & H1 & H).
  apply bind_Ok in H as ([] & g2 & H2 & H). apply modify_Ok in H2. subst g2.
  apply modify_Ok in H. subst g'. cbn. split; [|done].
  destruct (parallel_ _).
  - destruct (StartOffThreadWasmCompile task); [|done].
    apply modify_Ok in H1. by subst g1.
  - apply bind_Ok in H1 as (tasks & g0 & H2 & H1). apply gets_Ok in H2 as [-> ->].
    apply bind_Ok in H1 as (t & g0 & H2 & H1). apply at_Ok in H2 as [_ ->].
    destruct (ExecuteCompileTask t) as [t'|e|f]; [| |done].
    + apply bind_Ok in H1 as ([] & g2 & H2 & H1). apply modify_Ok in H2. subst g2.
      apply finishTask_batch in H1 as (t0 & _ & _ & _ & _ & _ & _ & ->). done.
    + apply bind_Ok in H1 as ([] & g2 & H2 & H1). done.
Qed.

Lemma batchedBytecodeOf_snoc l input :
  batchedBytecodeOf (l ++ [input]) =
  wrap32 (batchedBytecodeOf l + funcBytecodeLength (fi_begin input) (fi_end input)).
Proof. unfold batchedBytecodeOf. by rewrite foldl_app. Qed.

(** C6.  A call of [compileFuncDef] that returns true launches a batch if
    and only if the bytecode accumulated for the current task, this function
    body included, is greater than the threshold of the tier; at the
    threshold or below, the body stays with the current task, and nothing is
    launched. *)
Theorem batch_launched_iff_over_threshold funcIndex lineOrBytecode begin end_ g g' :
  batch_inv g ->
  compileFuncDef funcIndex lineOrBytecode begin end_ g = Ok tt g' ->
  let input := {| fi_index := funcIndex; fi_lineOrBytecode := lineOrBytecode;
                  fi_begin := begin; fi_end := end_ |} in
  let accumulated := batchedBytecodeOf (currentInputs g ++ [input]) in
  (launched_ g' <> launched_ g <-> batchThreshold < accumulated) /\
  (accumulated <= batchThreshold ->
     launched_ g' = launched_ g /\
     currentInputs g' = currentInputs g ++ [input] /\
     batchedBytecode_ g' = accumulated) /\
  (batchThreshold < accumulated ->
     launched_ g' = S (launched_ g) /\
     currentTask_ g' = None /\ batchedBytecode_ g' = 0).
Proof.
  intros [Hcount Hfree] H input accumulated.
  unfold compileFuncDef in H.
  apply bind_Ok in H as ([] & g1 & H1 & H). apply modify_Ok in H1. subst g1.
  apply bind_Ok in H as (cur & g0 & H1 & H). apply gets_Ok in H1 as [-> ->].
  apply bind_Ok in H as ([] & g1 & Hcur & H).
  (* the task that takes the input *)
  assert (exists task,
            currentTask_ g1 = Some task /\
            batchedBytecode_ g1 = batchedBytecode_ g /\
            launched_ g1 = launched_ g /\
            (forall t, tasks_ g1 !! task = Some t -> inputs t = currentInputs g))
    as (task & Ctask & Cb & Cl & Cin).
  { cbn [currentTask_ set_numFuncDefs_] in Hcur.
    destruct (currentTask_ g) as [task|] eqn:Hc.
    - injection Hcur as <-. exists task. cbn. repeat split; try done.
      intros t Ht. unfold currentInputs. by rewrite Hc, Ht.
    - apply bind_Ok in Hcur as (free & g0 & H1 & Hcur). apply gets_Ok in H1 as [-> ->].
      apply bind_Ok in Hcur as ([] & g2 & Hwait & Hcur).
      assert (tasks_ g2 = tasks_ g /\ freeTasks_ g2 = freeTasks_ g /\
              currentTask_ g2 = None /\ batchedBytecode_ g2 = batchedBytecode_ g /\
              launched_ g2 = launched_ g \/
              exists task t, tasks_ g !! task = Some t /\ inputs t = [] /\
                tasks_ g2 = <[task := clearOutput t]> (tasks_ g) /\
                freeTasks_ g2 = freeTasks_ g ++ [task] /\
                currentTask_ g2 = None /\ batchedBytecode_ g2 = batchedBytecode_ g /\
                launched_ g2 = launched_ g) as Hg2.
      { destruct (is_nil _).
        - right. apply finishOutstandingTask_batch in Hwait
            as (task & t & ? & ? & ? & ? & ? & ? & ?).
          exists task, t. cbn in *. repeat split; try done. congruence.
        - left. injection Hwait as <-. cbn. done. }
      clear Hwait.
      apply bind_Ok in Hcur as (free & g0 & H1 & Hcur). apply gets_Ok in H1 as [-> ->].
      unfold popCopy in Hcur.
      destruct (list.last (freeTasks_ g2)) as [task|] eqn:Hlast; [|done].
      apply bind_Ok in Hcur as ([] & g3 & H1 & Hcur). apply modify_Ok in H1. subst g3.
      apply modify_Ok in Hcur. subst g1. exists task. cbn.
      assert (task ∈ freeTasks_ g2) as Hin.
      { apply last_Some in Hlast as [l' ->]. apply elem_of_app. right.
        by apply list_elem_of_singleton. }
      assert (currentInputs g = []) as -> by (unfold currentInputs; by rewrite Hc).
      destruct Hg2 as [(E1 & E2 & E3 & E4 & E5)|
                       (task0 & t0 & Ht0 & Hin0 & E1 & E2 & E3 & E4 & E5)].
      + repeat split; try done. intros t Ht. rewrite E1 in Ht. rewrite E2 in Hin.
        by apply (Hfree task t).
      + repeat split; try done. intros t. rewrite E1.
        destruct (decide (task = task0)) as [->|Hne].
        * rewrite list_lookup_insert_eq by (by eapply lookup_lt_Some).
          by intros [= <-].
        * rewrite list_lookup_insert_ne by done. intros Ht.
          rewrite E2 in Hin. apply elem_of_app in Hin as [Hin|Hin%list_elem_of_singleton];
            [|done].
          by apply (Hfree task t). }
  clear Hcur.
  apply bind_Ok in H as (cur & g0 & H1 & H). apply gets_Ok in H1 as [-> ->].
  rewrite Ctask in H.
  apply bind_Ok in H as (tasks & g0 & H1 & H). apply gets_Ok in H1 as [-> ->].
  apply bind_Ok in H as (t & g0 & H1 & H). apply at_Ok in H1 as [Ht ->].
  rewrite Nat2Z.id in Ht. cbv zeta in H.
  apply bind_Ok in H as ([] & g2 & H1 & H). apply modify_Ok in H1. subst g2.
  apply bind_Ok in H as ([] & g2 & H1 & H). apply modify_Ok in H1. subst g2.
  apply bind_Ok in H as (batched & g0 & H1 & H). apply gets_Ok in H1 as [-> ->].
  apply bind_Ok in H as ([] & g0 & H1 & H). apply MOZ_ASSERT_Ok in H1 as [_ ->].
  cbn [batchedBytecode_ set_batchedBytecode_ set_tasks_] in H.
  assert (wrap32 (batchedBytecode_ g1 + funcBytecodeLength begin end_) = accumulated)
    as Hacc.
  { unfold accumulated. rewrite batchedBytecodeOf_snoc. cbn. by rewrite Cb, Hcount. }
  rewrite Hacc in H. fold batchThreshold in H.
  destruct (Z.leb_spec accumulated batchThreshold) as [Hle|Hgt].
  - injection H as <-. cbn. rewrite Cl.
    split; [split; [done|lia]|]. split; [|lia]. intros _.
    split; [done|]. split; [|done].
    unfold currentInputs at 1. cbn. rewrite Ctask.
    rewrite list_lookup_insert_eq by (by eapply lookup_lt_Some).
    cbn. by rewrite (Cin t Ht).
  - apply launchBatchCompile_batch in H as (L1 & L2 & L3). cbn in L1.
    rewrite Cl in L1. split; [split; [done|lia]|]. split; [lia|]. done.
Qed.

(** The invariant of the batches holds when the function bodies start and
    after every body, when no helper thread is used. *)

Lemma linkCompiledCode_parallel code : preserves parallel_ (linkCompiledCode code).
Proof.
  unfold linkCompiledCode. unfold_prims.
  repeat first
    [ apply noteCodeRange_preserves; intros ? ?; reflexivity
    | progress pres_with ltac:(reflexivity) ].
Qed.

Lemma finishTask_parallel task : preserves parallel_ (finishTask task).
Proof.
  unfold finishTask. unfold_prims.
  apply preserves_bind; [apply preserves_modify; done|intros ?].
  apply preserves_bind; [apply preserves_gets|intros ?].
  apply preserves_bind; [apply preserves_at|intros ?].
  apply preserves_bind; [apply preserves_gets|intros ?].
  apply preserves_bind; [apply preserves_gets|intros ?].
  apply preserves_bind.
  { destruct (negb _); [|apply preserves_ret].
    apply preserves_bind; [apply preserves_modify; done|intros ?].
    by apply linkCallSites_preserves. }
  intros ?. apply preserves_bind; [apply linkCompiledCode_parallel|intros ?].
  pres_with ltac:(reflexivity).
Qed.

Lemma startFuncDefs_batch_ok n g g' :
  tasks_ g = [] -> freeTasks_ g = [] -> currentTask_ g = None ->
  batchedBytecode_ g = 0 -> parallel_ g = false ->
  startFuncDefs false n g = Ok tt g' -> batch_ok g'.
Proof.
  intros Ht Hf Hc Hb Hp H. unfold startFuncDefs in H.
  apply bind_Ok in H as ([] & g1 & H1 & H). injection H1 as <-.
  apply bind_Ok in H as ([] & g1 & H1 & H). apply modify_Ok in H1. subst g1.
  apply modify_Ok in H. subst g'. cbn. rewrite Ht, Hf. cbn.
  split; [split|split; [|split]]; cbn.
  - unfold currentInputs. cbn. by rewrite Hc, Hb.
  - intros task t ->%list_elem_of_singleton. cbn. by intros [= <-].
  - apply list.NoDup_singleton.
  - intros task. by rewrite Hc.
  - exact Hp.
Qed.

Lemma launchBatchCompile_sequential task g g' :
  currentTask_ g = Some task -> parallel_ g = false ->
  launchBatchCompile g = Ok tt g' ->
  exists t0,
    inputs t0 = [] /\ (task < length (tasks_ g))%nat /\
    tasks_ g' = <[task := t0]> (tasks_ g) /\
    freeTasks_ g' = freeTasks_ g ++ [task] /\
    currentTask_ g' = None /\ batchedBytecode_ g' = 0 /\ parallel_ g' = false.
Proof.
  intros Hcur Hpar H. unfold launchBatchCompile in H.
  apply bind_Ok in H as ([] & g1 & H1 & H). apply modify_Ok in H1. subst g1.
  apply bind_Ok in H as (cur & g0 & H1 & H). apply gets_Ok in H1 as [-> ->].
  cbn [currentTask_ set_launched_] in H. rewrite Hcur in H.
  apply bind_Ok in H as (c & g0 & H1 & H). apply gets_Ok in H1 as [-> ->].
  destruct (cancelled_ _); [done|].
  apply bind_Ok in H as (par & g0 & H1 & H). apply gets_Ok in H1 as [-> ->].
  cbn [parallel_ set_launched_] in H. rewrite Hpar in H.
  apply bind_Ok in H as ([] & g1 & H1 & H).
  apply bind_Ok in H as ([] & g2 & H2 & H). apply modify_Ok in H2. subst g2.
  apply modify_Ok in H. subst g'. cbn.
  apply bind_Ok in H1 as (tasks & g0 & H2 & H1). apply gets_Ok in H2 as [-> ->].
  apply bind_Ok in H1 as (t & g0 & H2 & H1). apply at_Ok in H2 as [Ht ->].
  rewrite Nat2Z.id in Ht. cbn in Ht.
  destruct (ExecuteCompileTask t) as [t'|e|f] eqn:Hexec; [| |done].
  2:{ apply bind_Ok in H1 as ([] & g2 & H2 & H1). done. }
  apply bind_Ok in H1 as ([] & g2 & H2 & H1). apply modify_Ok in H2. subst g2.
  pose proof (preserves_Ok parallel_ _ _ _ _ (finishTask_parallel task) H1) as Hp.
  apply finishTask_batch in H1 as (t0 & Ht0 & Hin & E1 & E2 & _ & _ & _).
  cbn in Ht0, E1, E2, Hp.
  exists (clearOutput t0). rewrite E1, E2, Hp, list_insert_insert_eq.
  pose proof (lookup_lt_Some _ _ _ Ht). done.
Qed.

Lemma batch_ok_add task t input g :
  batch_ok g -> currentTask_ g = Some task -> tasks_ g !! task = Some t ->
  batch_ok
    (set_batchedBytecode_
       (wrap32 (batchedBytecode_ g + funcBytecodeLength (fi_begin input) (fi_end input)))
       (set_tasks_ (<[task := addInput input t]> (tasks_ g)) g)).
Proof.
  intros ((Hcount & Hfree) & Hnd & Hcur & Hpar) Hc Ht.
  pose proof (lookup_lt_Some _ _ _ Ht) as Hlt.
  split; [split|split; [|split]]; cbn; try done.
  - unfold currentInputs in *. cbn. rewrite Hc in *. rewrite Ht in Hcount.
    rewrite list_lookup_insert_eq by done. cbn.
    by rewrite batchedBytecodeOf_snoc, Hcount.
  - intros task' t' Hin. specialize (Hcur task Hc).
    rewrite list_lookup_insert_ne by (intros ->; done). by apply Hfree.
Qed.

Lemma batch_ok_launched task g g' :
  batch_ok g -> currentTask_ g = Some task ->
  launchBatchCompile g = Ok tt g' -> batch_ok g'.
Proof.
  intros ((Hcount & Hfree) & Hnd & Hcur & Hpar) Hc H.
  destruct (launchBatchCompile_sequential task g g' Hc Hpar H)
    as (t0 & Hin & Hlt & E1 & E2 & E3 & E4 & E5).
  specialize (Hcur task Hc).
  split; [split|split; [|split]]; try done.
  - unfold currentInputs. by rewrite E3, E4.
  - intros task' t'. rewrite E1, E2.
    intros [Hin'| ->%list_elem_of_singleton]%elem_of_app.
    + rewrite list_lookup_insert_ne by (intros ->; done). by apply Hfree.
    + rewrite list_lookup_insert_eq by done. by intros [= <-].
  - rewrite E2. apply list.NoDup_app. split; [done|].
    split; [|apply list.NoDup_singleton].
    by intros x Hx ->%list_elem_of_singleton.
  - intros task'. by rewrite E3.
Qed.

Lemma compileFuncDef_batch_ok funcIndex lineOrBytecode begin end_ g g' :
  batch_ok g ->
  compileFuncDef funcIndex lineOrBytecode begin end_ g = Ok tt g' ->
  batch_ok g'.
Proof.
  intros Hok H. unfold compileFuncDef in H.
  apply bind_Ok in H as ([] & g1 & H1 & H). apply modify_Ok in H1. subst g1.
  apply bind_Ok in H as (cur & g0 & H1 & H). apply gets_Ok in H1 as [-> ->].
  apply bind_Ok in H as ([] & g1 & Hcur & H).
  assert (batch_ok g1 /\ exists task, currentTask_ g1 = Some task) as [Hok1 [task Ctask]].
  { cbn [currentTask_ set_numFuncDefs_] in Hcur.
    destruct Hok as ((Hcount & Hfree) & Hnd & Hcur' & Hpar).
    destruct (currentTask_ g) as [task|] eqn:Hc.
    - injection Hcur as <-. split; [|by exists task].
      split; [split|split; [|split]]; cbn; try done.
      all: try (unfold currentInputs in *; cbn; by rewrite Hc in * ).
      all: intros task0 Htask0; apply Hcur'; congruence.
    - apply bind_Ok in Hcur as (free & g0 & H1 & Hcur). apply gets_Ok in H1 as [-> ->].
      apply bind_Ok in Hcur as ([] & g2 & Hwait & Hcur).
      cbn [freeTasks_ set_numFuncDefs_] in Hwait.
      destruct (is_nil (freeTasks_ g)).
      { unfold finishOutstandingTask in Hwait.
        apply bind_Ok in Hwait as (par & g0 & H1 & Hwait). apply gets_Ok in H1 as [-> ->].
        cbn in Hwait. by rewrite Hpar in Hwait. }
      injection Hwait as <-.
      apply bind_Ok in Hcur as (free & g0 & H1 & Hcur). apply gets_Ok in H1 as [-> ->].
      cbn [freeTasks_ set_numFuncDefs_] in Hcur. unfold popCopy in Hcur.
      destruct (list.last (freeTasks_ g)) as [task|] eqn:Hlast; [|done].
      apply bind_Ok in Hcur as ([] & g3 & H1 & Hcur). apply modify_Ok in H1. subst g3.
      apply modify_Ok in Hcur. subst g1.
      apply last_Some in Hlast as [rest Hrest].
      rewrite Hrest, removelast_last in *.
      apply list.NoDup_app in Hnd as (Hnd & Hnot & _).
      split; [|by exists task].
      split; [split|split; [|split]]; cbn; try done.
      + unfold currentInputs in *. cbn. rewrite Hc in Hcount. rewrite Hcount.
        destruct (tasks_ g !! task) as [t|] eqn:Ht; [|done].
        rewrite (Hfree task t); [done| |done].
        apply elem_of_app. right. by apply list_elem_of_singleton.
      + intros task' t' Hin. apply Hfree. apply elem_of_app. by left.
      + intros task' [= <-] Hin. apply (Hnot task Hin). by apply list_elem_of_singleton. }
  clear Hcur Hok.
  apply bind_Ok in H as (cur & g0 & H1 & H). apply gets_Ok in H1 as [-> ->].
  rewrite Ctask in H.
  apply bind_Ok in H as (tasks & g0 & H1 & H). apply gets_Ok in H1 as [-> ->].
  apply bind_Ok in H as (t & g0 & H1 & H). apply at_Ok in H1 as [Ht ->].
  rewrite Nat2Z.id in Ht. cbv zeta in H.
  apply bind_Ok in H as ([] & g2 & H1 & H). apply modify_Ok in H1. subst g2.
  apply bind_Ok in H as ([] & g2 & H1 & H). apply modify_Ok in H1. subst g2.
  apply bind_Ok in H as (batched & g0 & H1 & H). apply gets_Ok in H1 as [-> ->].
  apply bind_Ok in H as ([] & g0 & H1 & H). apply MOZ_ASSERT_Ok in H1 as [_ ->].
  pose proof (batch_ok_add task t
                {| fi_index := funcIndex; fi_lineOrBytecode := lineOrBytecode;
                   fi_begin := begin; fi_end := end_ |} g1 Hok1 Ctask Ht) as Hok2.
  cbn [fi_begin fi_end] in Hok2.
  destruct (_ <=? _).
  - by injection H as <-.
  - eapply (batch_ok_launched task); [exact Hok2|exact Ctask|exact H].
Qed.

(** ** The index of the functions *)

Lemma noteCodeRange_index idx cr g r g' :
  noteCodeRange idx cr g = Ok r g' ->
  codeRanges_of g' = codeRanges_of g /\
  ((CodeRange.kind cr = CodeRange.Function /\
    funcToCodeRange_ g !! Z.to_nat (CodeRange.funcIndex cr) = Some BAD_CODE_RANGE /\
    funcToCodeRange_ g' =
      <[Z.to_nat (CodeRange.funcIndex cr) := idx]> (funcToCodeRange_ g)) \/
   (CodeRange.kind cr <> CodeRange.Function /\
    funcToCodeRange_ g' = funcToCodeRange_ g)).
Proof.
  unfold noteCodeRange, note. intros H.
  destruct (CodeRange.kind cr) eqn:Hk; monad_inv H; cbn.
  all: split; [reflexivity|].
  all: try (right; split; [discriminate|reflexivity]).
  left. split; [done|]. split; [|done].
  match goal with H : (_ =? _) = true |- _ => apply Z.eqb_eq in H; by rewrite <- H end.
Qed.

Lemma appendCodeRanges_index l B g g' :
  AppendForEach (fun g => MetadataTier.codeRanges (metadataTier_ g)) set_codeRanges l
    (fun codeRangeIndex codeRange =>
       let codeRange := CodeRange.offsetBy codeRange B in
       noteCodeRange codeRangeIndex codeRange >> ret codeRange) g = Ok tt g' ->
  Z.of_nat (length (codeRanges_of g) + length l) <= UINT32_MAX ->
  codeRanges_of g' = codeRanges_of g ++ map (fun cr => CodeRange.offsetBy cr B) l /\
  (forall (f : nat) i,
     funcToCodeRange_ g' !! f = Some i ->
     funcToCodeRange_ g !! f = Some i \/
     exists (k : nat) cr,
       l !! k = Some cr /\ CodeRange.kind cr = CodeRange.Function /\
       Z.to_nat (CodeRange.funcIndex cr) = f /\
       i = Z.of_nat (length (codeRanges_of g) + k)) /\
  (forall (k : nat) cr,
     l !! k = Some cr -> CodeRange.kind cr = CodeRange.Function ->
     funcToCodeRange_ g' !! Z.to_nat (CodeRange.funcIndex cr)
       = Some (Z.of_nat (length (codeRanges_of g) + k))) /\
  (forall (f : nat) i,
     funcToCodeRange_ g !! f = Some i -> i <> BAD_CODE_RANGE ->
     funcToCodeRange_ g' !! f = Some i) /\
  (forall (k : nat) cr,
     l !! k = Some cr -> CodeRange.kind cr = CodeRange.Function ->
     funcToCodeRange_ g !! Z.to_nat (CodeRange.funcIndex cr) = Some BAD_CODE_RANGE).
Proof.
  revert g. induction l as [|cr l IH]; intros g H Hlen; cbn [AppendForEach] in H.
  - injection H as <-. rewrite app_nil_r. split; [done|]. split; [by left|].
    split; [|split; [done|]]; intros k cr' Hl; by rewrite lookup_nil in Hl.
  - apply bind_Ok in H as (dst & g0 & H1 & H). apply gets_Ok in H1 as [-> ->].
    apply bind_Ok in H as (elem & g1 & H1 & H). cbv zeta in H1.
    apply bind_Ok in H1 as ([] & g1' & Hnote & H1). apply ret_Ok in H1 as [-> Hg1]. subst g1'.
    apply bind_Ok in H as ([] & g2 & H1 & H). apply modify_Ok in H1. subst g2.
    fold (codeRanges_of g) in *.
    cbn [length] in Hlen.
    rewrite wrap32_small in Hnote by (unfold is_u32; lia).
    apply noteCodeRange_index in Hnote as (Hcr & Hnote).
    set (g2 := set_codeRanges _ g1) in H.
    assert (codeRanges_of g2 = codeRanges_of g ++ [CodeRange.offsetBy cr B]) as Hcr2.
    { unfold g2, codeRanges_of in *. cbn. by rewrite Hcr. }
    assert (funcToCodeRange_ g2 = funcToCodeRange_ g1) as Hf2 by reflexivity.
    destruct (IH g2 H) as (Hcr' & Hnew & Hfound & Hkept & Hfresh).
    { rewrite Hcr2, length_app. cbn. lia. }
    rewrite Hcr2, length_app in Hnew, Hfound. cbn [length] in Hnew, Hfound.
    split; [by rewrite Hcr', Hcr2, <- app_assoc|].
    destruct Hnote as [(Hk & Hold & Hins)|(Hk & Hsame)].
    + cbn in Hk, Hold, Hins.
      pose proof (lookup_lt_Some _ _ _ Hold) as Hlt.
      split; [|split; [|split]].
      * intros f i Hi. destruct (Hnew f i Hi) as [Hi'|(k & cr' & ? & ? & ? & ->)].
        -- rewrite Hf2, Hins in Hi'.
           destruct (decide (f = Z.to_nat (CodeRange.funcIndex cr))) as [->|Hne].
           ++ rewrite list_lookup_insert_eq in Hi' by done. injection Hi' as <-.
              right. exists 0%nat, cr. repeat split; try done. f_equal. lia.
           ++ rewrite list_lookup_insert_ne in Hi' by done. by left.
        -- right. exists (S k), cr'. repeat split; try done. f_equal. lia.
      * intros [|k] cr' Hl Hk'; cbn in Hl.
        -- injection Hl as <-. rewrite Nat.add_0_r. apply Hkept.
           ++ by rewrite Hf2, Hins, list_lookup_insert_eq.
           ++ unfold BAD_CODE_RANGE. lia.
        -- rewrite (Hfound k cr' Hl Hk'). do 2 f_equal. lia.
      * intros f i Hi Hne. apply Hkept; [|done]. rewrite Hf2, Hins.
        rewrite list_lookup_insert_ne; [done|]. intros <-. congruence.
      * intros [|k] cr' Hl Hk'; cbn in Hl; [by injection Hl as <-|].
        pose proof (Hfresh k cr' Hl Hk') as Hb. rewrite Hf2, Hins in Hb.
        destruct (decide (Z.to_nat (CodeRange.funcIndex cr')
                          = Z.to_nat (CodeRange.funcIndex cr))) as [Heq|Hne].
        -- rewrite Heq, list_lookup_insert_eq in Hb by done.
           injection Hb as Hb. unfold BAD_CODE_RANGE in Hb. lia.
        -- by rewrite list_lookup_insert_ne in Hb.
    + split; [|split; [|split]].
      * intros f i Hi. destruct (Hnew f i Hi) as [Hi'|(k & cr' & ? & ? & ? & ->)].
        -- left. by rewrite Hf2, Hsame in Hi'.
        -- right. exists (S k), cr'. repeat split; try done. f_equal. lia.
      * intros [|k] cr' Hl Hk'; cbn in Hl.
        -- injection Hl as <-. cbn in Hk. done.
        -- rewrite (Hfound k cr' Hl Hk'). do 2 f_equal. lia.
      * intros f i Hi Hne. apply Hkept; [|done]. by rewrite Hf2, Hsame.
      * intros [|k] cr' Hl Hk'; cbn in Hl; [injection Hl as <-; by cbn in Hk|].
        pose proof (Hfresh k cr' Hl Hk') as Hb. by rewrite Hf2, Hsame in Hb.
Qed.

Lemma appendTables_rest_index code B :
  preserves (fun g => (funcToCodeRange_ g, codeRanges_of g))
    (AppendForEach (fun g => MetadataTier.callSites (metadataTier_ g)) set_callSites
       (callSites code)
       (fun _ cs => ret (CallSite.offsetBy cs B)) >>
     modify (fun g => set_callSiteTargets_ (callSiteTargets_ g ++ callSiteTargets code) g) >>
     MOZ_ASSERT (bool_decide (trapSites code = [])) TrapSitesNotEmpty >>
     AppendForEach trapFarJumps_ set_trapFarJumps_ (trapFarJumps code)
       (fun _ tfj => ret (TrapFarJump.offsetBy tfj B)) >>
     AppendForEach callFarJumps_ set_callFarJumps_ (callFarJumps code)
       (fun _ cfj => ret (CallFarJump.offsetBy cfj B)) >>
     AppendForEach (fun g => MetadataTier.memoryAccesses (metadataTier_ g))
       set_memoryAccesses (memoryAccesses code)
       (fun _ ma => ret (MemoryAccess.offsetBy ma B)) >>
     forEach (symbolicAccesses code) (fun access =>
       let patchAt := wrap32 (B + SymbolicAccess.patchAt access) in
       modify (fun g =>
         set_linkDataTier_
           (LinkDataTier.set_symbolicLinks
              (<[SymbolicAccess.target access :=
                   LinkDataTier.symbolicLinks (linkDataTier_ g)
                     (SymbolicAccess.target access) ++ [patchAt]]>
                 (LinkDataTier.symbolicLinks (linkDataTier_ g)))
              (linkDataTier_ g)) g)) >>
     forEach (codeLabels code) (fun codeLabel =>
       let link :=
         {| InternalLink.patchAtOffset := wrap32 (B + CodeLabel.patchAt codeLabel);
            InternalLink.targetOffset := wrap32 (B + CodeLabel.target codeLabel) |} in
       modify (fun g =>
         set_linkDataTier_
           (LinkDataTier.set_internalLinks
              (LinkDataTier.internalLinks (linkDataTier_ g) ++ [link])
              (linkDataTier_ g)) g))).
Proof. pres. Qed.

Lemma linkCompiledCode_index code g g' :
  linkCompiledCode code g = Ok tt g' ->
  Z.of_nat (length (codeRanges_of g) + length (codeRanges code)) <= UINT32_MAX ->
  let B := appendOffset g in
  codeRanges_of g' =
    codeRanges_of g ++ map (fun cr => CodeRange.offsetBy cr B) (codeRanges code) /\
  (forall (f : nat) i,
     funcToCodeRange_ g' !! f = Some i ->
     funcToCodeRange_ g !! f = Some i \/
     exists (k : nat) cr,
       codeRanges code !! k = Some cr /\ CodeRange.kind cr = CodeRange.Function /\
       Z.to_nat (CodeRange.funcIndex cr) = f /\
       i = Z.of_nat (length (codeRanges_of g) + k)) /\
  (forall (k : nat) cr,
     codeRanges code !! k = Some cr -> CodeRange.kind cr = CodeRange.Function ->
     funcToCodeRange_ g' !! Z.to_nat (CodeRange.funcIndex cr)
       = Some (Z.of_nat (length (codeRanges_of g) + k))) /\
  (forall (f : nat) i,
     funcToCodeRange_ g !! f = Some i -> i <> BAD_CODE_RANGE ->
     funcToCodeRange_ g' !! f = Some i) /\
  (forall (k : nat) cr,
     codeRanges code !! k = Some cr -> CodeRange.kind cr = CodeRange.Function ->
     funcToCodeRange_ g !! Z.to_nat (CodeRange.funcIndex cr) = Some BAD_CODE_RANGE).
Proof.
  intros H Hlen B. rewrite linkCompiledCode_unfold in H.
  destruct (MacroAssembler.oom _); [done|].
  unfold appendTables in H. apply bind_Ok in H as ([] & g1 & H1 & H).
  apply (preserves_Ok _ _ _ _ _ (appendTables_rest_index code (appendOffset g))) in H.
  injection H as Hf Hc.
  apply appendCodeRanges_index in H1; [|exact Hlen].
  change (codeRanges_of (appended code g)) with (codeRanges_of g) in H1.
  change (funcToCodeRange_ (appended code g)) with (funcToCodeRange_ g) in H1.
  rewrite Hf, Hc. exact H1.
Qed.

Lemma funcCodeRange_found f g i cr :
  funcToCodeRange_ g !! Z.to_nat f = Some i -> i <> BAD_CODE_RANGE ->
  codeRanges_of g !! Z.to_nat i = Some cr -> CodeRange.isFunction cr = true ->
  funcIsCompiled f g = Ok true g /\ funcCodeRange f g = Ok cr g.
Proof.
  intros Hi Hne Hcr Hfun.
  assert (funcIsCompiled f g = Ok true g) as Hc.
  { unfold funcIsCompiled, bind, gets, at_. rewrite Hi. cbn.
    by destruct (Z.eqb_spec i BAD_CODE_RANGE). }
  split; [done|].
  unfold funcCodeRange. unfold bind at 1. rewrite Hc. cbn [MOZ_ASSERT].
  unfold bind, gets, at_, ret. cbn. rewrite Hi.
  unfold codeRanges_of in Hcr. rewrite Hcr. by rewrite Hfun.
Qed.

Lemma settled_refl g : settled g g.
Proof. split; [exists []; by rewrite app_nil_r|done]. Qed.

Lemma settled_trans g1 g2 g3 : settled g1 g2 -> settled g2 g3 -> settled g1 g3.
Proof.
  intros [[a1 H1] K1] [[a2 H2] K2]. split.
  - exists (a1 ++ a2). by rewrite H2, H1, app_assoc.
  - intros f i Hi Hne. apply K2; [|done]. by apply K1.
Qed.

Lemma appendCodeRanges_settled l B g g' :
  AppendForEach (fun g => MetadataTier.codeRanges (metadataTier_ g)) set_codeRanges l
    (fun codeRangeIndex codeRange =>
       let codeRange := CodeRange.offsetBy codeRange B in
       noteCodeRange codeRangeIndex codeRange >> ret codeRange) g = Ok tt g' ->
  settled g g'.
Proof.
  revert g. induction l as [|cr l IH]; intros g H; cbn [AppendForEach] in H.
  - injection H as <-. apply settled_refl.
  - apply bind_Ok in H as (dst & g0 & H1 & H). apply gets_Ok in H1 as [-> ->].
    apply bind_Ok in H as (elem & g1 & H1 & H). cbv zeta in H1.
    apply bind_Ok in H1 as ([] & g1' & Hnote & H1). apply ret_Ok in H1 as [-> Hg1].
    subst g1'.
    apply bind_Ok in H as ([] & g2 & H1 & H). apply modify_Ok in H1. subst g2.
    apply noteCodeRange_index in Hnote as (Hcr & Hnote).
    eapply settled_trans; [|apply (IH _ H)]. split.
    + eexists [_]. unfold codeRanges_of in *. cbn. by rewrite Hcr.
    + intros f i Hi Hne. cbn.
      destruct Hnote as [(_ & Hold & ->)|(_ & ->)]; [|done].
      rewrite list_lookup_insert_ne; [done|]. intros <-. congruence.
Qed.

Lemma linkCompiledCode_settled code g g' :
  linkCompiledCode code g = Ok tt g' -> settled g g'.
Proof.
  intros H. rewrite linkCompiledCode_unfold in H.
  destruct (MacroAssembler.oom _); [done|].
  unfold appendTables in H. apply bind_Ok in H as ([] & g1 & H1 & H).
  apply (preserves_Ok _ _ _ _ _ (appendTables_rest_index code (appendOffset g))) in H.
  injection H as Hf Hc. apply appendCodeRanges_settled in H1.
  destruct H1 as [[add Hadd] Hkept]. split.
  - exists add. by rewrite Hc, Hadd.
  - intros f i Hi Hne. rewrite Hf. by apply Hkept.
Qed.

Lemma linkCallSites_settled g g' : linkCallSites g = Ok tt g' -> settled g g'.
Proof.
  intros H. split.
  - destruct (grows_Ok _ _ _ _ linkCallSites_grows H) as ([add Hadd] & _). by exists add.
  - intros f i Hi Hne.
    by rewrite (preserves_Ok funcToCodeRange_ _ _ _ _
                  (linkCallSites_preserves funcToCodeRange_
                     ltac:(done) ltac:(done) ltac:(done) ltac:(done) ltac:(done)
                     ltac:(done)) H).
Qed.

Lemma runStep_settled s g g' : runStep s g = Ok tt g' -> settled g g'.
Proof.
  destruct s; cbn [runStep]; [apply linkCompiledCode_settled|apply linkCallSites_settled].
Qed.

Lemma runSteps_settled steps g g' :
  forEach steps runStep g = Ok tt g' -> settled g g'.
Proof.
  revert g. induction steps as [|s steps IH]; intros g H; cbn [forEach] in H.
  - injection H as <-. apply settled_refl.
  - apply bind_Ok in H as ([] & g1 & H1 & H).
    eapply settled_trans; [by apply (runStep_settled s)|by apply IH].
Qed.

Lemma funcCodeRange_settled f g g' cr :
  settled g g' -> funcCodeRange f g = Ok cr g -> funcCodeRange f g' = Ok cr g'.
Proof.
  intros [[add Hadd] Hkept] H.
  apply funcCodeRange_Ok in H as (_ & _ & i & Hi & Hne & Hcr & Hfun).
  apply (funcCodeRange_found f g' i cr); try done.
  - by apply Hkept.
  - rewrite Hadd. by apply lookup_app_l_Some.
Qed.

(** X1.  When [linkCompiledCode] returns true, every [Function] code range
    of the task belongs to a function that was not compiled before; the
    function is compiled afterwards, and [funcCodeRange] gives the code
    range of the task moved to its place in the module. *)
Theorem linked_function_is_found code g g' (k : nat) cr :
  linkCompiledCode code g = Ok tt g' ->
  Z.of_nat (length (codeRanges_of g) + length (codeRanges code)) <= UINT32_MAX ->
  codeRanges code !! k = Some cr ->
  CodeRange.kind cr = CodeRange.Function ->
  funcIsCompiled (CodeRange.funcIndex cr) g = Ok false g /\
  funcIsCompiled (CodeRange.funcIndex cr) g' = Ok true g' /\
  funcCodeRange (CodeRange.funcIndex cr) g'
    = Ok (CodeRange.offsetBy cr (appendOffset g)) g'.
Proof.
  intros H Hlen Hk Hkind.
  destruct (linkCompiledCode_index code g g' H Hlen) as (Hcr & _ & Hfound & _ & Hfresh).
  pose proof (lookup_lt_Some _ _ _ Hk) as Hlt.
  split.
  - unfold funcIsCompiled, bind, gets, at_. by rewrite (Hfresh k cr Hk Hkind).
  - apply (funcCodeRange_found _ g' (Z.of_nat (length (codeRanges_of g) + k))).
    + by apply Hfound.
    + unfold BAD_CODE_RANGE. lia.
    + rewrite Nat2Z.id, Hcr, lookup_app_r by lia.
      replace (length (codeRanges_of g) + k - length (codeRanges_of g))%nat with k by lia.
      by rewrite list_lookup_fmap, Hk.
    + unfold CodeRange.isFunction. cbn. by rewrite Hkind.
Qed.

(** X2.  A compiled function keeps its code range through every later
    [linkCompiledCode] and [linkCallSites]; and no [linkCompiledCode] of a
    task with a [Function] code range of that function returns true. *)
Theorem compiled_function_is_settled f cr g :
  funcCodeRange f g = Ok cr g ->
  (forall steps g', forEach steps runStep g = Ok tt g' -> funcCodeRange f g' = Ok cr g') /\
  (forall code (k : nat) cr' g',
     Z.of_nat (length (codeRanges_of g) + length (codeRanges code)) <= UINT32_MAX ->
     codeRanges code !! k = Some cr' ->
     CodeRange.kind cr' = CodeRange.Function ->
     Z.to_nat (CodeRange.funcIndex cr') = Z.to_nat f ->
     linkCompiledCode code g <> Ok tt g').
Proof.
  intros Hf. split.
  - intros steps g' H. eapply funcCodeRange_settled; [|exact Hf].
    by apply (runSteps_settled steps).
  - intros code k cr' g' Hlen Hk Hkind Heq H.
    destruct (linkCompiledCode_index code g g' H Hlen) as (_ & _ & _ & _ & Hfresh).
    apply funcCodeRange_Ok in Hf as (_ & _ & i & Hi & Hne & _).
    specialize (Hfresh k cr' Hk Hkind). rewrite Heq in Hfresh. congruence.
Qed.

Lemma linkCompiledCode_codeRanges code g g' :
  linkCompiledCode code g = Ok tt g' ->
  codeRanges_of g' =
    codeRanges_of g ++ map (fun cr => CodeRange.offsetBy cr (appendOffset g)) (codeRanges code).
Proof.
  intros H. rewrite linkCompiledCode_unfold in H.
  destruct (MacroAssembler.oom _); [done|].
  exact (wp_Ok _ _ _ _ _ _ (appendTables_codeRanges code _ _) H).
Qed.

Lemma linkCompiledCode_func_index code g g' :
  func_index_inv g ->
  linkCompiledCode code g = Ok tt g' ->
  Z.of_nat (length (codeRanges_of g')) <= UINT32_MAX ->
  func_index_inv g'.
Proof.
  intros Hinv H Hlen.
  pose proof (linkCompiledCode_codeRanges code g g' H) as Hcr.
  assert (Z.of_nat (length (codeRanges_of g) + length (codeRanges code)) <= UINT32_MAX)
    as Hlen' by (rewrite Hcr, length_app, length_map in Hlen; lia).
  destruct (linkCompiledCode_index code g g' H Hlen') as (_ & Hnew & _).
  intros f i Hi Hne. destruct (Hnew f i Hi) as [Hold|(k & cr & Hk & Hkind & Hf & ->)].
  - destruct (Hinv f i Hold Hne) as (cr & Hl & ? & ?). exists cr.
    split; [|done]. rewrite Hcr. by apply lookup_app_l_Some.
  - exists (CodeRange.offsetBy cr (appendOffset g)). split; [|done].
    pose proof (lookup_lt_Some _ _ _ Hk).
    rewrite Nat2Z.id, Hcr, lookup_app_r by lia.
    replace (length (codeRanges_of g) + k - length (codeRanges_of g))%nat with k by lia.
    by rewrite list_lookup_fmap, Hk.
Qed.

Lemma linkCallSites_func_index g g' :
  func_index_inv g -> linkCallSites g = Ok tt g' -> func_index_inv g'.
Proof.
  intros Hinv H f i Hi Hne.
  destruct (grows_Ok _ _ _ _ linkCallSites_grows H) as ([add Hadd] & _).
  rewrite (preserves_Ok funcToCodeRange_ _ _ _ _
             (linkCallSites_preserves funcToCodeRange_
                ltac:(done) ltac:(done) ltac:(done) ltac:(done) ltac:(done)
                ltac:(done)) H) in Hi.
  destruct (Hinv f i Hi Hne) as (cr & Hl & ? & ?). exists cr.
  split; [|done]. rewrite Hadd. by apply lookup_app_l_Some.
Qed.

Lemma runSteps_func_index steps g g' :
  func_index_inv g ->
  forEach steps runStep g = Ok tt g' ->
  Z.of_nat (length (codeRanges_of g')) <= UINT32_MAX ->
  func_index_inv g'.
Proof.
  revert g. induction steps as [|s steps IH]; intros g Hinv H Hlen; cbn [forEach] in H.
  - by injection H as <-.
  - apply bind_Ok in H as ([] & g1 & H1 & H).
    apply (IH g1); [|done|done].
    destruct (runSteps_settled _ _ _ H) as [[add Hadd] _].
    assert (Z.of_nat (length (codeRanges_of g1)) <= UINT32_MAX) as Hlen1
      by (rewrite Hadd, length_app in Hlen; lia).
    destruct s; cbn [runStep] in H1.
    + by apply (linkCompiledCode_func_index code g).
    + by apply (linkCallSites_func_index g).
Qed.

Lemma no_function_compiled_index g : no_function_compiled g -> func_index_inv g.
Proof.
  intros Hnone f i Hi Hne. exfalso. apply Hne.
  exact (proj1 (list.Forall_forall _ _) Hnone i (list_elem_of_lookup_2 _ _ _ Hi)).
Qed.

(** X3.  In every state reached by [linkCompiledCode] and [linkCallSites]
    from a generator with no compiled function, [funcCodeRange] succeeds on
    every compiled function and gives a [Function] code range of that
    function: neither its bounds check nor its [isFunction] assertion
    fires. *)
Theorem funcCodeRange_of_compiled steps g0 g f :
  no_function_compiled g0 ->
  forEach steps runStep g0 = Ok tt g ->
  Z.of_nat (length (codeRanges_of g)) <= UINT32_MAX ->
  funcIsCompiled f g = Ok true g ->
  exists cr,
    funcCodeRange f g = Ok cr g /\
    CodeRange.kind cr = CodeRange.Function /\
    Z.to_nat (CodeRange.funcIndex cr) = Z.to_nat f.
Proof.
  intros Hnone Hrun Hlen Hc.
  pose proof (runSteps_func_index steps g0 g (no_function_compiled_index _ Hnone)
                Hrun Hlen) as Hinv.
  apply funcIsCompiled_Ok in Hc as (_ & i & Hi & Hb).
  assert (i <> BAD_CODE_RANGE) as Hne.
  { intros ->. by rewrite Z.eqb_refl in Hb. }
  destruct (Hinv _ i Hi Hne) as (cr & Hl & Hkind & Hf).
  exists cr. split; [|done].
  apply (funcCodeRange_found f g i cr); try done.
  unfold CodeRange.isFunction. by rewrite Hkind.
Qed.

(** ** The calls that a pass patches *)

Lemma linkCallSite_patch_one cs t ex exT g r g' :
  linkCallSite cs t ex exT g = Ok r g' ->
  exists addP,
    patchedCalls_of g' = patchedCalls_of g ++ addP /\
    addP.*1 = if patched_kind cs then [CallSite.returnAddressOffset cs] else [].
Proof.
  intros H. unfold patched_kind. linkCallSite_cases H.
  all: unfold patchedCalls_of; cbn; rewrite ?(proj1 (masm_emit_logs _ _)).
  all: first [ exists []; split; [by rewrite app_nil_r|reflexivity]
             | eexists [_]; split; [reflexivity|reflexivity] ].
Qed.

Lemma linkCallSites_loop_patches pending ex exT g g' :
  linkCallSites_loop pending ex exT g = Ok tt g' ->
  exists addP,
    patchedCalls_of g' = patchedCalls_of g ++ addP /\
    addP.*1 = CallSite.returnAddressOffset <$> filter (fun cs => patched_kind cs = true) pending.
Proof.
  revert ex exT g. induction pending as [|cs pending IH]; intros ex exT g H;
    cbn [linkCallSites_loop] in H.
  - injection H as <-. exists []. by rewrite app_nil_r.
  - apply bind_Ok in H as (l & g1 & H1 & H). apply gets_Ok in H1 as [-> ->].
    apply bind_Ok in H as (tg & g1 & H1 & H). apply gets_Ok in H1 as [-> ->].
    apply bind_Ok in H as (target & g1 & H1 & H). apply at_Ok in H1 as [Htg ->].
    apply bind_Ok in H as (r & g1 & Hstep & H).
    apply bind_Ok in H as ([] & g2 & H1 & H). apply modify_Ok in H1. subst g2.
    apply linkCallSite_patch_one in Hstep as (add1 & Hp1 & Hf1).
    apply IH in H as (add2 & Hp2 & Hf2).
    change (patchedCalls_of (set_lastPatchedCallSite_ _ g1)) with (patchedCalls_of g1) in Hp2.
    exists (add1 ++ add2). split; [by rewrite Hp2, Hp1, app_assoc|].
    rewrite fmap_app, Hf1, Hf2, filter_cons.
    destruct (decide (patched_kind cs = true)) as [->|Hn]; [done|].
    by destruct (patched_kind cs).
Qed.

Lemma linkCallSite_visit cs t ex exT :
  preserves (fun g => (lastPatchedCallSite_ g, callSites_of g, callSiteTargets_ g))
    (linkCallSite cs t ex exT).
Proof.
  unfold linkCallSite. unfold_prims. cbv zeta.
  destruct (CallSite.kind cs); pres_with ltac:(reflexivity).
Qed.

Lemma linkCallSites_loop_last pending ex exT g g' :
  Z.of_nat (length pending) + lastPatchedCallSite_ g <= UINT32_MAX ->
  0 <= lastPatchedCallSite_ g ->
  linkCallSites_loop pending ex exT g = Ok tt g' ->
  lastPatchedCallSite_ g' = lastPatchedCallSite_ g + Z.of_nat (length pending) /\
  callSites_of g' = callSites_of g /\ callSiteTargets_ g' = callSiteTargets_ g.
Proof.
  revert ex exT g. induction pending as [|cs pending IH]; intros ex exT g Hlen Hlast H;
    cbn [linkCallSites_loop] in H.
  - injection H as <-. cbn. split; [lia|done].
  - apply bind_Ok in H as (l & g1 & H1 & H). apply gets_Ok in H1 as [-> ->].
    apply bind_Ok in H as (tg & g1 & H1 & H). apply gets_Ok in H1 as [-> ->].
    apply bind_Ok in H as (target & g1 & H1 & H). apply at_Ok in H1 as [Htg ->].
    apply bind_Ok in H as (r & g1 & Hstep & H).
    apply bind_Ok in H as ([] & g2 & H1 & H). apply modify_Ok in H1. subst g2.
    pose proof (preserves_Ok _ _ _ _ _ (linkCallSite_visit cs target ex exT) Hstep) as Hv.
    cbn [length] in Hlen. injection Hv as V1 V2 V3.
    set (g2 := set_lastPatchedCallSite_ _ g1) in H.
    assert (lastPatchedCallSite_ g2 = lastPatchedCallSite_ g + 1) as L2.
    { unfold g2. cbn. rewrite V1, wrap32_small; [done|]. unfold is_u32. lia. }
    assert (callSites_of g2 = callSites_of g) as C2 by exact V2.
    assert (callSiteTargets_ g2 = callSiteTargets_ g) as T2 by exact V3.
    apply IH in H as (Hl & Hcs & Htg'); [|lia|lia].
    cbn [length]. split; [lia|]. split; congruence.
Qed.

(** X4.  A pass over the call sites visits the call sites appended since
    the last pass and no other: it leaves [lastPatchedCallSite_] at the
    number of call sites, and it patches every pending call site of kind
    [Func] or [TrapExit] exactly once, in their order, and no call site of
    another kind. *)
Theorem pass_patches_each_pending_call_once g g' :
  0 <= lastPatchedCallSite_ g <= Z.of_nat (length (callSites_of g)) ->
  Z.of_nat (length (callSites_of g)) <= UINT32_MAX ->
  linkCallSites g = Ok tt g' ->
  let pending := drop (Z.to_nat (lastPatchedCallSite_ g)) (callSites_of g) in
  callSites_of g' = callSites_of g /\
  lastPatchedCallSite_ g' = Z.of_nat (length (callSites_of g)) /\
  exists addP,
    patchedCalls_of g' = patchedCalls_of g ++ addP /\
    addP.*1 = CallSite.returnAddressOffset
                <$> filter (fun cs => patched_kind cs = true) pending.
Proof.
  intros Hlast Hlen H pending. unfold linkCallSites in H. unfold_masm_in H.
  apply bind_Ok in H as ([] & g1 & H1 & H). apply modify_Ok in H1. subst g1.
  apply bind_Ok in H as (l & g1 & H1 & H). apply gets_Ok in H1 as [-> ->].
  apply bind_Ok in H as (sites & g1 & H1 & H). apply gets_Ok in H1 as [-> ->].
  apply bind_Ok in H as ([] & g1 & Hloop & H).
  apply bind_Ok in H as (oom & g2 & H1 & H). apply gets_Ok in H1 as [-> ->].
  destruct (MacroAssembler.oom (masm_ g1)); [done|]. injection H as <-.
  set (g0 := set_masm_ _ g) in Hloop.
  change (lastPatchedCallSite_ g0) with (lastPatchedCallSite_ g) in Hloop.
  change (MetadataTier.callSites (metadataTier_ g0)) with (callSites_of g) in Hloop.
  fold pending in Hloop.
  assert (length pending = (length (callSites_of g) - Z.to_nat (lastPatchedCallSite_ g))%nat)
    as Hpl by apply length_drop.
  assert (Z.of_nat (length pending) + lastPatchedCallSite_ g0 <= UINT32_MAX) as Hfit
    by (rewrite Hpl; cbn; lia).
  assert (0 <= lastPatchedCallSite_ g0) as Hpos by (cbn; lia).
  destruct (linkCallSites_loop_last _ _ _ _ _ Hfit Hpos Hloop) as (Hl & Hcs & _).
  destruct (linkCallSites_loop_patches _ _ _ _ _ Hloop) as (addP & HP & Hfst).
  split; [exact Hcs|]. split.
  - rewrite Hl, Hpl. cbn. lia.
  - exists addP. split; [|exact Hfst]. rewrite HP.
    unfold g0, patchedCalls_of, masm_haltingAlign. cbn.
    by rewrite (proj1 (masm_emit_logs _ _)).
Qed.

(** ** Direct calls, and islands only where needed *)

Lemma same_functions_refl g : same_functions g g.
Proof. split; [done|]. exists []. by rewrite app_nil_r. Qed.

Lemma same_functions_trans g1 g2 g3 :
  same_functions g1 g2 -> same_functions g2 g3 -> same_functions g1 g3.
Proof.
  intros [F1 (a1 & H1 & N1)] [F2 (a2 & H2 & N2)]. split; [congruence|].
  exists (a1 ++ a2). split; [by rewrite H2, H1, app_assoc|]. by apply list.Forall_app.
Qed.

Lemma funcIsCompiled_same g0 g f b :
  same_functions g0 g -> funcIsCompiled f g = Ok b g <-> funcIsCompiled f g0 = Ok b g0.
Proof.
  intros [Hf _]. split; intros H.
  - by apply (funcIsCompiled_stable f g g0).
  - by apply (funcIsCompiled_stable f g0 g).
Qed.

Lemma funcCodeRange_same g0 g f cr :
  same_functions g0 g -> funcCodeRange f g = Ok cr g <-> funcCodeRange f g0 = Ok cr g0.
Proof.
  intros [Hf (addR & Hadd & Hnot)]. split; intros H.
  - apply funcCodeRange_Ok in H as (_ & _ & i & Hi & Hne & Hcr & Hfun).
    apply (funcCodeRange_found f g0 i cr); try done; [congruence|].
    rewrite Hadd in Hcr. apply lookup_app_Some in Hcr as [Hcr|[_ Hcr]]; [done|].
    apply list_elem_of_lookup_2 in Hcr.
    rewrite (proj1 (list.Forall_forall _ _) Hnot cr Hcr) in Hfun. done.
  - by apply (funcCodeRange_stable f g0 g cr addR).
Qed.

Lemma needs_island_same g0 g cs f :
  same_functions g0 g -> needs_island g cs f <-> needs_island g0 cs f.
Proof.
  intros Hs. unfold needs_island. rewrite !patchDirect_false.
  rewrite (funcIsCompiled_same g0 g f false Hs).
  split; (intros [?|(cr & Hcr & ?)]; [by left|right; exists cr; split; [|done]]).
  - by apply (funcCodeRange_same g0 g).
  - by apply (funcCodeRange_same g0 g).
Qed.

Lemma linkCallSite_same_functions cs t ex exT g r g' :
  linkCallSite cs t ex exT g = Ok r g' -> same_functions g g'.
Proof.
  intros H. linkCallSite_cases H.
  all: split; [reflexivity|]; unfold codeRanges_of; cbn.
  all: first [ exists []; split; [by rewrite app_nil_r|constructor]
             | eexists [_]; split; [reflexivity|by repeat constructor] ].
Qed.

Lemma linkCallSite_callFarJumps_other cs t ex exT g r g' :
  CallSite.kind cs <> CallSiteDesc.Func ->
  linkCallSite cs t ex exT g = Ok r g' -> callFarJumps_ g' = callFarJumps_ g.
Proof. intros Hk H. linkCallSite_cases H; try congruence; reflexivity. Qed.

Lemma linkCallSite_outcome cs t ex exT g r g' :
  linkCallSite cs t ex exT g = Ok r g' ->
  let ra := CallSite.returnAddressOffset cs in
  exists addP newJ,
    patchedCalls_of g' = patchedCalls_of g ++ addP /\
    callFarJumps_ g' = callFarJumps_ g ++ newJ /\
    (forall f cr,
       CallSite.kind cs = CallSiteDesc.Func -> t = TargetFunc f ->
       funcCodeRange f g = Ok cr g ->
       InRange ra (CodeRange.funcNormalEntry cr) = true ->
       (ra, CodeRange.funcNormalEntry cr) ∈ addP) /\
    (forall far, far ∈ newJ ->
       CallSite.kind cs = CallSiteDesc.Func /\
       t = TargetFunc (CallFarJump.funcIndex far) /\
       needs_island g cs (CallFarJump.funcIndex far)).
Proof.
  intros H ra.
  destruct (CallSite.kind cs) eqn:Hk.
  2-7: (destruct (linkCallSite_patch_one cs t ex exT g r g' H) as (addP & HP & _);
        exists addP, []; rewrite app_nil_r; split; [exact HP|];
        split; [apply (linkCallSite_callFarJumps_other cs t ex exT g r g');
                [by rewrite Hk|exact H]|];
        split; [done|by intros far ?%elem_of_nil]).
  unfold linkCallSite in H. fold ra in H. rewrite Hk in H.
  apply bind_Ok in H as (f1 & g1 & Ht & H).
  destruct t as [|f|]; try done. apply ret_Ok in Ht as [-> ->].
  apply bind_Ok in H as (b & g1 & Hpd & H).
  pose proof Hpd as Hpd'.
  apply patchDirect_Ok in Hpd as [[-> ->]|(-> & cr & Hcr & Hin & ->)].
  - (* an island *)
    assert (needs_island g cs f) as Hneed by exact Hpd'.
    assert (forall f0 cr0, TargetFunc f = TargetFunc f0 ->
              funcCodeRange f0 g = Ok cr0 g ->
              InRange ra (CodeRange.funcNormalEntry cr0) = true -> False) as Hno.
    { intros f0 cr0 [= <-] Hcr0 Hin0. unfold needs_island in Hneed. fold ra in Hneed.
      rewrite (patchDirect_compiled _ _ _ _ Hcr0), Hin0 in Hneed. done. }
    destruct (ex !! f) as [p|] eqn:Hex.
    + unfold patchCall in H. monad_inv H. eexists [_], []. rewrite app_nil_r.
      split; [reflexivity|]. split; [reflexivity|].
      split; [intros f0 cr0 _ Ht Hc Hi; destruct (Hno f0 cr0 Ht Hc Hi)|by intros far ?%elem_of_nil].
    + unfold_masm_in H. monad_inv H. eexists [_], [_].
      unfold patchedCalls_of. cbn. rewrite ?(proj1 (masm_emit_logs _ _)).
      split; [reflexivity|]. split; [reflexivity|].
      split; [intros f0 cr0 _ Ht Hc Hi; destruct (Hno f0 cr0 Ht Hc Hi)|].
      intros far ->%list_elem_of_singleton. done.
  - (* a direct call *)
    apply ret_Ok in H as [-> ->]. eexists [_], []. rewrite app_nil_r.
    split; [reflexivity|]. split; [reflexivity|].
    split; [|by intros far ?%elem_of_nil].
    intros f0 cr0 _ [= <-] Hcr0 _. rewrite Hcr in Hcr0. injection Hcr0 as <-.
    by apply list_elem_of_singleton.
Qed.

Lemma linkCallSites_loop_outcome g0 pending ex exT g g' (i : nat) :
  Z.of_nat (length (callSites_of g0)) <= UINT32_MAX ->
  same_functions g0 g ->
  callSites_of g = callSites_of g0 -> callSiteTargets_ g = callSiteTargets_ g0 ->
  lastPatchedCallSite_ g = Z.of_nat i ->
  pending = drop i (callSites_of g0) ->
  linkCallSites_loop pending ex exT g = Ok tt g' ->
  exists addP newJ,
    patchedCalls_of g' = patchedCalls_of g ++ addP /\
    callFarJumps_ g' = callFarJumps_ g ++ newJ /\
    (forall (j : nat) cs f cr,
       (i <= j)%nat -> callSites_of g0 !! j = Some cs ->
       CallSite.kind cs = CallSiteDesc.Func ->
       callSiteTargets_ g0 !! j = Some (TargetFunc f) ->
       funcCodeRange f g0 = Ok cr g0 ->
       InRange (CallSite.returnAddressOffset cs) (CodeRange.funcNormalEntry cr) = true ->
       (CallSite.returnAddressOffset cs, CodeRange.funcNormalEntry cr) ∈ addP) /\
    (forall far, far ∈ newJ ->
       exists (j : nat) cs,
         (i <= j)%nat /\ callSites_of g0 !! j = Some cs /\
         CallSite.kind cs = CallSiteDesc.Func /\
         callSiteTargets_ g0 !! j = Some (TargetFunc (CallFarJump.funcIndex far)) /\
         needs_island g0 cs (CallFarJump.funcIndex far)).
Proof.
  intros Hlen. revert ex exT g i.
  induction pending as [|cs pending IH]; intros ex exT g i Hsame Hcs Htgs Hlast Hdrop H;
    cbn [linkCallSites_loop] in H.
  - injection H as <-. exists [], []. rewrite !app_nil_r.
    split; [done|]. split; [done|]. split; [|by intros far ?%elem_of_nil].
    intros j cs f cr Hij Hj. apply lookup_lt_Some in Hj.
    assert (length (drop i (callSites_of g0)) = 0%nat) as Hd by by rewrite <- Hdrop.
    rewrite length_drop in Hd. lia.
  - assert (callSites_of g0 !! i = Some cs) as Hi.
    { pose proof (lookup_drop (callSites_of g0) i 0) as Hl.
      rewrite <- Hdrop, Nat.add_0_r in Hl. by rewrite <- Hl. }
    assert (pending = drop (S i) (callSites_of g0)) as Hdrop'.
    { rewrite (drop_S _ _ _ Hi) in Hdrop. by injection Hdrop. }
    pose proof (lookup_lt_Some _ _ _ Hi) as Hilt.
    apply bind_Ok in H as (l & g1 & H1 & H). apply gets_Ok in H1 as [-> ->].
    apply bind_Ok in H as (tg & g1 & H1 & H). apply gets_Ok in H1 as [-> ->].
    apply bind_Ok in H as (target & g1 & H1 & H). apply at_Ok in H1 as [Htg ->].
    rewrite Hlast, Nat2Z.id, Htgs in Htg.
    apply bind_Ok in H as (r & g1 & Hstep & H).
    apply bind_Ok in H as ([] & g2 & H1 & H). apply modify_Ok in H1. subst g2.
    pose proof (preserves_Ok _ _ _ _ _ (linkCallSite_visit cs target ex exT) Hstep) as Hv.
    injection Hv as V1 V2 V3.
    pose proof (linkCallSite_same_functions _ _ _ _ _ _ _ Hstep) as Hsame1.
    destruct (linkCallSite_outcome _ _ _ _ _ _ _ Hstep) as (add1 & new1 & HP1 & HJ1 & HD1 & HN1).
    set (g2 := set_lastPatchedCallSite_ _ g1) in H.
    destruct (IH r.1 r.2 g2 (S i)) as (add2 & new2 & HP2 & HJ2 & HD2 & HN2); try done.
    + by apply (same_functions_trans g0 g g2).
    + unfold g2. cbn - [callSites_of]. change (callSites_of g1 = callSites_of g0). congruence.
    + unfold g2. cbn. congruence.
    + unfold g2. cbn. rewrite V1, Hlast, wrap32_small; [lia|]. unfold is_u32. lia.
    + exists (add1 ++ add2), (new1 ++ new2).
      split; [rewrite HP2; change (patchedCalls_of g2) with (patchedCalls_of g1);
              by rewrite HP1, app_assoc|].
      split; [rewrite HJ2; change (callFarJumps_ g2) with (callFarJumps_ g1);
              by rewrite HJ1, app_assoc|].
      split.
      * intros j cs' f cr Hij Hj Hk Htj Hcr Hin. apply elem_of_app.
        destruct (decide (j = i)) as [->|Hne].
        -- left. rewrite Hi in Hj. injection Hj as <-. rewrite Htg in Htj.
           injection Htj as ->. apply (HD1 f cr); try done.
           by apply (funcCodeRange_same g0 g).
        -- right. apply (HD2 j cs' f cr); try done. lia.
      * intros far [Hin|Hin]%elem_of_app.
        -- destruct (HN1 far Hin) as (Hk & -> & Hneed). exists i, cs.
           repeat split; try done. by apply (needs_island_same g0 g).
        -- destruct (HN2 far Hin) as (j & cs' & Hij & ?). exists j, cs'.
           split; [lia|done].
Qed.

(** X5.  In a pass over the call sites, every pending [Func] call whose
    callee is compiled and in range is patched to the normal entry of the
    callee; and the pass records a far jump to a function only for a
    pending [Func] call to that function that cannot be patched directly. *)
Theorem pass_patches_direct_calls g g' :
  0 <= lastPatchedCallSite_ g ->
  Z.of_nat (length (callSites_of g)) <= UINT32_MAX ->
  linkCallSites g = Ok tt g' ->
  exists addP newJ,
    patchedCalls_of g' = patchedCalls_of g ++ addP /\
    callFarJumps_ g' = callFarJumps_ g ++ newJ /\
    (forall (i : nat) cs f cr,
       pending g i cs (TargetFunc f) -> CallSite.kind cs = CallSiteDesc.Func ->
       funcCodeRange f g = Ok cr g ->
       InRange (CallSite.returnAddressOffset cs) (CodeRange.funcNormalEntry cr) = true ->
       (CallSite.returnAddressOffset cs, CodeRange.funcNormalEntry cr) ∈ addP) /\
    (forall far, far ∈ newJ ->
       exists (i : nat) cs,
         pending g i cs (TargetFunc (CallFarJump.funcIndex far)) /\
         CallSite.kind cs = CallSiteDesc.Func /\
         needs_island g cs (CallFarJump.funcIndex far)).
Proof.
  intros Hlast Hlen H. unfold linkCallSites in H. unfold_masm_in H.
  apply bind_Ok in H as ([] & g1 & H1 & H). apply modify_Ok in H1. subst g1.
  apply bind_Ok in H as (l & g1 & H1 & H). apply gets_Ok in H1 as [-> ->].
  apply bind_Ok in H as (sites & g1 & H1 & H). apply gets_Ok in H1 as [-> ->].
  apply bind_Ok in H as ([] & g1 & Hloop & H).
  apply bind_Ok in H as (oom & g2 & H1 & H). apply gets_Ok in H1 as [-> ->].
  destruct (MacroAssembler.oom (masm_ g1)); [done|]. injection H as <-.
  set (g0 := set_masm_ _ g) in Hloop.
  assert (same_functions g g0) as Hs0
    by (split; [reflexivity|exists []; split; [by rewrite app_nil_r|constructor]]).
  assert (lastPatchedCallSite_ g0 = Z.of_nat (Z.to_nat (lastPatchedCallSite_ g))) as Hl0
    by (cbn; lia).
  destruct (linkCallSites_loop_outcome g0
              (drop (Z.to_nat (lastPatchedCallSite_ g)) (callSites_of g))
              ∅ (fun _ => None) g0 g1 (Z.to_nat (lastPatchedCallSite_ g))
              Hlen (same_functions_refl g0) eq_refl eq_refl Hl0 eq_refl Hloop)
    as (addP & newJ & HP & HJ & HD & HN).
  exists addP, newJ. split; [|split; [exact HJ|split]].
  - rewrite HP. unfold g0, patchedCalls_of, masm_haltingAlign. cbn.
    by rewrite (proj1 (masm_emit_logs _ _)).
  - intros i cs f cr (Hlo & Hcs & Htg) Hk Hcr Hin.
    apply (HD i cs f cr); try done; [lia|].
    by apply (funcCodeRange_same g g0).
  - intros far Hin. destruct (HN far Hin) as (j & cs & Hij & Hcs & Hk & Htg & Hneed).
    exists j, cs. split; [|split; [done|]].
    + split; [lia|]. by split.
    + by apply (needs_island_same g g0).
Qed.

(** ** The far jumps patched by [finishLinking] *)

Lemma with_patchedFarJumps_nil g : with_patchedFarJumps [] g = g.
Proof.
  unfold with_patchedFarJumps. rewrite app_nil_r. destruct g as [m]. by destruct m.
Qed.

Lemma with_patchedFarJumps_app a b g :
  with_patchedFarJumps b (with_patchedFarJumps a g) = with_patchedFarJumps (a ++ b) g.
Proof. unfold with_patchedFarJumps. cbn. by rewrite app_assoc. Qed.

Lemma patchFarJump_Ok j t g g' :
  patchFarJump j t g = Ok tt g' -> g' = with_patchedFarJumps [(j, t)] g.
Proof. unfold patchFarJump. intros H. by apply modify_Ok in H. Qed.

Lemma patch_callFarJumps_Ok fars g g' :
  forEach fars (fun far =>
    let* cr := funcCodeRange (CallFarJump.funcIndex far) in
    patchFarJump (CallFarJump.jump far) (CodeRange.funcNormalEntry cr)) g = Ok tt g' ->
  exists patches,
    g' = with_patchedFarJumps patches g /\
    Forall2 (fun far p =>
               exists cr, funcCodeRange (CallFarJump.funcIndex far) g = Ok cr g /\
                          p = (CallFarJump.jump far, CodeRange.funcNormalEntry cr))
            fars patches.
Proof.
  revert g. induction fars as [|far fars IH]; intros g H; cbn [forEach] in H.
  - injection H as <-. exists []. split; [by rewrite with_patchedFarJumps_nil|constructor].
  - apply bind_Ok in H as ([] & g1 & H1 & H).
    apply bind_Ok in H1 as (cr & g0 & Hcr & H1).
    pose proof (funcCodeRange_Ok _ _ _ _ Hcr) as (-> & _).
    apply patchFarJump_Ok in H1. subst g1.
    apply IH in H as (patches & -> & Hall).
    exists ((CallFarJump.jump far, CodeRange.funcNormalEntry cr) :: patches).
    split; [by rewrite with_patchedFarJumps_app|].
    constructor; [by exists cr|].
    eapply list.Forall2_impl; [exact Hall|]. cbn. intros far' p (cr' & Hcr' & ->).
    exists cr'. split; [|done].
    apply (funcCodeRange_view _ (with_patchedFarJumps [(CallFarJump.jump far, CodeRange.funcNormalEntry cr)] g) g);
      done.
Qed.

Lemma patch_trapFarJumps_Ok fars g g' :
  forEach fars (fun far =>
    let* offsets := gets trapCodeOffsets_ in
    patchFarJump (TrapFarJump.jump far) (offsets (TrapFarJump.trap far))) g = Ok tt g' ->
  g' = with_patchedFarJumps
         ((fun far => (TrapFarJump.jump far, trapCodeOffsets_ g (TrapFarJump.trap far)))
            <$> fars) g.
Proof.
  revert g. induction fars as [|far fars IH]; intros g H; cbn [forEach] in H.
  - injection H as <-. by rewrite with_patchedFarJumps_nil.
  - apply bind_Ok in H as ([] & g1 & H1 & H).
    apply bind_Ok in H1 as (offsets & g0 & H0 & H1). apply gets_Ok in H0 as [-> ->].
    apply patchFarJump_Ok in H1. subst g1.
    apply IH in H. rewrite H, with_patchedFarJumps_app. reflexivity.
Qed.

Lemma patch_debugTrapFarJumps_Ok fars g g' :
  forEach fars (fun farJump =>
    let* target := gets debugTrapCodeOffset_ in
    patchFarJump farJump target) g = Ok tt g' ->
  g' = with_patchedFarJumps ((fun j => (j, debugTrapCodeOffset_ g)) <$> fars) g.
Proof.
  revert g. induction fars as [|far fars IH]; intros g H; cbn [forEach] in H.
  - injection H as <-. by rewrite with_patchedFarJumps_nil.
  - apply bind_Ok in H as ([] & g1 & H1 & H).
    apply bind_Ok in H1 as (target & g0 & H0 & H1). apply gets_Ok in H0 as [-> ->].
    apply patchFarJump_Ok in H1. subst g1.
    apply IH in H. rewrite H, with_patchedFarJumps_app. reflexivity.
Qed.

Lemma linkCallSite_patchedFarJumps cs t ex exT :
  preserves patchedFarJumps_of (linkCallSite cs t ex exT).
Proof.
  unfold linkCallSite. unfold_prims. cbv zeta.
  destruct (CallSite.kind cs);
    pres_with ltac:(unfold patchedFarJumps_of, push_codeRange; cbn;
                    rewrite ?(proj2 (masm_emit_logs _ _)); reflexivity).
Qed.

Lemma linkCallSites_patchedFarJumps : preserves patchedFarJumps_of linkCallSites.
Proof.
  unfold linkCallSites. unfold_prims.
  apply preserves_bind.
  { apply preserves_modify. intros g. unfold patchedFarJumps_of, masm_haltingAlign. cbn.
    by rewrite (proj2 (masm_emit_logs _ _)). }
  intros ?. apply preserves_bind; [apply preserves_gets|intros ?].
  apply preserves_bind; [apply preserves_gets|intros ?].
  apply preserves_bind.
  { generalize (∅ : gmap Z Z) (fun _ : nat => @None Z).
    generalize (drop (Z.to_nat a0) a1).
    intros pending. induction pending as [|cs pending IH]; intros ex exT;
      cbn [linkCallSites_loop]; [apply preserves_ret|].
    apply preserves_bind; [apply preserves_gets|intros ?].
    apply preserves_bind; [apply preserves_gets|intros ?].
    apply preserves_bind; [apply preserves_at|intros ?].
    apply preserves_bind; [apply linkCallSite_patchedFarJumps|intros ?].
    apply preserves_bind; [apply preserves_modify; done|intros ?].
    apply IH. }
  intros ?. pres_with ltac:(reflexivity).
Qed.

(** X6.  When [finishLinking] returns true it has patched every far jump
    exactly once and nothing else: the far jumps of calls to the normal
    entry of their callee, then the far jumps of traps to the trap exit of
    their trap, then the far jumps of debug traps to the debug trap stub;
    and the assembler has not run out of memory.  This holds for a wasm
    module and for an asm.js module. *)
Theorem finishLinking_patches_every_far_jump isAsmJS AsmJSFirstDefFuncIndex g g3 :
  finishLinking isAsmJS AsmJSFirstDefFuncIndex g = Ok tt g3 ->
  oom_of g3 = false /\
  exists callPatches,
    patchedFarJumps_of g3 =
      patchedFarJumps_of g ++ callPatches ++
      ((fun far => (TrapFarJump.jump far, trapCodeOffsets_ g3 (TrapFarJump.trap far)))
         <$> trapFarJumps_ g3) ++
      ((fun j => (j, debugTrapCodeOffset_ g3)) <$> debugTrapFarJumps_ g3) /\
    Forall2 (fun far p =>
               exists cr, funcCodeRange (CallFarJump.funcIndex far) g3 = Ok cr g3 /\
                          p = (CallFarJump.jump far, CodeRange.funcNormalEntry cr))
            (callFarJumps_ g3) callPatches.
Proof.
  unfold finishLinking. intros H.
  apply bind_Ok in H as ([] & g0 & H1 & H). apply finishLinking_debug_Ok in H1 as ->.
  apply bind_Ok in H as ([] & g1 & Hpass & H).
  pose proof (preserves_Ok _ _ _ _ _ linkCallSites_patchedFarJumps Hpass) as Hpfj.
  apply bind_Ok in H as (fars & g0 & H1 & H). apply gets_Ok in H1 as [-> ->].
  apply bind_Ok in H as ([] & g2 & Hcalls & H).
  apply patch_callFarJumps_Ok in Hcalls as (callPatches & -> & Hall).
  apply bind_Ok in H as (fars & g0 & H1 & H). apply gets_Ok in H1 as [-> ->].
  apply bind_Ok in H as ([] & g2 & Htraps & H).
  apply patch_trapFarJumps_Ok in Htraps. subst g2.
  apply bind_Ok in H as (fars & g0 & H1 & H). apply gets_Ok in H1 as [-> ->].
  apply bind_Ok in H as ([] & g2 & Hdebug & H).
  apply patch_debugTrapFarJumps_Ok in Hdebug. subst g2.
  unfold masm_oom in H. apply bind_Ok in H as (oom & g0 & H1 & H).
  apply gets_Ok in H1 as [-> ->].
  rewrite !with_patchedFarJumps_app in H.
  match type of H with (if ?b then _ else _) _ = _ => destruct b eqn:Hoom; [done|] end.
  injection H as <-. split; [exact Hoom|].
  exists callPatches. split.
  - unfold patchedFarJumps_of in *. cbn. rewrite Hpfj. by rewrite ?app_assoc.
  - eapply list.Forall2_impl; [exact Hall|]. cbn. intros far p (cr & Hcr & ->).
    exists cr. split; [|done]. by apply (funcCodeRange_view _ g1).
Qed.

(** ** The layout of the code ranges *)

Lemma codeRangesSorted_app a l1 l2 :
  codeRangesSorted a (l1 ++ l2) =
  codeRangesSorted a l1 && codeRangesSorted (lastEndOf a l1) l2.
Proof.
  revert a. induction l1 as [|cr l1 IH]; intros a; [done|].
  cbn. rewrite IH. by rewrite andb_assoc.
Qed.

Lemma codeRangesSorted_mono a b l :
  a <= b -> codeRangesSorted b l = true -> codeRangesSorted a l = true.
Proof.
  destruct l as [|cr l]; [done|]. cbn. intros Hab H.
  apply andb_true_iff in H as [H1 H2]. apply andb_true_iff. split; [|done].
  apply Z.leb_le in H1. apply Z.leb_le. lia.
Qed.

Lemma codeRangesSorted_shift B a l :
  codeRangesSorted a l = true ->
  codeRangesSorted (B + a) (map (shift_codeRange B) l) = true.
Proof.
  revert a. induction l as [|cr l IH]; intros a; [done|]. cbn. intros H.
  apply andb_true_iff in H as [H1 H2]. apply andb_true_iff. split; [|by apply IH].
  apply Z.leb_le in H1. apply Z.leb_le. lia.
Qed.

Lemma lastEndOf_app a l1 l2 : lastEndOf a (l1 ++ l2) = lastEndOf (lastEndOf a l1) l2.
Proof. unfold lastEndOf. by rewrite foldl_app. Qed.

Lemma lastEndOf_bound a bound l :
  a <= bound -> Forall (fun cr => CodeRange.end_ cr <= bound) l -> lastEndOf a l <= bound.
Proof.
  revert a. induction l as [|cr l IH]; intros a Ha Hl; [done|].
  apply list.Forall_cons in Hl as [H1 H2]. cbn. by apply IH.
Qed.

Lemma offsetsSorted_snoc a l o :
  debugTrapFarJumpOffsetsSorted a l = true ->
  a <= o -> Forall (fun x => x <= o) l ->
  debugTrapFarJumpOffsetsSorted a (l ++ [o]) = true.
Proof.
  revert a. induction l as [|x l IH]; intros a Hs Ha Hl; cbn.
  - rewrite andb_true_r. by apply Z.leb_le.
  - cbn in Hs. apply andb_true_iff in Hs as [H1 H2].
    apply list.Forall_cons in Hl as [Hx Hl].
    apply andb_true_iff. split; [done|]. by apply IH.
Qed.

Lemma layout_inv_frame g g' :
  layout_inv g ->
  codeRanges_of g' = codeRanges_of g ->
  debugTrapFarJumpOffsets_of g' = debugTrapFarJumpOffsets_of g ->
  size_of g <= size_of g' ->
  layout_inv g'.
Proof.
  intros [H1 H2 H3 H4 H5] Hcr Hd Hsz. split; rewrite ?Hcr, ?Hd; try done; try lia.
  eapply list.Forall_impl; [exact H5|]. cbn. intros; lia.
Qed.

Lemma layout_inv_island g g' b e :
  layout_inv g ->
  codeRanges_of g' = codeRanges_of g ++ [CodeRange.island b e] ->
  debugTrapFarJumpOffsets_of g' = debugTrapFarJumpOffsets_of g ->
  size_of g <= b -> e <= size_of g' -> size_of g <= size_of g' ->
  layout_inv g'.
Proof.
  intros [H1 H2 H3 H4 H5] Hcr Hd Hb He Hsz. split; rewrite ?Hcr, ?Hd; try done.
  - lia.
  - rewrite codeRangesSorted_app, H2. cbn. rewrite andb_true_r. apply Z.leb_le. lia.
  - rewrite lastEndOf_app. cbn. lia.
  - eapply list.Forall_impl; [exact H5|]. cbn. intros; lia.
Qed.

Lemma layout_inv_debug_island g g' b e :
  layout_inv g ->
  codeRanges_of g' = codeRanges_of g ++ [CodeRange.island b e] ->
  debugTrapFarJumpOffsets_of g' = debugTrapFarJumpOffsets_of g ++ [b] ->
  size_of g <= b -> b <= size_of g' -> e <= size_of g' ->
  layout_inv g'.
Proof.
  intros [H1 H2 H3 H4 H5] Hcr Hd Hb Hb' He. split; rewrite ?Hcr, ?Hd; try done.
  - lia.
  - rewrite codeRangesSorted_app, H2. cbn. rewrite andb_true_r. apply Z.leb_le. lia.
  - rewrite lastEndOf_app. cbn. lia.
  - apply offsetsSorted_snoc; [done|lia|].
    eapply list.Forall_impl; [exact H5|]. cbn. intros; lia.
  - apply list.Forall_app. split.
    + eapply list.Forall_impl; [exact H5|]. cbn. intros; lia.
    + repeat constructor. lia.
Qed.

Lemma linkCallSite_layout callSite target ex exT g :
  PlatformOk -> layout_inv g ->
  wp (linkCallSite callSite target ex exT)
     (fun _ g' => layout_inv g') (fun g' => layout_inv g') g.
Proof.
  intros Hisa Hinv. pose proof (lay_size _ Hinv) as Hsz.
  unfold linkCallSite. unfold_prims. cbv zeta.
  destruct (CallSite.kind callSite); wp_exec.
  all: first
    [ exact Hinv
    | eapply layout_inv_frame; [exact Hinv | reflexivity | reflexivity | size_goal Hisa]
    | eapply layout_inv_island;
        [exact Hinv | reflexivity | reflexivity
        | size_goal Hisa | size_goal Hisa | size_goal Hisa]
    | eapply layout_inv_debug_island;
        [exact Hinv
        | unfold codeRanges_of, push_codeRange; cbn; reflexivity
        | unfold debugTrapFarJumpOffsets_of, push_codeRange; cbn; reflexivity
        | size_goal Hisa | size_goal Hisa | size_goal Hisa] ].
Qed.

Lemma linkCallSites_loop_layout pending ex exT g :
  PlatformOk -> layout_inv g ->
  wp (linkCallSites_loop pending ex exT)
     (fun _ g' => layout_inv g') (fun g' => layout_inv g') g.
Proof.
  intros Hisa. revert ex exT g.
  induction pending as [|callSite pending IH]; intros ex exT g Hinv;
    cbn [linkCallSites_loop].
  - by apply wp_ret.
  - wp_exec.
    eapply wp_mono; [by apply linkCallSite_layout|cbn beta|done].
    intros existing g1 Hinv1. wp_exec.
    apply IH.
    eapply layout_inv_frame; [exact Hinv1|reflexivity|reflexivity|unfold size_of; cbn; lia].
Qed.

Lemma linkCallSites_layout g :
  PlatformOk -> layout_inv g ->
  wp linkCallSites (fun _ g' => layout_inv g') (fun g' => layout_inv g') g.
Proof.
  intros Hisa Hinv. unfold linkCallSites. unfold_prims. wp_exec.
  eapply wp_mono; [apply linkCallSites_loop_layout; [done|]| |].
  - eapply layout_inv_frame; [exact Hinv|reflexivity|reflexivity|].
    apply (appendOffset_ge g Hisa).
  - cbn beta. intros _ g1 Hinv1. wp_exec; done.
  - cbn beta. by intros g1 Hinv1.
Qed.

Lemma linkCompiledCode_debugTrapFarJumpOffsets code :
  preserves debugTrapFarJumpOffsets_of (linkCompiledCode code).
Proof.
  unfold linkCompiledCode. unfold_prims.
  repeat first
    [ apply noteCodeRange_preserves; intros ? ?; reflexivity
    | progress pres_with ltac:(reflexivity) ].
Qed.

Lemma linkCompiledCode_layout code g g' :
  PlatformOk -> layout_inv g -> laid_out code ->
  linkCompiledCode code g = Ok tt g' -> layout_inv g'.
Proof.
  intros Hisa Hinv [Hsorted Hoib] Hlink.
  pose proof (lay_size _ Hinv) as Hsz.
  pose proof (appendOffset_ge g Hisa) as HB.
  destruct (linkCompiledCode_tables code g g' Hisa Hsz Hoib Hlink)
    as ([Hsz' Hfit] & Hcr & _).
  pose proof (preserves_Ok _ _ _ _ _ (linkCompiledCode_debugTrapFarJumpOffsets code) Hlink)
    as Hd.
  destruct Hinv as [H1 H2 H3 H4 H5]. destruct Hoib as [Hwcr _ _ _ _ _ _].
  split; rewrite ?Hcr, ?Hd; try done.
  - lia.
  - rewrite codeRangesSorted_app, H2. cbn.
    apply (codeRangesSorted_mono _ (appendOffset g + 0)); [lia|].
    by apply codeRangesSorted_shift.
  - rewrite lastEndOf_app. apply lastEndOf_bound; [lia|].
    rewrite Forall_map. eapply list.Forall_impl; [exact Hwcr|]. cbn.
    unfold within. intros; lia.
  - eapply list.Forall_impl; [exact H5|]. cbn. intros; lia.
Qed.

Lemma runSteps_layout steps g g' :
  PlatformOk -> layout_inv g -> steps_laid_out steps ->
  forEach steps runStep g = Ok tt g' -> layout_inv g'.
Proof.
  intros Hisa. revert g. induction steps as [|s steps IH]; intros g Hinv Hs H;
    cbn [forEach] in H.
  - by injection H as <-.
  - apply list.Forall_cons in Hs as [Hs1 Hs].
    apply bind_Ok in H as ([] & g1 & H1 & H).
    apply (IH g1); [|done|done].
    destruct s as [code|]; cbn in H1.
    + by apply (linkCompiledCode_layout code g).
    + exact (wp_Ok _ _ _ _ _ _ (linkCallSites_layout g Hisa Hinv) H1).
Qed.

Lemma forEach_MOZ_ASSERT_Ok {A} (l : list A) (b : A -> bool) f g g' :
  forEach l (fun x => MOZ_ASSERT (b x) f) g = Ok tt g' ->
  g' = g /\ Forall (fun x => b x = true) l.
Proof.
  revert g. induction l as [|x l IH]; intros g H; cbn [forEach] in H.
  - injection H as <-. by split.
  - apply bind_Ok in H as ([] & g1 & H1 & H).
    apply MOZ_ASSERT_Ok in H1 as [Hb ->]. apply IH in H as [-> Hl].
    split; [done|]. by constructor.
Qed.

(** For a wasm module [finishLinking] goes on only when every function is
    compiled. *)
Lemma finishLinking_wasm_compiled AsmJSFirstDefFuncIndex g g' :
  finishLinking false AsmJSFirstDefFuncIndex g = Ok tt g' ->
  Forall (fun i => i <> BAD_CODE_RANGE) (funcToCodeRange_ g).
Proof.
  unfold finishLinking, finishLinking_debug. intros H.
  apply bind_Ok in H as ([] & g0 & H1 & _).
  apply bind_Ok in H1 as (v & g1 & H0 & H1). apply gets_Ok in H0 as [-> ->].
  apply forEach_MOZ_ASSERT_Ok in H1 as [_ H1].
  eapply list.Forall_impl; [exact H1|]. cbn.
  intros i Hi ->. by rewrite Z.eqb_refl in Hi.
Qed.

Lemma finishLinking_layout isAsmJS AsmJSFirstDefFuncIndex g g' :
  PlatformOk -> layout_inv g ->
  finishLinking isAsmJS AsmJSFirstDefFuncIndex g = Ok tt g' -> layout_inv g'.
Proof.
  intros Hisa Hinv H. unfold finishLinking in H.
  apply bind_Ok in H as ([] & g0 & H1 & H). apply finishLinking_debug_Ok in H1 as ->.
  apply bind_Ok in H as ([] & g1 & Hpass & H).
  pose proof (wp_Ok _ _ _ _ _ _ (linkCallSites_layout g Hisa Hinv) Hpass) as Hinv1.
  apply bind_Ok in H as (fars & g0 & H1 & H). apply gets_Ok in H1 as [-> ->].
  apply bind_Ok in H as ([] & g2 & Hcalls & H).
  apply patch_callFarJumps_Ok in Hcalls as (callPatches & -> & _).
  apply bind_Ok in H as (fars & g0 & H1 & H). apply gets_Ok in H1 as [-> ->].
  apply bind_Ok in H as ([] & g2 & Htraps & H).
  apply patch_trapFarJumps_Ok in Htraps. subst g2.
  apply bind_Ok in H as (fars & g0 & H1 & H). apply gets_Ok in H1 as [-> ->].
  apply bind_Ok in H as ([] & g2 & Hdebug & H).
  apply patch_debugTrapFarJumps_Ok in Hdebug. subst g2.
  unfold masm_oom in H. apply bind_Ok in H as (oom & g0 & H1 & H).
  apply gets_Ok in H1 as [-> ->].
  match type of H with (if ?b then _ else _) _ = _ => destruct b; [done|] end.
  injection H as <-.
  eapply layout_inv_frame; [exact Hinv1|reflexivity|reflexivity|reflexivity].
Qed.

(** X7.  The assertions at the head of [finishMetadata] never fire in a
    module, wasm or asm.js, that was linked from a fresh generator: when
    the code ranges of every task do not overlap (each begins at or after
    the end of the one before) and lie within the bytes of the task, the
    code ranges of the module are in the order of the buffer and do not
    overlap either, and the offsets of the debug-trap islands are in
    order. *)
Theorem finishMetadata_assertions_hold isAsmJS AsmJSFirstDefFuncIndex steps g0 g
    SystemPageSize debugEnabled metadata_ :
  PlatformOk ->
  size_of g0 = 0 -> codeRanges_of g0 = [] -> debugTrapFarJumpOffsets_of g0 = [] ->
  steps_laid_out steps ->
  runLinker isAsmJS AsmJSFirstDefFuncIndex steps g0 = Ok tt g ->
  codeRangesSorted 0 (codeRanges_of g) = true /\
  debugTrapFarJumpOffsetsSorted 0 (debugTrapFarJumpOffsets_of g) = true /\
  exists r, finishMetadata SystemPageSize debugEnabled metadata_ g = inr r.
Proof.
  intros Hisa Hsz Hcr Hd Hsteps Hrun.
  assert (layout_inv g0) as Hinv0.
  { split; rewrite ?Hcr, ?Hd, ?Hsz; try done. }
  unfold runLinker in Hrun. apply bind_Ok in Hrun as ([] & g1 & Hlink & Hfin).
  pose proof (runSteps_layout steps g0 g1 Hisa Hinv0 Hsteps Hlink) as Hinv1.
  pose proof (finishLinking_layout _ _ g1 g Hisa Hinv1 Hfin) as [_ H2 _ H4 _].
  split; [exact H2|]. split; [exact H4|].
  unfold finishMetadata. unfold codeRanges_of in H2.
  unfold debugTrapFarJumpOffsets_of in H4. rewrite H2, H4. cbn. eauto.
Qed.

(** ** The code-range indices filled in by [finishMetadata] *)

Lemma mapM_Ok {A B} (f : A -> M B) (l : list A) g ys g' :
  (forall x g y g1, f x g = Ok y g1 -> g1 = g) ->
  mapM f l g = Ok ys g' ->
  g' = g /\ Forall2 (fun x y => f x g = Ok y g) l ys.
Proof.
  intros Hf. revert ys g'. induction l as [|x l IH]; intros ys g' H; cbn [mapM] in H.
  - apply ret_Ok in H as [-> ->]. split; [done|constructor].
  - apply bind_Ok in H as (y & g1 & H1 & H).
    pose proof (Hf _ _ _ _ H1) as ->.
    apply bind_Ok in H as (ys' & g2 & H2 & H).
    apply IH in H2 as [-> Hall]. apply ret_Ok in H as [-> ->].
    split; [done|]. by constructor.
Qed.

Lemma func_index_inv_view g g' :
  funcToCodeRange_ g' = funcToCodeRange_ g -> codeRanges_of g' = codeRanges_of g ->
  func_index_inv g -> func_index_inv g'.
Proof. intros H1 H2 Hinv f i. rewrite H1, H2. apply Hinv. Qed.

Lemma lookup_index_Ok g f i g1 :
  (let* v := gets funcToCodeRange_ in at_ v f) g = Ok i g1 ->
  g1 = g /\ funcToCodeRange_ g !! Z.to_nat f = Some i.
Proof.
  intros H. apply bind_Ok in H as (v & g0 & H0 & H). apply gets_Ok in H0 as [-> ->].
  apply at_Ok in H as [Hl ->]. done.
Qed.

Lemma func_index_resolves g f i :
  func_index_inv g -> funcToCodeRange_ g !! Z.to_nat f = Some i ->
  i <> BAD_CODE_RANGE -> resolves g f i.
Proof.
  intros Hinv Hi Hne.
  destruct (Hinv _ i Hi Hne) as (cr & Hl & Hkind & Hf).
  exists cr. split; [done|]. split; [|done].
  apply (funcCodeRange_found f g i cr); try done.
  unfold CodeRange.isFunction. by rewrite Hkind.
Qed.

Lemma resolves_view g g' f i :
  link_view g' = link_view g -> resolves g f i -> resolves g' f i.
Proof.
  intros Hv (cr & Hl & Hf & Hrest). exists cr.
  pose proof Hv as [= _ H2 _ _ _ _]. rewrite H2.
  split; [done|]. split; [|done]. by apply (funcCodeRange_view _ g).
Qed.

(** X8.  After a run of the linker from a generator with no compiled
    function, when [finishMetadata] returns true it has left the code
    ranges alone, and every function export has kept its function index,
    its signature and its entry offset and carries the code-range index
    that [funcToCodeRange_] held for its function; so do the code-range
    indices of every element segment, one for every function index of the
    segment.  Such an index, when it is not [BAD_CODE_RANGE], is the index
    of the [Function] code range of the function, the one that
    [funcCodeRange] gave; in a wasm module none is [BAD_CODE_RANGE].  With
    debugging enabled [funcToCodeRange_] has been moved into
    [debugFuncToCodeRange], otherwise it is as before. *)
Theorem finishMetadata_resolves_exports isAsmJS AsmJSFirstDefFuncIndex steps g0 g
    SystemPageSize debugEnabled metadata_ metadata' indices g' :
  no_function_compiled g0 ->
  runLinker isAsmJS AsmJSFirstDefFuncIndex steps g0 = Ok tt g ->
  Z.of_nat (length (codeRanges_of g)) <= UINT32_MAX ->
  finishMetadata SystemPageSize debugEnabled metadata_ g
    = inr (Ok (metadata', indices) g') ->
  let resolved funcIndex codeRangeIndex :=
    funcToCodeRange_ g !! Z.to_nat funcIndex = Some codeRangeIndex /\
    (isAsmJS = false -> codeRangeIndex <> BAD_CODE_RANGE) /\
    (codeRangeIndex <> BAD_CODE_RANGE -> resolves g funcIndex codeRangeIndex) in
  codeRanges_of g' = codeRanges_of g /\
  (if debugEnabled
   then funcToCodeRange_ g' = [] /\
        MetadataTier.debugFuncToCodeRange (metadataTier_ g') = funcToCodeRange_ g
   else funcToCodeRange_ g' = funcToCodeRange_ g) /\
  Forall2 (fun fe fe' =>
             FuncExport.funcIndex fe' = FuncExport.funcIndex fe /\
             FuncExport.sig fe' = FuncExport.sig fe /\
             FuncExport.entryOffset fe' = FuncExport.entryOffset fe /\
             resolved (FuncExport.funcIndex fe') (FuncExport.codeRangeIndex fe'))
          (funcExports_of g) (funcExports_of g') /\
  Forall2 (fun elems codeRangeIndices =>
             Forall2 resolved (elemFuncIndices elems) codeRangeIndices)
          (env_elemSegments env_) indices.
Proof.
  intros Hnone Hrun Hlen Hfin resolved.
  unfold runLinker in Hrun. apply bind_Ok in Hrun as ([] & g1 & Hlink & Hfl).
  (* a wasm module has every function compiled, and the index is right *)
  assert ((isAsmJS = false -> Forall (fun i => i <> BAD_CODE_RANGE) (funcToCodeRange_ g)) /\
          func_index_inv g) as [Hall Hinv].
  { pose proof (finishLinking_spec _ _ g1 g Hfl) as (g2 & Hpass & Hv & _).
    pose proof Hv as [= V1 V2 _ _ _ _].
    assert (funcToCodeRange_ g2 = funcToCodeRange_ g1) as V3.
    { exact (preserves_Ok funcToCodeRange_ _ _ _ _
               (linkCallSites_preserves funcToCodeRange_
                  ltac:(done) ltac:(done) ltac:(done) ltac:(done) ltac:(done)
                  ltac:(done)) Hpass). }
    split.
    - intros ->. rewrite V1, V3. exact (finishLinking_wasm_compiled _ g1 g Hfl).
    - apply (func_index_inv_view g2); [done|done|].
      apply (linkCallSites_func_index g1); [|done].
      apply (runSteps_func_index steps g0); [by apply no_function_compiled_index|done|].
      destruct (grows_Ok _ _ _ _ linkCallSites_grows Hpass) as ([add Hadd] & _).
      rewrite V2, Hadd, length_app in Hlen. lia. }
  assert (forall f i, funcToCodeRange_ g !! Z.to_nat f = Some i -> resolved f i) as Hres.
  { intros f i Hi. split; [exact Hi|]. split.
    - intros Hwasm.
      exact (proj1 (list.Forall_forall _ _) (Hall Hwasm) i (list_elem_of_lookup_2 _ _ _ Hi)).
    - by apply func_index_resolves. }
  (* the run of finishMetadata *)
  unfold finishMetadata in Hfin.
  destruct (negb (codeRangesSorted 0 _)); [done|].
  destruct (negb (debugTrapFarJumpOffsetsSorted 0 _)); [done|].
  injection Hfin as Hfin. cbv zeta in Hfin.
  apply bind_Ok in Hfin as (exports & g2 & H0 & Hfin). apply gets_Ok in H0 as [-> ->].
  apply bind_Ok in Hfin as (exports' & g2 & Hexp & Hfin).
  apply mapM_Ok in Hexp as [-> Hexp].
  2:{ intros fe g3 y g4 H. apply bind_Ok in H as (v & g5 & H0 & H).
      apply gets_Ok in H0 as [-> ->]. apply bind_Ok in H as (i & g5 & H0 & H).
      apply at_Ok in H0 as [_ ->]. by apply ret_Ok in H as [_ ->]. }
  apply bind_Ok in Hfin as ([] & g2 & H0 & Hfin). apply modify_Ok in H0. subst g2.
  apply bind_Ok in Hfin as (indices' & g2 & Hidx & Hfin).
  apply mapM_Ok in Hidx as [-> Hidx].
  2:{ intros elems g3 y g4 H. apply mapM_Ok in H as [-> _]; [done|].
      intros f g5 i g6 H'. by apply lookup_index_Ok in H' as [-> _]. }
  apply bind_Ok in Hfin as ([] & g2 & Hmove & Hfin).
  apply ret_Ok in Hfin as [[= _ <-] ->].
  set (ge := set_metadataTier_ _ g) in *.
  assert (codeRanges_of g2 = codeRanges_of g /\
          funcExports_of g2 = exports' /\
          if debugEnabled
          then funcToCodeRange_ g2 = [] /\
               MetadataTier.debugFuncToCodeRange (metadataTier_ g2) = funcToCodeRange_ g
          else funcToCodeRange_ g2 = funcToCodeRange_ g) as (Hcr & Hfe & Hmoved).
  { destruct debugEnabled.
    - apply modify_Ok in Hmove. subst g2. done.
    - apply ret_Ok in Hmove as [_ ->]. done. }
  split; [exact Hcr|]. split; [exact Hmoved|]. split.
  - rewrite Hfe.
    eapply list.Forall2_impl; [exact Hexp|]. cbv beta. intros fe fe' H.
    apply bind_Ok in H as (v & g5 & H0 & H). apply gets_Ok in H0 as [-> ->].
    apply bind_Ok in H as (i & g5 & H0 & H). apply at_Ok in H0 as [Hi ->].
    apply ret_Ok in H as [-> _]. cbn.
    split; [done|]. split; [done|]. split; [done|]. by apply Hres.
  - eapply list.Forall2_impl; [exact Hidx|]. cbv beta. intros elems idx H.
    apply mapM_Ok in H as [_ H].
    2:{ intros f g5 i g6 H'. by apply lookup_index_Ok in H' as [-> _]. }
    eapply list.Forall2_impl; [exact H|]. cbv beta. intros f i H'.
    apply lookup_index_Ok in H' as [_ H']. by apply Hres.
Qed.

(** ** The jump table *)

Lemma linkCallSites_loop_same_functions pending ex exT g g' :
  linkCallSites_loop pending ex exT g = Ok tt g' -> same_functions g g'.
Proof.
  revert ex exT g. induction pending as [|cs pending IH]; intros ex exT g H;
    cbn [linkCallSites_loop] in H.
  - injection H as <-. apply same_functions_refl.
  - apply bind_Ok in H as (i & g0 & H0 & H). apply gets_Ok in H0 as [-> ->].
    apply bind_Ok in H as (targets & g0 & H0 & H). apply gets_Ok in H0 as [-> ->].
    apply bind_Ok in H as (target & g0 & H0 & H). apply at_Ok in H0 as [_ ->].
    apply bind_Ok in H as (existing & g1 & Hstep & H).
    apply bind_Ok in H as ([] & g2 & H0 & H). apply modify_Ok in H0. subst g2.
    apply linkCallSite_same_functions in Hstep. apply IH in H.
    eapply same_functions_trans; [exact Hstep|].
    eapply same_functions_trans; [|exact H].
    split; [reflexivity|]. exists []. split; [by rewrite app_nil_r|constructor].
Qed.

Lemma linkCallSites_same_functions g g' :
  linkCallSites g = Ok tt g' -> same_functions g g'.
Proof.
  unfold linkCallSites. unfold_prims. intros H.
  apply bind_Ok in H as ([] & g1 & H0 & H). apply modify_Ok in H0. subst g1.
  apply bind_Ok in H as (i & g0 & H0 & H). apply gets_Ok in H0 as [-> ->].
  apply bind_Ok in H as (cs & g0 & H0 & H). apply gets_Ok in H0 as [-> ->].
  apply bind_Ok in H as ([] & g1 & Hloop & H).
  apply linkCallSites_loop_same_functions in Hloop.
  apply bind_Ok in H as (oom & g0 & H0 & H). apply gets_Ok in H0 as [-> ->].
  destruct (MacroAssembler.oom (masm_ g1)); [done|]. injection H as <-.
  eapply same_functions_trans; [|exact Hloop].
  split; [reflexivity|]. exists []. split; [by rewrite app_nil_r|constructor].
Qed.

Lemma same_functions_range_index g g' :
  same_functions g g' -> range_index_inv g -> range_index_inv g'.
Proof.
  intros (Hf & addR & Hcr & Hadd) Hinv k cr Hk Hkind. rewrite Hf.
  rewrite Hcr in Hk. apply lookup_app_Some in Hk as [Hk|[_ Hk]]; [by apply Hinv|].
  exfalso. apply list_elem_of_lookup_2 in Hk.
  pose proof (proj1 (list.Forall_forall _ _) Hadd cr Hk) as Hno.
  unfold CodeRange.isFunction in Hno. by rewrite Hkind in Hno.
Qed.

Lemma linkCompiledCode_range_index code g g' :
  range_index_inv g -> linkCompiledCode code g = Ok tt g' ->
  Z.of_nat (length (codeRanges_of g) + length (codeRanges code)) <= UINT32_MAX ->
  range_index_inv g'.
Proof.
  intros Hinv H Hlen.
  destruct (linkCompiledCode_index code g g' H Hlen) as (Hcr & _ & Hfound & Hkept & _).
  intros k cr Hk Hkind. rewrite Hcr in Hk.
  apply lookup_app_Some in Hk as [Hk|[Hge Hk]].
  - apply Hkept; [by apply Hinv|].
    apply lookup_lt_Some in Hk. unfold BAD_CODE_RANGE. lia.
  - rewrite list_lookup_fmap in Hk.
    destruct (codeRanges code !! (k - length (codeRanges_of g))%nat) as [cr0|] eqn:Hk0;
      [|done].
    injection Hk as <-. cbn in Hkind |- *.
    rewrite (Hfound _ cr0 Hk0 Hkind). f_equal. lia.
Qed.

Lemma runSteps_range_index steps g g' :
  range_index_inv g ->
  forEach steps runStep g = Ok tt g' ->
  Z.of_nat (length (codeRanges_of g')) <= UINT32_MAX ->
  range_index_inv g'.
Proof.
  revert g. induction steps as [|s steps IH]; intros g Hinv H Hlen; cbn [forEach] in H.
  - by injection H as <-.
  - apply bind_Ok in H as ([] & g1 & H1 & H).
    assert (exists add, codeRanges_of g' = codeRanges_of g1 ++ add) as [add Hadd].
    { destruct (runSteps_settled _ _ _ H) as [Hp _]. exact Hp. }
    apply (IH g1); [|done|done].
    destruct s as [code|]; cbn in H1.
    + apply (linkCompiledCode_range_index code g); [done|done|].
      pose proof (linkCompiledCode_codeRanges code g g1 H1) as Hcr.
      rewrite Hadd, Hcr, !length_app, length_map in Hlen. lia.
    + apply (same_functions_range_index g); [|done].
      by apply linkCallSites_same_functions.
Qed.

Lemma linkCompiledCode_numFuncs code :
  preserves (fun g => length (funcToCodeRange_ g)) (linkCompiledCode code).
Proof.
  unfold linkCompiledCode. unfold_prims.
  repeat first
    [ progress pres_with ltac:(reflexivity)
    | match goal with
      | |- preserves _ (noteCodeRange _ ?cr) =>
          unfold noteCodeRange, note; destruct (CodeRange.kind cr);
          pres_with ltac:(first [reflexivity | cbn; apply length_insert])
      end ].
Qed.

Lemma fillJumpTable_spec funcTierEntry codeBase ranges table g :
  (forall (k : nat) cr, ranges !! k = Some cr -> CodeRange.isFunction cr = true ->
     (Z.to_nat (CodeRange.funcIndex cr) < length table)%nat) ->
  (forall (k1 k2 : nat) cr1 cr2,
     ranges !! k1 = Some cr1 -> ranges !! k2 = Some cr2 ->
     CodeRange.isFunction cr1 = true -> CodeRange.isFunction cr2 = true ->
     Z.to_nat (CodeRange.funcIndex cr1) = Z.to_nat (CodeRange.funcIndex cr2) -> k1 = k2) ->
  exists table',
    fillJumpTable funcTierEntry codeBase ranges table g = Ok table' g /\
    length table' = length table /\
    (forall (k : nat) cr, ranges !! k = Some cr -> CodeRange.isFunction cr = true ->
       table' !! Z.to_nat (CodeRange.funcIndex cr) = Some (codeBase + funcTierEntry cr)) /\
    (forall f : nat,
       (forall (k : nat) cr, ranges !! k = Some cr -> CodeRange.isFunction cr = true ->
          Z.to_nat (CodeRange.funcIndex cr) <> f) ->
       table' !! f = table !! f).
Proof.
  revert table. induction ranges as [|cr ranges IH]; intros table Hin Huniq;
    cbn [fillJumpTable].
  - exists table. split; [done|]. split; [done|]. split; [|done].
    intros k cr Hk. by rewrite lookup_nil in Hk.
  - destruct (CodeRange.isFunction cr) eqn:Hfun.
    + cbv zeta. pose proof (Hin 0%nat cr eq_refl Hfun) as Hlt.
      rewrite bool_decide_true by done.
      set (table1 := <[Z.to_nat (CodeRange.funcIndex cr) := codeBase + funcTierEntry cr]> table).
      destruct (IH table1) as (table' & Hrun & Hlen & Hset & Hother).
      { intros k cr' Hk Hf'. unfold table1. rewrite length_insert.
        exact (Hin (S k) cr' Hk Hf'). }
      { intros k1 k2 cr1 cr2 H1 H2 F1 F2 E.
        pose proof (Huniq (S k1) (S k2) cr1 cr2 H1 H2 F1 F2 E). lia. }
      exists table'. split; [exact Hrun|]. split; [by rewrite Hlen; apply length_insert|].
      split.
      * intros [|k] cr' Hk Hf'.
        -- injection Hk as <-. rewrite Hother.
           ++ unfold table1. by apply list_lookup_insert_eq.
           ++ intros k cr2 Hk2 Hf2 E.
              pose proof (Huniq (S k) 0%nat cr2 cr Hk2 eq_refl Hf2 Hfun E). lia.
        -- by apply (Hset k).
      * intros f Hf. rewrite Hother.
        -- unfold table1. apply list_lookup_insert_ne. exact (Hf 0%nat cr eq_refl Hfun).
        -- intros k cr' Hk. exact (Hf (S k) cr' Hk).
    + destruct (IH table) as (table' & Hrun & Hlen & Hset & Hother).
      { intros k cr' Hk. exact (Hin (S k) cr' Hk). }
      { intros k1 k2 cr1 cr2 H1 H2 F1 F2 E.
        pose proof (Huniq (S k1) (S k2) cr1 cr2 H1 H2 F1 F2 E). lia. }
      exists table'. split; [exact Hrun|]. split; [exact Hlen|]. split.
      * intros [|k] cr' Hk Hf'; [|by apply (Hset k)].
        injection Hk as <-. by rewrite Hfun in Hf'.
      * intros f Hf. apply Hother. intros k cr' Hk. exact (Hf (S k) cr' Hk).
Qed.

(** X9.  After a run of the linker for a wasm module, from a fresh
    generator with one entry of [funcToCodeRange_] for every function of
    the module, [createJumpTable] in the mode [Tier1] returns null exactly
    when the allocation of the table fails; otherwise it stores nothing
    past the end of the table and returns a table with one entry for every
    function: the code base plus the tier entry of the code range that
    [funcCodeRange] gives for that function. *)
Theorem createJumpTable_entries AsmJSFirstDefFuncIndex steps g0 g numFuncs funcTierEntry
    codeBase :
  no_function_compiled g0 -> codeRanges_of g0 = [] ->
  length (funcToCodeRange_ g0) = numFuncs ->
  runLinker false AsmJSFirstDefFuncIndex steps g0 = Ok tt g ->
  Z.of_nat (length (codeRanges_of g)) <= UINT32_MAX ->
  createJumpTable numFuncs funcTierEntry Tier1 false false codeBase g = Fail g /\
  exists jumpTable,
    createJumpTable numFuncs funcTierEntry Tier1 false true codeBase g = Ok jumpTable g /\
    length jumpTable = numFuncs /\
    forall f : nat, (f < numFuncs)%nat ->
      exists cr,
        funcCodeRange (Z.of_nat f) g = Ok cr g /\
        jumpTable !! f = Some (codeBase + funcTierEntry cr).
Proof.
  intros Hnone Hnil Hnum Hrun Hlen. split; [reflexivity|].
  unfold runLinker in Hrun. apply bind_Ok in Hrun as ([] & g1 & Hlink & Hfl).
  pose proof (finishLinking_spec _ _ g1 g Hfl) as (g2 & Hpass & Hv & _).
  pose proof Hv as [= V1 V2 _ _ _ _].
  pose proof (linkCallSites_same_functions g1 g2 Hpass) as Hsame.
  destruct (grows_Ok _ _ _ _ linkCallSites_grows Hpass) as ([add Hadd] & _).
  assert (Z.of_nat (length (codeRanges_of g1)) <= UINT32_MAX) as Hlen1.
  { rewrite V2, Hadd, length_app in Hlen. lia. }
  assert (range_index_inv g) as Hrange.
  { intros k cr. rewrite V1, V2.
    apply (same_functions_range_index g1 g2 Hsame).
    apply (runSteps_range_index steps g0); [|done|done].
    intros k' cr' Hk'. by rewrite Hnil, lookup_nil in Hk'. }
  assert (func_index_inv g) as Hindex.
  { apply (func_index_inv_view g2); [done|done|].
    apply (linkCallSites_func_index g1); [|done].
    apply (runSteps_func_index steps g0); [by apply no_function_compiled_index|done|done]. }
  assert (length (funcToCodeRange_ g) = numFuncs) as Hnum'.
  { rewrite V1, (proj1 Hsame), <- Hnum.
    clear -Hlink. revert g0 Hlink.
    induction steps as [|s steps IH]; intros g0 H; cbn [forEach] in H.
    - by injection H as <-.
    - apply bind_Ok in H as ([] & g' & H1 & H). rewrite (IH _ H).
      destruct s as [code|]; cbn in H1.
      + exact (preserves_Ok _ _ _ _ _ (linkCompiledCode_numFuncs code) H1).
      + by rewrite (proj1 (linkCallSites_same_functions _ _ H1)). }
  assert (Forall (fun i => i <> BAD_CODE_RANGE) (funcToCodeRange_ g)) as Hall.
  { rewrite V1, (proj1 Hsame). exact (finishLinking_wasm_compiled _ g1 g Hfl). }
  destruct (fillJumpTable_spec funcTierEntry codeBase (codeRanges_of g)
              (replicate numFuncs 0) g)
    as (jumpTable & Hfill & Hl & Hset & _).
  { intros k cr Hk Hfun. rewrite length_replicate, <- Hnum'.
    apply (lookup_lt_Some _ _ (Z.of_nat k)). apply (Hrange k cr Hk).
    unfold CodeRange.isFunction in Hfun. by destruct (CodeRange.kind cr). }
  { intros k1 k2 cr1 cr2 H1 H2 F1 F2 E.
    assert (CodeRange.kind cr1 = CodeRange.Function) as K1
      by (unfold CodeRange.isFunction in F1; by destruct (CodeRange.kind cr1)).
    assert (CodeRange.kind cr2 = CodeRange.Function) as K2
      by (unfold CodeRange.isFunction in F2; by destruct (CodeRange.kind cr2)).
    pose proof (Hrange k1 cr1 H1 K1) as R1. pose proof (Hrange k2 cr2 H2 K2) as R2.
    rewrite E in R1. rewrite R1 in R2. injection R2 as R2. lia. }
  exists jumpTable. split; [exact Hfill|]. split; [by rewrite Hl, length_replicate|].
  intros f Hf.
  destruct (lookup_lt_is_Some_2 (funcToCodeRange_ g) f) as [i Hi]; [by rewrite Hnum'|].
  assert (i <> BAD_CODE_RANGE) as Hne.
  { exact (proj1 (list.Forall_forall _ _) Hall i (list_elem_of_lookup_2 _ _ _ Hi)). }
  destruct (Hindex f i Hi Hne) as (cr & Hcr & Hkind & Hfi).
  assert (CodeRange.isFunction cr = true) as Hfun
    by (unfold CodeRange.isFunction; by rewrite Hkind).
  exists cr. split.
  - apply (funcCodeRange_found (Z.of_nat f) g i cr); try done. by rewrite Nat2Z.id.
  - rewrite <- Hfi. by apply (Hset (Z.to_nat i)).
Qed.

(** ** The end of the function bodies *)

Lemma finishTask_outstanding task : preserves outstanding_ (finishTask task).
Proof.
  unfold finishTask. unfold_prims.
  apply preserves_bind; [apply preserves_modify; done|intros ?].
  apply preserves_bind; [apply preserves_gets|intros ?].
  apply preserves_bind; [apply preserves_at|intros ?].
  apply preserves_bind; [apply preserves_gets|intros ?].
  apply preserves_bind; [apply preserves_gets|intros ?].
  apply preserves_bind.
  { destruct (negb _); [|apply preserves_ret].
    apply preserves_bind; [apply preserves_modify; done|intros ?].
    apply linkCallSites_preserves; done. }
  intros ?. apply preserves_bind.
  { unfold linkCompiledCode. unfold_prims.
    repeat first
      [ apply noteCodeRange_preserves; intros ? ?; reflexivity
      | progress pres_with ltac:(reflexivity) ]. }
  intros ?. pres_with ltac:(reflexivity).
Qed.

Lemma finishOutstandingTask_outstanding g g' :
  outstanding_ g <= UINT32_MAX + 1 ->
  finishOutstandingTask g = Ok tt g' ->
  0 < outstanding_ g /\ outstanding_ g' = outstanding_ g - 1.
Proof.
  unfold finishOutstandingTask. intros Hmax H.
  apply bind_Ok in H as (par & g0 & H1 & H). apply gets_Ok in H1 as [-> ->].
  apply bind_Ok in H as ([] & g0 & H1 & H). apply MOZ_ASSERT_Ok in H1 as [_ ->].
  apply bind_Ok in H as (out & g0 & H1 & H). apply gets_Ok in H1 as [-> ->].
  apply bind_Ok in H as ([] & g0 & H1 & H). apply MOZ_ASSERT_Ok in H1 as [Hpos ->].
  apply Z.ltb_lt in Hpos.
  apply bind_Ok in H as (ts & g0 & H1 & H). apply gets_Ok in H1 as [-> ->].
  destruct (0 <? numFailed _); [done|].
  destruct (popCopy _) as [[task rest]|]; [|done].
  apply bind_Ok in H as ([] & g1 & H1 & H). apply modify_Ok in H1. subst g1.
  apply bind_Ok in H as ([] & g1 & H1 & H). apply modify_Ok in H1. subst g1.
  apply (preserves_Ok outstanding_ _ _ _ _ (finishTask_outstanding task)) in H.
  cbn in H. split; [done|]. rewrite H. apply wrap32_small.
  unfold is_u32, UINT32_MAX in *. lia.
Qed.

Lemma finishOutstandingTasks_ends fuel g :
  outstanding_ g <= UINT32_MAX + 1 ->
  (Z.to_nat (outstanding_ g) <= fuel)%nat ->
  exists r, finishOutstandingTasks fuel g = Some r /\
            forall g', r = Ok tt g' -> outstanding_ g' <= 0.
Proof.
  revert g. induction fuel as [|fuel IH]; intros g Hmax Hfuel; cbn [finishOutstandingTasks].
  - destruct (Z.ltb_spec 0 (outstanding_ g)); [lia|].
    eexists. split; [reflexivity|]. by intros g' [= <-].
  - destruct (Z.ltb_spec 0 (outstanding_ g)) as [Hpos|Hle].
    + destruct (finishOutstandingTask g) as [[] g1|g1|g1|f] eqn:Hstep.
      * apply finishOutstandingTask_outstanding in Hstep as [_ Hout]; [|done].
        apply IH; rewrite Hout; lia.
      * eexists. split; [reflexivity|]. by intros g'.
      * eexists. split; [reflexivity|]. by intros g'.
      * eexists. split; [reflexivity|]. by intros g'.
    + eexists. split; [reflexivity|]. by intros g' [= <-].
Qed.

Lemma finishOutstandingTasks_frees fuel g g' :
  0 <= outstanding_ g <= UINT32_MAX + 1 ->
  finishOutstandingTasks fuel g = Some (Ok tt g') ->
  outstanding_ g' = 0 /\ currentTask_ g' = currentTask_ g /\
  batchedBytecode_ g' = batchedBytecode_ g /\
  Z.of_nat (length (freeTasks_ g')) = Z.of_nat (length (freeTasks_ g)) + outstanding_ g.
Proof.
  revert g. induction fuel as [|fuel IH]; intros g Hmax H; cbn [finishOutstandingTasks] in H.
  - destruct (Z.ltb_spec 0 (outstanding_ g)); [done|]. injection H as <-.
    split; [lia|]. split; [done|]. split; [done|lia].
  - destruct (Z.ltb_spec 0 (outstanding_ g)) as [Hpos|Hle];
      [|injection H as <-; split; [lia|]; split; [done|]; split; [done|lia]].
    destruct (finishOutstandingTask g) as [[] g1|g1|g1|f] eqn:Hstep; try done.
    pose proof (finishOutstandingTask_outstanding g g1 ltac:(lia) Hstep) as [_ Hout].
    apply finishOutstandingTask_batch in Hstep
      as (task & t & _ & _ & _ & Hfree & Hcur & Hb & _).
    apply IH in H as (H0 & Hc & Hb' & Hf); [|lia].
    split; [done|]. split; [congruence|]. split; [congruence|].
    rewrite Hf, Hfree, length_app, Hout. cbn. lia.
Qed.

Lemma launchBatchCompile_frees g g' :
  0 <= outstanding_ g < UINT32_MAX ->
  launchBatchCompile g = Ok tt g' ->
  currentTask_ g <> None /\ currentTask_ g' = None /\
  0 <= outstanding_ g' <= UINT32_MAX /\
  (length (freeTasks_ g) <= length (freeTasks_ g'))%nat /\
  Z.of_nat (length (freeTasks_ g')) + outstanding_ g' =
  Z.of_nat (length (freeTasks_ g)) + outstanding_ g + 1.
Proof.
  intros Hout H. pose proof (launchBatchCompile_batch g g' H) as (_ & Hnone & _).
  unfold launchBatchCompile in H.
  apply bind_Ok in H as ([] & g1 & H1 & H). apply modify_Ok in H1. subst g1.
  apply bind_Ok in H as (cur & g0 & H1 & H). apply gets_Ok in H1 as [-> ->].
  cbn [currentTask_ set_launched_] in H.
  destruct (currentTask_ g) as [task|] eqn:Hcur; [|done].
  split; [done|]. split; [done|].
  apply bind_Ok in H as (c & g0 & H1 & H). apply gets_Ok in H1 as [-> ->].
  destruct (cancelled_ _); [done|].
  apply bind_Ok in H as (par & g0 & H1 & H). apply gets_Ok in H1 as [-> ->].
  apply bind_Ok in H as ([] & g1 & H1 & H).
  apply bind_Ok in H as ([] & g2 & H2 & H). apply modify_Ok in H2. subst g2.
  apply modify_Ok in H. subst g'. cbn.
  destruct (parallel_ _).
  - destruct (StartOffThreadWasmCompile task); [|done].
    apply modify_Ok in H1. subst g1. cbn.
    rewrite wrap32_small by (unfold is_u32, UINT32_MAX in *; lia). lia.
  - apply bind_Ok in H1 as (tasks & g0 & H2 & H1). apply gets_Ok in H2 as [-> ->].
    apply bind_Ok in H1 as (t & g0 & H2 & H1). apply at_Ok in H2 as [_ ->].
    destruct (ExecuteCompileTask t) as [t'|e|f]; [| |done].
    2:{ apply bind_Ok in H1 as ([] & g2 & H2 & H1). done. }
    apply bind_Ok in H1 as ([] & g2 & H2 & H1). apply modify_Ok in H2. subst g2.
    pose proof (preserves_Ok outstanding_ _ _ _ _ (finishTask_outstanding task) H1) as Ho.
    apply finishTask_batch in H1 as (t0 & _ & _ & _ & Hfree & _).
    cbn in Ho, Hfree. rewrite Ho, Hfree, length_app. cbn. lia.
Qed.

(** ** Every function body is compiled *)

Lemma funcIsCompiled_true f g :
  funcIsCompiled f g = Ok true g <->
  exists i, funcToCodeRange_ g !! Z.to_nat f = Some i /\ i <> BAD_CODE_RANGE.
Proof.
  split.
  - intros H. apply funcIsCompiled_Ok in H as (_ & i & Hi & Hb). exists i. split; [done|].
    intros ->. by rewrite Z.eqb_refl in Hb.
  - intros (i & Hi & Hne). unfold funcIsCompiled, bind, gets, at_. rewrite Hi. cbn.
    by destruct (Z.eqb_spec i BAD_CODE_RANGE).
Qed.

Lemma funcIsCompiled_settled f g g' :
  settled g g' -> funcIsCompiled f g = Ok true g -> funcIsCompiled f g' = Ok true g'.
Proof.
  intros [_ Hkept] H. apply funcIsCompiled_true in H as (i & Hi & Hne).
  apply funcIsCompiled_true. exists i. split; [|done]. by apply Hkept.
Qed.

Lemma settled_view g g' :
  funcToCodeRange_ g' = funcToCodeRange_ g -> codeRanges_of g' = codeRanges_of g ->
  settled g g'.
Proof.
  intros Hf Hc. split; [exists []; by rewrite app_nil_r|]. intros f i. by rewrite Hf.
Qed.

(** [finishTask] is a pass over the call sites, when one is due, and the
    link of the output of the task. *)
Lemma finishTask_links task g g' :
  finishTask task g = Ok tt g' ->
  exists t ga gb,
    tasks_ g !! task = Some t /\
    settled g ga /\
    linkCompiledCode (output t) ga = Ok tt gb /\
    funcToCodeRange_ g' = funcToCodeRange_ gb /\
    codeRanges_of g' = codeRanges_of gb.
Proof.
  unfold finishTask. unfold_prims. intros H.
  apply bind_Ok in H as ([] & g1 & H1 & H). apply modify_Ok in H1.
  assert (settled g g1) as S1 by (subst g1; by apply settled_view).
  assert (tasks_ g1 = tasks_ g) as T1 by (by subst g1). clear H1.
  apply bind_Ok in H as (tasks & g0 & H1 & H). apply gets_Ok in H1 as [-> ->].
  apply bind_Ok in H as (t & g0 & H1 & H). apply at_Ok in H1 as [Ht ->].
  rewrite Nat2Z.id, T1 in Ht.
  apply bind_Ok in H as (start & g0 & H1 & H). apply gets_Ok in H1 as [-> ->].
  apply bind_Ok in H as (sz & g0 & H1 & H). apply gets_Ok in H1 as [-> ->].
  apply bind_Ok in H as ([] & g2 & H1 & H).
  assert (settled g1 g2) as S2.
  { destruct (negb _).
    - apply bind_Ok in H1 as ([] & g3 & H1 & H2). apply modify_Ok in H1. subst g3.
      apply linkCallSites_settled in H2.
      eapply settled_trans; [|exact H2]. by apply settled_view.
    - injection H1 as <-. apply settled_refl. }
  clear H1.
  apply bind_Ok in H as ([] & g3 & Hlink & H).
  apply bind_Ok in H as ([] & g4 & H1 & H). apply modify_Ok in H1. subst g4.
  apply bind_Ok in H as ([] & g4 & H1 & H). apply MOZ_ASSERT_Ok in H1 as [_ ->].
  apply modify_Ok in H. subst g'.
  exists t, g2, g3. split; [done|]. split; [by apply (settled_trans g g1 g2)|].
  split; [done|]. split; reflexivity.
Qed.

Lemma finishTask_settled task g g' : finishTask task g = Ok tt g' -> settled g g'.
Proof.
  intros H. apply finishTask_links in H as (t & ga & gb & _ & S1 & Hl & Hf & Hc).
  apply linkCompiledCode_settled in Hl.
  eapply settled_trans; [exact S1|]. eapply settled_trans; [exact Hl|].
  by apply settled_view.
Qed.

Lemma ExecuteCompileTask_done t t' :
  ExecuteCompileTask t = TaskDone t' ->
  exists out, compileFunctions (inputs t) = inl out /\ t' = {| inputs := []; output := out |}.
Proof.
  unfold ExecuteCompileTask, compileFunctions.
  destruct (negb _); [done|].
  destruct (match tier with Ion => IonCompileFunctions (inputs t)
                          | Baseline => BaselineCompileFunctions (inputs t) end)
    as [out|e] eqn:Hc; [|done].
  destruct (_ =? _)%nat; [|done]. intros [= <-]. exists out. split; [|done].
  by destruct tier.
Qed.

Lemma launchBatchCompile_compiles task g g' :
  compiles_every_input -> parallel_ g = false -> currentTask_ g = Some task ->
  launchBatchCompile g = Ok tt g' ->
  settled g g' /\
  (Z.of_nat (length (codeRanges_of g')) <= UINT32_MAX ->
   Forall (fun d => funcIsCompiled (fi_index d) g' = Ok true g') (currentInputs g)).
Proof.
  intros Hcompiler Hpar Hcur H. unfold launchBatchCompile in H.
  apply bind_Ok in H as ([] & g1 & H1 & H). apply modify_Ok in H1. subst g1.
  apply bind_Ok in H as (cur & g0 & H1 & H). apply gets_Ok in H1 as [-> ->].
  cbn [currentTask_ set_launched_] in H. rewrite Hcur in H.
  apply bind_Ok in H as (c & g0 & H1 & H). apply gets_Ok in H1 as [-> ->].
  destruct (cancelled_ _); [done|].
  apply bind_Ok in H as (par & g0 & H1 & H). apply gets_Ok in H1 as [-> ->].
  cbn [parallel_ set_launched_] in H. rewrite Hpar in H.
  apply bind_Ok in H as ([] & g1 & H1 & H).
  apply bind_Ok in H as ([] & g2 & H2 & H). apply modify_Ok in H2. subst g2.
  apply modify_Ok in H. subst g'.
  apply bind_Ok in H1 as (tasks & g0 & H2 & H1). apply gets_Ok in H2 as [-> ->].
  apply bind_Ok in H1 as (t & g0 & H2 & H1). apply at_Ok in H2 as [Ht ->].
  rewrite Nat2Z.id in Ht. cbn in Ht.
  assert (currentInputs g = inputs t) as Hinputs.
  { unfold currentInputs, CompileTaskPtr in *. by rewrite Hcur, Ht. }
  destruct (ExecuteCompileTask t) as [t'|e|f] eqn:Hexec; [| |done].
  2:{ apply bind_Ok in H1 as ([] & g2 & H2 & H1). done. }
  apply ExecuteCompileTask_done in Hexec as (out & Hout & ->).
  apply bind_Ok in H1 as ([] & g2 & H2 & H1). apply modify_Ok in H2. subst g2.
  apply finishTask_links in H1 as (t0 & ga & gb & Ht0 & S1 & Hlink & Hf & Hc).
  cbn in Ht0. rewrite list_lookup_insert_eq in Ht0 by (by apply lookup_lt_Some in Ht).
  injection Ht0 as <-. cbn [output] in Hlink.
  assert (settled g gb) as S2.
  { eapply settled_trans; [|by apply (linkCompiledCode_settled out ga)].
    eapply settled_trans; [|exact S1]. by apply settled_view. }
  split.
  - eapply settled_trans; [exact S2|]. by apply settled_view.
  - intros Hlen.
    change (codeRanges_of (set_batchedBytecode_ 0 (set_currentTask_ None g1)))
      with (codeRanges_of g1) in Hlen.
    rewrite Hc in Hlen.
    pose proof (linkCompiledCode_codeRanges _ _ _ Hlink) as Hcr.
    assert (Z.of_nat (length (codeRanges_of ga) + length (codeRanges out)) <= UINT32_MAX)
      as Hlen'.
    { rewrite Hcr, length_app, length_map in Hlen. lia. }
    destruct (linkCompiledCode_index _ _ _ Hlink Hlen') as (_ & _ & Hfound & _).
    rewrite Hinputs.
    pose proof (Hcompiler _ _ Hout) as Hall.
    apply list.Forall_forall. intros d Hd.
    apply list_elem_of_lookup_1 in Hd as [k Hk].
    destruct (Forall2_lookup_l _ _ _ _ _ Hall Hk) as (cr & Hcrk & Hkind & Hfi).
    apply funcIsCompiled_true. exists (Z.of_nat (length (codeRanges_of ga) + k)).
    cbn. rewrite Hf, <- Hfi. split; [by apply (Hfound k cr)|].
    apply lookup_lt_Some in Hcrk. unfold BAD_CODE_RANGE. lia.
Qed.

Lemma compileFuncDef_sequential funcIndex lineOrBytecode begin end_ g g' :
  batch_ok g ->
  compileFuncDef funcIndex lineOrBytecode begin end_ g = Ok tt g' ->
  exists gl task,
    batch_ok gl /\ currentTask_ gl = Some task /\
    currentInputs gl =
      currentInputs g ++
      [{| fi_index := funcIndex; fi_lineOrBytecode := lineOrBytecode;
          fi_begin := begin; fi_end := end_ |}] /\
    funcToCodeRange_ gl = funcToCodeRange_ g /\ codeRanges_of gl = codeRanges_of g /\
    (g' = gl \/ launchBatchCompile gl = Ok tt g').
Proof.
  intros Hok H. unfold compileFuncDef in H.
  apply bind_Ok in H as ([] & g1 & H1 & H). apply modify_Ok in H1. subst g1.
  apply bind_Ok in H as (cur & g0 & H1 & H). apply gets_Ok in H1 as [-> ->].
  apply bind_Ok in H as ([] & g1 & Hcur & H).
  assert (batch_ok g1 /\ (exists task, currentTask_ g1 = Some task) /\
          currentInputs g1 = currentInputs g /\
          funcToCodeRange_ g1 = funcToCodeRange_ g /\ codeRanges_of g1 = codeRanges_of g)
    as (Hok1 & [task Ctask] & Hin1 & Hf1 & Hc1).
  { cbn [currentTask_ set_numFuncDefs_] in Hcur.
    destruct Hok as ((Hcount & Hfree) & Hnd & Hcur' & Hpar).
    destruct (currentTask_ g) as [task|] eqn:Hc.
    - injection Hcur as <-.
      split; [|split; [by exists task|split; [|done]]].
      + split; [split|split; [|split]]; cbn; try done.
        all: try (unfold currentInputs in *; cbn; by rewrite Hc in * ).
        all: intros task0 Htask0; apply Hcur'; congruence.
      + unfold currentInputs. cbn. by rewrite Hc.
    - apply bind_Ok in Hcur as (free & g0 & H1 & Hcur). apply gets_Ok in H1 as [-> ->].
      apply bind_Ok in Hcur as ([] & g2 & Hwait & Hcur).
      cbn [freeTasks_ set_numFuncDefs_] in Hwait.
      destruct (is_nil (freeTasks_ g)).
      { unfold finishOutstandingTask in Hwait.
        apply bind_Ok in Hwait as (par & g0 & H1 & Hwait). apply gets_Ok in H1 as [-> ->].
        cbn in Hwait. by rewrite Hpar in Hwait. }
      injection Hwait as <-.
      apply bind_Ok in Hcur as (free & g0 & H1 & Hcur). apply gets_Ok in H1 as [-> ->].
      cbn [freeTasks_ set_numFuncDefs_] in Hcur. unfold popCopy in Hcur.
      destruct (list.last (freeTasks_ g)) as [task|] eqn:Hlast; [|done].
      apply bind_Ok in Hcur as ([] & g3 & H1 & Hcur). apply modify_Ok in H1. subst g3.
      apply modify_Ok in Hcur. subst g1.
      apply last_Some in Hlast as [rest Hrest].
      rewrite Hrest, removelast_last in *.
      apply list.NoDup_app in Hnd as (Hnd & Hnot & _).
      assert (currentInputs
                (set_currentTask_ (Some task)
                   (set_freeTasks_ rest
                      (set_numFuncDefs_ (wrap32 (numFuncDefs_ g + 1)) g))) = []) as Hnil.
      { unfold currentInputs. cbn.
        destruct (tasks_ g !! task) as [t|] eqn:Ht; [|done].
        apply (Hfree task t); [|done].
        apply elem_of_app. right. by apply list_elem_of_singleton. }
      split; [|split; [by exists task|split; [|done]]].
      + split; [split|split; [|split]].
        * rewrite Hnil. cbn. unfold currentInputs in Hcount. by rewrite Hc in Hcount.
        * cbn. intros task' t' Hin. apply Hfree. apply elem_of_app. by left.
        * done.
        * cbn. intros task' [= <-] Hin. apply (Hnot task Hin).
          by apply list_elem_of_singleton.
        * done.
      + rewrite Hnil. unfold currentInputs. by rewrite Hc. }
  clear Hcur Hok.
  apply bind_Ok in H as (cur & g0 & H1 & H). apply gets_Ok in H1 as [-> ->].
  rewrite Ctask in H.
  apply bind_Ok in H as (tasks & g0 & H1 & H). apply gets_Ok in H1 as [-> ->].
  apply bind_Ok in H as (t & g0 & H1 & H). apply at_Ok in H1 as [Ht ->].
  rewrite Nat2Z.id in Ht. cbv zeta in H.
  apply bind_Ok in H as ([] & g2 & H1 & H). apply modify_Ok in H1. subst g2.
  apply bind_Ok in H as ([] & g2 & H1 & H). apply modify_Ok in H1. subst g2.
  apply bind_Ok in H as (batched & g0 & H1 & H). apply gets_Ok in H1 as [-> ->].
  apply bind_Ok in H as ([] & g0 & H1 & H). apply MOZ_ASSERT_Ok in H1 as [_ ->].
  pose proof (batch_ok_add task t
                {| fi_index := funcIndex; fi_lineOrBytecode := lineOrBytecode;
                   fi_begin := begin; fi_end := end_ |} g1 Hok1 Ctask Ht) as Hok2.
  cbn [fi_begin fi_end] in Hok2.
  eexists _, task. split; [exact Hok2|]. split; [exact Ctask|].
  split; [|split; [exact Hf1|split; [exact Hc1|]]].
  - rewrite <- Hin1. unfold currentInputs, CompileTaskPtr in *. cbn.
    rewrite Ctask, Ht. rewrite list_lookup_insert_eq by (by apply lookup_lt_Some in Ht).
    reflexivity.
  - destruct (_ <=? _); [left; by injection H as <-|right; exact H].
Qed.

Lemma forEach_settled {A} (l : list A) (body : A -> M unit) g g' :
  (forall x g g', body x g = Ok tt g' -> settled g g') ->
  forEach l body g = Ok tt g' -> settled g g'.
Proof.
  intros Hbody. revert g. induction l as [|x l IH]; intros g H; cbn [forEach] in H.
  - injection H as <-. apply settled_refl.
  - apply bind_Ok in H as ([] & g1 & H1 & H).
    eapply settled_trans; [by apply (Hbody x)|by apply IH].
Qed.

Lemma compileFuncDef_step d done g g' :
  compiles_every_input -> batch_ok g -> compiled_or_batched done g ->
  compileFuncDef (fi_index d) (fi_lineOrBytecode d) (fi_begin d) (fi_end d) g = Ok tt g' ->
  batch_ok g' /\ settled g g' /\
  (Z.of_nat (length (codeRanges_of g')) <= UINT32_MAX ->
   compiled_or_batched (done ++ [d]) g').
Proof.
  intros Hcompiler Hok Hdone H.
  pose proof (compileFuncDef_batch_ok _ _ _ _ _ _ Hok H) as Hok'.
  apply compileFuncDef_sequential in H
    as (gl & task & Hokl & Hcur & Hin & Hf & Hc & Hend); [|done].
  assert ({| fi_index := fi_index d; fi_lineOrBytecode := fi_lineOrBytecode d;
             fi_begin := fi_begin d; fi_end := fi_end d |} = d) as Hd by (by destruct d).
  rewrite Hd in Hin.
  pose proof (settled_view g gl Hf Hc) as Sl.
  assert (compiled_or_batched (done ++ [d]) gl) as Hl.
  { apply list.Forall_app. split.
    - eapply list.Forall_impl; [exact Hdone|]. cbn. intros x [Hx|Hx].
      + left. by apply (funcIsCompiled_settled _ g).
      + right. rewrite Hin. apply elem_of_app. by left.
    - apply list.Forall_singleton. right. rewrite Hin. apply elem_of_app. right.
      by apply list_elem_of_singleton. }
  split; [done|]. destruct Hend as [->|Hlaunch].
  - split; [done|]. by intros _.
  - destruct Hokl as (_ & _ & _ & Hpar).
    destruct (launchBatchCompile_compiles task gl g' Hcompiler Hpar Hcur Hlaunch)
      as [S2 Hall].
    split; [by apply (settled_trans g gl g')|]. intros Hlen. specialize (Hall Hlen).
    eapply list.Forall_impl; [exact Hl|]. cbn. intros x [Hx|Hx].
    + left. by apply (funcIsCompiled_settled _ gl).
    + left. exact (proj1 (list.Forall_forall _ _) Hall x Hx).
Qed.

Lemma compileFuncDefs_settled defs g g' :
  compiles_every_input -> batch_ok g ->
  compileFuncDefs defs g = Ok tt g' -> batch_ok g' /\ settled g g'.
Proof.
  intros Hcompiler. unfold compileFuncDefs.
  revert g. induction defs as [|d defs IH]; intros g Hok H; cbn [forEach] in H.
  - injection H as <-. split; [done|apply settled_refl].
  - apply bind_Ok in H as ([] & g1 & H1 & H).
    destruct (compileFuncDef_step d [] g g1 Hcompiler Hok ltac:(constructor) H1)
      as (Hok1 & S1 & _).
    destruct (IH g1 Hok1 H) as [Hok' S2].
    split; [done|]. by apply (settled_trans g g1 g').
Qed.

Lemma compileFuncDefs_compiled defs done g g' :
  compiles_every_input -> batch_ok g -> compiled_or_batched done g ->
  compileFuncDefs defs g = Ok tt g' ->
  Z.of_nat (length (codeRanges_of g')) <= UINT32_MAX ->
  compiled_or_batched (done ++ defs) g'.
Proof.
  intros Hcompiler. revert done g.
  induction defs as [|d defs IH]; intros done g Hok Hdone H Hlen.
  - injection H as <-. by rewrite app_nil_r.
  - unfold compileFuncDefs in H. cbn [forEach] in H.
    apply bind_Ok in H as ([] & g1 & H1 & H).
    destruct (compileFuncDef_step d done g g1 Hcompiler Hok Hdone H1) as (Hok1 & S1 & Hd1).
    destruct (compileFuncDefs_settled defs g1 g' Hcompiler Hok1 H) as [_ [[add Hadd] _]].
    assert (Z.of_nat (length (codeRanges_of g1)) <= UINT32_MAX) as Hlen1.
    { rewrite Hadd, length_app in Hlen. lia. }
    rewrite (cons_middle d done defs), app_assoc.
    apply (IH (done ++ [d]) g1); try done. by apply Hd1.
Qed.

(** X11.  Without helper threads, when the compiler gives a [Function] code
    range for every input, every function body handed to [compileFuncDef]
    is compiled once [finishFuncDefs] has returned true: [funcIsCompiled]
    holds of its function index, whatever the batches were. *)
Theorem every_function_def_is_compiled isAsmJS env_numFuncDefs defs fuel g0 g1 g2 :
  compiles_every_input -> batch_ok g0 ->
  compileFuncDefs defs g0 = Ok tt g1 ->
  finishFuncDefs isAsmJS env_numFuncDefs fuel g1 = Some (inr (Ok tt g2)) ->
  Z.of_nat (length (codeRanges_of g2)) <= UINT32_MAX ->
  Forall (fun d => funcIsCompiled (fi_index d) g2 = Ok true g2) defs.
Proof.
  intros Hcompiler Hok0 Hdefs Hfin Hlen.
  destruct (compileFuncDefs_settled defs g0 g1 Hcompiler Hok0 Hdefs) as [Hok1 _].
  unfold finishFuncDefs in Hfin.
  destruct ((let* current := gets currentTask_ in
             match current with Some _ => launchBatchCompile | None => ret tt end) g1)
    as [[] ga|ga|ga|f] eqn:Hlaunch; try done.
  destruct (finishOutstandingTasks fuel ga) as [[[] gb|gb|gb|f]|] eqn:Hloop; try done.
  assert (gb = g2) as ->.
  { destruct (negb isAsmJS && _); [done|]. by injection Hfin. }
  clear Hfin.
  apply bind_Ok in Hlaunch as (cur & g & H0 & Hlaunch). apply gets_Ok in H0 as [-> ->].
  (* without helper threads the loop takes no turn *)
  assert (parallel_ ga = false /\ settled g1 ga /\
          (Z.of_nat (length (codeRanges_of ga)) <= UINT32_MAX ->
           Forall (fun d => funcIsCompiled (fi_index d) ga = Ok true ga) (currentInputs g1)))
    as (Hpar & S1 & Hall).
  { destruct Hok1 as (_ & _ & _ & Hpar).
    destruct (currentTask_ g1) as [task|] eqn:Hcur.
    - destruct (launchBatchCompile_sequential task g1 ga Hcur Hpar Hlaunch)
        as (_ & _ & _ & _ & _ & _ & _ & Hpar').
      split; [done|]. by apply (launchBatchCompile_compiles task).
    - apply ret_Ok in Hlaunch as [_ ->]. split; [done|]. split; [apply settled_refl|].
      intros _. unfold currentInputs. rewrite Hcur. constructor. }
  assert (g2 = ga) as ->.
  { destruct fuel as [|fuel]; cbn [finishOutstandingTasks] in Hloop.
    - destruct (0 <? outstanding_ ga); [done|]. by injection Hloop.
    - destruct (0 <? outstanding_ ga); [|by injection Hloop].
      unfold finishOutstandingTask, bind, gets in Hloop. rewrite Hpar in Hloop. done. }
  assert (Z.of_nat (length (codeRanges_of g1)) <= UINT32_MAX) as Hlen1.
  { destruct S1 as [[add Hadd] _]. rewrite Hadd, length_app in Hlen. lia. }
  pose proof (compileFuncDefs_compiled defs [] g0 g1 Hcompiler Hok0 ltac:(constructor)
                Hdefs Hlen1) as Hdone.
  cbn in Hdone. eapply list.Forall_impl; [exact Hdone|]. cbn. intros d [Hd|Hd].
  - by apply (funcIsCompiled_settled _ g1).
  - exact (proj1 (list.Forall_forall _ _) (Hall Hlen) d Hd).
Qed.

(** ** The slots of the globals *)

Lemma allocateGlobalBytes_true bytes align metadata_ out metadata' offset :
  is_u32 (globalDataLength metadata_) -> 0 < align -> 0 <= bytes ->
  allocateGlobalBytes bytes align metadata_ out = (true, metadata', offset) ->
  globalDataLength metadata_ <= offset /\ offset mod align = 0 /\
  globalDataLength metadata' = offset + bytes /\ offset + bytes <= UINT32_MAX.
Proof.
  intros Hold Ha Hb. unfold allocateGlobalBytes, CheckedInt_add, CheckedInt_of.
  cbn [value isValid].
  pose proof (ComputeByteAlignment_rounds_up (globalDataLength metadata_) align Ha) as Hru.
  pose proof (ComputeByteAlignment_range (globalDataLength metadata_) align Ha) as Hpad.
  rewrite Hru. cbn [andb].
  destruct (Z.leb_spec (rounded_up (globalDataLength metadata_) align) UINT32_MAX)
    as [Hfit|Hover]; cbn [negb]; [|done].
  rewrite wrap32_small by (unfold is_u32 in *; lia). cbn [andb].
  destruct (Z.leb_spec (rounded_up (globalDataLength metadata_) align + bytes) UINT32_MAX)
    as [Hfit2|Hover2]; cbn [negb]; [|done].
  intros [= <- <-]. cbn [globalDataLength].
  rewrite wrap32_small by (unfold is_u32 in *; lia).
  split; [lia|]. split; [|done]. unfold rounded_up. apply Z_mod_mult.
Qed.

Lemma allocateGlobalBytes_false bytes align metadata_ out metadata' offset :
  allocateGlobalBytes bytes align metadata_ out = (false, metadata', offset) ->
  metadata' = metadata_.
Proof.
  unfold allocateGlobalBytes. destruct (negb _); [by intros [= <- _]|].
  destruct (negb _); [by intros [= <- _]|done].
Qed.

Lemma globalWidth_pos type : 0 < globalWidth type.
Proof. by destruct type. Qed.

Lemma allocateGlobal_true global metadata_ metadata' global' :
  is_u32 (globalDataLength metadata_) ->
  allocateGlobal global metadata_ = (true, metadata', global') ->
  let width := globalWidth (GlobalDesc.type global) in
  global' = GlobalDesc.setOffset (GlobalDesc.offset global') global /\
  globalDataLength metadata_ <= GlobalDesc.offset global' /\
  GlobalDesc.offset global' mod width = 0 /\
  globalDataLength metadata' = GlobalDesc.offset global' + width /\
  GlobalDesc.offset global' + width <= UINT32_MAX.
Proof.
  intros Hold. unfold allocateGlobal. cbv zeta.
  pose proof (globalWidth_pos (GlobalDesc.type global)) as Hw.
  destruct (allocateGlobalBytes _ _ metadata_ 0) as [[[] md] off] eqn:Halloc; [|done].
  intros [= <- <-]. cbn.
  apply allocateGlobalBytes_true in Halloc; [|done|done|lia]. done.
Qed.

(** X12.  When the loop of [initWasm] over the globals succeeds, every
    global that is not a constant has a slot of the width of its type (4
    for I32 and F32, 8 for I64 and F64, 16 for the SIMD types) at a
    multiple of that width; the slots lie one after the other in the order
    of the globals, without overlap, between the old and the new
    [globalDataLength]; the constants are left as they are. *)
Theorem globals_get_disjoint_slots globals metadata_ metadata' globals' :
  is_u32 (globalDataLength metadata_) ->
  allocateGlobals globals metadata_ = (true, metadata', globals') ->
  Forall2 (fun global global' =>
             if GlobalDesc.isConstant global then global' = global
             else global' = GlobalDesc.setOffset (GlobalDesc.offset global') global)
          globals globals' /\
  slots_in_order (globalDataLength metadata_) (globalDataLength metadata')
    (globalSlots globals') /\
  is_u32 (globalDataLength metadata').
Proof.
  revert metadata_ metadata' globals'.
  induction globals as [|global rest IH]; intros md md' globals' Hold H;
    cbn [allocateGlobals] in H.
  - injection H as <- <-. split; [constructor|]. split; [cbn; lia|done].
  - destruct (GlobalDesc.isConstant global) eqn:Hconst.
    + destruct (allocateGlobals rest md) as [[ok md1] rest'] eqn:Hrest.
      injection H as -> <- <-.
      destruct (IH _ _ _ Hold Hrest) as (Hall & Hslots & Hu).
      split; [constructor; [by rewrite Hconst|done]|]. split; [|done].
      unfold globalSlots. rewrite filter_cons_False by (by rewrite Hconst). exact Hslots.
    + destruct (allocateGlobal global md) as [[[] md1] global1] eqn:Halloc; [|done].
      destruct (allocateGlobals rest md1) as [[ok md2] rest'] eqn:Hrest.
      injection H as -> <- <-.
      destruct (allocateGlobal_true _ _ _ _ Hold Halloc) as (Hg & Hfrom & Hmod & Hlen & Hmax).
      assert (is_u32 (globalDataLength md1)) as Hu1.
      { pose proof (globalWidth_pos (GlobalDesc.type global)).
        unfold is_u32 in *. lia. }
      destruct (IH _ _ _ Hu1 Hrest) as (Hall & Hslots & Hu).
      split; [constructor; [by rewrite Hconst|done]|]. split; [|done].
      assert (GlobalDesc.isConstant global1 = false) as Hc1 by (by rewrite Hg).
      assert (GlobalDesc.type global1 = GlobalDesc.type global) as Ht1 by (by rewrite Hg).
      unfold globalSlots. rewrite filter_cons_True by done.
      rewrite fmap_cons. cbn [slots_in_order]. rewrite Ht1.
      split; [done|]. split; [done|]. by rewrite <- Hlen.
Qed.

(** ** Unpatched call sites stay in range *)

Lemma linkCallSite_size cs t ex exT g :
  PlatformOk -> 0 <= size_of g <= MaxCodeBytes isa ->
  wp (linkCallSite cs t ex exT)
     (fun _ g' => size_of g <= size_of g' <= MaxCodeBytes isa) (fun _ => True) g.
Proof.
  intros Hisa Hsz. unfold linkCallSite. unfold_prims. cbv zeta.
  destruct (CallSite.kind cs); wp_exec; try done.
  all: size_goal Hisa.
Qed.

Lemma linkCallSites_loop_size pending ex exT g :
  PlatformOk -> 0 <= size_of g <= MaxCodeBytes isa ->
  wp (linkCallSites_loop pending ex exT)
     (fun _ g' => size_of g <= size_of g' <= MaxCodeBytes isa) (fun _ => True) g.
Proof.
  intros Hisa. revert ex exT g.
  induction pending as [|cs pending IH]; intros ex exT g Hsz; cbn [linkCallSites_loop].
  - apply wp_ret. lia.
  - wp_exec.
    eapply wp_mono; [by apply linkCallSite_size|cbn beta|done].
    intros existing g1 Hsz1. wp_exec.
    eapply wp_mono; [apply IH|cbn beta|done].
    + unfold size_of in *. cbn. lia.
    + intros _ g2. unfold size_of in *. cbn. lia.
Qed.

Lemma linkCallSites_size g g' :
  PlatformOk -> 0 <= size_of g <= MaxCodeBytes isa ->
  linkCallSites g = Ok tt g' ->
  size_of g <= size_of g' <= MaxCodeBytes isa.
Proof.
  intros Hisa Hsz H.
  assert (wp linkCallSites (fun _ g' => size_of g <= size_of g' <= MaxCodeBytes isa)
            (fun _ => True) g) as Hwp.
  { unfold linkCallSites. unfold_prims. wp_exec.
    eapply wp_mono; [apply linkCallSites_loop_size; [done|]| |done].
    - pose proof (appendOffset_ge g Hisa) as HB.
      unfold appendOffset, size_of, masm_haltingAlign in *. cbn.
      pose proof Hisa as [Ha _ _ _].
      pose proof (masm_emit_size (ComputeByteAlignment (MacroAssembler.size (masm_ g))
                                    (CodeAlignment isa)) (masm_ g)
                    (proj1 (ComputeByteAlignment_range _ _ Ha))).
      lia.
    - cbn beta. intros _ g1 Hsz1. wp_exec; [done|].
      pose proof (appendOffset_ge g Hisa) as HB.
      unfold appendOffset, size_of, masm_haltingAlign in *. cbn in *. lia. }
  exact (wp_Ok _ _ _ _ _ _ Hwp H).
Qed.

Lemma linkCallSites_visits_all g g' :
  0 <= lastPatchedCallSite_ g <= Z.of_nat (length (callSites_of g)) ->
  Z.of_nat (length (callSites_of g)) <= UINT32_MAX ->
  linkCallSites g = Ok tt g' ->
  callSites_of g' = callSites_of g /\
  lastPatchedCallSite_ g' = Z.of_nat (length (callSites_of g)).
Proof.
  intros Hlast Hlen H. unfold linkCallSites in H. unfold_masm_in H.
  apply bind_Ok in H as ([] & g1 & H1 & H). apply modify_Ok in H1. subst g1.
  apply bind_Ok in H as (l & g1 & H1 & H). apply gets_Ok in H1 as [-> ->].
  apply bind_Ok in H as (sites & g1 & H1 & H). apply gets_Ok in H1 as [-> ->].
  apply bind_Ok in H as ([] & g1 & Hloop & H).
  apply bind_Ok in H as (oom & g2 & H1 & H). apply gets_Ok in H1 as [-> ->].
  destruct (MacroAssembler.oom (masm_ g1)); [done|]. injection H as <-.
  set (g0 := set_masm_ _ g) in Hloop.
  change (lastPatchedCallSite_ g0) with (lastPatchedCallSite_ g) in Hloop.
  change (MetadataTier.callSites (metadataTier_ g0)) with (callSites_of g) in Hloop.
  set (pending := drop _ _) in Hloop.
  assert (length pending = (length (callSites_of g) - Z.to_nat (lastPatchedCallSite_ g))%nat)
    as Hpl by apply length_drop.
  assert (Z.of_nat (length pending) + lastPatchedCallSite_ g0 <= UINT32_MAX) as Hfit
    by (rewrite Hpl; cbn; lia).
  assert (0 <= lastPatchedCallSite_ g0) as Hpos by (cbn; lia).
  destruct (linkCallSites_loop_last _ _ _ _ _ Hfit Hpos Hloop) as (Hl & Hcs & _).
  split; [exact Hcs|]. rewrite Hl, Hpl. cbn. lia.
Qed.

Lemma linkCompiledCode_unpatched code :
  preserves (fun g => (lastPatchedCallSite_ g, startOfUnpatchedCallsites_ g))
    (linkCompiledCode code).
Proof.
  unfold linkCompiledCode. unfold_prims.
  repeat first
    [ apply noteCodeRange_preserves; intros ? ?; reflexivity
    | progress pres_with ltac:(reflexivity) ].
Qed.

Lemma masm_emit_zero m : MacroAssembler.size (masm_emit 0 m) = MacroAssembler.size m.
Proof. unfold masm_emit. destruct (_ || _); cbn; lia. Qed.

Lemma ComputeByteAlignment_aligned n align :
  0 < align -> ComputeByteAlignment (n + ComputeByteAlignment n align) align = 0.
Proof.
  intros Ha. rewrite (ComputeByteAlignment_rounds_up n align Ha).
  unfold ComputeByteAlignment, rounded_up. rewrite Z_mod_mult, Z.sub_0_r.
  apply Z.mod_same. lia.
Qed.

(** X13.  [finishTask] keeps the call sites that wait for a pass between
    [startOfUnpatchedCallsites_] and the end of the buffer; and a call site
    of an earlier task that it leaves unpatched is in branch range of every
    offset from its return address to the end of the code just linked:
    when that would not hold, [finishTask] runs a pass first. *)
Theorem finishTask_keeps_calls_in_range task t g g' :
  PlatformOk -> unpatched_inv g ->
  tasks_ g !! task = Some t -> offsets_in_bytes (output t) ->
  Z.of_nat (length (callSites_of g)) <= UINT32_MAX ->
  finishTask task g = Ok tt g' ->
  unpatched_inv g' /\
  forall (i : nat) cs target,
    lastPatchedCallSite_ g' <= Z.of_nat i -> (i < length (callSites_of g))%nat ->
    callSites_of g' !! i = Some cs ->
    CallSite.returnAddressOffset cs <= target <= size_of g' ->
    InRange (CallSite.returnAddressOffset cs) target = true.
Proof.
  intros Hisa [Hlast Hstart Hsize Hsites] Htask Hoib Hlen H.
  pose proof Hisa as [Ha Hcap _ _].
  unfold finishTask in H. unfold_masm_in H.
  apply bind_Ok in H as ([] & g1 & H1 & H). apply modify_Ok in H1.
  apply bind_Ok in H as (tasks & g0 & H0 & H). apply gets_Ok in H0 as [-> ->].
  apply bind_Ok in H as (t0 & g0 & H0 & H). apply at_Ok in H0 as [Ht0 ->].
  assert (t0 = t) as ->.
  { subst g1. cbn in Ht0. rewrite Nat2Z.id in Ht0. unfold CompileTaskPtr in *. congruence. }
  apply bind_Ok in H as (start & g0 & H0 & H). apply gets_Ok in H0 as [-> ->].
  apply bind_Ok in H as (sz & g0 & H0 & H). apply gets_Ok in H0 as [-> ->].
  apply bind_Ok in H as ([] & g2 & Hpass & H).
  apply bind_Ok in H as ([] & g3 & Hlink & H).
  apply bind_Ok in H as ([] & g4 & H0 & H). apply modify_Ok in H0. subst g4.
  apply bind_Ok in H as ([] & g4 & H0 & H). apply MOZ_ASSERT_Ok in H0 as [_ ->].
  apply modify_Ok in H. subst g'.
  (* the buffer after the alignment *)
  assert (size_of g <= size_of g1 <= MaxCodeBytes isa /\
          callSites_of g1 = callSites_of g /\
          lastPatchedCallSite_ g1 = lastPatchedCallSite_ g /\
          startOfUnpatchedCallsites_ g1 = startOfUnpatchedCallsites_ g /\
          (oom_of g1 = false -> appendOffset g1 = size_of g1)) as (Hsz1 & Hcs1 & Hl1 & Hs1 & Hal1).
  { subst g1. split; [|split; [done|split; [done|split; [done|]]]].
    - pose proof (masm_emit_size (ComputeByteAlignment (MacroAssembler.size (masm_ g))
                                    (CodeAlignment isa)) (masm_ g)
                    (proj1 (ComputeByteAlignment_range _ _ Ha))).
      unfold size_of, masm_haltingAlign in *. cbn. lia.
    - unfold oom_of, appendOffset, size_of, masm_haltingAlign. cbn. intros Hoom.
      apply masm_emit_ok in Hoom as (Hoom & Hfit & Heq). rewrite Heq.
      rewrite ComputeByteAlignment_aligned by done. by rewrite masm_emit_zero. }
  clear H1.
  (* the link of the output of the task *)
  pose proof (preserves_Ok _ _ _ _ _ (linkCompiledCode_unpatched (output t)) Hlink) as Hv.
  injection Hv as Hl3 Hs3.
  assert (0 <= size_of g2 <= MaxCodeBytes isa -> 
          size_of g3 = appendOffset g2 + Z.of_nat (length (bytes (output t))) /\
          size_of g3 <= MaxCodeBytes isa /\ size_of g2 <= appendOffset g2 /\
          callSites_of g3 =
            callSites_of g2 ++ map (shift_callSite (appendOffset g2)) (callSites (output t)))
    as Htables.
  { intros Hsz2.
    destruct (linkCompiledCode_tables (output t) g2 g3 Hisa (proj1 Hsz2) Hoib Hlink)
      as ([E1 E2] & _ & E3 & _).
    split; [done|]. split; [lia|]. split; [apply (appendOffset_ge g2 Hisa)|done]. }
  assert (forall B (k : nat) cs,
            map (shift_callSite B) (callSites (output t)) !! k = Some cs ->
            B <= CallSite.returnAddressOffset cs
              <= B + Z.of_nat (length (bytes (output t)))) as Hnew.
  { intros B k cs Hk. rewrite list_lookup_fmap in Hk.
    destruct (callSites (output t) !! k) as [cs0|] eqn:Hk0; [|done].
    injection Hk as <-. cbn.
    pose proof (proj1 (list.Forall_forall _ _) (oib_callSites _ Hoib) cs0
                  (list_elem_of_lookup_2 _ _ _ Hk0)) as Hw.
    unfold within in Hw. lia. }
  change (size_of (set_freeTasks_ _ _)) with (size_of g3).
  change (callSites_of (set_freeTasks_ _ _)) with (callSites_of g3).
  change (lastPatchedCallSite_ (set_freeTasks_ _ _)) with (lastPatchedCallSite_ g3).
  destruct (negb (InRange _ _)) eqn:Hrange.
  - (* a pass is made first *)
    apply bind_Ok in Hpass as ([] & g1' & H0 & Hpass). apply modify_Ok in H0. subst g1'.
    set (g1' := set_startOfUnpatchedCallsites_ _ g1) in Hpass.
    assert (size_of g1' = size_of g1) as Hsz1' by reflexivity.
    assert (lastPatchedCallSite_ g1' = lastPatchedCallSite_ g /\
            callSites_of g1' = callSites_of g) as [Hl1' Hcs1'].
    { split; [exact Hl1|exact Hcs1]. }
    destruct (linkCallSites_visits_all g1' g2) as [Hcs2 Hl2];
      [by rewrite Hl1', Hcs1'|by rewrite Hcs1'|done|].
    pose proof (linkCallSites_size g1' g2 Hisa ltac:(rewrite Hsz1'; lia) Hpass) as Hsz2.
    assert (startOfUnpatchedCallsites_ g2 = size_of g1) as Hs2.
    { rewrite (preserves_Ok startOfUnpatchedCallsites_ _ _ _ _
                 (linkCallSites_preserves startOfUnpatchedCallsites_
                    ltac:(done) ltac:(done) ltac:(done) ltac:(done) ltac:(done)
                    ltac:(done)) Hpass).
      unfold g1'. cbn. apply wrap32_small. unfold is_u32, size_of in *. lia. }
    destruct Htables as (E1 & E2 & E3 & E4); [lia|].
    rewrite Hcs1' in Hcs2, Hl2.
    split.
    + split.
      * change (lastPatchedCallSite_ (set_freeTasks_ _ _)) with (lastPatchedCallSite_ g3).
        change (callSites_of (set_freeTasks_ _ _)) with (callSites_of g3).
        rewrite Hl3, Hl2, E4, length_app, Hcs2. lia.
      * change (startOfUnpatchedCallsites_ (set_freeTasks_ _ _))
          with (startOfUnpatchedCallsites_ g3).
        change (size_of (set_freeTasks_ _ _)) with (size_of g3). rewrite Hs3, Hs2. lia.
      * change (size_of (set_freeTasks_ _ _)) with (size_of g3). done.
      * intros i cs.
        change (lastPatchedCallSite_ (set_freeTasks_ _ _)) with (lastPatchedCallSite_ g3).
        change (callSites_of (set_freeTasks_ _ _)) with (callSites_of g3).
        change (startOfUnpatchedCallsites_ (set_freeTasks_ _ _))
          with (startOfUnpatchedCallsites_ g3).
        change (size_of (set_freeTasks_ _ _)) with (size_of g3).
        rewrite Hl3, Hl2, Hs3, Hs2, E4, Hcs2. intros Hi Hk.
        apply lookup_app_Some in Hk as [Hk|[_ Hk]].
        { apply lookup_lt_Some in Hk. lia. }
        apply Hnew in Hk. lia.
    + intros i cs target Hi Hold. rewrite Hl3, Hl2 in Hi. lia.
  - (* the code is in range of the call sites that wait *)
    injection Hpass as <-. apply negb_false_iff in Hrange.
    destruct Htables as (E1 & E2 & E3 & E4); [lia|].
    assert (appendOffset g1 = size_of g1) as HB.
    { apply Hal1. rewrite linkCompiledCode_unfold in Hlink.
      destruct (MacroAssembler.oom (masm_ (appended (output t) g1))) eqn:Hoom; [done|].
      unfold appended in Hoom. cbn in Hoom.
      apply masm_emit_ok in Hoom as (Hoom & _). unfold masm_haltingAlign in Hoom.
      apply masm_emit_ok in Hoom as (Hoom & _). exact Hoom. }
    rewrite HB in E1, E4.
    change (MacroAssembler.size (masm_ g1)) with (size_of g1) in Hrange.
    rewrite Hs1, wrap32_small in Hrange by (unfold is_u32; lia).
    apply InRange_spec in Hrange; [|unfold is_u32; lia|unfold is_u32; lia].
    rewrite <- E1 in Hrange.
    split.
    + split.
      * change (lastPatchedCallSite_ (set_freeTasks_ _ _)) with (lastPatchedCallSite_ g3).
        change (callSites_of (set_freeTasks_ _ _)) with (callSites_of g3).
        rewrite Hl3, Hl1, E4, length_app, Hcs1. lia.
      * change (startOfUnpatchedCallsites_ (set_freeTasks_ _ _))
          with (startOfUnpatchedCallsites_ g3).
        change (size_of (set_freeTasks_ _ _)) with (size_of g3). rewrite Hs3, Hs1. lia.
      * change (size_of (set_freeTasks_ _ _)) with (size_of g3). done.
      * intros i cs.
        change (lastPatchedCallSite_ (set_freeTasks_ _ _)) with (lastPatchedCallSite_ g3).
        change (callSites_of (set_freeTasks_ _ _)) with (callSites_of g3).
        change (startOfUnpatchedCallsites_ (set_freeTasks_ _ _))
          with (startOfUnpatchedCallsites_ g3).
        change (size_of (set_freeTasks_ _ _)) with (size_of g3).
        rewrite Hl3, Hl1, Hs3, Hs1, E4, Hcs1. intros Hi Hk.
        apply lookup_app_Some in Hk as [Hk|[_ Hk]].
        { pose proof (Hsites i cs Hi Hk). lia. }
        apply Hnew in Hk. lia.
    + intros i cs target Hi Hold Hk Htarget.
      rewrite Hl3, Hl1 in Hi. rewrite E4, Hcs1, lookup_app_l in Hk by done.
      pose proof (Hsites i cs Hi Hk) as Hra.
      apply InRange_spec; [unfold is_u32; lia|unfold is_u32; lia|]. lia.
Qed.

(** ** Trap exits *)

Lemma linkCallSite_trapFarJumps cs t ex exT g r g' :
  linkCallSite cs t ex exT g = Ok r g' -> trapFarJumps_ g `prefix_of` trapFarJumps_ g'.
Proof.
  intros H. linkCallSite_cases H.
  all: cbn; first [reflexivity | by apply prefix_app_r].
Qed.

Lemma linkCallSites_loop_trapFarJumps pending ex exT g g' :
  linkCallSites_loop pending ex exT g = Ok tt g' ->
  trapFarJumps_ g `prefix_of` trapFarJumps_ g'.
Proof.
  revert ex exT g. induction pending as [|cs pending IH]; intros ex exT g H;
    cbn [linkCallSites_loop] in H.
  - by injection H as <-.
  - apply bind_Ok in H as (i & g0 & H0 & H). apply gets_Ok in H0 as [-> ->].
    apply bind_Ok in H as (targets & g0 & H0 & H). apply gets_Ok in H0 as [-> ->].
    apply bind_Ok in H as (target & g0 & H0 & H). apply at_Ok in H0 as [_ ->].
    apply bind_Ok in H as (existing & g1 & Hstep & H).
    apply bind_Ok in H as ([] & g2 & H0 & H). apply modify_Ok in H0. subst g2.
    apply linkCallSite_trapFarJumps in Hstep. apply IH in H.
    etransitivity; [exact Hstep|exact H].
Qed.

Lemma linkCallSites_trapFarJumps g g' :
  linkCallSites g = Ok tt g' -> trapFarJumps_ g `prefix_of` trapFarJumps_ g'.
Proof.
  unfold linkCallSites. unfold_prims. intros H.
  apply bind_Ok in H as ([] & g1 & H0 & H). apply modify_Ok in H0. subst g1.
  apply bind_Ok in H as (i & g0 & H0 & H). apply gets_Ok in H0 as [-> ->].
  apply bind_Ok in H as (cs & g0 & H0 & H). apply gets_Ok in H0 as [-> ->].
  apply bind_Ok in H as ([] & g1 & Hloop & H).
  apply linkCallSites_loop_trapFarJumps in Hloop.
  apply bind_Ok in H as (oom & g0 & H0 & H). apply gets_Ok in H0 as [-> ->].
  destruct (MacroAssembler.oom (masm_ g1)); [done|]. by injection H as <-.
Qed.

Lemma runSteps_trapFarJumps steps g g' :
  forEach steps runStep g = Ok tt g' -> trapFarJumps_ g `prefix_of` trapFarJumps_ g'.
Proof.
  revert g. induction steps as [|s steps IH]; intros g H; cbn [forEach] in H.
  - by injection H as <-.
  - apply bind_Ok in H as ([] & g1 & H1 & H). apply IH in H.
    etransitivity; [|exact H]. destruct s as [code|]; cbn [runStep] in H1.
    + rewrite linkCompiledCode_unfold in H1.
      destruct (MacroAssembler.oom _); [done|].
      rewrite (wp_Ok _ _ _ _ _ _ (appendTables_trapFarJumps code _ _) H1).
      by apply prefix_app_r.
    + by apply linkCallSites_trapFarJumps.
Qed.

Lemma finishLinking_Ok isAsmJS AsmJSFirstDefFuncIndex g g3 :
  finishLinking isAsmJS AsmJSFirstDefFuncIndex g = Ok tt g3 ->
  exists g1 callPatches,
    linkCallSites g = Ok tt g1 /\
    g3 = with_patchedFarJumps
           (callPatches ++
            ((fun far => (TrapFarJump.jump far, trapCodeOffsets_ g1 (TrapFarJump.trap far)))
               <$> trapFarJumps_ g1) ++
            ((fun j => (j, debugTrapCodeOffset_ g1)) <$> debugTrapFarJumps_ g1)) g1.
Proof.
  unfold finishLinking. intros H.
  apply bind_Ok in H as ([] & g0 & H1 & H). apply finishLinking_debug_Ok in H1 as ->.
  apply bind_Ok in H as ([] & g1 & Hpass & H).
  apply bind_Ok in H as (fars & g0 & H1 & H). apply gets_Ok in H1 as [-> ->].
  apply bind_Ok in H as ([] & g2 & Hcalls & H).
  apply patch_callFarJumps_Ok in Hcalls as (callPatches & -> & Hall).
  apply bind_Ok in H as (fars & g0 & H1 & H). apply gets_Ok in H1 as [-> ->].
  apply bind_Ok in H as ([] & g2 & Htraps & H).
  apply patch_trapFarJumps_Ok in Htraps. subst g2.
  apply bind_Ok in H as (fars & g0 & H1 & H). apply gets_Ok in H1 as [-> ->].
  apply bind_Ok in H as ([] & g2 & Hdebug & H).
  apply patch_debugTrapFarJumps_Ok in Hdebug. subst g2.
  unfold masm_oom in H. apply bind_Ok in H as (oom & g0 & H1 & H).
  apply gets_Ok in H1 as [-> ->].
  rewrite !with_patchedFarJumps_app in H.
  match type of H with (if ?b then _ else _) _ = _ => destruct b; [done|] end.
  injection H as <-. exists g1, callPatches. split; [done|]. reflexivity.
Qed.

(** X14.  A trap exit reaches the stub of its trap: the pass that visits a
    call site of kind [TrapExit] patches the call to an island emitted at
    or after the aligned end of the code, and when [finishLinking] returns
    true, whatever was linked in between, the far jump of that island is
    patched to [trapCodeOffsets_] of the trap.  This holds for a wasm
    module and for an asm.js module. *)
Theorem trap_exit_reaches_stub isAsmJS AsmJSFirstDefFuncIndex steps g g1 g2 g3
    (i : nat) cs t :
  PlatformOk -> 0 <= size_of g -> 0 <= lastPatchedCallSite_ g ->
  Z.of_nat (length (callSites_of g)) <= UINT32_MAX ->
  pending g i cs (TargetTrap t) -> CallSite.kind cs = CallSiteDesc.TrapExit ->
  linkCallSites g = Ok tt g1 -> forEach steps runStep g1 = Ok tt g2 ->
  finishLinking isAsmJS AsmJSFirstDefFuncIndex g2 = Ok tt g3 ->
  reaches_trap (appendOffset g) g3 cs t.
Proof.
  intros Hisa Hsz Hlast Hlen Hpend Hk H1 H2 H3.
  destruct (linkCallSites_islands_shared _ _ Hisa Hsz Hlast Hlen H1)
    as (islandOf & trapIslandOf & addP & addR & newJ & newT &
        HP & HR & HJ & HT & _ & _ & _ & HIT & _ & HCT).
  destruct (HCT i cs t Hpend Hk) as (p & Hp & Hin).
  destruct (HIT t p Hp) as (Hfrom & Hr & Hj).
  destruct (forEach_runStep_grown steps g1 g2 H2) as (G1 & G2 & _).
  pose proof (runSteps_trapFarJumps steps g1 g2 H2) as G3.
  destruct (finishLinking_Ok _ _ g2 g3 H3) as (gb & callPatches & Hpass & ->).
  destruct (grows_Ok _ _ _ _ linkCallSites_grows Hpass) as (G4 & G5 & _).
  pose proof (linkCallSites_trapFarJumps g2 gb Hpass) as G6.
  exists p. split; [done|]. split; [|split].
  - change (codeRanges_of (with_patchedFarJumps _ gb)) with (codeRanges_of gb).
    apply (elem_of_prefix (codeRanges_of g2)); [|done].
    apply (elem_of_prefix (codeRanges_of g1)); [|done].
    rewrite HR. apply elem_of_app. by right.
  - change (patchedCalls_of (with_patchedFarJumps _ gb)) with (patchedCalls_of gb).
    apply (elem_of_prefix (patchedCalls_of g2)); [|done].
    apply (elem_of_prefix (patchedCalls_of g1)); [|done].
    rewrite HP. apply elem_of_app. by right.
  - change (trapCodeOffsets_ (with_patchedFarJumps _ gb)) with (trapCodeOffsets_ gb).
    unfold patchedFarJumps_of, with_patchedFarJumps. cbn.
    apply elem_of_app. right. apply elem_of_app. right. apply elem_of_app. left.
    apply (list_elem_of_fmap_2'
             (fun far => (TrapFarJump.jump far, trapCodeOffsets_ gb (TrapFarJump.trap far)))
             _ (trapIsland t p)); [|done].
    apply (elem_of_prefix (trapFarJumps_ g2)); [|done].
    apply (elem_of_prefix (trapFarJumps_ g1)); [|done].
    rewrite HT. apply elem_of_app. by right.
Qed.

(** ** Entry stubs and function exports *)

Lemma initEntryOffsetOf_NoDup f off l l' :
  NoDup (FuncExport.funcIndex <$> l) ->
  initEntryOffsetOf f off l = Some l' ->
  f ∈ (FuncExport.funcIndex <$> l) /\
  l' = (fun fe => if FuncExport.funcIndex fe =? f
                  then FuncExport.initEntryOffset off fe else fe) <$> l.
Proof.
  revert l'. induction l as [|fe l IH]; intros l' Hnd H; cbn in H; [done|].
  rewrite fmap_cons in Hnd. apply list.NoDup_cons in Hnd as [Hnot Hnd].
  destruct (Z.eqb_spec (FuncExport.funcIndex fe) f) as [Heq|Hne].
  - injection H as <-. split; [rewrite fmap_cons, Heq; apply list_elem_of_here|].
    rewrite fmap_cons. destruct (Z.eqb_spec (FuncExport.funcIndex fe) f); [|done].
    f_equal. symmetry. rewrite <- (list_fmap_id l) at 2.
    apply list_fmap_ext. intros i fe' Hfe'. cbn.
    destruct (Z.eqb_spec (FuncExport.funcIndex fe') f) as [Heq'|]; [|done].
    exfalso. apply Hnot. rewrite Heq, <- Heq'.
    apply list_elem_of_fmap_2. by apply list_elem_of_lookup_2 in Hfe'.
  - destruct (initEntryOffsetOf f off l) as [l1|] eqn:Hl; [|done].
    injection H as <-. destruct (IH l1 Hnd eq_refl) as [Hin ->].
    split; [rewrite fmap_cons; by apply list_elem_of_further|].
    rewrite fmap_cons. by destruct (Z.eqb_spec (FuncExport.funcIndex fe) f).
Qed.

Lemma withEntryOffset_funcIndex cr fe :
  FuncExport.funcIndex (withEntryOffset cr fe) = FuncExport.funcIndex fe.
Proof.
  unfold withEntryOffset. destruct (CodeRange.kind cr); try done. by destruct (_ =? _).
Qed.

Lemma noteCodeRange_funcExports idx cr g g' :
  NoDup (exportIndices g) ->
  noteCodeRange idx cr g = Ok tt g' ->
  funcExports_of g' = withEntryOffset cr <$> funcExports_of g /\
  (CodeRange.kind cr = CodeRange.Entry -> CodeRange.funcIndex cr ∈ exportIndices g).
Proof.
  intros Hnd H.
  assert (CodeRange.kind cr <> CodeRange.Entry ->
          withEntryOffset cr <$> funcExports_of g = funcExports_of g) as Hid.
  { intros Hk. rewrite <- (list_fmap_id (funcExports_of g)) at 2.
    apply list_fmap_ext. intros i fe _. unfold withEntryOffset.
    by destruct (CodeRange.kind cr). }
  unfold noteCodeRange, note in H.
  destruct (CodeRange.kind cr) eqn:Hk; monad_inv H;
    try (split; [by rewrite Hid|done]).
  match goal with
  | H : initEntryOffsetOf _ _ _ = Some _ |- _ =>
      apply initEntryOffsetOf_NoDup in H as [Hin ->]; [|exact Hnd]
  end.
  split; [|done]. unfold funcExports_of. cbn.
  apply list_fmap_ext. intros i fe _. unfold withEntryOffset. by rewrite Hk.
Qed.

Lemma withEntryOffsets_funcIndex ranges (l : list FuncExport.t) :
  FuncExport.funcIndex <$> (withEntryOffsets ranges <$> l) = FuncExport.funcIndex <$> l.
Proof.
  rewrite <- list_fmap_compose. apply list_fmap_ext. intros i fe _. cbn.
  unfold withEntryOffsets. revert fe.
  induction ranges as [|cr ranges IH]; intros fe; cbn; [done|].
  by rewrite IH, withEntryOffset_funcIndex.
Qed.

Lemma appendCodeRanges_funcExports l B g g' :
  NoDup (exportIndices g) ->
  AppendForEach (fun g => MetadataTier.codeRanges (metadataTier_ g)) set_codeRanges l
    (fun codeRangeIndex codeRange =>
       let codeRange := CodeRange.offsetBy codeRange B in
       noteCodeRange codeRangeIndex codeRange >> ret codeRange) g = Ok tt g' ->
  funcExports_of g' =
    withEntryOffsets (map (fun cr => CodeRange.offsetBy cr B) l) <$> funcExports_of g /\
  Forall (fun cr => CodeRange.kind cr = CodeRange.Entry ->
                    CodeRange.funcIndex cr ∈ exportIndices g) l.
Proof.
  revert g. induction l as [|cr l IH]; intros g Hnd H; cbn [AppendForEach] in H.
  - injection H as <-. split; [|constructor]. cbn.
    rewrite <- (list_fmap_id (funcExports_of g)) at 1. by apply list_fmap_ext.
  - apply bind_Ok in H as (dst & g0 & H1 & H). apply gets_Ok in H1 as [-> ->].
    apply bind_Ok in H as (elem & g1 & H1 & H). cbv zeta in H1.
    apply bind_Ok in H1 as ([] & g1' & Hnote & H1). apply ret_Ok in H1 as [-> Hg1].
    subst g1'.
    apply bind_Ok in H as ([] & g2 & H1 & H). apply modify_Ok in H1. subst g2.
    apply noteCodeRange_funcExports in Hnote as [Hexp Hin]; [|done].
    set (g2 := set_codeRanges _ g1) in H.
    assert (funcExports_of g2 = funcExports_of g1) as E2 by reflexivity.
    assert (exportIndices g2 = exportIndices g) as I2.
    { unfold exportIndices. rewrite E2, Hexp, <- list_fmap_compose.
      apply list_fmap_ext. intros i fe _. cbn. apply withEntryOffset_funcIndex. }
    destruct (IH g2) as [Hexp' Hall]; [by rewrite I2|done|].
    split.
    + rewrite Hexp', E2, Hexp, <- list_fmap_compose. by apply list_fmap_ext.
    + constructor; [exact Hin|]. by rewrite <- I2.
Qed.

Lemma appendTables_rest_funcExports code B :
  preserves funcExports_of
    (AppendForEach (fun g => MetadataTier.callSites (metadataTier_ g)) set_callSites
       (callSites code)
       (fun _ cs => ret (CallSite.offsetBy cs B)) >>
     modify (fun g => set_callSiteTargets_ (callSiteTargets_ g ++ callSiteTargets code) g) >>
     MOZ_ASSERT (bool_decide (trapSites code = [])) TrapSitesNotEmpty >>
     AppendForEach trapFarJumps_ set_trapFarJumps_ (trapFarJumps code)
       (fun _ tfj => ret (TrapFarJump.offsetBy tfj B)) >>
     AppendForEach callFarJumps_ set_callFarJumps_ (callFarJumps code)
       (fun _ cfj => ret (CallFarJump.offsetBy cfj B)) >>
     AppendForEach (fun g => MetadataTier.memoryAccesses (metadataTier_ g))
       set_memoryAccesses (memoryAccesses code)
       (fun _ ma => ret (MemoryAccess.offsetBy ma B)) >>
     forEach (symbolicAccesses code) (fun access =>
       let patchAt := wrap32 (B + SymbolicAccess.patchAt access) in
       modify (fun g =>
         set_linkDataTier_
           (LinkDataTier.set_symbolicLinks
              (<[SymbolicAccess.target access :=
                   LinkDataTier.symbolicLinks (linkDataTier_ g)
                     (SymbolicAccess.target access) ++ [patchAt]]>
                 (LinkDataTier.symbolicLinks (linkDataTier_ g)))
              (linkDataTier_ g)) g)) >>
     forEach (codeLabels code) (fun codeLabel =>
       let link :=
         {| InternalLink.patchAtOffset := wrap32 (B + CodeLabel.patchAt codeLabel);
            InternalLink.targetOffset := wrap32 (B + CodeLabel.target codeLabel) |} in
       modify (fun g =>
         set_linkDataTier_
           (LinkDataTier.set_internalLinks
              (LinkDataTier.internalLinks (linkDataTier_ g) ++ [link])
              (linkDataTier_ g)) g))).
Proof. pres. Qed.

(** X15.  Linking code records the entries of the exports.  When no two
    function exports have the same function index, after
    [linkCompiledCode] the function exports are those of before, each with
    the entry offset of the last [Entry] code range of its function (its
    [begin], rebased), and every [Entry] code range of the code is of an
    exported function. *)
Theorem entry_offsets_recorded code g g' :
  NoDup (exportIndices g) ->
  linkCompiledCode code g = Ok tt g' ->
  funcExports_of g' =
    withEntryOffsets
      (map (fun cr => CodeRange.offsetBy cr (appendOffset g)) (codeRanges code))
      <$> funcExports_of g /\
  exportIndices g' = exportIndices g /\
  Forall (fun cr => CodeRange.kind cr = CodeRange.Entry ->
                    CodeRange.funcIndex cr ∈ exportIndices g) (codeRanges code).
Proof.
  intros Hnd H. rewrite linkCompiledCode_unfold in H.
  destruct (MacroAssembler.oom _); [done|].
  unfold appendTables in H. apply bind_Ok in H as ([] & g1 & H1 & H).
  apply (preserves_Ok _ _ _ _ _ (appendTables_rest_funcExports code (appendOffset g))) in H.
  apply appendCodeRanges_funcExports in H1 as [Hexp Hall]; [|exact Hnd].
  change (funcExports_of (appended code g)) with (funcExports_of g) in Hexp.
  change (exportIndices (appended code g)) with (exportIndices g) in Hall.
  rewrite H, Hexp. split; [done|]. split; [|done].
  unfold exportIndices. rewrite H, Hexp. apply withEntryOffsets_funcIndex.
Qed.

(** ** No assertion on the tasks fires without helper threads *)

Lemma wpx_faults_any {A} (m : M A) (Q : A -> ModuleGenerator -> Prop)
    (E : ModuleGenerator -> Prop) F g :
  faults F m -> (forall a g', Q a g') -> (forall g', E g') -> wpx m Q E F g.
Proof. intros Hf HQ HE. specialize (Hf g). unfold wpx in *. by destruct (m g). Qed.

Lemma linkCallSites_task_faults : faults not_a_task_fault linkCallSites.
Proof.
  assert (forall cs t ex exT, faults not_a_task_fault (linkCallSite cs t ex exT)) as Hone.
  { intros cs t ex exT. unfold linkCallSite. unfold_prims. cbv zeta.
    destruct (CallSite.kind cs); faults_tac. }
  assert (forall pending ex exT,
            faults not_a_task_fault (linkCallSites_loop pending ex exT)) as Hloop.
  { intros pending. induction pending as [|cs pending IH]; intros ex exT;
      cbn [linkCallSites_loop].
    - apply faults_ret.
    - repeat first [apply Hone | apply IH | faults_step]. }
  unfold linkCallSites. unfold_prims.
  repeat first [apply Hloop | faults_step].
Qed.

Lemma linkCompiledCode_task_faults code :
  faults not_a_task_fault (linkCompiledCode code).
Proof.
  assert (forall i cr, faults not_a_task_fault (noteCodeRange i cr)) as Hnote.
  { intros i cr. unfold noteCodeRange, note. destruct (CodeRange.kind cr); faults_tac. }
  unfold linkCompiledCode. unfold_prims.
  repeat first [apply Hnote | faults_step].
Qed.

Lemma finishTask_safe task g :
  (forall t, tasks_ g !! task = Some t -> inputs t = []) ->
  wpx (finishTask task) (fun _ _ => True) (fun _ => True) not_a_task_fault g.
Proof.
  intros Hin. unfold finishTask. unfold_prims.
  apply wpx_bind, wpx_modify. apply wpx_bind, wpx_gets.
  apply wpx_bind, wpx_at; [done|]. intros t Ht.
  rewrite Nat2Z.id in Ht. apply Hin in Ht.
  apply wpx_bind, wpx_gets. apply wpx_bind, wpx_gets. apply wpx_bind.
  assert (forall a g',
            wpx ((fun _ : unit =>
                    linkCompiledCode (output t) >>
                    modify (fun g => set_tasks_ (<[task := clearOutput t]> (tasks_ g)) g) >>
                    MOZ_ASSERT (bool_decide (inputs t = [])) TaskNotReset >>
                    modify (fun g => set_freeTasks_ (freeTasks_ g ++ [task]) g)) a)
              (fun _ _ => True) (fun _ => True) not_a_task_fault g') as Hrest.
  { intros a g'. cbv beta. apply wpx_bind.
    apply wpx_faults_any; [apply linkCompiledCode_task_faults| |done].
    intros [] g1. apply wpx_bind, wpx_modify. apply wpx_bind.
    rewrite bool_decide_true by done. apply wpx_MOZ_ASSERT; [intros _|done].
    by apply wpx_modify. }
  destruct (negb _).
  - apply wpx_bind, wpx_modify.
    apply wpx_faults_any; [apply linkCallSites_task_faults| |done].
    intros [] g1. apply (Hrest tt).
  - apply wpx_ret. apply (Hrest tt).
Qed.

Lemma wpx_bind_post {A B} (m : M A) (k : A -> M B) (Q1 : A -> ModuleGenerator -> Prop)
    Q E F g :
  wpx m Q1 E F g -> (forall a g', Q1 a g' -> wpx (k a) Q E F g') ->
  wpx (bind m k) Q E F g.
Proof.
  intros H1 H2. unfold wpx, bind in *.
  destruct (m g) as [a g'|g'|g'|f]; [exact (H2 a g' H1)|done..].
Qed.

Lemma launchBatchCompile_safe task g :
  currentTask_ g = Some task -> parallel_ g = false ->
  (forall t, tasks_ g !! task = Some t -> CompiledCode_isEmpty (output t) = true) ->
  wpx launchBatchCompile (fun _ _ => True) (fun _ => True) not_a_task_fault g.
Proof.
  intros Hcur Hpar Hout. unfold launchBatchCompile.
  apply wpx_bind, wpx_modify. apply wpx_bind, wpx_gets.
  cbn [currentTask_ set_launched_]. rewrite Hcur.
  apply wpx_bind, wpx_gets. destruct (cancelled_ _); [done|].
  apply wpx_bind, wpx_gets. cbn [parallel_ set_launched_]. rewrite Hpar.
  apply (wpx_bind_post _ _ (fun _ _ => True)).
  - apply wpx_bind, wpx_gets. apply wpx_bind, wpx_at; [done|]. intros t Ht.
    rewrite Nat2Z.id in Ht. cbn in Ht. specialize (Hout t Ht).
    unfold ExecuteCompileTask. rewrite Hout. cbn [negb].
    destruct (match tier with Ion => _ | Baseline => _ end) as [out|e].
    + destruct (_ =? _)%nat; [|done].
      apply wpx_bind, wpx_modify.
      eapply wpx_mono; [apply finishTask_safe| | |]; try done.
      intros t'. cbn. rewrite list_lookup_insert_eq by (by apply lookup_lt_Some in Ht).
      by intros [= <-].
    + apply wpx_bind, wpx_modify. done.
  - intros _ g' _. apply wpx_bind, wpx_modify. by apply wpx_modify.
Qed.

Lemma tasks_ok_free g :
  tasks_ok g -> currentTask_ g = None -> is_nil (freeTasks_ g) = false.
Proof.
  intros (_ & _ & Hne & _ & Hall) Hcur.
  destruct (tasks_ g) as [|t ts] eqn:Ht; [done|].
  destruct (Hall 0%nat) as [Hin|Hc]; [cbn; lia| |congruence].
  destruct (freeTasks_ g); [by apply elem_of_nil in Hin|done].
Qed.

Lemma compileFuncDef_safe funcIndex lineOrBytecode begin end_ g :
  tasks_ok g ->
  wpx (compileFuncDef funcIndex lineOrBytecode begin end_)
    (fun _ _ => True) (fun _ => True) not_a_task_fault g.
Proof.
  intros Hok. pose proof Hok as ((_ & _ & _ & Hpar) & _ & _ & Hout & _).
  unfold compileFuncDef. apply wpx_bind, wpx_modify. apply wpx_bind, wpx_gets.
  cbn [currentTask_ set_numFuncDefs_].
  apply (wpx_bind_post _ _
           (fun _ g1 => exists task, currentTask_ g1 = Some task /\ parallel_ g1 = false /\
                                     tasks_ g1 = tasks_ g)).
  - destruct (currentTask_ g) as [task|] eqn:Hcur.
    + apply wpx_ret. exists task. cbn. done.
    + apply wpx_bind, wpx_gets. cbn [freeTasks_ set_numFuncDefs_].
      rewrite (tasks_ok_free g Hok Hcur). apply wpx_bind, wpx_ret.
      apply wpx_bind, wpx_gets. cbn [freeTasks_ set_numFuncDefs_].
      destruct (popCopy (freeTasks_ g)) as [[task rest]|]; [|done].
      apply wpx_bind, wpx_modify. apply wpx_modify. by exists task.
  - intros _ g1 (task & Hcur1 & Hpar1 & Htasks1).
    apply wpx_bind, wpx_gets. rewrite Hcur1.
    apply wpx_bind, wpx_gets. apply wpx_bind, wpx_at; [done|]. intros t Ht.
    rewrite Nat2Z.id, Htasks1 in Ht. cbv zeta.
    apply wpx_bind, wpx_modify. apply wpx_bind, wpx_modify. apply wpx_bind, wpx_gets.
    apply wpx_bind, wpx_MOZ_ASSERT; [intros _|done].
    destruct (_ <=? _); [by apply wpx_ret|].
    apply (launchBatchCompile_safe task); [exact Hcur1|exact Hpar1|].
    intros t'. cbn. rewrite Htasks1.
    rewrite list_lookup_insert_eq by (by apply lookup_lt_Some in Ht).
    intros [= <-]. cbn. by apply (Hout task).
Qed.

Lemma compileFuncDef_tasks funcIndex lineOrBytecode begin end_ g g' :
  batch_ok g ->
  compileFuncDef funcIndex lineOrBytecode begin end_ g = Ok tt g' ->
  exists gl task t,
    currentTask_ gl = Some task /\ parallel_ gl = false /\
    outstanding_ gl = outstanding_ g /\
    tasks_ g !! task = Some t /\
    tasks_ gl =
      <[task := addInput {| fi_index := funcIndex; fi_lineOrBytecode := lineOrBytecode;
                            fi_begin := begin; fi_end := end_ |} t]> (tasks_ g) /\
    ((currentTask_ g = Some task /\ freeTasks_ gl = freeTasks_ g) \/
     (currentTask_ g = None /\ freeTasks_ g = freeTasks_ gl ++ [task])) /\
    (g' = gl \/ launchBatchCompile gl = Ok tt g').
Proof.
  intros Hok H. destruct Hok as (_ & _ & _ & Hpar). unfold compileFuncDef in H.
  apply bind_Ok in H as ([] & g1 & H1 & H). apply modify_Ok in H1. subst g1.
  apply bind_Ok in H as (cur & g0 & H1 & H). apply gets_Ok in H1 as [-> ->].
  apply bind_Ok in H as ([] & g1 & Hcur & H).
  assert (exists task,
            currentTask_ g1 = Some task /\ parallel_ g1 = false /\
            outstanding_ g1 = outstanding_ g /\ tasks_ g1 = tasks_ g /\
            ((currentTask_ g = Some task /\ freeTasks_ g1 = freeTasks_ g) \/
             (currentTask_ g = None /\ freeTasks_ g = freeTasks_ g1 ++ [task])))
    as (task & Ctask & Hpar1 & Hout1 & Htasks1 & Hfree1).
  { cbn [currentTask_ set_numFuncDefs_] in Hcur.
    destruct (currentTask_ g) as [task|] eqn:Hc.
    - injection Hcur as <-. exists task. cbn. repeat split; auto.
    - apply bind_Ok in Hcur as (free & g0 & H1 & Hcur). apply gets_Ok in H1 as [-> ->].
      apply bind_Ok in Hcur as ([] & g2 & Hwait & Hcur).
      cbn [freeTasks_ set_numFuncDefs_] in Hwait.
      destruct (is_nil (freeTasks_ g)).
      { unfold finishOutstandingTask in Hwait.
        apply bind_Ok in Hwait as (par & g0 & H1 & Hwait). apply gets_Ok in H1 as [-> ->].
        cbn in Hwait. by rewrite Hpar in Hwait. }
      injection Hwait as <-.
      apply bind_Ok in Hcur as (free & g0 & H1 & Hcur). apply gets_Ok in H1 as [-> ->].
      cbn [freeTasks_ set_numFuncDefs_] in Hcur. unfold popCopy in Hcur.
      destruct (list.last (freeTasks_ g)) as [task|] eqn:Hlast; [|done].
      apply bind_Ok in Hcur as ([] & g3 & H1 & Hcur). apply modify_Ok in H1. subst g3.
      apply modify_Ok in Hcur. subst g1.
      apply last_Some in Hlast as [rest Hrest].
      exists task. cbn. rewrite Hrest, removelast_last. repeat split; auto. }
  clear Hcur.
  apply bind_Ok in H as (cur & g0 & H1 & H). apply gets_Ok in H1 as [-> ->].
  rewrite Ctask in H.
  apply bind_Ok in H as (tasks & g0 & H1 & H). apply gets_Ok in H1 as [-> ->].
  apply bind_Ok in H as (t & g0 & H1 & H). apply at_Ok in H1 as [Ht ->].
  rewrite Nat2Z.id, Htasks1 in Ht. cbv zeta in H.
  apply bind_Ok in H as ([] & g2 & H1 & H). apply modify_Ok in H1. subst g2.
  apply bind_Ok in H as ([] & g2 & H1 & H). apply modify_Ok in H1. subst g2.
  apply bind_Ok in H as (batched & g0 & H1 & H). apply gets_Ok in H1 as [-> ->].
  apply bind_Ok in H as ([] & g0 & H1 & H). apply MOZ_ASSERT_Ok in H1 as [_ ->].
  match type of H with _ ?x = _ => exists x, task, t end.
  split; [exact Ctask|]. split; [exact Hpar1|].
  split; [exact Hout1|]. split; [exact Ht|]. split; [cbn; by rewrite Htasks1|].
  split; [exact Hfree1|].
  destruct (_ <=? _); [left; by injection H as <-|right; exact H].
Qed.

Lemma launchBatchCompile_tasks task g g' :
  currentTask_ g = Some task -> parallel_ g = false ->
  launchBatchCompile g = Ok tt g' ->
  exists t0,
    inputs t0 = [] /\ output t0 = CompiledCode_empty /\ (task < length (tasks_ g))%nat /\
    tasks_ g' = <[task := t0]> (tasks_ g) /\
    freeTasks_ g' = freeTasks_ g ++ [task] /\
    currentTask_ g' = None /\ outstanding_ g' = outstanding_ g.
Proof.
  intros Hcur Hpar H. unfold launchBatchCompile in H.
  apply bind_Ok in H as ([] & g1 & H1 & H). apply modify_Ok in H1. subst g1.
  apply bind_Ok in H as (cur & g0 & H1 & H). apply gets_Ok in H1 as [-> ->].
  cbn [currentTask_ set_launched_] in H. rewrite Hcur in H.
  apply bind_Ok in H as (c & g0 & H1 & H). apply gets_Ok in H1 as [-> ->].
  destruct (cancelled_ _); [done|].
  apply bind_Ok in H as (par & g0 & H1 & H). apply gets_Ok in H1 as [-> ->].
  cbn [parallel_ set_launched_] in H. rewrite Hpar in H.
  apply bind_Ok in H as ([] & g1 & H1 & H).
  apply bind_Ok in H as ([] & g2 & H2 & H). apply modify_Ok in H2. subst g2.
  apply modify_Ok in H. subst g'. cbn.
  apply bind_Ok in H1 as (tasks & g0 & H2 & H1). apply gets_Ok in H2 as [-> ->].
  apply bind_Ok in H1 as (t & g0 & H2 & H1). apply at_Ok in H2 as [Ht ->].
  rewrite Nat2Z.id in Ht. cbn in Ht.
  destruct (ExecuteCompileTask t) as [t'|e|f] eqn:Hexec; [| |done].
  2:{ apply bind_Ok in H1 as ([] & g2 & H2 & H1). done. }
  apply bind_Ok in H1 as ([] & g2 & H2 & H1). apply modify_Ok in H2. subst g2.
  pose proof (preserves_Ok outstanding_ _ _ _ _ (finishTask_outstanding task) H1) as Ho.
  apply finishTask_batch in H1 as (t0 & Ht0 & Hin & E1 & E2 & _ & _ & _).
  cbn in Ht0, E1, E2, Ho.
  exists (clearOutput t0). rewrite E1, E2, Ho, list_insert_insert_eq.
  pose proof (lookup_lt_Some _ _ _ Ht). done.
Qed.

Lemma compileFuncDef_tasks_ok funcIndex lineOrBytecode begin end_ g g' :
  tasks_ok g ->
  compileFuncDef funcIndex lineOrBytecode begin end_ g = Ok tt g' -> tasks_ok g'.
Proof.
  intros (Hok & Hout0 & Hne & Hempty & Hall) H.
  pose proof (compileFuncDef_batch_ok _ _ _ _ _ _ Hok H) as Hok'.
  apply compileFuncDef_tasks in H
    as (gl & task & t & Hcur & Hpar & Hout & Ht & Htasks & Hfree & Hend); [|done].
  pose proof (lookup_lt_Some _ _ _ Ht) as Hlt.
  assert (tasks_ gl <> [] /\
          (forall (task' : nat) t', tasks_ gl !! task' = Some t' ->
             CompiledCode_isEmpty (output t') = true) /\
          (forall task' : nat, (task' < length (tasks_ gl))%nat ->
             task' ∈ freeTasks_ gl \/ task' = task)) as (Hne1 & Hempty1 & Hall1).
  { rewrite Htasks. split; [|split].
    - intros Hnil. apply (f_equal length) in Hnil. rewrite length_insert in Hnil.
      by destruct (tasks_ g).
    - intros task' t'. destruct (decide (task' = task)) as [->|Hneq].
      + rewrite list_lookup_insert_eq by done. intros [= <-]. cbn. by apply (Hempty task).
      + rewrite list_lookup_insert_ne by done. apply Hempty.
    - intros task'. rewrite length_insert. intros Hlt'.
      destruct (decide (task' = task)) as [->|Hneq]; [by right|]. left.
      destruct (Hall task' Hlt') as [Hin|Hc].
      + destruct Hfree as [[_ ->]|[_ Hf]]; [done|].
        rewrite Hf in Hin. apply elem_of_app in Hin as [Hin|Hin]; [done|].
        apply list_elem_of_singleton in Hin. done.
      + destruct Hfree as [[Hc' _]|[Hc' _]]; congruence. }
  split; [exact Hok'|]. destruct Hend as [->|Hlaunch].
  - split; [congruence|]. split; [done|]. split; [done|].
    intros task' Hlt'. destruct (Hall1 task' Hlt') as [?| ->]; [by left|by right].
  - destruct (launchBatchCompile_tasks task gl g' Hcur Hpar Hlaunch)
      as (t0 & Hin0 & Hout0' & Hlt0 & Htasks' & Hfree' & Hcur' & Ho').
    split; [congruence|]. rewrite Htasks', Hfree'. split; [|split].
    + intros Hnil. apply (f_equal length) in Hnil. rewrite length_insert in Hnil.
      by destruct (tasks_ gl).
    + intros task' t'. destruct (decide (task' = task)) as [->|Hneq].
      * rewrite list_lookup_insert_eq by done. intros [= <-]. by rewrite Hout0'.
      * rewrite list_lookup_insert_ne by done. apply Hempty1.
    + intros task'. rewrite length_insert. intros Hlt'. left.
      apply elem_of_app. destruct (Hall1 task' Hlt') as [?| ->]; [by left|right].
      by apply list_elem_of_singleton.
Qed.

Lemma startFuncDefs_tasks_ok n g g' :
  tasks_ g = [] -> freeTasks_ g = [] -> currentTask_ g = None ->
  batchedBytecode_ g = 0 -> parallel_ g = false -> outstanding_ g = 0 ->
  startFuncDefs false n g = Ok tt g' -> tasks_ok g'.
Proof.
  intros Ht Hf Hc Hb Hp Ho H.
  split; [by apply (startFuncDefs_batch_ok n g g')|].
  unfold startFuncDefs in H.
  apply bind_Ok in H as ([] & g1 & H1 & H). injection H1 as <-.
  apply bind_Ok in H as ([] & g1 & H1 & H). apply modify_Ok in H1. subst g1.
  apply modify_Ok in H. subst g'. cbn. rewrite Ht, Hf. cbn.
  split; [done|]. split; [done|]. split.
  - intros [|task] t; [by intros [= <-]|done].
  - intros [|task] Hlt; [|lia]. left. by apply list_elem_of_singleton.
Qed.

Lemma launchBatchCompile_tasks_ok task g g' :
  tasks_ok g -> currentTask_ g = Some task ->
  launchBatchCompile g = Ok tt g' ->
  tasks_ok g' /\ currentTask_ g' = None.
Proof.
  intros (Hok & Hout0 & Hne & Hempty & Hall) Hcur Hlaunch.
  pose proof (batch_ok_launched task g g' Hok Hcur Hlaunch) as Hok'.
  destruct Hok as (_ & _ & _ & Hpar).
  destruct (launchBatchCompile_tasks task g g' Hcur Hpar Hlaunch)
    as (t0 & Hin0 & Hout0' & Hlt0 & Htasks' & Hfree' & Hcur' & Ho').
  split; [|exact Hcur'].
  split; [exact Hok'|]. split; [congruence|]. rewrite Htasks', Hfree'. split; [|split].
  - intros Hnil. apply (f_equal length) in Hnil. rewrite length_insert in Hnil.
    by destruct (tasks_ g).
  - intros task' t'. destruct (decide (task' = task)) as [->|Hneq].
    + rewrite list_lookup_insert_eq by done. intros [= <-]. by rewrite Hout0'.
    + rewrite list_lookup_insert_ne by done. apply Hempty.
  - intros task'. rewrite length_insert. intros Hlt'. left.
    apply elem_of_app. destruct (Hall task' Hlt') as [?|Hc]; [by left|right].
    apply list_elem_of_singleton. congruence.
Qed.

Lemma compileFuncDefs_safe defs g :
  tasks_ok g ->
  wpx (compileFuncDefs defs) (fun _ g' => tasks_ok g') (fun _ => True) not_a_task_fault g.
Proof.
  unfold compileFuncDefs. revert g. induction defs as [|d defs IH]; intros g Hok.
  - exact Hok.
  - cbn [forEach]. apply wpx_bind.
    pose proof (compileFuncDef_safe (fi_index d) (fi_lineOrBytecode d) (fi_begin d)
                  (fi_end d) g Hok) as Hsafe.
    unfold wpx in Hsafe |- *.
    destruct (compileFuncDef _ _ _ _ g) as [[] g1| | |f] eqn:E; try done.
    apply IH. exact (compileFuncDef_tasks_ok _ _ _ _ g g1 Hok E).
Qed.

Lemma tasks_ok_all_free g :
  tasks_ok g -> currentTask_ g = None ->
  (forall task : nat, (task < length (tasks_ g))%nat -> task ∈ freeTasks_ g) /\
  Forall (fun t => inputs t = [] /\ CompiledCode_isEmpty (output t) = true) (tasks_ g).
Proof.
  intros (((_ & Hfree) & _) & _ & _ & Hempty & Hall) Hcur.
  assert (forall task : nat, (task < length (tasks_ g))%nat -> task ∈ freeTasks_ g) as Hin.
  { intros task Hlt. destruct (Hall task Hlt) as [?|?]; [done|congruence]. }
  split; [exact Hin|]. apply list.Forall_forall. intros t Ht.
  apply list_elem_of_lookup in Ht as [task Ht]. split.
  - apply (Hfree task t); [|done]. apply Hin. by apply lookup_lt_Some in Ht.
  - by apply (Hempty task).
Qed.

(** X16. Without helper threads no assertion on the tasks fires between
    [startFuncDefs] and [finishFuncDefs]: whatever the compiler produces,
    neither the function bodies handed to [compileFuncDef] nor
    [finishFuncDefs] fail [MOZ_ASSERT(currentTask_)],
    [MOZ_ASSERT(outstanding_ > 0)], [MOZ_ASSERT(parallel_)] or an assertion
    that a task is reset; a free task is there whenever no task is current;
    [finishFuncDefs] waits for no task, and when it returns true no task is
    current, nothing is outstanding and every task is free, with no input
    and an empty output. *)
Theorem sequential_tasks_never_assert isAsmJS env_numFuncDefs n defs fuel g0 g :
  tasks_ g0 = [] -> freeTasks_ g0 = [] -> currentTask_ g0 = None ->
  batchedBytecode_ g0 = 0 -> parallel_ g0 = false -> outstanding_ g0 = 0 ->
  startFuncDefs false n g0 = Ok tt g ->
  (forall f, compileFuncDefs defs g = Abort f -> is_task_fault f = false) /\
  (forall g1, compileFuncDefs defs g = Ok tt g1 ->
     (currentTask_ g1 = None -> freeTasks_ g1 <> []) /\
     exists r, finishFuncDefs isAsmJS env_numFuncDefs fuel g1 = Some r /\
       (forall f, r = inr (Abort f) -> is_task_fault f = false) /\
       (forall g2, r = inr (Ok tt g2) ->
          currentTask_ g2 = None /\ outstanding_ g2 = 0 /\
          (forall task : nat, (task < length (tasks_ g2))%nat -> task ∈ freeTasks_ g2) /\
          Forall (fun t => inputs t = [] /\ CompiledCode_isEmpty (output t) = true)
            (tasks_ g2))).
Proof.
  intros Ht Hf Hc Hb Hp Ho Hstart.
  pose proof (startFuncDefs_tasks_ok n g0 g Ht Hf Hc Hb Hp Ho Hstart) as Hok.
  pose proof (compileFuncDefs_safe defs g Hok) as Hsafe. unfold wpx in Hsafe.
  split.
  { intros f E. by rewrite E in Hsafe. }
  intros g1 E. rewrite E in Hsafe. rename Hsafe into Hok1.
  split.
  { intros Hcur Hnil. pose proof (tasks_ok_free g1 Hok1 Hcur) as Hfree.
    by rewrite Hnil in Hfree. }
  assert (forall g2, tasks_ok g2 -> currentTask_ g2 = None ->
            exists r,
              match finishOutstandingTasks fuel g2 with
              | None => None
              | Some (Ok _ g3) =>
                  if negb isAsmJS && negb (numFuncDefs_ g3 =? env_numFuncDefs)
                  then Some (inl NumFuncDefsMismatch)
                  else Some (inr (Ok tt g3))
              | Some r => Some (inr r)
              end = Some r /\
              (forall f, r = inr (Abort f) -> is_task_fault f = false) /\
              (forall g3, r = inr (Ok tt g3) ->
                 currentTask_ g3 = None /\ outstanding_ g3 = 0 /\
                 (forall task : nat,
                    (task < length (tasks_ g3))%nat -> task ∈ freeTasks_ g3) /\
                 Forall (fun t => inputs t = [] /\ CompiledCode_isEmpty (output t) = true)
                   (tasks_ g3))) as Hwait.
  { intros g2 Hok2 Hcur2.
    assert (finishOutstandingTasks fuel g2 = Some (Ok tt g2)) as ->.
    { destruct Hok2 as (_ & Hout & _). destruct fuel; cbn; by rewrite Hout. }
    destruct (negb isAsmJS && negb (numFuncDefs_ g2 =? env_numFuncDefs)).
    - eexists. split; [reflexivity|]. split; intros; discriminate.
    - eexists. split; [reflexivity|]. split; [intros; discriminate|].
      intros g3 [= <-]. destruct Hok2 as (Hb2 & Hout & Hrest).
      split; [done|]. split; [done|].
      by apply tasks_ok_all_free. }
  unfold finishFuncDefs. unfold bind, gets. cbv beta.
  destruct (currentTask_ g1) as [task|] eqn:Hcur.
  - pose proof Hok1 as ((_ & _ & _ & Hpar) & _ & _ & Hempty & _).
    pose proof (launchBatchCompile_safe task g1 Hcur Hpar (Hempty task)) as Hl.
    unfold wpx in Hl.
    destruct (launchBatchCompile g1) as [[] g2| | |f] eqn:El.
    + destruct (launchBatchCompile_tasks_ok task g1 g2 Hok1 Hcur El) as [Hok2 Hcur2].
      by apply Hwait.
    + eexists. split; [reflexivity|]. split; intros; discriminate.
    + eexists. split; [reflexivity|]. split; intros; discriminate.
    + eexists. split; [reflexivity|]. split; [by intros f' [= <-]|intros; discriminate].
  - by apply Hwait.
Qed.

(** ** The exports of the finished segment *)

Lemma finishFuncExports_keeps {X} (proj : ModuleGenerator -> X) :
  (forall v g, proj (set_exportedFuncs_ v g) = proj g) ->
  (forall v g, proj (set_metadataTier_ (MetadataTier.set_funcExports v (metadataTier_ g)) g)
               = proj g) ->
  preserves proj finishFuncExports.
Proof.
  intros H1 H2. unfold finishFuncExports, exportedFuncs_put, funcSig.
  pres_with ltac:(auto).
Qed.

Lemma linkCallSites_funcExports : preserves funcExports_of linkCallSites.
Proof.
  assert (forall cs t ex exT, preserves funcExports_of (linkCallSite cs t ex exT)) as Hone.
  { intros cs t ex exT. unfold linkCallSite. unfold_prims. cbv zeta.
    destruct (CallSite.kind cs); pres_with ltac:(unfold push_codeRange; reflexivity). }
  assert (forall pending ex exT,
            preserves funcExports_of (linkCallSites_loop pending ex exT)) as Hloop.
  { intros pending. induction pending as [|cs pending IH]; intros ex exT;
      cbn [linkCallSites_loop]; [apply preserves_ret|].
    apply preserves_bind; [apply preserves_gets|intros ?].
    apply preserves_bind; [apply preserves_gets|intros ?].
    apply preserves_bind; [apply preserves_at|intros ?].
    apply preserves_bind; [apply Hone|intros ?].
    apply preserves_bind; [apply preserves_modify; reflexivity|intros ?].
    apply IH. }
  unfold linkCallSites. unfold_prims.
  apply preserves_bind; [apply preserves_modify; reflexivity|intros ?].
  apply preserves_bind; [apply preserves_gets|intros ?].
  apply preserves_bind; [apply preserves_gets|intros ?].
  apply preserves_bind; [apply Hloop|intros ?].
  pres_with ltac:(reflexivity).
Qed.

Lemma linkCompiledCode_exportedFuncs code : preserves exportedFuncs_ (linkCompiledCode code).
Proof.
  unfold linkCompiledCode. unfold_prims.
  repeat first
    [ apply noteCodeRange_preserves; intros ? ?; reflexivity
    | progress pres_with ltac:(reflexivity) ].
Qed.

(** X17.  The exports of the finished segment.  When [finishCodeSegment]
    reaches [CodeSegment::create], the stub generator was given one export
    for every function of [exportedFuncs_], which holds the functions put
    there before and the elements of the external tables, in the strictly
    increasing order of the function indices; and the exports handed to the
    segment are these, each with the entry offset of its [Entry] stub,
    rebased to where the stubs were linked, and with the index of the code
    range that [funcToCodeRange_] has for its function; with debugging
    enabled that vector is found in [debugFuncToCodeRange], where
    [finishMetadata] has moved it.  This holds for a wasm module and for
    an asm.js module. *)
Theorem finishCodeSegment_exports GenerateStubs SystemPageSize debugEnabled isAsmJS
    AsmJSFirstDefFuncIndex metadata_ g metadata' indices g' :
  finishCodeSegment GenerateStubs SystemPageSize debugEnabled isAsmJS
    AsmJSFirstDefFuncIndex metadata_ g
    = inr (Ok (metadata', indices) g') ->
  let funcToCodeRange :=
    if debugEnabled then MetadataTier.debugFuncToCodeRange (metadataTier_ g')
    else funcToCodeRange_ g' in
  exists exports stubCode,
    GenerateStubs env_ (MetadataTier.funcImports (metadataTier_ g)) exports
      = Some stubCode /\
    FuncExport.funcIndex <$> exports = merge_sort Z.le (elements (exportedFuncs_ g')) /\
    (forall f, f ∈ exportedFuncs_ g' <-> f ∈ exportedFuncs_ g \/ in_external_table f) /\
    exportIndices g' = FuncExport.funcIndex <$> exports /\
    StronglySorted Z.lt (exportIndices g') /\
    Forall2 (fun fe fe' =>
               exists codeRangeIndex,
                 funcToCodeRange !! Z.to_nat (FuncExport.funcIndex fe)
                   = Some codeRangeIndex /\
                 fe' = FuncExport_initCodeRangeIndex codeRangeIndex
                         (withEntryOffsets
                            (map (fun cr => CodeRange.offsetBy cr (appendOffset g))
                                 (codeRanges stubCode)) fe))
            exports (funcExports_of g').
Proof.
  intros Hfin funcToCodeRange. unfold finishCodeSegment in Hfin.
  match type of Hfin with
  | match ?m g with _ => _ end = _ => destruct (m g) as [[] gd| | |] eqn:Hrun
  end; try discriminate.
  (* the function exports *)
  apply bind_Ok in Hrun as ([] & ga & Hexp & Hrun).
  pose proof (wp_Ok _ _ _ _ _ _ (finishFuncExports_spec g) Hexp) as (_ & Hidx & Hset).
  cbv beta in Hidx, Hset.
  assert (masm_ ga = masm_ g) as Hmasm.
  { exact (preserves_Ok masm_ _ _ _ _
             (finishFuncExports_keeps masm_ ltac:(done) ltac:(done)) Hexp). }
  assert (MetadataTier.funcImports (metadataTier_ ga)
          = MetadataTier.funcImports (metadataTier_ g)) as Himp.
  { exact (preserves_Ok (fun g => MetadataTier.funcImports (metadataTier_ g)) _ _ _ _
             (finishFuncExports_keeps (fun g => MetadataTier.funcImports (metadataTier_ g))
                ltac:(done) ltac:(done)) Hexp). }
  (* the stubs *)
  apply bind_Ok in Hrun as (tasks & g0 & H0 & Hrun). apply gets_Ok in H0 as [-> ->].
  apply bind_Ok in Hrun as (t0 & g0 & H0 & Hrun). apply at_Ok in H0 as [_ ->].
  apply bind_Ok in Hrun as ([] & g0 & H0 & Hrun). apply MOZ_ASSERT_Ok in H0 as [_ ->].
  apply bind_Ok in Hrun as (imports & g0 & H0 & Hrun). apply gets_Ok in H0 as [-> ->].
  apply bind_Ok in Hrun as (exports & g0 & H0 & Hrun). apply gets_Ok in H0 as [-> ->].
  destruct (GenerateStubs _ _ _) as [stubCode|] eqn:Hstubs; [|done].
  apply bind_Ok in Hrun as ([] & gb & H0 & Hrun). apply modify_Ok in H0.
  apply bind_Ok in Hrun as ([] & gc & Hlink & Hfl).
  assert (funcExports_of gb = funcExports_of ga /\ exportedFuncs_ gb = exportedFuncs_ ga /\
          appendOffset gb = appendOffset g) as (Hexpb & Hsetb & HB).
  { subst gb. unfold appendOffset. cbn. by rewrite Hmasm. }
  clear H0.
  (* linking the stubs *)
  assert (exportIndices gb = merge_sort Z.le (elements (exportedFuncs_ ga))) as Hidxb.
  { unfold exportIndices. by rewrite Hexpb. }
  assert (NoDup (exportIndices gb)) as Hnd.
  { rewrite Hidxb, merge_sort_Permutation. apply NoDup_elements. }
  pose proof (preserves_Ok _ _ _ _ _ (linkCompiledCode_exportedFuncs stubCode) Hlink)
    as Hsetc.
  rewrite linkCompiledCode_unfold in Hlink.
  destruct (MacroAssembler.oom _); [done|].
  unfold appendTables in Hlink. apply bind_Ok in Hlink as ([] & g1 & H1 & Hlink).
  apply (preserves_Ok _ _ _ _ _
           (appendTables_rest_funcExports stubCode (appendOffset gb))) in Hlink.
  apply appendCodeRanges_funcExports in H1 as [Hexpc _]; [|exact Hnd].
  change (funcExports_of (appended stubCode gb)) with (funcExports_of gb) in Hexpc.
  rewrite <- Hlink, Hexpb, HB in Hexpc. clear Hlink g1.
  (* the last pass and the far jumps *)
  pose proof (preserves_Ok _ _ _ _ _
                (finishLinking_preserves exportedFuncs_
                   ltac:(done) ltac:(done) ltac:(done) ltac:(done) ltac:(done)
                   ltac:(done) isAsmJS AsmJSFirstDefFuncIndex) Hfl) as Hsetd.
  apply finishLinking_Ok in Hfl as (g1 & callPatches & Hpass & ->).
  apply (preserves_Ok _ _ _ _ _ linkCallSites_funcExports) in Hpass as Hexpd.
  set (gd := with_patchedFarJumps _ g1) in *.
  change (funcExports_of gd) with (funcExports_of g1) in *.
  (* the metadata *)
  unfold finishMetadata in Hfin.
  destruct (negb (codeRangesSorted 0 _)); [done|].
  destruct (negb (debugTrapFarJumpOffsetsSorted 0 _)); [done|].
  injection Hfin as Hfin. cbv zeta in Hfin.
  apply bind_Ok in Hfin as (exports1 & g2 & H0 & Hfin). apply gets_Ok in H0 as [-> ->].
  apply bind_Ok in Hfin as (exports' & g2 & Hmap & Hfin).
  apply mapM_Ok in Hmap as [-> Hmap].
  2:{ intros fe g3 y g4 H. apply bind_Ok in H as (v & g5 & H0 & H).
      apply gets_Ok in H0 as [-> ->]. apply bind_Ok in H as (i & g5 & H0 & H).
      apply at_Ok in H0 as [_ ->]. by apply ret_Ok in H as [_ ->]. }
  apply bind_Ok in Hfin as ([] & g2 & H0 & Hfin). apply modify_Ok in H0. subst g2.
  apply bind_Ok in Hfin as (indices' & g2 & Hind & Hfin).
  apply mapM_Ok in Hind as [-> _].
  2:{ intros elems g3 y g4 H. apply mapM_Ok in H as [-> _]; [done|].
      intros f g5 i g6 H'. by apply lookup_index_Ok in H' as [-> _]. }
  apply bind_Ok in Hfin as ([] & gm & Hmove & Hfin).
  apply ret_Ok in Hfin as [_ Hgm]. subst gm.
  set (ge := set_metadataTier_ _ gd) in *.
  assert (exportedFuncs_ g' = exportedFuncs_ gd /\
          funcExports_of g' = exports' /\
          (if debugEnabled then MetadataTier.debugFuncToCodeRange (metadataTier_ g')
           else funcToCodeRange_ g') = funcToCodeRange_ gd) as (Hsete & Hfe & Hvec).
  { destruct debugEnabled.
    - apply modify_Ok in Hmove. subst g'. done.
    - apply ret_Ok in Hmove as [_ ->]. done. }
  assert (exportedFuncs_ g' = exportedFuncs_ ga) as Hset'.
  { congruence. }
  assert (Forall2 (fun fe fe' =>
                     exists codeRangeIndex,
                       funcToCodeRange !! Z.to_nat (FuncExport.funcIndex fe)
                         = Some codeRangeIndex /\
                       fe' = FuncExport_initCodeRangeIndex codeRangeIndex
                               (withEntryOffsets
                                  (map (fun cr => CodeRange.offsetBy cr (appendOffset g))
                                       (codeRanges stubCode)) fe))
                  (funcExports_of ga) (funcExports_of g')) as Hall.
  { rewrite Hfe. unfold funcToCodeRange. rewrite Hvec.
    change (MetadataTier.funcExports (metadataTier_ gd)) with (funcExports_of g1) in Hmap.
    rewrite Hexpd, Hexpc in Hmap. apply Forall2_fmap_l in Hmap.
    eapply list.Forall2_impl; [exact Hmap|]. cbv beta. intros fe fe' H.
    apply bind_Ok in H as (v & g5 & H0 & H). apply gets_Ok in H0 as [-> ->].
    apply bind_Ok in H as (i & g5 & H0 & H). apply at_Ok in H0 as [Hi ->].
    apply ret_Ok in H as [-> _]. exists i. split; [|done].
    rewrite <- Hi. f_equal. f_equal.
    pose proof (withEntryOffsets_funcIndex
                  (map (fun cr => CodeRange.offsetBy cr (appendOffset g))
                       (codeRanges stubCode)) [fe]) as Hfi.
    by injection Hfi as ->. }
  assert (exportIndices g' = FuncExport.funcIndex <$> funcExports_of ga) as Hidx'.
  { unfold exportIndices. clear -Hall.
    induction Hall as [|fe fe' l l' (i & _ & ->) _ IH]; [done|].
    cbn. rewrite IH. f_equal.
    pose proof (withEntryOffsets_funcIndex
                  (map (fun cr => CodeRange.offsetBy cr (appendOffset g))
                       (codeRanges stubCode)) [fe]) as Hfi.
    by injection Hfi as ->. }
  exists (funcExports_of ga), stubCode.
  split; [by rewrite <- Himp|]. split; [by rewrite Hset'|].
  split; [intros f; by rewrite Hset'|]. split; [exact Hidx'|].
  split; [|exact Hall].
  rewrite Hidx'. change (FuncExport.funcIndex <$> funcExports_of ga) with (exportIndices ga).
  rewrite Hidx. apply strictly_sorted_merge_sort, NoDup_elements.
Qed.

(** ** Slots are assigned once *)






















(** ** One island for each far jump that a pass records *)

Lemma linkCallSite_emits cs t ex exT g r g' :
  PlatformOk -> 0 <= size_of g ->
  linkCallSite cs t ex exT g = Ok r g' ->
  exists islands,
    codeRanges_of g' = codeRanges_of g ++ (islandRange <$> islands) /\
    callFarJumps_ g' = callFarJumps_ g ++ omap callFarJumpOf islands /\
    trapFarJumps_ g' = trapFarJumps_ g ++ omap trapFarJumpOf islands /\
    debugTrapFarJumps_ g' = debugTrapFarJumps_ g ++ omap debugTrapFarJumpOf islands /\
    islandsFrom (size_of g) islands /\
    size_of g' = size_of g + islandsSize islands.
Proof.
  intros Hisa Hsz H. linkCallSite_cases H.
  all: unfold codeRanges_of, size_of; no_wrap Hisa.
  all: try (exists []; cbn; rewrite ?app_nil_r; repeat split; try reflexivity; lia).
  all: match goal with
    | |- context [ {| CallFarJump.funcIndex := ?f; CallFarJump.jump := _ |} ] =>
        exists [CallIsland f (MacroAssembler.size (masm_ g))]
    | |- context [ {| TrapFarJump.trap := ?t; TrapFarJump.jump := _ |} ] =>
        exists [TrapIsland t (MacroAssembler.size (masm_ g))]
    | |- _ => exists [DebugTrapIsland (MacroAssembler.size (masm_ g))]
    end.
  all: unfold islandRange, islandsSize, callIsland, trapIsland; cbn.
  all: repeat split; rewrite ?app_nil_r; try reflexivity; try lia.
  all: f_equal; f_equal; try lia.
  all: unfold CodeRange.island, trapIsland; f_equal; lia.
Qed.


Lemma islandSize_nonneg i : PlatformOk -> 0 <= islandSize i.
Proof. intros [_ _ Hfj Htls]. destruct i; cbn; lia. Qed.

Lemma islandsSize_nonneg islands : PlatformOk -> 0 <= islandsSize islands.
Proof.
  intros Hisa. induction islands as [|i islands IH]; cbn [islandsSize]; [lia|].
  pose proof (islandSize_nonneg i Hisa). lia.
Qed.

Lemma islandsSize_app l1 l2 :
  islandsSize (l1 ++ l2) = islandsSize l1 + islandsSize l2.
Proof.
  induction l1 as [|i l1 IH]; cbn [islandsSize app]; lia.
Qed.

Lemma islandsFrom_app from l1 l2 :
  islandsFrom from l1 -> islandsFrom (from + islandsSize l1) l2 ->
  islandsFrom from (l1 ++ l2).
Proof.
  revert from. induction l1 as [|i l1 IH]; intros from H1 H2;
    cbn [islandsFrom islandsSize app] in *.
  - by rewrite Z.add_0_r in H2.
  - destruct H1 as [Hi H1]. split; [exact Hi|]. apply IH; [exact H1|].
    by rewrite <- Z.add_assoc.
Qed.

Lemma linkCallSites_loop_emits pending ex exT g g' :
  PlatformOk -> 0 <= size_of g ->
  linkCallSites_loop pending ex exT g = Ok tt g' ->
  exists islands, emits (size_of g) islands g g'.
Proof.
  intros Hisa. revert ex exT g.
  induction pending as [|cs pending IH]; intros ex exT g Hsz H;
    cbn [linkCallSites_loop] in H.
  - injection H as <-. exists []. unfold emits. cbn. rewrite !app_nil_r.
    repeat split; lia.
  - apply bind_Ok in H as (i & g0 & H0 & H). apply gets_Ok in H0 as [-> ->].
    apply bind_Ok in H as (targets & g0 & H0 & H). apply gets_Ok in H0 as [-> ->].
    apply bind_Ok in H as (target & g0 & H0 & H). apply at_Ok in H0 as [_ ->].
    apply bind_Ok in H as (existing & g1 & Hstep & H).
    apply bind_Ok in H as ([] & g2 & H0 & H). apply modify_Ok in H0. subst g2.
    apply (linkCallSite_emits _ _ _ _ _ _ _ Hisa Hsz) in Hstep
      as (l1 & R1 & J1 & T1 & D1 & F1 & S1).
    pose proof (islandsSize_nonneg l1 Hisa) as Hl1.
    apply IH in H as (l2 & R2 & J2 & T2 & D2 & F2 & S2);
      [|change (size_of (set_lastPatchedCallSite_ _ g1)) with (size_of g1); lia].
    change (size_of (set_lastPatchedCallSite_ _ g1)) with (size_of g1) in F2, S2.
    change (codeRanges_of (set_lastPatchedCallSite_ _ g1)) with (codeRanges_of g1) in R2.
    change (callFarJumps_ (set_lastPatchedCallSite_ _ g1)) with (callFarJumps_ g1) in J2.
    change (trapFarJumps_ (set_lastPatchedCallSite_ _ g1)) with (trapFarJumps_ g1) in T2.
    change (debugTrapFarJumps_ (set_lastPatchedCallSite_ _ g1))
      with (debugTrapFarJumps_ g1) in D2.
    exists (l1 ++ l2). unfold emits.
    rewrite fmap_app, !omap_app, islandsSize_app, !app_assoc.
    rewrite R2, R1, J2, J1, T2, T1, D2, D1, S2, S1.
    repeat split; try reflexivity; [|lia].
    apply islandsFrom_app; [exact F1|]. by rewrite <- S1.
Qed.

Lemma linkCallSites_emits g g' :
  PlatformOk -> 0 <= size_of g ->
  linkCallSites g = Ok tt g' ->
  exists islands, emits (appendOffset g) islands g g'.
Proof.
  intros Hisa Hsz. unfold linkCallSites. unfold_prims. intros H.
  apply bind_Ok in H as ([] & g1 & H0 & H). apply modify_Ok in H0. subst g1.
  apply bind_Ok in H as (i & g0 & H0 & H). apply gets_Ok in H0 as [-> ->].
  apply bind_Ok in H as (cs & g0 & H0 & H). apply gets_Ok in H0 as [-> ->].
  apply bind_Ok in H as ([] & g1 & Hloop & H).
  apply bind_Ok in H as (oom & g0 & H0 & H). apply gets_Ok in H0 as [-> ->].
  destruct (MacroAssembler.oom (masm_ g1)); [done|]. injection H as <-.
  apply linkCallSites_loop_emits in Hloop; [exact Hloop|exact Hisa|].
  pose proof (appendOffset_ge g Hisa). unfold appendOffset, size_of in *. cbn. lia.
Qed.

(** ** Waiting for the helper threads *)

Lemma noblock_ret {A} (a : A) : noblock (ret a).
Proof. by intros g g'. Qed.

Lemma noblock_bind {A B} (m : M A) (k : A -> M B) :
  noblock m -> (forall a, noblock (k a)) -> noblock (bind m k).
Proof.
  intros Hm Hk g g'. unfold bind.
  destruct (m g) as [a g1|g1|g1|f] eqn:E; [apply Hk|done|by apply Hm in E|done].
Qed.

Lemma noblock_gets {A} (p : ModuleGenerator -> A) : noblock (gets p).
Proof. by intros g g'. Qed.

Lemma noblock_modify f : noblock (modify f).
Proof. by intros g g'. Qed.

Lemma noblock_fail {A} : noblock (@fail A).
Proof. by intros g g'. Qed.

Lemma noblock_abort {A} f : noblock (@abort A f).
Proof. by intros g g'. Qed.

Lemma noblock_MOZ_ASSERT b f : noblock (MOZ_ASSERT b f).
Proof. intros g g'. by destruct b. Qed.

Lemma noblock_at {A} (v : list A) i : noblock (at_ v i).
Proof. intros g g'. unfold at_. by destruct (v !! Z.to_nat i). Qed.

Lemma noblock_forEach {A} (l : list A) body :
  (forall x, noblock (body x)) -> noblock (forEach l body).
Proof.
  intros Hb. induction l as [|x l IH]; cbn [forEach]; [apply noblock_ret|].
  apply noblock_bind; [apply Hb|by intros ?].
Qed.

Lemma noblock_AppendForEach {T} (dstVec : ModuleGenerator -> list T) set_dstVec srcVec op :
  (forall i x, noblock (op i x)) -> noblock (AppendForEach dstVec set_dstVec srcVec op).
Proof.
  intros Hop. induction srcVec as [|x l IH]; cbn [AppendForEach]; [apply noblock_ret|].
  apply noblock_bind; [apply noblock_gets|intros ?].
  apply noblock_bind; [apply Hop|intros ?].
  apply noblock_bind; [apply noblock_modify|by intros ?].
Qed.

Ltac noblock_step :=
  lazymatch goal with
  | |- noblock (bind _ _) => apply noblock_bind; [|intros ?]
  | |- noblock (AppendForEach _ _ _ _) => apply noblock_AppendForEach; intros ? ?
  | |- noblock (forEach _ _) => apply noblock_forEach; intros ?
  | |- noblock (ret _) => apply noblock_ret
  | |- noblock (gets _) => apply noblock_gets
  | |- noblock (modify _) => apply noblock_modify
  | |- noblock fail => apply noblock_fail
  | |- noblock (abort _) => apply noblock_abort
  | |- noblock (MOZ_ASSERT _ _) => apply noblock_MOZ_ASSERT
  | |- noblock (at_ _ _) => apply noblock_at
  | |- noblock (if ?b then _ else _) => destruct b
  | |- noblock (match ?x with _ => _ end) => destruct x
  | |- noblock (let _ := _ in _) => cbv zeta
  end.

Lemma linkCallSites_noblock : noblock linkCallSites.
Proof.
  assert (forall cs t ex exT, noblock (linkCallSite cs t ex exT)) as Hone.
  { intros cs t ex exT. unfold linkCallSite. unfold_prims. cbv zeta.
    destruct (CallSite.kind cs); repeat noblock_step. }
  assert (forall pending ex exT, noblock (linkCallSites_loop pending ex exT)) as Hloop.
  { intros pending. induction pending as [|cs pending IH]; intros ex exT;
      cbn [linkCallSites_loop]; [apply noblock_ret|].
    repeat first [apply Hone | apply IH | noblock_step]. }
  unfold linkCallSites. unfold_prims.
  repeat first [apply Hloop | noblock_step].
Qed.

Lemma linkCompiledCode_noblock code : noblock (linkCompiledCode code).
Proof.
  assert (forall i cr, noblock (noteCodeRange i cr)) as Hnote.
  { intros i cr. unfold noteCodeRange, note. destruct (CodeRange.kind cr);
      repeat noblock_step. }
  unfold linkCompiledCode. unfold_prims.
  repeat first [apply Hnote | noblock_step].
Qed.

Lemma finishTask_noblock task : noblock (finishTask task).
Proof.
  unfold finishTask. unfold_prims.
  repeat first [apply linkCallSites_noblock | apply linkCompiledCode_noblock | noblock_step].
Qed.

Lemma finishTask_taskState task : preserves taskState_ (finishTask task).
Proof.
  unfold finishTask. unfold_prims.
  apply preserves_bind; [apply preserves_modify; done|intros ?].
  apply preserves_bind; [apply preserves_gets|intros ?].
  apply preserves_bind; [apply preserves_at|intros ?].
  apply preserves_bind; [apply preserves_gets|intros ?].
  apply preserves_bind; [apply preserves_gets|intros ?].
  apply preserves_bind.
  { destruct (negb _); [|apply preserves_ret].
    apply preserves_bind; [apply preserves_modify; done|intros ?].
    apply linkCallSites_preserves; done. }
  intros ?. apply preserves_bind.
  { unfold linkCompiledCode. unfold_prims.
    repeat first
      [ apply noteCodeRange_preserves; intros ? ?; reflexivity
      | progress pres_with ltac:(reflexivity) ]. }
  intros ?. pres_with ltac:(reflexivity).
Qed.

Lemma launchBatchCompile_noblock : noblock launchBatchCompile.
Proof.
  unfold launchBatchCompile.
  repeat first [apply finishTask_noblock | noblock_step].
Qed.

(** [launchBatchCompile] leaves the results of the helper threads alone,
    and counts the task as outstanding when it hands it to one of them. *)
Lemma launchBatchCompile_launches g g' :
  0 <= outstanding_ g < UINT32_MAX ->
  launchBatchCompile g = Ok tt g' ->
  taskState_ g' = taskState_ g /\
  outstanding_ g' = outstanding_ g + (if parallel_ g then 1 else 0).
Proof.
  intros Hout H. unfold launchBatchCompile in H.
  apply bind_Ok in H as ([] & g1 & H1 & H). apply modify_Ok in H1. subst g1.
  apply bind_Ok in H as (cur & g0 & H1 & H). apply gets_Ok in H1 as [-> ->].
  cbn [currentTask_ set_launched_] in H.
  destruct (currentTask_ g) as [task|] eqn:Hcur; [|done].
  apply bind_Ok in H as (c & g0 & H1 & H). apply gets_Ok in H1 as [-> ->].
  destruct (cancelled_ _); [done|].
  apply bind_Ok in H as (par & g0 & H1 & H). apply gets_Ok in H1 as [-> ->].
  apply bind_Ok in H as ([] & g1 & H1 & H).
  apply bind_Ok in H as ([] & g2 & H2 & H). apply modify_Ok in H2. subst g2.
  apply modify_Ok in H. subst g'. cbn in *.
  destruct (parallel_ g).
  - destruct (StartOffThreadWasmCompile task); [|done].
    apply modify_Ok in H1. subst g1. cbn. split; [done|].
    apply wrap32_small. unfold is_u32, UINT32_MAX in *. lia.
  - apply bind_Ok in H1 as (tasks & g0 & H2 & H1). apply gets_Ok in H2 as [-> ->].
    apply bind_Ok in H1 as (t & g0 & H2 & H1). apply at_Ok in H2 as [_ ->].
    destruct (ExecuteCompileTask t) as [t'|e|f]; [| |done].
    2:{ apply bind_Ok in H1 as ([] & g2 & H2 & H1). done. }
    apply bind_Ok in H1 as ([] & g2 & H2 & H1). apply modify_Ok in H2. subst g2.
    pose proof (preserves_Ok outstanding_ _ _ _ _ (finishTask_outstanding task) H1) as Ho.
    pose proof (preserves_Ok taskState_ _ _ _ _ (finishTask_taskState task) H1) as Hts.
    cbn in Ho, Hts. split; [done|lia].
Qed.

(** A turn of the wait loop that goes on has taken the last of the tasks
    that the helper threads have finished. *)
Lemma finishOutstandingTask_takes g g' :
  finishOutstandingTask g = Ok tt g' ->
  exists task, finished (taskState_ g) = finished (taskState_ g') ++ [task].
Proof.
  unfold finishOutstandingTask. intros H.
  apply bind_Ok in H as (par & g0 & H1 & H). apply gets_Ok in H1 as [-> ->].
  apply bind_Ok in H as ([] & g0 & H1 & H). apply MOZ_ASSERT_Ok in H1 as [_ ->].
  apply bind_Ok in H as (out & g0 & H1 & H). apply gets_Ok in H1 as [-> ->].
  apply bind_Ok in H as ([] & g0 & H1 & H). apply MOZ_ASSERT_Ok in H1 as [_ ->].
  apply bind_Ok in H as (ts & g0 & H1 & H). apply gets_Ok in H1 as [-> ->].
  destruct (0 <? numFailed _); [done|].
  unfold popCopy in H.
  destruct (list.last (finished (taskState_ g))) as [task|] eqn:Hlast; [|done].
  apply bind_Ok in H as ([] & g1 & H1 & H). apply modify_Ok in H1. subst g1.
  apply bind_Ok in H as ([] & g1 & H1 & H). apply modify_Ok in H1. subst g1.
  apply (preserves_Ok taskState_ _ _ _ _ (finishTask_taskState task)) in H.
  cbn in H. exists task. rewrite H. cbn.
  apply last_Some in Hlast as [l' Hl']. rewrite Hl'. by rewrite removelast_last.
Qed.

(** The coordinator waits only in the wait loop, when no task has failed
    and none is finished. *)
Lemma finishOutstandingTask_waits g g' :
  finishOutstandingTask g = Blocked g' ->
  g' = g /\ parallel_ g = true /\ 0 < outstanding_ g /\
  ~ 0 < numFailed (taskState_ g) /\ finished (taskState_ g) = [].
Proof.
  unfold finishOutstandingTask, bind, gets, MOZ_ASSERT, ret, abort, fail, modify.
  destruct (parallel_ g) eqn:Hp; [|done].
  destruct (Z.ltb_spec 0 (outstanding_ g)) as [Ho|Ho]; [|done].
  destruct (Z.ltb_spec 0 (numFailed (taskState_ g))) as [Hf|Hf]; [done|].
  unfold popCopy.
  destruct (list.last (finished (taskState_ g))) as [task|] eqn:Hlast.
  - intros H. by apply finishTask_noblock in H.
  - intros [= <-]. apply last_None in Hlast. repeat split; [done|lia|done].
Qed.

Lemma finishOutstandingTasks_turns fuel g r :
  0 <= outstanding_ g <= UINT32_MAX + 1 ->
  finishOutstandingTasks fuel g = Some r ->
  (forall g', r = Ok tt g' ->
     Z.of_nat (length (finished (taskState_ g))) =
     Z.of_nat (length (finished (taskState_ g'))) + outstanding_ g) /\
  (forall g', r = Blocked g' ->
     parallel_ g' = true /\ 0 < outstanding_ g' /\
     ~ 0 < numFailed (taskState_ g') /\ finished (taskState_ g') = [] /\
     Z.of_nat (length (finished (taskState_ g))) + outstanding_ g' = outstanding_ g).
Proof.
  revert g. induction fuel as [|fuel IH]; intros g Hmax H; cbn [finishOutstandingTasks] in H.
  - destruct (Z.ltb_spec 0 (outstanding_ g)); [done|]. injection H as <-.
    split; [intros g' [= <-]; lia|done].
  - destruct (Z.ltb_spec 0 (outstanding_ g)) as [Hpos|Hle];
      [|injection H as <-; split; [intros g' [= <-]; lia|done]].
    destruct (finishOutstandingTask g) as [[] g1|g1|g1|f] eqn:Hstep.
    + pose proof (finishOutstandingTask_outstanding g g1 ltac:(lia) Hstep) as [_ Hout].
      apply finishOutstandingTask_takes in Hstep as [task Htake].
      apply IH in H as [HOk HBl]; [|lia].
      rewrite Htake, length_app. cbn [length]. split.
      * intros g' Hr. specialize (HOk g' Hr). lia.
      * intros g' Hr. destruct (HBl g' Hr) as (? & ? & ? & ? & ?).
        repeat split; try done. lia.
    + injection H as <-. by split.
    + injection H as <-. split; [done|]. intros g' [= <-].
      apply finishOutstandingTask_waits in Hstep as (-> & Hp & Ho & Hf & Hfin).
      rewrite Hfin. cbn. repeat split; done.
    + injection H as <-. by split.
Qed.

(** X10.  [finishFuncDefs] waits for no more than the helper threads owe
    it.  Its loop takes one finished task in every turn; the coordinator
    is suspended only in the loop, with a task still outstanding, none
    failed and none finished, after it has taken every task that was
    finished, fewer than were outstanding (counting the current task when
    it is handed to a helper thread).  When it returns true it has taken
    exactly as many finished tasks as were outstanding, no task is current
    or outstanding any more, every task that was current or outstanding is
    free again, and no bytecode is batched (when none was batched without a
    current task before). *)
Theorem finishFuncDefs_frees_every_task isAsmJS env_numFuncDefs fuel g :
  0 <= outstanding_ g < UINT32_MAX ->
  (Z.to_nat (outstanding_ g) < fuel)%nat ->
  let handed :=
    match currentTask_ g with
    | Some _ => if parallel_ g then 1 else 0
    | None => 0
    end in
  exists r,
    finishFuncDefs isAsmJS env_numFuncDefs fuel g = Some r /\
    (forall g', r = inr (Ok tt g') ->
       currentTask_ g' = None /\ outstanding_ g' = 0 /\
       Z.of_nat (length (freeTasks_ g')) =
         Z.of_nat (length (freeTasks_ g)) + outstanding_ g +
         (if currentTask_ g then 1 else 0) /\
       Z.of_nat (length (finished (taskState_ g))) =
         Z.of_nat (length (finished (taskState_ g'))) + outstanding_ g + handed /\
       ((currentTask_ g = None -> batchedBytecode_ g = 0) -> batchedBytecode_ g' = 0)) /\
    (forall g', r = inr (Blocked g') ->
       parallel_ g' = true /\ 0 < outstanding_ g' /\
       ~ 0 < numFailed (taskState_ g') /\ finished (taskState_ g') = [] /\
       Z.of_nat (length (finished (taskState_ g))) + outstanding_ g' =
         outstanding_ g + handed).
Proof.
  intros Hout Hfuel handed. unfold finishFuncDefs.
  destruct ((let* current := gets currentTask_ in
             match current with Some _ => launchBatchCompile | None => ret tt end) g)
    as [[] g1|g1|g1|f] eqn:Hlaunch.
  2,4: by eexists; split; [reflexivity|split; intros g'].
  2:{ exfalso. unfold bind, gets in Hlaunch. destruct (currentTask_ g); [|done].
      by apply launchBatchCompile_noblock in Hlaunch. }
  apply bind_Ok in Hlaunch as (cur & g0 & H0 & Hlaunch). apply gets_Ok in H0 as [-> ->].
  assert (((currentTask_ g = None -> batchedBytecode_ g = 0) -> batchedBytecode_ g1 = 0) /\
          currentTask_ g1 = None /\ 0 <= outstanding_ g1 <= UINT32_MAX /\
          (length (freeTasks_ g) <= length (freeTasks_ g1))%nat /\
          Z.of_nat (length (freeTasks_ g1)) + outstanding_ g1 =
          Z.of_nat (length (freeTasks_ g)) + outstanding_ g +
          (if currentTask_ g then 1 else 0) /\
          taskState_ g1 = taskState_ g /\
          outstanding_ g1 = outstanding_ g + handed)
    as (Hb1 & Hcur1 & Hout1 & Hle1 & Hfree1 & Hts1 & Hhanded).
  { subst handed. destruct (currentTask_ g) as [task|] eqn:Hcur.
    - pose proof (launchBatchCompile_batch g g1 Hlaunch) as (_ & _ & Hb).
      pose proof (launchBatchCompile_launches g g1 Hout Hlaunch) as [Hts Ho].
      apply launchBatchCompile_frees in Hlaunch as (_ & ? & ? & ? & ?); [|done]. done.
    - apply ret_Ok in Hlaunch as [_ ->]. split; [by intros Hb; apply Hb|].
      split; [done|]. repeat split; lia. }
  assert (outstanding_ g1 <= outstanding_ g + 1) as Hle2
    by (destruct (currentTask_ g); lia).
  destruct (finishOutstandingTasks_ends fuel g1) as (r & Hr & _); [lia|lia|].
  rewrite Hr.
  pose proof (finishOutstandingTasks_turns fuel g1 r ltac:(lia) Hr) as [HOk HBl].
  rewrite Hts1 in HOk, HBl.
  destruct r as [[] g2|g2|g2|f].
  2,4: by eexists; split; [reflexivity|split; intros g'].
  2:{ eexists. split; [reflexivity|]. split; [done|]. intros g' [= <-].
      destruct (HBl g2 eq_refl) as (? & ? & ? & ? & ?). repeat split; try done. lia. }
  apply finishOutstandingTasks_frees in Hr as (H0 & Hc & Hb & Hf); [|lia].
  specialize (HOk g2 eq_refl).
  destruct (negb isAsmJS && negb (numFuncDefs_ g2 =? env_numFuncDefs)) eqn:Hassert.
  - eexists. split; [reflexivity|]. by split; intros g'.
  - eexists. split; [reflexivity|]. split; [|done]. intros g' [= <-].
    split; [congruence|]. split; [done|]. split; [lia|]. split; [lia|].
    intros Hnone. rewrite Hb. by apply Hb1.
Qed.

End Generator.

(** ** Islands across passes *)

(** C4.  In one pass over the call sites, everything the pass adds is the
    islands of one list, laid end to end from the append offset: the code
    ranges it records are the ranges of these islands, the far jumps it
    records are theirs, and the bytes it emits are their bytes.  The islands
    of calls in the list are for distinct callees and the islands of traps
    for distinct traps: one island for each; every call that needs an island
    for a callee and every trap exit of a trap is patched to the island of
    that callee or trap.  A later pass can record another island for a callee
    that has one already. *)
Theorem one_island_per_target_in_a_pass :
  (forall JitOptions isa g g',
     PlatformOk isa -> 0 <= size_of g -> 0 <= lastPatchedCallSite_ g ->
     Z.of_nat (length (callSites_of g)) <= UINT32_MAX ->
     linkCallSites JitOptions isa g = Ok tt g' ->
     exists (islandOf : Z -> option Z) (trapIslandOf : Trap -> option Z)
            addP addR newJ newT islands,
       patchedCalls_of g' = patchedCalls_of g ++ addP /\
       codeRanges_of g' = codeRanges_of g ++ addR /\
       callFarJumps_ g' = callFarJumps_ g ++ newJ /\
       trapFarJumps_ g' = trapFarJumps_ g ++ newT /\
       debugTrapFarJumps_ g' =
         debugTrapFarJumps_ g ++ omap (debugTrapFarJumpOf isa) islands /\
       addR = islandRange isa <$> islands /\
       newJ = omap (callFarJumpOf isa) islands /\
       newT = omap (trapFarJumpOf isa) islands /\
       islandsFrom isa (appendOffset isa g) islands /\
       size_of g' = appendOffset isa g + islandsSize isa islands /\
       NoDup (CallFarJump.funcIndex <$> newJ) /\
       NoDup (TrapFarJump.trap <$> newT) /\
       (forall f p, islandOf f = Some p ->
          CodeRange.island p (p + FarJumpSize isa) ∈ addR /\
          callIsland isa f p ∈ newJ) /\
       (forall t p, trapIslandOf t = Some p ->
          CodeRange.island p (p + TlsReloadSize isa + FarJumpSize isa) ∈ addR /\
          trapIsland isa t p ∈ newT) /\
       (forall i cs f,
          pending g i cs (TargetFunc f) -> CallSite.kind cs = CallSiteDesc.Func ->
          needs_island JitOptions isa g cs f ->
          exists p, islandOf f = Some p /\
                    (CallSite.returnAddressOffset cs, p) ∈ addP) /\
       (forall i cs t,
          pending g i cs (TargetTrap t) -> CallSite.kind cs = CallSiteDesc.TrapExit ->
          exists p, trapIslandOf t = Some p /\
                    (CallSite.returnAddressOffset cs, p) ∈ addP)) /\
  (exists JitOptions isa g g1 code g2 g3 f p p',
     linkCallSites JitOptions isa g = Ok tt g1 /\
     linkCompiledCode isa code g1 = Ok tt g2 /\
     linkCallSites JitOptions isa g2 = Ok tt g3 /\
     p <> p' /\
     callFarJumps_ g1 = callFarJumps_ g ++ [callIsland isa f p] /\
     callFarJumps_ g3 = callFarJumps_ g2 ++ [callIsland isa f p']).
Proof.
  split.
  - intros JitOptions isa g g' Hisa Hsize Hlast Hlen Hpass.
    destruct (linkCallSites_islands_shared JitOptions isa g g' Hisa Hsize Hlast Hlen Hpass)
      as (islandOf & trapIslandOf & addP & addR & newJ & newT &
          HP & HR & HJ & HT & NJ & NT & HI & HIT & HC & HCT).
    destruct (linkCallSites_emits JitOptions isa g g' Hisa Hsize Hpass)
      as (islands & ER & EJ & ET & ED & EF & ES).
    assert (addR = islandRange isa <$> islands) as HaddR
      by (rewrite HR in ER; exact (app_inv_head _ _ _ ER)).
    assert (newJ = omap (callFarJumpOf isa) islands) as HnewJ
      by (rewrite HJ in EJ; exact (app_inv_head _ _ _ EJ)).
    assert (newT = omap (trapFarJumpOf isa) islands) as HnewT
      by (rewrite HT in ET; exact (app_inv_head _ _ _ ET)).
    exists islandOf, trapIslandOf, addP, addR, newJ, newT, islands.
    repeat (split; [assumption|]). split; [|split; [|split; [exact HC|exact HCT]]].
    + intros f p Hp. destruct (HI f p Hp) as (_ & ? & ?). by split.
    + intros t p Hp. destruct (HIT t p Hp) as (_ & ? & ?). by split.
  - exists ex_JitOptions, ex_isa, (after (linkCompiledCode ex_isa ex_code0) ex_g0).
    eexists. exists ex_code1. eexists. eexists. exists 0, 64, 128.
    split; [vm_compute; reflexivity|]. split; [vm_compute; reflexivity|].
    split; [vm_compute; reflexivity|]. split; [lia|].
    split; vm_compute; reflexivity.
Qed.

(** * The theorems at work on the small module *)

Lemma ex_isa_ok : PlatformOk ex_isa.
Proof. split; cbn; unfold UINT32_MAX; lia. Qed.

Lemma ex_codes_in_bytes :
  offsets_in_bytes ex_code0 /\ offsets_in_bytes ex_code1 /\ offsets_in_bytes ex_stubs.
Proof.
  repeat split; repeat constructor; cbn; lia.
Qed.

Lemma ex_codes_ordered : ordered ex_code0 /\ ordered ex_code1 /\ ordered ex_stubs.
Proof.
  repeat split; repeat constructor; cbn; lia.
Qed.

(** The task of function 1, appended to a buffer of 84 bytes, lands at
    offset 96. *)
Lemma linkCompiledCode_rebases_witness :
  let g' := after (linkCompiledCode ex_isa ex_code1) ex_g84 in
  linkCompiledCode ex_isa ex_code1 ex_g84 = Ok tt g' /\
  appendOffset ex_isa ex_g84 = 96 /\
  codeRanges_of g' = [shift_codeRange 96 (ex_function 1 32 0)] /\
  callSites_of g' = [ex_call 104] /\
  trapFarJumps_ g' = [ {| TrapFarJump.trap := 2%nat; TrapFarJump.jump := 112 |} ] /\
  callFarJumps_ g' = [ {| CallFarJump.funcIndex := 0; CallFarJump.jump := 116 |} ] /\
  memoryAccesses_of g' = [ {| MemoryAccess.insnOffset := 100 |} ] /\
  symbolicLinks_of g' 3%nat = [108] /\
  symbolicLinks_of g' 5%nat = [120] /\
  internalLinks_of g' =
    [ {| InternalLink.patchAtOffset := 124; InternalLink.targetOffset := 96 |} ].
Proof.
  cbv zeta. set (g' := after (linkCompiledCode ex_isa ex_code1) ex_g84).
  assert (linkCompiledCode ex_isa ex_code1 ex_g84 = Ok tt g') as Hrun
    by (vm_compute; reflexivity).
  assert (0 <= size_of ex_g84) as Hsize by (cbn; lia).
  destruct (linkCompiledCode_rebases ex_isa ex_code1 ex_g84 g' ex_isa_ok Hsize
              (proj1 (proj2 ex_codes_in_bytes)) Hrun)
    as (H1 & H2 & _ & H4 & H5 & H6 & H7 & H8).
  split; [exact Hrun|]. split; [reflexivity|].
  split; [exact H1|]. split; [exact H2|]. split; [exact H4|]. split; [exact H5|].
  split; [exact H6|]. split; [exact (H7 3%nat)|]. split; [exact (H7 5%nat)|].
  exact H8.
Defined.

(** The tables after both functions and a pass over the call sites. *)
Lemma tables_stay_sorted_witness :
  let g := after (forEach [StepCode ex_code0; StepCallSites; StepCode ex_code1]
                    (runStep ex_JitOptions ex_isa)) ex_g0 in
  linked ex_JitOptions ex_isa g /\
  begins (codeRanges_of g) = [0; 64; 72; 96] /\
  returnAddresses (callSites_of g) = [40; 48; 56; 104] /\
  nondecreasing (begins (codeRanges_of g)) /\
  nondecreasing (returnAddresses (callSites_of g)).
Proof.
  cbv zeta.
  set (g := after _ ex_g0).
  destruct ex_codes_in_bytes as (B0 & B1 & _).
  destruct ex_codes_ordered as (O0 & O1 & _).
  assert (linked ex_JitOptions ex_isa g) as Hlinked.
  { apply (linked_code _ _ ex_code1
             (after (forEach [StepCode ex_code0; StepCallSites]
                       (runStep ex_JitOptions ex_isa)) ex_g0)); [|exact O1|exact B1|].
    - apply (linked_callSites _ _ (after (linkCompiledCode ex_isa ex_code0) ex_g0)).
      + apply (linked_code _ _ ex_code0 ex_g0); [|exact O0|exact B0|].
        * apply linked_new; reflexivity.
        * apply (returns_true _ _ _ tt). vm_compute. reflexivity.
      + apply (returns_true _ _ _ tt). vm_compute. reflexivity.
    - apply (returns_true _ _ _ tt). vm_compute. reflexivity. }
  split; [exact Hlinked|].
  split; [vm_compute; reflexivity|]. split; [vm_compute; reflexivity|].
  exact (tables_stay_sorted ex_JitOptions ex_isa g ex_isa_ok Hlinked).
Defined.

(** The call of function 0 at offset 40: the pass after function 0 patches
    it to the island at offset 64, and at the end the far jump of the island
    goes to the entry of function 0, at offset 4. *)
Lemma far_call_reaches_callee_witness :
  let g := after (linkCompiledCode ex_isa ex_code0) ex_g0 in
  let g1 := after (linkCallSites ex_JitOptions ex_isa) g in
  let steps := [StepCode ex_code1; StepCode ex_stubs] in
  let g2 := after (forEach steps (runStep ex_JitOptions ex_isa)) g1 in
  let g3 := after (finishLinking ex_JitOptions ex_isa false 0) g2 in
  pending g 0 (ex_call 40) (TargetFunc 0) /\
  needs_island ex_JitOptions ex_isa g (ex_call 40) 0 /\
  linkCallSites ex_JitOptions ex_isa g = Ok tt g1 /\
  forEach steps (runStep ex_JitOptions ex_isa) g1 = Ok tt g2 /\
  finishLinking ex_JitOptions ex_isa false 0 g2 = Ok tt g3 /\
  appendOffset ex_isa g = 64 /\
  reaches_callee ex_isa 64 g3 (ex_call 40) 0 /\
  (40, 64) ∈ patchedCalls_of g3 /\ (68, 4) ∈ patchedFarJumps_of g3.
Proof.
  cbv zeta.
  set (g := after (linkCompiledCode ex_isa ex_code0) ex_g0).
  set (g1 := after (linkCallSites ex_JitOptions ex_isa) g).
  set (steps := [StepCode ex_code1; StepCode ex_stubs]).
  set (g2 := after (forEach steps (runStep ex_JitOptions ex_isa)) g1).
  set (g3 := after (finishLinking ex_JitOptions ex_isa false 0) g2).
  assert (pending g 0 (ex_call 40) (TargetFunc 0)) as Hpending.
  { split; [vm_compute; discriminate|]. split; vm_compute; reflexivity. }
  assert (needs_island ex_JitOptions ex_isa g (ex_call 40) 0) as Hneeds
    by (vm_compute; reflexivity).
  assert (linkCallSites ex_JitOptions ex_isa g = Ok tt g1) as H1
    by (vm_compute; reflexivity).
  assert (forEach steps (runStep ex_JitOptions ex_isa) g1 = Ok tt g2) as H2
    by (vm_compute; reflexivity).
  assert (finishLinking ex_JitOptions ex_isa false 0 g2 = Ok tt g3) as H3
    by (vm_compute; reflexivity).
  assert (0 <= size_of g) as Hsize by (vm_compute; discriminate).
  assert (0 <= lastPatchedCallSite_ g) as Hlast by (vm_compute; discriminate).
  assert (Z.of_nat (length (callSites_of g)) <= UINT32_MAX) as Hlen
    by (vm_compute; discriminate).
  pose proof (proj1 (far_call_reaches_callee ex_JitOptions ex_isa false 0 steps g g1 g2 g3
                       0 (ex_call 40) 0 ex_isa_ok Hsize Hlast Hlen Hpending
                       eq_refl Hneeds) H1 H2 H3) as Hreach.
  split; [exact Hpending|]. split; [exact Hneeds|]. split; [exact H1|].
  split; [exact H2|]. split; [exact H3|]. split; [reflexivity|].
  split; [exact Hreach|].
  split; apply (bool_decide_unpack _); vm_compute; reflexivity.
Defined.

(** C3 does not hold as it is stated.  The call of function 0 at offset 40
    needs an island, and no island is in range of it: the islands of the
    pass are at offsets 64 and 72, neither within 16 bytes of offset 40,
    and by the end of the run no code range of an island is. *)
Lemma island_out_of_range :
  let g := after (linkCompiledCode ex_isa ex_code0) ex_g0 in
  let g1 := after (linkCallSites ex_JitOptions ex_isa) g in
  pending g 0 (ex_call 40) (TargetFunc 0) /\
  needs_island ex_JitOptions ex_isa g (ex_call 40) 0 /\
  linkCallSites ex_JitOptions ex_isa g = Ok tt g1 /\
  codeRanges_of g1 =
    [ex_function 0 64 4; CodeRange.island 64 72; CodeRange.island 72 84] /\
  patchedCalls_of g1 = [(40, 64); (48, 64); (56, 72)] /\
  InRange ex_JitOptions ex_isa 40 64 = false /\
  InRange ex_JitOptions ex_isa 40 72 = false /\
  runLinker ex_JitOptions ex_isa false 0 ex_steps ex_g0
    = Ok tt (after (runLinker ex_JitOptions ex_isa false 0 ex_steps) ex_g0) /\
  Forall (fun cr => CodeRange.kind cr = CodeRange.FarJumpIsland ->
                    InRange ex_JitOptions ex_isa 40 (CodeRange.begin cr) = false)
         (codeRanges_of (after (runLinker ex_JitOptions ex_isa false 0 ex_steps) ex_g0)).
Proof.
  cbv zeta.
  split; [split; [vm_compute; discriminate|split; vm_compute; reflexivity]|].
  split; [vm_compute; reflexivity|]. split; [vm_compute; reflexivity|].
  split; [vm_compute; reflexivity|]. split; [vm_compute; reflexivity|].
  split; [vm_compute; reflexivity|]. split; [vm_compute; reflexivity|].
  split; [vm_compute; reflexivity|].
  set (l := codeRanges_of _). vm_compute in l. subst l.
  repeat (apply List.Forall_cons;
          [intros Hk; first [discriminate Hk | vm_compute; reflexivity]|]).
  apply List.Forall_nil.
Qed.

(** The pass after function 0: its two calls share the island at offset 64,
    and its trap exit gets the island at offset 72; the pass adds the
    islands of one list, laid end to end from offset 64, and no other
    byte. *)
Lemma one_island_per_target_in_a_pass_witness :
  let g := after (linkCompiledCode ex_isa ex_code0) ex_g0 in
  let g' := after (linkCallSites ex_JitOptions ex_isa) g in
  linkCallSites ex_JitOptions ex_isa g = Ok tt g' /\
  callFarJumps_ g' = [callIsland ex_isa 0 64] /\
  trapFarJumps_ g' = [trapIsland ex_isa 1 72] /\
  patchedCalls_of g' = [(40, 64); (48, 64); (56, 72)] /\
  codeRanges_of g' =
    codeRanges_of g ++ [CodeRange.island 64 72; CodeRange.island 72 84] /\
  size_of g' = 84 /\
  exists islands,
    codeRanges_of g' = codeRanges_of g ++ (islandRange ex_isa <$> islands) /\
    callFarJumps_ g' = callFarJumps_ g ++ omap (callFarJumpOf ex_isa) islands /\
    trapFarJumps_ g' = trapFarJumps_ g ++ omap (trapFarJumpOf ex_isa) islands /\
    islandsFrom ex_isa 64 islands /\
    size_of g' = 64 + islandsSize ex_isa islands /\
    NoDup (CallFarJump.funcIndex <$> omap (callFarJumpOf ex_isa) islands) /\
    NoDup (TrapFarJump.trap <$> omap (trapFarJumpOf ex_isa) islands).
Proof.
  cbv zeta.
  set (g := after (linkCompiledCode ex_isa ex_code0) ex_g0).
  set (g' := after (linkCallSites ex_JitOptions ex_isa) g).
  assert (linkCallSites ex_JitOptions ex_isa g = Ok tt g') as Hpass
    by (vm_compute; reflexivity).
  assert (0 <= size_of g) as Hsize by (vm_compute; discriminate).
  assert (0 <= lastPatchedCallSite_ g) as Hlast by (vm_compute; discriminate).
  assert (Z.of_nat (length (callSites_of g)) <= UINT32_MAX) as Hlen
    by (vm_compute; discriminate).
  assert (appendOffset ex_isa g = 64) as HB by (vm_compute; reflexivity).
  destruct (proj1 one_island_per_target_in_a_pass ex_JitOptions ex_isa g g'
              ex_isa_ok Hsize Hlast Hlen Hpass)
    as (_ & _ & _ & addR & newJ & newT & islands &
        _ & HR & HJ & HT & _ & ER & EJ & ET & EF & ES & NJ & NT & _).
  rewrite HB in EF, ES. rewrite ER in HR. rewrite EJ in HJ, NJ. rewrite ET in HT, NT.
  split; [exact Hpass|]. split; [vm_compute; reflexivity|].
  split; [vm_compute; reflexivity|]. split; [vm_compute; reflexivity|].
  split; [vm_compute; reflexivity|]. split; [vm_compute; reflexivity|].
  exists islands.
  split; [exact HR|]. split; [exact HJ|]. split; [exact HT|]. split; [exact EF|].
  split; [exact ES|]. split; [exact NJ|exact NT].
Defined.

(** The exports of the small module: function 1 by name, function 0 as the
    start function, functions 2 and 1 through the external table. *)
Lemma funcExports_sorted_and_complete_witness :
  let g0 := ModuleGenerator_new false in
  let g1 := after (init ex_env) g0 in
  let g3 := after (finishFuncExports ex_env) g1 in
  init ex_env g0 = Ok tt g1 /\
  finishFuncExports ex_env g1 = Ok tt g3 /\
  exportIndices g3 = [0; 1; 2] /\
  StronglySorted Z.lt (exportIndices g3) /\
  (forall f, f ∈ exportIndices g3 <-> exported ex_env f).
Proof.
  cbv zeta.
  set (g1 := after (init ex_env) (ModuleGenerator_new false)).
  set (g3 := after (finishFuncExports ex_env) g1).
  assert (init ex_env (ModuleGenerator_new false) = Ok tt g1) as Hinit
    by (vm_compute; reflexivity).
  assert (finishFuncExports ex_env g1 = Ok tt g3) as Hfinish
    by (vm_compute; reflexivity).
  split; [exact Hinit|]. split; [exact Hfinish|].
  split; [vm_compute; reflexivity|].
  exact (funcExports_sorted_and_complete ex_env _ g1 g1 g3 Hinit eq_refl Hfinish).
Defined.

(** Three bodies of 6, 4 and 1 bytes against the threshold of 10 bytes of
    the baseline tier: the second reaches the threshold and stays, the
    third passes it and the batch is compiled. *)
Lemma batch_launched_iff_over_threshold_witness :
  let compileFuncDef' :=
    compileFuncDef ex_JitOptions ex_isa ex_env ex_compile ex_compile (fun _ => true) in
  let g1 := after (compileFuncDef' 0 0 100 106) ex_started in
  let g2 := after (compileFuncDef' 1 0 106 110) g1 in
  let g3 := after (compileFuncDef' 2 0 110 111) g2 in
  (batch_inv g1 /\ compileFuncDef' 1 0 106 110 g1 = Ok tt g2 /\
   batchedBytecode_ g2 = 10 /\ batchThreshold ex_JitOptions ex_env = 10 /\
   launched_ g2 = launched_ g1 /\ length (currentInputs g2) = 2%nat) /\
  (batch_inv g2 /\ compileFuncDef' 2 0 110 111 g2 = Ok tt g3 /\
   launched_ g3 = S (launched_ g2) /\ currentTask_ g3 = None /\
   batchedBytecode_ g3 = 0 /\ length (codeRanges_of g3) = 3%nat).
Proof.
  cbv zeta.
  set (compileFuncDef' :=
         compileFuncDef ex_JitOptions ex_isa ex_env ex_compile ex_compile (fun _ => true)).
  set (g1 := after (compileFuncDef' 0 0 100 106) ex_started).
  set (g2 := after (compileFuncDef' 1 0 106 110) g1).
  set (g3 := after (compileFuncDef' 2 0 110 111) g2).
  assert (batch_inv g1) as Hinv1.
  { split; [vm_compute; reflexivity|].
    intros task t Hin. vm_compute in Hin. inversion Hin. }
  assert (batch_inv g2) as Hinv2.
  { split; [vm_compute; reflexivity|].
    intros task t Hin. vm_compute in Hin. inversion Hin. }
  assert (compileFuncDef' 1 0 106 110 g1 = Ok tt g2) as Hrun2 by (vm_compute; reflexivity).
  assert (compileFuncDef' 2 0 110 111 g2 = Ok tt g3) as Hrun3 by (vm_compute; reflexivity).
  split.
  - pose proof (batch_launched_iff_over_threshold ex_JitOptions ex_isa ex_env
                  ex_compile ex_compile (fun _ => true) 1 0 106 110 g1 g2 Hinv1 Hrun2)
      as (_ & Hstay & _).
    destruct Hstay as (Hl & Hin & Hb); [vm_compute; discriminate|].
    split; [exact Hinv1|]. split; [exact Hrun2|].
    split; [rewrite Hb; vm_compute; reflexivity|]. split; [reflexivity|].
    split; [exact Hl|]. rewrite Hin. vm_compute. reflexivity.
  - pose proof (batch_launched_iff_over_threshold ex_JitOptions ex_isa ex_env
                  ex_compile ex_compile (fun _ => true) 2 0 110 111 g2 g3 Hinv2 Hrun3)
      as (_ & _ & Hlaunch).
    destruct Hlaunch as (Hl & Hc & Hb); [vm_compute; reflexivity|].
    split; [exact Hinv2|]. split; [exact Hrun3|].
    split; [exact Hl|]. split; [exact Hc|]. split; [exact Hb|].
    vm_compute. reflexivity.
Defined.

(** The call of function 0 at offset 40 is out of range of its entry at
    offset 4; a call at offset 12 would be in range. *)
Lemma InRange_branchRange_witness :
  let g := after (linkCompiledCode ex_isa ex_code0) ex_g0 in
  (InRange ex_JitOptions ex_isa 40 4 = false /\
   InRange ex_JitOptions ex_isa 12 4 = true) /\
  funcCodeRange 0 g = Ok (ex_function 0 64 4) g /\
  patchDirect ex_JitOptions ex_isa 40 0 g = Ok false g /\
  patchDirect ex_JitOptions ex_isa 12 0 g
    = Ok true (set_masm_ (masm_patchCall 12 4 (masm_ g)) g).
Proof.
  cbv zeta.
  set (g := after (linkCompiledCode ex_isa ex_code0) ex_g0).
  destruct (InRange_branchRange ex_JitOptions ex_isa) as [Hrange Hpatch].
  assert (forall a, 0 <= a <= 100 -> is_u32 a) as Hu
    by (unfold is_u32, UINT32_MAX; lia).
  assert (funcCodeRange 0 g = Ok (ex_function 0 64 4) g) as Hcr
    by (vm_compute; reflexivity).
  split; [split|split; [exact Hcr|split]].
  - destruct (InRange ex_JitOptions ex_isa 40 4) eqn:E; [|reflexivity].
    apply (Hrange 40 4) in E; [|apply Hu; lia|apply Hu; lia].
    cbn in E. lia.
  - apply (Hrange 12 4); [apply Hu; lia|apply Hu; lia|]. cbn. lia.
  - etrans; [exact (Hpatch (ex_call 40) 0 _ g (Hu 40 ltac:(lia)) Hcr)|reflexivity].
  - etrans; [exact (Hpatch (ex_call 12) 0 _ g (Hu 12 ltac:(lia)) Hcr)|reflexivity].
Defined.




(** An allocation that fits, and one that would pass [UINT32_MAX]. *)
Lemma allocateGlobalBytes_atomic_witness :
  (is_u32 10 /\ is_u32 8 /\ 0 < 4 /\
   allocateGlobalBytes 8 4 {| globalDataLength := 10 |} 0
     = (true, {| globalDataLength := 20 |}, 12)) /\
  (is_u32 (UINT32_MAX - 2) /\ is_u32 8 /\ 0 < 4 /\
   globalDataLength
     (allocateGlobalBytes 8 4 {| globalDataLength := UINT32_MAX - 2 |} 0).1.2
     = UINT32_MAX - 2).
Proof.
  assert (is_u32 10 /\ is_u32 8 /\ is_u32 (UINT32_MAX - 2)) as (H10 & H8 & Hmax)
    by (unfold is_u32, UINT32_MAX; lia).
  assert (0 < 4) as H4 by lia.
  split.
  - split; [exact H10|]. split; [exact H8|]. split; [exact H4|].
    pose proof (allocateGlobalBytes_atomic 10 8 4 0 H10 H8 H4) as H.
    cbv zeta in H. reflexivity.
  - split; [exact Hmax|]. split; [exact H8|]. split; [exact H4|].
    pose proof (allocateGlobalBytes_atomic (UINT32_MAX - 2) 8 4 0 Hmax H8 H4)
      as (_ & H & _).
    apply H. reflexivity.
Defined.

(** ** The further properties at work on the small module *)

(** Function 1, linked after function 0 and a pass, is found at offset 96. *)
Lemma linked_function_is_found_witness :
  let g := after (forEach [StepCode ex_code0; StepCallSites]
                    (runStep ex_JitOptions ex_isa)) ex_g0 in
  let g' := after (linkCompiledCode ex_isa ex_code1) g in
  linkCompiledCode ex_isa ex_code1 g = Ok tt g' /\
  funcIsCompiled 1 g = Ok false g /\
  funcIsCompiled 1 g' = Ok true g' /\
  funcCodeRange 1 g' = Ok (shift_codeRange 96 (ex_function 1 32 0)) g'.
Proof.
  cbv zeta.
  set (g := after (forEach [StepCode ex_code0; StepCallSites]
                     (runStep ex_JitOptions ex_isa)) ex_g0).
  set (g' := after (linkCompiledCode ex_isa ex_code1) g).
  assert (linkCompiledCode ex_isa ex_code1 g = Ok tt g') as Hrun
    by (vm_compute; reflexivity).
  assert (Z.of_nat (length (codeRanges_of g) + length (codeRanges ex_code1)) <= UINT32_MAX)
    as Hlen by (vm_compute; discriminate).
  split; [exact Hrun|].
  exact (linked_function_is_found ex_isa ex_code1 g g' 0 (ex_function 1 32 0)
           Hrun Hlen eq_refl eq_refl).
Defined.

(** Function 0 keeps its code range while function 1 is linked, and its
    task cannot be linked a second time. *)
Lemma compiled_function_is_settled_witness :
  let g := after (linkCompiledCode ex_isa ex_code0) ex_g0 in
  let steps := [StepCallSites; StepCode ex_code1] in
  let g' := after (forEach steps (runStep ex_JitOptions ex_isa)) g in
  funcCodeRange 0 g = Ok (ex_function 0 64 4) g /\
  forEach steps (runStep ex_JitOptions ex_isa) g = Ok tt g' /\
  funcCodeRange 0 g' = Ok (ex_function 0 64 4) g' /\
  linkCompiledCode ex_isa ex_code0 g <> Ok tt g'.
Proof.
  cbv zeta.
  set (g := after (linkCompiledCode ex_isa ex_code0) ex_g0).
  set (steps := [StepCallSites; StepCode ex_code1]).
  set (g' := after (forEach steps (runStep ex_JitOptions ex_isa)) g).
  assert (funcCodeRange 0 g = Ok (ex_function 0 64 4) g) as Hf
    by (vm_compute; reflexivity).
  assert (forEach steps (runStep ex_JitOptions ex_isa) g = Ok tt g') as Hrun
    by (vm_compute; reflexivity).
  destruct (compiled_function_is_settled ex_JitOptions ex_isa 0 _ g Hf) as [Hkeep Honce].
  split; [exact Hf|]. split; [exact Hrun|]. split; [exact (Hkeep steps g' Hrun)|].
  apply (Honce ex_code0 0%nat (ex_function 0 64 4) g'); try reflexivity.
  vm_compute. discriminate.
Defined.

(** After both functions are linked, both are found. *)
Lemma funcCodeRange_of_compiled_witness :
  let steps := [StepCode ex_code0; StepCallSites; StepCode ex_code1] in
  let g := after (forEach steps (runStep ex_JitOptions ex_isa)) ex_g0 in
  no_function_compiled ex_g0 /\
  forEach steps (runStep ex_JitOptions ex_isa) ex_g0 = Ok tt g /\
  funcIsCompiled 1 g = Ok true g /\
  exists cr, funcCodeRange 1 g = Ok cr g /\
             CodeRange.kind cr = CodeRange.Function /\
             Z.to_nat (CodeRange.funcIndex cr) = 1%nat.
Proof.
  cbv zeta.
  set (steps := [StepCode ex_code0; StepCallSites; StepCode ex_code1]).
  set (g := after (forEach steps (runStep ex_JitOptions ex_isa)) ex_g0).
  assert (no_function_compiled ex_g0) as Hnone by (repeat constructor).
  assert (forEach steps (runStep ex_JitOptions ex_isa) ex_g0 = Ok tt g) as Hrun
    by (vm_compute; reflexivity).
  assert (Z.of_nat (length (codeRanges_of g)) <= UINT32_MAX) as Hlen
    by (vm_compute; discriminate).
  assert (funcIsCompiled 1 g = Ok true g) as Hc by (vm_compute; reflexivity).
  split; [exact Hnone|]. split; [exact Hrun|]. split; [exact Hc|].
  exact (funcCodeRange_of_compiled ex_JitOptions ex_isa steps ex_g0 g 1
           Hnone Hrun Hlen Hc).
Defined.

(** The pass after function 0 is linked patches its three call sites, in
    their order. *)
Lemma pass_patches_each_pending_call_once_witness :
  let g := after (linkCompiledCode ex_isa ex_code0) ex_g0 in
  let g' := after (linkCallSites ex_JitOptions ex_isa) g in
  linkCallSites ex_JitOptions ex_isa g = Ok tt g' /\
  callSites_of g' = callSites_of g /\
  lastPatchedCallSite_ g' = 3 /\
  exists addP,
    patchedCalls_of g' = patchedCalls_of g ++ addP /\ addP.*1 = [40; 48; 56].
Proof.
  cbv zeta.
  set (g := after (linkCompiledCode ex_isa ex_code0) ex_g0).
  set (g' := after (linkCallSites ex_JitOptions ex_isa) g).
  assert (linkCallSites ex_JitOptions ex_isa g = Ok tt g') as Hrun
    by (vm_compute; reflexivity).
  assert (0 <= lastPatchedCallSite_ g <= Z.of_nat (length (callSites_of g))) as Hlast
    by (vm_compute; split; discriminate).
  assert (Z.of_nat (length (callSites_of g)) <= UINT32_MAX) as Hlen
    by (vm_compute; discriminate).
  split; [exact Hrun|].
  exact (pass_patches_each_pending_call_once ex_JitOptions ex_isa g g' Hlast Hlen Hrun).
Defined.

(** With a jump threshold of 1024 the call of function 0 to itself at 40
    is patched to its entry at 4. *)
Lemma pass_patches_direct_calls_witness :
  let options := {| jumpThreshold := 1024; wasmBatchBaselineThreshold := 10;
                    wasmBatchIonThreshold := 20 |} in
  let g := after (linkCompiledCode ex_isa ex_code0) ex_g0 in
  let g' := after (linkCallSites options ex_isa) g in
  linkCallSites options ex_isa g = Ok tt g' /\
  exists addP,
    patchedCalls_of g' = patchedCalls_of g ++ addP /\ (40, 4) ∈ addP.
Proof.
  cbv zeta.
  set (options := {| jumpThreshold := 1024; wasmBatchBaselineThreshold := 10;
                     wasmBatchIonThreshold := 20 |}).
  set (g := after (linkCompiledCode ex_isa ex_code0) ex_g0).
  set (g' := after (linkCallSites options ex_isa) g).
  assert (linkCallSites options ex_isa g = Ok tt g') as Hrun
    by (vm_compute; reflexivity).
  assert (0 <= lastPatchedCallSite_ g) as Hlast by (vm_compute; discriminate).
  assert (Z.of_nat (length (callSites_of g)) <= UINT32_MAX) as Hlen
    by (vm_compute; discriminate).
  destruct (pass_patches_direct_calls options ex_isa g g' Hlast Hlen Hrun)
    as (addP & newJ & HP & _ & Hdirect & _).
  split; [exact Hrun|]. exists addP. split; [exact HP|].
  apply (Hdirect 0%nat (ex_call 40) 0 (ex_function 0 64 4)).
  - split; [vm_compute; discriminate|]. split; reflexivity.
  - reflexivity.
  - vm_compute; reflexivity.
  - vm_compute; reflexivity.
Defined.

(** The small module: when [finishLinking] returns, the far jumps of the
    islands and of the tasks are all patched. *)
Lemma finishLinking_patches_every_far_jump_witness :
  let g := after (forEach ex_steps (runStep ex_JitOptions ex_isa)) ex_g0 in
  let g3 := after (finishLinking ex_JitOptions ex_isa false 0) g in
  finishLinking ex_JitOptions ex_isa false 0 g = Ok tt g3 /\
  oom_of g3 = false /\
  exists callPatches,
    patchedFarJumps_of g3 =
      patchedFarJumps_of g ++ callPatches ++
      ((fun far => (TrapFarJump.jump far, trapCodeOffsets_ g3 (TrapFarJump.trap far)))
         <$> trapFarJumps_ g3) ++
      ((fun j => (j, debugTrapCodeOffset_ g3)) <$> debugTrapFarJumps_ g3) /\
    Forall2 (fun far p =>
               exists cr, funcCodeRange (CallFarJump.funcIndex far) g3 = Ok cr g3 /\
                          p = (CallFarJump.jump far, CodeRange.funcNormalEntry cr))
            (callFarJumps_ g3) callPatches.
Proof.
  cbv zeta.
  set (g := after (forEach ex_steps (runStep ex_JitOptions ex_isa)) ex_g0).
  set (g3 := after (finishLinking ex_JitOptions ex_isa false 0) g).
  assert (finishLinking ex_JitOptions ex_isa false 0 g = Ok tt g3) as Hrun
    by (vm_compute; reflexivity).
  split; [exact Hrun|].
  exact (finishLinking_patches_every_far_jump ex_JitOptions ex_isa false 0 g g3 Hrun).
Defined.

Lemma ex_steps_laid_out : steps_laid_out ex_steps.
Proof.
  destruct ex_codes_in_bytes as (H0 & H1 & Hs).
  repeat constructor; done.
Qed.

(** The small module: its six stubs, two functions and three islands do
    not overlap. *)
Lemma finishMetadata_assertions_hold_witness :
  let g := after (runLinker ex_JitOptions ex_isa false 0 ex_steps) ex_g0_exports in
  runLinker ex_JitOptions ex_isa false 0 ex_steps ex_g0_exports = Ok tt g /\
  codeRangesSorted 0 (codeRanges_of g) = true /\
  debugTrapFarJumpOffsetsSorted 0 (debugTrapFarJumpOffsets_of g) = true /\
  exists r, finishMetadata ex_env2 4096 true {| globalDataLength := 20 |} g = inr r.
Proof.
  cbv zeta.
  set (g := after (runLinker ex_JitOptions ex_isa false 0 ex_steps) ex_g0_exports).
  assert (runLinker ex_JitOptions ex_isa false 0 ex_steps ex_g0_exports = Ok tt g) as Hrun
    by (vm_compute; reflexivity).
  split; [exact Hrun|].
  exact (finishMetadata_assertions_hold ex_JitOptions ex_isa ex_env2 false 0 ex_steps
           ex_g0_exports g 4096 true {| globalDataLength := 20 |}
           ex_isa_ok eq_refl eq_refl eq_refl ex_steps_laid_out Hrun).
Defined.

(** The small module, with debugging enabled: the exports of functions 0
    and 1 get the code ranges 0 and 3, and the segment [1; 0; 1] the
    indices [3; 0; 3]; [funcToCodeRange_] is moved into the metadata. *)
Lemma finishMetadata_resolves_exports_witness :
  let g := after (runLinker ex_JitOptions ex_isa false 0 ex_steps) ex_g0_exports in
  let g1 :=
    set_metadataTier_
      (MetadataTier.set_funcExports
         [FuncExport_initCodeRangeIndex 0 (FuncExport.make ex_sig 0);
          FuncExport_initCodeRangeIndex 3 (FuncExport.make ex_sig 1)]
         (metadataTier_ g)) g in
  let g' :=
    set_funcToCodeRange_ []
      (set_metadataTier_
         (MetadataTier.set_debugFuncToCodeRange [0; 3] (metadataTier_ g1)) g1) in
  runLinker ex_JitOptions ex_isa false 0 ex_steps ex_g0_exports = Ok tt g /\
  finishMetadata ex_env2 4096 true {| globalDataLength := 20 |} g
    = inr (Ok ({| globalDataLength := 4096 |}, [[3; 0; 3]]) g') /\
  codeRanges_of g' = codeRanges_of g /\
  funcToCodeRange_ g = [0; 3] /\
  funcToCodeRange_ g' = [] /\
  MetadataTier.debugFuncToCodeRange (metadataTier_ g') = [0; 3] /\
  Forall2 (fun fe fe' =>
             FuncExport.funcIndex fe' = FuncExport.funcIndex fe /\
             FuncExport.sig fe' = FuncExport.sig fe /\
             FuncExport.entryOffset fe' = FuncExport.entryOffset fe /\
             resolves g (FuncExport.funcIndex fe') (FuncExport.codeRangeIndex fe'))
          (funcExports_of g) (funcExports_of g') /\
  Forall2 (fun elems codeRangeIndices =>
             Forall2 (resolves g) (elemFuncIndices elems) codeRangeIndices)
          (env_elemSegments ex_env2) [[3; 0; 3]].
Proof.
  cbv zeta.
  set (g := after (runLinker ex_JitOptions ex_isa false 0 ex_steps) ex_g0_exports).
  set (g1 := set_metadataTier_ (MetadataTier.set_funcExports _ _) g).
  set (g' := set_funcToCodeRange_ [] _).
  assert (runLinker ex_JitOptions ex_isa false 0 ex_steps ex_g0_exports = Ok tt g) as Hrun
    by (vm_compute; reflexivity).
  assert (no_function_compiled ex_g0_exports) as Hnone by (repeat constructor).
  assert (Z.of_nat (length (codeRanges_of g)) <= UINT32_MAX) as Hlen
    by (vm_compute; discriminate).
  assert (finishMetadata ex_env2 4096 true {| globalDataLength := 20 |} g
          = inr (Ok ({| globalDataLength := 4096 |}, [[3; 0; 3]]) g')) as Hfin
    by (vm_compute; reflexivity).
  assert (funcToCodeRange_ g = [0; 3]) as Hf by (vm_compute; reflexivity).
  destruct (finishMetadata_resolves_exports ex_JitOptions ex_isa ex_env2 false 0
              ex_steps ex_g0_exports g 4096 true {| globalDataLength := 20 |}
              {| globalDataLength := 4096 |} [[3; 0; 3]] g' Hnone Hrun Hlen Hfin)
    as (Hcr & [Hmoved Hdebug] & Hexports & Hsegments).
  rewrite Hf in Hdebug.
  split; [exact Hrun|]. split; [exact Hfin|]. split; [exact Hcr|].
  split; [exact Hf|]. split; [exact Hmoved|]. split; [exact Hdebug|].
  split.
  - eapply list.Forall2_impl; [exact Hexports|]. cbn beta.
    intros fe fe' (? & ? & ? & _ & Hgood & Hres).
    repeat (split; [assumption|]). apply Hres, Hgood. reflexivity.
  - eapply list.Forall2_impl; [exact Hsegments|]. cbn beta.
    intros elems cris Hall. eapply list.Forall2_impl; [exact Hall|]. cbn beta.
    intros f i (_ & Hgood & Hres). apply Hres, Hgood. reflexivity.
Defined.

(** The small module: the entries of its two functions, for a code base of
    1000 and the begin of a function as its tier entry; and no table when
    the allocation fails. *)
Lemma createJumpTable_entries_witness :
  let g := after (runLinker ex_JitOptions ex_isa false 0 ex_steps) ex_g0 in
  runLinker ex_JitOptions ex_isa false 0 ex_steps ex_g0 = Ok tt g /\
  createJumpTable 2 CodeRange.begin Tier1 false false 1000 g = Fail g /\
  createJumpTable 2 CodeRange.begin Tier1 false true 1000 g = Ok [1000; 1096] g /\
  exists jumpTable,
    createJumpTable 2 CodeRange.begin Tier1 false true 1000 g = Ok jumpTable g /\
    length jumpTable = 2%nat /\
    forall f : nat, (f < 2)%nat ->
      exists cr,
        funcCodeRange (Z.of_nat f) g = Ok cr g /\
        jumpTable !! f = Some (1000 + CodeRange.begin cr).
Proof.
  cbv zeta.
  set (g := after (runLinker ex_JitOptions ex_isa false 0 ex_steps) ex_g0).
  assert (runLinker ex_JitOptions ex_isa false 0 ex_steps ex_g0 = Ok tt g) as Hrun
    by (vm_compute; reflexivity).
  assert (no_function_compiled ex_g0) as Hnone by (repeat constructor).
  assert (Z.of_nat (length (codeRanges_of g)) <= UINT32_MAX) as Hlen
    by (vm_compute; discriminate).
  destruct (createJumpTable_entries ex_JitOptions ex_isa 0 ex_steps ex_g0 g 2
              CodeRange.begin 1000 Hnone eq_refl eq_refl Hrun Hlen)
    as [Hnull Htable].
  split; [exact Hrun|]. split; [exact Hnull|]. split; [vm_compute; reflexivity|].
  exact Htable.
Defined.

Lemma ex_compile_every_input : compiles_every_input ex_env ex_compile ex_compile.
Proof.
  intros inputs out [= <-]. cbn.
  generalize (fun k : nat => 8 * Z.of_nat k) as b.
  assert (forall (f : nat -> FuncCompileInput -> CodeRange.t),
            (forall k x, CodeRange.kind (f k x) = CodeRange.Function /\
                         CodeRange.funcIndex (f k x) = fi_index x) ->
            Forall2 (fun input cr =>
                       CodeRange.kind cr = CodeRange.Function /\
                       CodeRange.funcIndex cr = fi_index input) inputs (imap f inputs))
    as Himap.
  { induction inputs as [|x l IH]; intros f Hf; cbn; constructor; [apply Hf|].
    apply IH. intros k y. apply Hf. }
  intros _. apply Himap. intros k x. by split.
Qed.

Lemma ex_started_batch_ok : batch_ok ex_started.
Proof.
  split; [split|split; [|split]].
  - reflexivity.
  - intros task t ->%list_elem_of_singleton. cbn. by intros [= <-].
  - apply list.NoDup_singleton.
  - intros task. cbn. discriminate.
  - reflexivity.
Qed.

(** Two tasks handed to helper threads.  When both are finished,
    [finishFuncDefs] takes two turns: it links the code of task 1, then
    the code of task 0, and both tasks are free again.  When task 0 only is
    finished, it links the code of task 0 and waits for task 1. *)
Lemma finishFuncDefs_frees_every_task_witness :
  let finishFuncDefs' :=
    finishFuncDefs ex_JitOptions ex_isa ex_env ex_compile ex_compile (fun _ => true)
      false 2 3%nat in
  let g := ex_delivered [0; 1]%nat in
  let w := ex_delivered [0]%nat in
  exists g' w',
    (parallel_ g = true /\ outstanding_ g = 2 /\ currentTask_ g = None /\
     freeTasks_ g = []) /\
    finishFuncDefs' g = Some (inr (Ok tt g')) /\
    (currentTask_ g' = None /\ outstanding_ g' = 0 /\
     Z.of_nat (length (freeTasks_ g')) = 2 /\
     Z.of_nat (length (finished (taskState_ g'))) = 0 /\
     batchedBytecode_ g' = 0) /\
    (freeTasks_ g' = [1; 0]%nat /\ funcToCodeRange_ g' = [2; 0] /\ size_of g' = 112) /\
    finishFuncDefs' w = Some (inr (Blocked w')) /\
    (parallel_ w' = true /\ 0 < outstanding_ w' /\
     ~ 0 < numFailed (taskState_ w') /\ finished (taskState_ w') = [] /\
     outstanding_ w' = 1) /\
    (freeTasks_ w' = [0%nat] /\ funcToCodeRange_ w' = [0; BAD_CODE_RANGE]).
Proof.
  cbv zeta.
  set (finishFuncDefs' :=
         finishFuncDefs ex_JitOptions ex_isa ex_env ex_compile ex_compile (fun _ => true)
           false 2 3%nat).
  set (g := ex_delivered [0; 1]%nat). set (w := ex_delivered [0]%nat).
  set (g' := match finishFuncDefs' g with
             | Some (inr (Ok _ g2)) => g2
             | _ => g
             end).
  set (w' := match finishFuncDefs' w with
             | Some (inr (Blocked w2)) => w2
             | _ => w
             end).
  assert (finishFuncDefs' g = Some (inr (Ok tt g'))) as Hrun
    by (vm_compute; reflexivity).
  assert (finishFuncDefs' w = Some (inr (Blocked w'))) as Hwait
    by (vm_compute; reflexivity).
  assert (0 <= 2 < UINT32_MAX) as Hout by (unfold UINT32_MAX; lia).
  assert (Z.to_nat 2 < 3)%nat as Hfuel by lia.
  pose proof (finishFuncDefs_frees_every_task ex_JitOptions ex_isa ex_env ex_compile
                ex_compile (fun _ => true) false 2 3%nat g Hout Hfuel) as Hg.
  pose proof (finishFuncDefs_frees_every_task ex_JitOptions ex_isa ex_env ex_compile
                ex_compile (fun _ => true) false 2 3%nat w Hout Hfuel) as Hw.
  cbv zeta in Hg, Hw.
  destruct Hg as (r & Hr & HOk & _). destruct Hw as (rw & Hrw & _ & HBl).
  assert (r = inr (Ok tt g')) as Heq.
  { assert (Some r = Some (inr (Ok tt g'))) as [= ->] by (rewrite <- Hr; exact Hrun).
    reflexivity. }
  assert (rw = inr (Blocked w')) as Heqw.
  { assert (Some rw = Some (inr (Blocked w'))) as [= ->] by (rewrite <- Hrw; exact Hwait).
    reflexivity. }
  destruct (HOk g' Heq) as (Hc & Ho & Hf & Hfin & Hb).
  destruct (HBl w' Heqw) as (Hp & Hpos & Hnf & Hnone & Hturns).
  exists g', w'.
  split; [repeat split; reflexivity|]. split; [exact Hrun|].
  split.
  { split; [exact Hc|]. split; [exact Ho|]. split; [exact Hf|].
    split; [|apply Hb; reflexivity].
    change (Z.of_nat (length (finished (taskState_ g)))) with 2 in Hfin.
    change (outstanding_ g) with 2 in Hfin.
    change (currentTask_ g) with (@None CompileTaskPtr) in Hfin.
    cbv iota in Hfin. lia. }
  split; [split; [vm_compute; reflexivity|split; vm_compute; reflexivity]|].
  split; [exact Hwait|].
  split.
  { split; [exact Hp|]. split; [exact Hpos|]. split; [exact Hnf|]. split; [exact Hnone|].
    change (Z.of_nat (length (finished (taskState_ w)))) with 1 in Hturns.
    change (outstanding_ w) with 2 in Hturns.
    change (currentTask_ w) with (@None CompileTaskPtr) in Hturns.
    cbv iota in Hturns. lia. }
  split; vm_compute; reflexivity.
Defined.

(** Three bodies of 6, 6 and 3 bytes, batched at 10 bytes: the first two
    are compiled by the batch that the second launches, the third by
    [finishFuncDefs]. *)
Lemma every_function_def_is_compiled_witness :
  let defs :=
    [ {| fi_index := 2; fi_lineOrBytecode := 0; fi_begin := 100; fi_end := 106 |};
      {| fi_index := 0; fi_lineOrBytecode := 0; fi_begin := 106; fi_end := 112 |};
      {| fi_index := 3; fi_lineOrBytecode := 0; fi_begin := 112; fi_end := 115 |} ] in
  let compileFuncDefs' :=
    compileFuncDefs ex_JitOptions ex_isa ex_env ex_compile ex_compile (fun _ => true) in
  let finishFuncDefs' :=
    finishFuncDefs ex_JitOptions ex_isa ex_env ex_compile ex_compile (fun _ => true) in
  let g1 := after (compileFuncDefs' defs) ex_started in
  exists g2,
    compileFuncDefs' defs ex_started = Ok tt g1 /\
    length (currentInputs g1) = 1%nat /\
    finishFuncDefs' false 3 1%nat g1 = Some (inr (Ok tt g2)) /\
    funcToCodeRange_ g2 = [1; BAD_CODE_RANGE; 0; 2] /\
    Forall (fun d => funcIsCompiled (fi_index d) g2 = Ok true g2) defs.
Proof.
  cbv zeta.
  set (defs := [_; _; _]).
  set (compileFuncDefs' :=
         compileFuncDefs ex_JitOptions ex_isa ex_env ex_compile ex_compile (fun _ => true)).
  set (finishFuncDefs' :=
         finishFuncDefs ex_JitOptions ex_isa ex_env ex_compile ex_compile (fun _ => true)).
  set (g1 := after (compileFuncDefs' defs) ex_started).
  set (g2 := match finishFuncDefs' false 3 1%nat g1 with
             | Some (inr (Ok _ g2)) => g2
             | _ => g1
             end).
  assert (compileFuncDefs' defs ex_started = Ok tt g1) as Hdefs by (vm_compute; reflexivity).
  assert (finishFuncDefs' false 3 1%nat g1 = Some (inr (Ok tt g2))) as Hfin
    by (vm_compute; reflexivity).
  assert (Z.of_nat (length (codeRanges_of g2)) <= UINT32_MAX) as Hlen
    by (vm_compute; discriminate).
  exists g2. split; [exact Hdefs|]. split; [vm_compute; reflexivity|].
  split; [exact Hfin|]. split; [vm_compute; reflexivity|].
  exact (every_function_def_is_compiled ex_JitOptions ex_isa ex_env ex_compile ex_compile
           (fun _ => true) false 3 defs 1%nat ex_started g1 g2
           ex_compile_every_input ex_started_batch_ok Hdefs Hfin Hlen).
Defined.

(** An I32, a constant, an F64 and a SIMD global, from a length of 6: the
    slots are at 8, 16 and 32. *)
Lemma globals_get_disjoint_slots_witness :
  let global type const offset :=
    {| GlobalDesc.type := type; GlobalDesc.isConstant := const;
       GlobalDesc.offset := offset |} in
  let globals :=
    [ global GlobalDesc.I32 false 0; global GlobalDesc.I64 true 0;
      global GlobalDesc.F64 false 0; global GlobalDesc.I32x4 false 0 ] in
  let globals' :=
    [ global GlobalDesc.I32 false 8; global GlobalDesc.I64 true 0;
      global GlobalDesc.F64 false 16; global GlobalDesc.I32x4 false 32 ] in
  allocateGlobals globals {| globalDataLength := 6 |}
    = (true, {| globalDataLength := 48 |}, globals') /\
  globalSlots globals' = [(8, 4); (16, 8); (32, 16)] /\
  slots_in_order 6 48 (globalSlots globals').
Proof.
  cbv zeta.
  set (globals := [_; _; _; _]). set (globals' := [_; _; _; _]).
  assert (is_u32 6) as Hu by (unfold is_u32, UINT32_MAX; lia).
  assert (allocateGlobals globals {| globalDataLength := 6 |}
          = (true, {| globalDataLength := 48 |}, globals')) as Hrun by reflexivity.
  split; [exact Hrun|]. split; [reflexivity|].
  exact (proj1 (proj2 (globals_get_disjoint_slots globals {| globalDataLength := 6 |}
                         {| globalDataLength := 48 |} globals' Hu Hrun))).
Defined.

(** With a jump threshold of 1024, function 0 and then function 1 are
    linked without a pass: the call of function 0 at 40 stays unpatched
    and in range of the end of function 1 at 96. *)
Lemma finishTask_keeps_calls_in_range_witness :
  let options := {| jumpThreshold := 1024; wasmBatchBaselineThreshold := 10;
                    wasmBatchIonThreshold := 20 |} in
  let task code := {| inputs := []; output := code |} in
  let g0 := set_tasks_ [task ex_code0] ex_g0 in
  let g1 := set_tasks_ [task ex_code1] (after (finishTask options ex_isa 0%nat) g0) in
  let g2 := after (finishTask options ex_isa 0%nat) g1 in
  finishTask options ex_isa 0%nat g1 = Ok tt g2 /\
  lastPatchedCallSite_ g2 = 0 /\ size_of g2 = 96 /\
  callSites_of g2 !! 0%nat = Some (ex_call 40) /\
  unpatched_inv ex_isa g2 /\
  InRange options ex_isa 40 96 = true.
Proof.
  cbv zeta.
  set (options := {| jumpThreshold := 1024; wasmBatchBaselineThreshold := 10;
                     wasmBatchIonThreshold := 20 |}).
  set (g0 := set_tasks_ [ {| inputs := []; output := ex_code0 |} ] ex_g0).
  set (g0' := after (finishTask options ex_isa 0%nat) g0).
  set (g1 := set_tasks_ [ {| inputs := []; output := ex_code1 |} ] g0').
  set (g2 := after (finishTask options ex_isa 0%nat) g1).
  destruct ex_codes_in_bytes as (Hin0 & Hin1 & _).
  assert (unpatched_inv ex_isa g0) as Hinv0.
  { split.
    - vm_compute. split; discriminate.
    - vm_compute. split; discriminate.
    - vm_compute. discriminate.
    - intros i cs _ Hi. vm_compute in Hi. by destruct i. }
  assert (finishTask options ex_isa 0%nat g0 = Ok tt g0') as Hrun0 by (vm_compute; reflexivity).
  assert (finishTask options ex_isa 0%nat g1 = Ok tt g2) as Hrun1 by (vm_compute; reflexivity).
  assert (unpatched_inv ex_isa g1) as Hinv1.
  { destruct (finishTask_keeps_calls_in_range options ex_isa 0%nat _ g0 g0'
                ex_isa_ok Hinv0 eq_refl Hin0 ltac:(vm_compute; discriminate) Hrun0)
      as [[H1 H2 H3 H4] _].
    split; [exact H1|exact H2|exact H3|exact H4]. }
  destruct (finishTask_keeps_calls_in_range options ex_isa 0%nat _ g1 g2
              ex_isa_ok Hinv1 eq_refl Hin1 ltac:(vm_compute; discriminate) Hrun1)
    as [Hinv2 Hrange].
  split; [exact Hrun1|]. split; [reflexivity|]. split; [reflexivity|].
  split; [reflexivity|]. split; [exact Hinv2|].
  apply (Hrange 0%nat (ex_call 40) 96).
  - vm_compute. discriminate.
  - vm_compute. lia.
  - reflexivity.
  - vm_compute. split; discriminate.
Defined.

(** The small module as an asm.js module with two function definitions, the
    first of index 0: the trap exit of function 0 at 56 goes to an island,
    and the far jump of the island to the stub of trap 1. *)
Lemma trap_exit_reaches_stub_witness :
  let g := after (linkCompiledCode ex_isa ex_code0) (set_numFuncDefs_ 2 ex_g0) in
  let g1 := after (linkCallSites ex_JitOptions ex_isa) g in
  let steps := [StepCode ex_code1; StepCode ex_stubs] in
  let g2 := after (forEach steps (runStep ex_JitOptions ex_isa)) g1 in
  let g3 := after (finishLinking ex_JitOptions ex_isa true 0) g2 in
  let cs := {| CallSite.returnAddressOffset := 56;
               CallSite.kind := CallSiteDesc.TrapExit |} in
  finishLinking ex_JitOptions ex_isa true 0 g2 = Ok tt g3 /\
  appendOffset ex_isa g = 64 /\
  trapCodeOffsets_ g3 1%nat = 136 /\
  reaches_trap ex_isa 64 g3 cs 1%nat.
Proof.
  cbv zeta.
  set (g := after (linkCompiledCode ex_isa ex_code0) (set_numFuncDefs_ 2 ex_g0)).
  set (g1 := after (linkCallSites ex_JitOptions ex_isa) g).
  set (steps := [StepCode ex_code1; StepCode ex_stubs]).
  set (g2 := after (forEach steps (runStep ex_JitOptions ex_isa)) g1).
  set (g3 := after (finishLinking ex_JitOptions ex_isa true 0) g2).
  set (cs := {| CallSite.returnAddressOffset := 56;
                CallSite.kind := CallSiteDesc.TrapExit |}).
  assert (linkCallSites ex_JitOptions ex_isa g = Ok tt g1) as H1 by (vm_compute; reflexivity).
  assert (forEach steps (runStep ex_JitOptions ex_isa) g1 = Ok tt g2) as H2
    by (vm_compute; reflexivity).
  assert (finishLinking ex_JitOptions ex_isa true 0 g2 = Ok tt g3) as H3
    by (vm_compute; reflexivity).
  assert (0 <= size_of g) as Hsz by (vm_compute; discriminate).
  assert (0 <= lastPatchedCallSite_ g) as Hlast by (vm_compute; discriminate).
  assert (Z.of_nat (length (callSites_of g)) <= UINT32_MAX) as Hlen
    by (vm_compute; discriminate).
  assert (pending g 2 cs (TargetTrap 1)) as Hpend.
  { split; [vm_compute; discriminate|]. split; reflexivity. }
  split; [exact H3|]. split; [reflexivity|]. split; [reflexivity|].
  exact (trap_exit_reaches_stub ex_JitOptions ex_isa true 0 steps g g1 g2 g3 2 cs 1%nat
           ex_isa_ok Hsz Hlast Hlen Hpend eq_refl H1 H2 H3).
Defined.

(** The entry stubs linked at offset 48: the export of function 0 gets the
    entry 56 and the export of function 1 the entry 48. *)
Lemma entry_offsets_recorded_witness :
  let g := after (linkCompiledCode ex_isa ex_stubs) ex_g0_exports in
  let g' := after (linkCompiledCode ex_isa ex_entries) g in
  linkCompiledCode ex_isa ex_entries g = Ok tt g' /\
  appendOffset ex_isa g = 48 /\
  (FuncExport.entryOffset <$> funcExports_of g) = [0; 0] /\
  (FuncExport.entryOffset <$> funcExports_of g') = [56; 48] /\
  exportIndices g' = [0; 1].
Proof.
  cbv zeta.
  set (g := after (linkCompiledCode ex_isa ex_stubs) ex_g0_exports).
  set (g' := after (linkCompiledCode ex_isa ex_entries) g).
  assert (linkCompiledCode ex_isa ex_entries g = Ok tt g') as Hrun
    by (vm_compute; reflexivity).
  assert (NoDup (exportIndices g)) as Hnd
    by (apply (bool_decide_unpack _); vm_compute; reflexivity).
  destruct (entry_offsets_recorded ex_isa ex_entries g g' Hnd Hrun) as (Hexp & Hidx & _).
  split; [exact Hrun|]. split; [reflexivity|]. split; [reflexivity|].
  split; [rewrite Hexp; reflexivity|]. rewrite Hidx. reflexivity.
Defined.

(** One task and no helper thread, the three bodies batched at 10 bytes:
    the bodies and [finishFuncDefs] end with the task free and reset. *)
Lemma sequential_tasks_never_assert_witness :
  let defs :=
    [ {| fi_index := 2; fi_lineOrBytecode := 0; fi_begin := 100; fi_end := 106 |};
      {| fi_index := 0; fi_lineOrBytecode := 0; fi_begin := 106; fi_end := 112 |};
      {| fi_index := 3; fi_lineOrBytecode := 0; fi_begin := 112; fi_end := 115 |} ] in
  let compileFuncDefs' :=
    compileFuncDefs ex_JitOptions ex_isa ex_env ex_compile ex_compile (fun _ => true) in
  let finishFuncDefs' :=
    finishFuncDefs ex_JitOptions ex_isa ex_env ex_compile ex_compile (fun _ => true) in
  let g0 := set_funcToCodeRange_ (replicate 4 BAD_CODE_RANGE) (ModuleGenerator_new false) in
  let g1 := after (compileFuncDefs' defs) ex_started in
  exists g2,
    startFuncDefs false 4 g0 = Ok tt ex_started /\
    compileFuncDefs' defs ex_started = Ok tt g1 /\
    currentTask_ g1 = Some 0%nat /\
    finishFuncDefs' false 3 0%nat g1 = Some (inr (Ok tt g2)) /\
    currentTask_ g2 = None /\ outstanding_ g2 = 0 /\
    (forall task : nat, (task < length (tasks_ g2))%nat -> task ∈ freeTasks_ g2) /\
    Forall (fun t => inputs t = [] /\ CompiledCode_isEmpty (output t) = true) (tasks_ g2).
Proof.
  cbv zeta.
  set (defs := [_; _; _]).
  set (compileFuncDefs' :=
         compileFuncDefs ex_JitOptions ex_isa ex_env ex_compile ex_compile (fun _ => true)).
  set (finishFuncDefs' :=
         finishFuncDefs ex_JitOptions ex_isa ex_env ex_compile ex_compile (fun _ => true)).
  set (g0 := set_funcToCodeRange_ _ _).
  set (g1 := after (compileFuncDefs' defs) ex_started).
  set (g2 := match finishFuncDefs' false 3 0%nat g1 with
             | Some (inr (Ok _ g2)) => g2
             | _ => g1
             end).
  assert (startFuncDefs false 4 g0 = Ok tt ex_started) as Hstart by (vm_compute; reflexivity).
  assert (compileFuncDefs' defs ex_started = Ok tt g1) as Hdefs by (vm_compute; reflexivity).
  assert (finishFuncDefs' false 3 0%nat g1 = Some (inr (Ok tt g2))) as Hfin
    by (vm_compute; reflexivity).
  destruct (sequential_tasks_never_assert ex_JitOptions ex_isa ex_env ex_compile ex_compile
              (fun _ => true) false 3 4 defs 0%nat g0 ex_started
              eq_refl eq_refl eq_refl eq_refl eq_refl eq_refl Hstart) as [_ Hpost].
  destruct (Hpost g1 Hdefs) as (_ & r & Hr & _ & Hend).
  assert (r = inr (Ok tt g2)) as Heq.
  { assert (Some r = Some (inr (Ok tt g2))) as [= ->] by (rewrite <- Hr; exact Hfin).
    reflexivity. }
  exists g2. split; [exact Hstart|]. split; [exact Hdefs|].
  split; [vm_compute; reflexivity|]. split; [exact Hfin|].
  exact (Hend g2 Heq).
Defined.

(** The small module with its two functions linked and one task, with
    debugging enabled: the stubs are linked at offset 128, the exports of
    functions 0 and 1 get the entries 176 and 184 and the code ranges 0 and
    3, and [funcToCodeRange_] is moved into the metadata. *)
Lemma finishCodeSegment_exports_witness :
  let finishCodeSegment' :=
    finishCodeSegment ex_JitOptions ex_isa ex_env2 ex_GenerateStubs 4096 true false 0 in
  let g :=
    set_tasks_ [ {| inputs := []; output := CompiledCode_empty |} ]
      (after (forEach [StepCode ex_code0; StepCallSites; StepCode ex_code1]
                (runStep ex_JitOptions ex_isa)) ex_g0) in
  let g' :=
    match finishCodeSegment' {| globalDataLength := 20 |} g with
    | inr (Ok _ g') => g'
    | _ => g
    end in
  finishCodeSegment' {| globalDataLength := 20 |} g
    = inr (Ok ({| globalDataLength := 4096 |}, [[3; 0; 3]]) g') /\
  appendOffset ex_isa g = 128 /\
  exportIndices g' = [0; 1] /\
  FuncExport.entryOffset <$> funcExports_of g' = [176; 184] /\
  FuncExport.codeRangeIndex <$> funcExports_of g' = [0; 3] /\
  funcToCodeRange_ g' = [] /\
  MetadataTier.debugFuncToCodeRange (metadataTier_ g') = [0; 3] /\
  exists exports stubCode,
    ex_GenerateStubs ex_env2 (MetadataTier.funcImports (metadataTier_ g)) exports
      = Some stubCode /\
    exportIndices g' = FuncExport.funcIndex <$> exports /\
    StronglySorted Z.lt (exportIndices g').
Proof.
  cbv zeta.
  set (finishCodeSegment' :=
         finishCodeSegment ex_JitOptions ex_isa ex_env2 ex_GenerateStubs 4096 true false 0).
  set (g := set_tasks_ _ _).
  set (g' := match finishCodeSegment' {| globalDataLength := 20 |} g with
             | inr (Ok _ g') => g'
             | _ => g
             end).
  assert (finishCodeSegment' {| globalDataLength := 20 |} g
          = inr (Ok ({| globalDataLength := 4096 |}, [[3; 0; 3]]) g')) as Hfin
    by (vm_compute; reflexivity).
  split; [exact Hfin|]. split; [vm_compute; reflexivity|].
  split; [vm_compute; reflexivity|]. split; [vm_compute; reflexivity|].
  split; [vm_compute; reflexivity|]. split; [vm_compute; reflexivity|].
  split; [vm_compute; reflexivity|].
  destruct (finishCodeSegment_exports ex_JitOptions ex_isa ex_env2 ex_GenerateStubs 4096
              true false 0 {| globalDataLength := 20 |} g {| globalDataLength := 4096 |} [[3; 0; 3]] g'
              Hfin)
    as (exports & stubCode & Hstubs & _ & _ & Hidx & Hsorted & _).
  exists exports, stubCode.
  split; [exact Hstubs|]. split; [exact Hidx|exact Hsorted].
Defined.
